(** * Market-data pipeline: SPSC queue, online estimators, signal rules,
      router and latency histogram.

    A shallow embedding of the C++ headers under [include/] and the
    properties their specification states about them.

    Conventions used throughout:
    - [std::size_t] and [uint64_t] are 64-bit; a value is a [Z] in
      [0, 2^64) and every increment, addition and subtraction is reduced
      modulo [2^64] where the source performs it.
    - [double] arithmetic of the estimators is modelled by exact real
      arithmetic ([R]); the latency histogram, whose inputs are integers,
      uses exact rationals ([Q]) so that it computes.  What is proved of a
      [double] result over [R] or [Q] is a statement about exact
      arithmetic: the code's binary64 result is that value rounded.
    - Where rounding, underflow or overflow decides a property, the
      accessors are modelled once more over binary64 floats (module
      [Binary64]).
    - [std::chrono::steady_clock::now()] is an oracle: a stream of readings
      consumed in program order.
    - Atomics are read and written sequentially (one thread). *)

From Stdlib Require Import Floats ZArith QArith Qround Reals Lra Lia Psatz.
From stdpp Require Import gmap strings list.

#[local] Open Scope Z_scope.

(** ** 64-bit unsigned arithmetic *)

Definition U64 : Z := 2 ^ 64.
Definition UINT64_MAX : Z := U64 - 1.

Definition wrap (z : Z) : Z := z mod U64.

Lemma U64_pos : 0 < U64.
Proof. reflexivity. Qed.

Lemma wrap_range z : 0 <= wrap z < U64.
Proof. apply Z.mod_pos_bound, U64_pos. Qed.

Lemma wrap_small z : 0 <= z < U64 -> wrap z = z.
Proof. apply Z.mod_small. Qed.

(** A positive [n] with [n & (n - 1) = 0] is a power of two. *)
Lemma pow2_of_land_pred (n : Z) :
  0 < n -> Z.land n (n - 1) = 0 -> n = 2 ^ Z.log2 n.
Proof.
  intros Hpos Hland.
  destruct (Z.log2_spec n Hpos) as [Hlo Hhi].
  destruct (Z.eq_dec n (2 ^ Z.log2 n)) as [|Hne]; [assumption|exfalso].
  assert (Hk : 0 <= Z.log2 n) by apply Z.log2_nonneg.
  assert (Hlog : Z.log2 (n - 1) = Z.log2 n).
  { apply Z.log2_unique; [assumption|].
    replace (Z.succ (Z.log2 n)) with (Z.log2 n + 1) in * by lia. lia. }
  assert (Hb1 : Z.testbit n (Z.log2 n) = true) by (apply Z.bit_log2; lia).
  assert (Hb2 : Z.testbit (n - 1) (Z.log2 n) = true).
  { rewrite <- Hlog. apply Z.bit_log2. lia. }
  pose proof (Z.land_spec n (n - 1) (Z.log2 n)) as Hs.
  rewrite Hland, Hb1, Hb2, Z.bits_0 in Hs. discriminate.
Qed.

(** ** SPSC ring buffer ([include/md/spsc_queue.hpp]) *)

Module SPSC.
Section Queue.
(** Element type, the value a default-constructed slot holds, and the
    template parameter [N] with its two [static_assert]s. *)
Context {T : Type}.
Variable dflt : T.
Variable N : Z.
Hypothesis N_pow2 : Z.land N (N - 1) = 0.
Hypothesis N_ge_2 : 2 <= N.
Hypothesis N_size_t : N < U64.

Definition MASK : Z := N - 1.

Record SPSCQueue := mkQueue {
  head_ : Z;
  tail_ : Z;
  buffer_ : list T
}.

Definition init : SPSCQueue :=
  {| head_ := 0; tail_ := 0; buffer_ := replicate (Z.to_nat N) dflt |}.

Definition slot (i : Z) : nat := Z.to_nat (Z.land i MASK).

(** [push]: both overloads have the same body up to copy versus move. *)
Definition push (q : SPSCQueue) (item : T) : bool * SPSCQueue :=
  let head := head_ q in
  let tail := tail_ q in
  let next_head := wrap (head + 1) in
  if Z.land next_head MASK =? Z.land tail MASK then (false, q)
  else (true, {| head_ := next_head;
                 tail_ := tail;
                 buffer_ := <[slot head := item]> (buffer_ q) |}).

(** [pop]: the out-parameter is returned as [Some item] on success.  The
    moved-from slot is never read again before [push] overwrites it, so
    its content is left as it is. *)
Definition pop (q : SPSCQueue) : option T * SPSCQueue :=
  let tail := tail_ q in
  let head := head_ q in
  if Z.land tail MASK =? Z.land head MASK then (None, q)
  else (Some (default dflt (buffer_ q !! slot tail)),
        {| head_ := head; tail_ := wrap (tail + 1); buffer_ := buffer_ q |}).

Definition size (q : SPSCQueue) : Z :=
  Z.land (wrap (head_ q - tail_ q)) MASK.

Definition empty (q : SPSCQueue) : bool := head_ q =? tail_ q.

Definition capacity : Z := N - 1.

(** [fill_ratio]: the quotient of two integers, kept exact. *)
Definition fill_ratio (q : SPSCQueue) : Q :=
  (inject_Z (size q) / inject_Z capacity)%Q.

(** Sequential histories. *)
Inductive op := Push (v : T) | Pop.
Inductive event := EPush (v : T) (ok : bool) | EPop (r : option T).

Definition step (q : SPSCQueue) (o : op) : event * SPSCQueue :=
  match o with
  | Push v => let '(ok, q') := push q v in (EPush v ok, q')
  | Pop => let '(r, q') := pop q in (EPop r, q')
  end.

Fixpoint run (q : SPSCQueue) (ops : list op) : list event * SPSCQueue :=
  match ops with
  | [] => ([], q)
  | o :: ops' =>
      let '(e, q1) := step q o in
      let '(es, q2) := run q1 ops' in
      (e :: es, q2)
  end.

(** Values of the successful pushes, and of the successful pops, in
    call order. *)
Fixpoint pushed (es : list event) : list T :=
  match es with
  | [] => []
  | EPush v true :: es' => v :: pushed es'
  | _ :: es' => pushed es'
  end.

Fixpoint popped (es : list event) : list T :=
  match es with
  | [] => []
  | EPop (Some v) :: es' => v :: popped es'
  | _ :: es' => popped es'
  end.

Fixpoint push_all (q : SPSCQueue) (xs : list T) : list bool * SPSCQueue :=
  match xs with
  | [] => ([], q)
  | x :: xs' =>
      let '(ok, q1) := push q x in
      let '(oks, q2) := push_all q1 xs' in
      (ok :: oks, q2)
  end.

(** *** Representation invariant: the queue holds the list [l]. *)

Record Rep (q : SPSCQueue) (l : list T) : Prop := {
  rep_head : 0 <= head_ q < U64;
  rep_tail : 0 <= tail_ q < U64;
  rep_buf : Z.of_nat (length (buffer_ q)) = N;
  rep_len : wrap (head_ q - tail_ q) = Z.of_nat (length l);
  rep_bound : Z.of_nat (length l) < N;
  rep_slots : forall i x, l !! i = Some x ->
      buffer_ q !! Z.to_nat ((tail_ q + Z.of_nat i) mod N) = Some x
}.

Lemma N_is_pow2 : N = 2 ^ Z.log2 N.
Proof using N_pow2 N_ge_2. apply pow2_of_land_pred; [lia | exact N_pow2]. Qed.

Lemma log2_N_bounds : 1 <= Z.log2 N < 64.
Proof using N_pow2 N_ge_2 N_size_t.
  split.
  - change 1 with (Z.log2 2). apply Z.log2_le_mono. lia.
  - apply Z.log2_lt_pow2; [lia | exact N_size_t].
Qed.

Lemma land_MASK z : Z.land z MASK = z mod N.
Proof using N_pow2 N_ge_2.
  pose proof N_is_pow2 as H.
  assert (Hk : 0 <= Z.log2 N) by apply Z.log2_nonneg.
  remember (Z.log2 N) as k. unfold MASK. rewrite H.
  replace (2 ^ k - 1) with (Z.ones k) by (rewrite Z.ones_equiv; lia).
  apply Z.land_ones, Hk.
Qed.

Lemma N_divides_U64 : (N | U64).
Proof using N_pow2 N_ge_2 N_size_t.
  pose proof log2_N_bounds as Hk.
  pose proof N_is_pow2 as H. remember (Z.log2 N) as k.
  exists (2 ^ (64 - k)).
  rewrite H, <- Z.pow_add_r by lia.
  unfold U64. f_equal. lia.
Qed.

Lemma wrap_mod_N z : wrap z mod N = z mod N.
Proof using N_pow2 N_ge_2 N_size_t.
  unfold wrap. apply Z.mod_mod_divide, N_divides_U64.
Qed.

Lemma init_rep : Rep init [].
Proof using N_ge_2 N_size_t.
  split; simpl; try (unfold U64; lia).
  - rewrite length_replicate. lia.
  - reflexivity.
  - intros i x Hi. discriminate.
Qed.

Lemma mod_N_offset_inj t a b :
  0 <= a < N -> 0 <= b < N -> (t + a) mod N = (t + b) mod N -> a = b.
Proof using N_ge_2.
  intros Ha Hb Heq.
  assert (Hsub : forall c, 0 <= c < N -> ((t + c) mod N - t) mod N = c).
  { intros c Hc. rewrite Zminus_mod_idemp_l.
    replace (t + c - t) with c by lia. apply Z.mod_small, Hc. }
  rewrite <- (Hsub a Ha), <- (Hsub b Hb), Heq. reflexivity.
Qed.

Lemma rep_head_mod q l :
  Rep q l -> head_ q mod N = (tail_ q + Z.of_nat (length l)) mod N.
Proof using N_pow2 N_ge_2 N_size_t.
  intros HR. rewrite <- (rep_len _ _ HR), <- Z.add_mod_idemp_r by lia.
  rewrite wrap_mod_N, Z.add_mod_idemp_r by lia.
  f_equal. lia.
Qed.

Lemma rep_slot_lt q l z : Rep q l -> (Z.to_nat (z mod N) < length (buffer_ q))%nat.
Proof using N_ge_2.
  intros HR. pose proof (rep_buf _ _ HR).
  pose proof (Z.mod_pos_bound z N). lia.
Qed.

(** [push] appends to the represented list unless [N - 1] items are held. *)
Lemma push_rep q l v :
  Rep q l ->
  if Z.of_nat (length l) + 1 <? N
  then exists q', push q v = (true, q') /\ Rep q' (l ++ [v])
  else push q v = (false, q).
Proof using N_pow2 N_ge_2 N_size_t.
  intros HR. pose proof (rep_head_mod _ _ HR) as Hh.
  destruct HR as [Hhd Htl Hbuf Hlen Hbd Hsl].
  unfold push. rewrite !land_MASK, wrap_mod_N.
  rewrite <- Z.add_mod_idemp_l, Hh, Z.add_mod_idemp_l by lia.
  destruct (Z.ltb_spec (Z.of_nat (length l) + 1) N) as [Hlt|Hge].
  - destruct (Z.eqb_spec ((tail_ q + Z.of_nat (length l) + 1) mod N) (tail_ q mod N))
      as [Heq|Hne].
    + exfalso.
      replace (tail_ q + Z.of_nat (length l) + 1)
        with (tail_ q + (Z.of_nat (length l) + 1)) in Heq by lia.
      replace (tail_ q mod N) with ((tail_ q + 0) mod N) in Heq by (f_equal; lia).
      apply mod_N_offset_inj in Heq; lia.
    + eexists. split; [reflexivity|].
      split; simpl; try assumption.
      * apply wrap_range.
      * rewrite length_insert. assumption.
      * unfold wrap in *. rewrite Zminus_mod_idemp_l.
        replace (head_ q + 1 - tail_ q) with ((head_ q - tail_ q) + 1) by lia.
        rewrite <- Z.add_mod_idemp_l, Hlen by (unfold U64; lia).
        rewrite length_app. simpl.
        rewrite Z.mod_small; unfold U64 in *; lia.
      * rewrite length_app. simpl. lia.
      * intros i x Hi. unfold slot. rewrite land_MASK, Hh.
        destruct (decide (i = length l)) as [->|Hneq].
        -- rewrite list_lookup_middle in Hi by reflexivity.
           rewrite list_lookup_insert_eq.
           ++ exact Hi.
           ++ pose proof (Z.mod_pos_bound (tail_ q + Z.of_nat (length l)) N). lia.
        -- assert (Hil : (i < length l)%nat).
           { apply lookup_lt_Some in Hi. rewrite length_app in Hi. simpl in Hi. lia. }
           rewrite lookup_app_l in Hi by exact Hil.
           rewrite list_lookup_insert_ne; [apply Hsl, Hi|].
           intros Hc. apply Z2Nat.inj in Hc;
             try (apply Z.mod_pos_bound; lia).
           apply mod_N_offset_inj in Hc; lia.
  - assert (Hfull : Z.of_nat (length l) + 1 = N) by lia.
    replace (tail_ q + Z.of_nat (length l) + 1) with (tail_ q + 1 * N) by lia.
    rewrite Z.mod_add by lia. rewrite Z.eqb_refl. reflexivity.
Qed.

(** [pop] removes the first element of the represented list. *)
Lemma pop_rep q l :
  Rep q l ->
  match l with
  | [] => pop q = (None, q)
  | x :: l' => exists q', pop q = (Some x, q') /\ Rep q' l'
  end.
Proof using N_pow2 N_ge_2 N_size_t.
  intros HR. pose proof (rep_head_mod _ _ HR) as Hh.
  destruct HR as [Hhd Htl Hbuf Hlen Hbd Hsl].
  unfold pop. rewrite !land_MASK, Hh.
  destruct l as [|x l'].
  - simpl. rewrite Z.add_0_r, Z.eqb_refl. reflexivity.
  - simpl length in *.
    destruct (Z.eqb_spec (tail_ q mod N) ((tail_ q + Z.of_nat (S (length l'))) mod N))
      as [Heq|Hne].
    + exfalso.
      replace (tail_ q mod N) with ((tail_ q + 0) mod N) in Heq by (f_equal; lia).
      apply mod_N_offset_inj in Heq; lia.
    + eexists. split.
      * unfold slot. rewrite land_MASK.
        specialize (Hsl 0%nat x eq_refl). simpl in Hsl.
        rewrite Z.add_0_r in Hsl. rewrite Hsl. reflexivity.
      * split; simpl; try assumption.
        -- apply wrap_range.
        -- unfold wrap in *. rewrite Zminus_mod_idemp_r.
           replace (head_ q - (tail_ q + 1)) with ((head_ q - tail_ q) - 1) by lia.
           rewrite <- Zminus_mod_idemp_l, Hlen.
           rewrite Z.mod_small; unfold U64 in *; lia.
        -- lia.
        -- intros i y Hi.
           specialize (Hsl (S i) y Hi).
           rewrite <- Z.add_mod_idemp_l by lia.
           rewrite wrap_mod_N, Z.add_mod_idemp_l by lia.
           replace (tail_ q + 1 + Z.of_nat i) with (tail_ q + Z.of_nat (S i)) by lia.
           exact Hsl.
Qed.

Lemma rep_empty q l : Rep q l -> (empty q = true <-> l = []).
Proof using N_ge_2.
intros [Hhd Htl _ Hlen _ _]. unfold empty. split.
- intros He. apply Z.eqb_eq in He. rewrite He, Z.sub_diag in Hlen.
  change (wrap 0) with 0 in Hlen. destruct l; [reflexivity | simpl in Hlen; lia].
- intros ->. simpl in Hlen. apply Z.eqb_eq.
  unfold wrap in Hlen.
  destruct (Z.le_gt_cases (tail_ q) (head_ q)) as [Hle|Hgt].
  + rewrite Z.mod_small in Hlen by lia. lia.
  + replace (head_ q - tail_ q) with (head_ q - tail_ q + U64 + (-1) * U64) in Hlen by lia.
    rewrite Z.mod_add in Hlen by (pose proof U64_pos; lia).
    rewrite Z.mod_small in Hlen by lia. lia.
Qed.

Lemma rep_size q l : Rep q l -> size q = Z.of_nat (length l).
Proof using N_pow2 N_ge_2.
intros HR. unfold size. rewrite land_MASK, (rep_len _ _ HR).
apply Z.mod_small. pose proof (rep_bound _ _ HR). lia.
Qed.

(** Simulation: a history run from a queue holding [l] leaves a queue
  holding [l'], where the old content followed by the accepted pushes is
  the delivered pops followed by [l']. *)
Lemma run_rep ops : forall q l es q',
Rep q l -> run q ops = (es, q') ->
exists l', Rep q' l' /\ l ++ pushed es = popped es ++ l'.
Proof using N_pow2 N_ge_2 N_size_t.
induction ops as [|o ops IH]; intros q l es q' HR Hrun; simpl in Hrun.
- inversion Hrun; subst. exists l. split; [assumption|].
  simpl. apply app_nil_r.
- destruct (step q o) as [e q1] eqn:Hstep.
  destruct (run q1 ops) as [es1 q2] eqn:Hrun1.
  inversion Hrun; subst; clear Hrun.
  destruct o as [v|]; simpl in Hstep.
  + pose proof (push_rep q l v HR) as Hp.
    destruct (Z.of_nat (length l) + 1 <? N).
    * destruct Hp as (qp & Hpush & HRp). rewrite Hpush in Hstep.
      inversion Hstep; subst; clear Hstep.
      destruct (IH _ _ _ _ HRp Hrun1) as (l' & HR' & Heq).
      exists l'. split; [assumption|]. simpl.
      rewrite <- Heq, <- app_assoc. reflexivity.
    * rewrite Hp in Hstep. inversion Hstep; subst; clear Hstep.
      destruct (IH _ _ _ _ HR Hrun1) as (l' & HR' & Heq).
      exists l'. split; assumption.
  + pose proof (pop_rep q l HR) as Hp.
    destruct l as [|x l0].
    * rewrite Hp in Hstep. inversion Hstep; subst; clear Hstep.
      destruct (IH _ _ _ _ HR Hrun1) as (l' & HR' & Heq).
      exists l'. split; assumption.
    * destruct Hp as (qp & Hpop & HRp). rewrite Hpop in Hstep.
      inversion Hstep; subst; clear Hstep.
      destruct (IH _ _ _ _ HRp Hrun1) as (l' & HR' & Heq).
      exists l'. split; [assumption|]. simpl. rewrite Heq. reflexivity.
Qed.

Lemma push_all_rep xs : forall q l,
Rep q l -> Z.of_nat (length l) + Z.of_nat (length xs) < N ->
exists q', push_all q xs = (replicate (length xs) true, q') /\ Rep q' (l ++ xs).
Proof using N_pow2 N_ge_2 N_size_t.
induction xs as [|x xs IH]; intros q l HR Hlen; simpl.
- exists q. rewrite app_nil_r. split; [reflexivity | assumption].
- simpl in Hlen. pose proof (push_rep q l x HR) as Hp.
  destruct (Z.ltb_spec (Z.of_nat (length l) + 1) N) as [_|Hge]; [|lia].
  destruct Hp as (q1 & Hpush & HR1). rewrite Hpush.
  destruct (IH q1 (l ++ [x]) HR1) as (q2 & Hall & HR2).
  { rewrite length_app. simpl. lia. }
  rewrite Hall. exists q2. split; [reflexivity|].
  rewrite <- app_assoc in HR2. exact HR2.
Qed.

(** C1. Sequential FIFO order: in every history of push and pop calls on a
  fresh queue the values delivered by the successful pops are a prefix of
  the values accepted by the successful pushes, in push order (so nothing
  is duplicated, skipped or reordered); the next pop delivers exactly the
  oldest accepted value that has not been popped yet; and once every
  accepted value has been popped the queue is empty. *)
Theorem spsc_fifo_order (ops : list op) (es : list event) (q : SPSCQueue) :
run init ops = (es, q) ->
exists pending : list T,
  pushed es = popped es ++ pending /\
  fst (pop q) = head pending /\
  size q = Z.of_nat (length pending) /\
  (empty q = true <-> pending = []) /\
  (popped es = pushed es ->
     empty q = true /\ size q = 0 /\ pop q = (None, q)).
Proof using N_pow2 N_ge_2 N_size_t.
intros Hrun.
destruct (run_rep ops init [] es q init_rep Hrun) as (pending & HR & Heq).
simpl in Heq. exists pending.
pose proof (pop_rep q pending HR) as Hpop.
pose proof (rep_empty q pending HR) as Hemp.
pose proof (rep_size q pending HR) as Hsz.
repeat split; try assumption; try (apply Hemp; assumption).
- destruct pending as [|x rest]; [rewrite Hpop; reflexivity|].
  destruct Hpop as (q' & -> & _). reflexivity.
- apply Hemp. rewrite H in Heq.
  rewrite <- (app_nil_r (pushed es)) in Heq at 1.
  apply app_inv_head in Heq. congruence.
- rewrite H in Heq. rewrite <- (app_nil_r (pushed es)) in Heq at 1.
  apply app_inv_head in Heq. subst pending. exact Hsz.
- rewrite H in Heq. rewrite <- (app_nil_r (pushed es)) in Heq at 1.
  apply app_inv_head in Heq. subst pending. exact Hpop.
Qed.

(** C2. Capacity: on a fresh queue of size [N] the first [N - 1] pushes all
  return true, the [N]-th returns false and leaves the queue as it was,
  and [capacity()] is [N - 1]. *)
Theorem spsc_capacity (xs : list T) (x : T) :
Z.of_nat (length xs) = N - 1 ->
exists q,
  push_all init xs = (replicate (length xs) true, q) /\
  push q x = (false, q) /\
  capacity = N - 1.
Proof using N_pow2 N_ge_2 N_size_t.
intros Hlen.
destruct (push_all_rep xs init [] init_rep) as (q & Hall & HR).
{ simpl. lia. }
exists q. split; [exact Hall|]. split; [|reflexivity].
simpl in HR. pose proof (push_rep q xs x HR) as Hp.
destruct (Z.ltb_spec (Z.of_nat (length xs) + 1) N); [lia | exact Hp].
Qed.


(** X1. Occupancy: after any sequential history on a fresh queue, [size()]
    is the number of accepted pushes minus the number of successful pops,
    it lies between 0 and [capacity()], and [fill_ratio()] lies in
    [[0, 1]]. *)
Theorem spsc_size_accounting (ops : list op) (es : list event) (q : SPSCQueue) :
  run init ops = (es, q) ->
  size q = Z.of_nat (length (pushed es)) - Z.of_nat (length (popped es)) /\
  0 <= size q <= capacity /\
  (0 <= fill_ratio q)%Q /\ (fill_ratio q <= 1)%Q.
Proof using N_pow2 N_ge_2 N_size_t.
  intros Hrun.
  destruct (run_rep ops init [] es q init_rep Hrun) as (pending & HR & Heq).
  cbn [app] in Heq.
  pose proof (rep_size q pending HR) as Hsz.
  pose proof (rep_bound q pending HR) as Hb.
  assert (Hrange : 0 <= size q <= capacity) by (unfold capacity; lia).
  split; [|split; [exact Hrange|]].
  - rewrite Hsz, Heq, length_app. lia.
  - assert (Hcap : (0 < inject_Z capacity)%Q).
    { change (inject_Z 0 < inject_Z capacity)%Q. rewrite <- Zlt_Qlt.
      unfold capacity. lia. }
    unfold fill_ratio. split.
    + apply Qle_shift_div_l; [exact Hcap|]. rewrite Qmult_0_l.
      change (inject_Z 0 <= inject_Z (size q))%Q. rewrite <- Zle_Qle. lia.
    + apply Qle_shift_div_r; [exact Hcap|]. rewrite Qmult_1_l, <- Zle_Qle. lia.
Qed.

(** X2. Guards: in any state reached by a sequential history, [push]
    succeeds exactly when [size() < capacity()], [pop] succeeds exactly
    when the queue is not [empty()], [empty()] holds exactly when
    [size() = 0], and the failing call leaves the queue as it was. *)
Theorem spsc_guards (ops : list op) (es : list event) (q : SPSCQueue) (v : T) :
  run init ops = (es, q) ->
  (fst (push q v) = true <-> size q < capacity) /\
  (is_Some (fst (pop q)) <-> empty q = false) /\
  (empty q = true <-> size q = 0) /\
  (fst (push q v) = false -> snd (push q v) = q) /\
  (fst (pop q) = None -> snd (pop q) = q).
Proof using N_pow2 N_ge_2 N_size_t.
  intros Hrun.
  destruct (run_rep ops init [] es q init_rep Hrun) as (pending & HR & _).
  pose proof (rep_size q pending HR) as Hsz.
  pose proof (rep_bound q pending HR) as Hb.
  pose proof (rep_empty q pending HR) as Hemp.
  pose proof (push_rep q pending v HR) as Hpush.
  pose proof (pop_rep q pending HR) as Hpop.
  split_and!.
  - unfold capacity. rewrite Hsz.
    destruct (Z.ltb_spec (Z.of_nat (length pending) + 1) N).
    + destruct Hpush as (q' & -> & _). cbn. split; [lia | reflexivity].
    + rewrite Hpush. cbn. split; [discriminate | lia].
  - destruct pending as [|x rest].
    + rewrite Hpop. cbn. split.
      * intros [y Hy]. discriminate.
      * intros He. destruct Hemp as [_ He']. rewrite He' in He by reflexivity.
        discriminate.
    + destruct Hpop as (q' & -> & _). cbn. split; [|eauto].
      intros _. destruct (empty q) eqn:He; [|reflexivity].
      destruct Hemp as [He' _]. specialize (He' eq_refl). discriminate.
  - rewrite Hsz. rewrite Hemp. destruct pending; cbn [length]; split; intros; try lia;
      try reflexivity; try discriminate.
  - destruct (Z.of_nat (length pending) + 1 <? N).
    + destruct Hpush as (q' & -> & _). cbn. discriminate.
    + rewrite Hpush. reflexivity.
  - destruct pending as [|x rest].
    + rewrite Hpop. reflexivity.
    + destruct Hpop as (q' & -> & _). cbn. discriminate.
Qed.

End Queue.

(** Instances on a 4-slot and an 8-slot queue of integers. *)
Lemma spsc_fifo_order_witness :
  let ops : list (@op Z) :=
    [Push 10; Push 20; Pop; Push 30; Push 40; Push 50; Pop; Pop; Pop; Pop;
     Push 60; Pop] in
  let es := fst (run 0 4 (init 0 4) ops) in
  let q := snd (run 0 4 (init 0 4) ops) in
  exists pending : list Z,
    pushed es = popped es ++ pending /\
    fst (pop 0 4 q) = head pending /\
    size 4 q = Z.of_nat (length pending) /\
    (empty q = true <-> pending = []) /\
    (popped es = pushed es ->
     empty q = true /\ size 4 q = 0 /\ pop 0 4 q = (None, q)).
Proof.
  intros ops es q.
  apply (spsc_fifo_order 0 4 eq_refl ltac:(lia) eq_refl ops).
  reflexivity.
Defined.

Lemma spsc_capacity_witness :
  exists q,
    push_all 8 (init 0 8) [1; 2; 3; 4; 5; 6; 7] = (replicate 7 true, q) /\
    push 8 q 999 = (false, q) /\
    capacity 8 = 8 - 1.
Proof.
  apply (spsc_capacity 0 8 eq_refl ltac:(lia) eq_refl [1; 2; 3; 4; 5; 6; 7] 999).
  reflexivity.
Defined.

(** The draining scenario of the queue test: seven pushes into an 8-slot
    queue succeed, the eighth fails, seven pops deliver the values in
    order, and the queue is empty. *)
Example spsc_draining_scenario :
  let ops : list (@op Z) :=
    [Push 0; Push 1; Push 2; Push 3; Push 4; Push 5; Push 6; Push 999;
     Pop; Pop; Pop; Pop; Pop; Pop; Pop; Pop] in
  let es := fst (run 0 8 (init 0 8) ops) in
  let q := snd (run 0 8 (init 0 8) ops) in
  pushed es = [0; 1; 2; 3; 4; 5; 6] /\
  popped es = [0; 1; 2; 3; 4; 5; 6] /\
  last es = Some (EPop None) /\
  empty q = true /\ size 8 q = 0.
Proof. vm_compute. repeat split; reflexivity. Qed.

Lemma spsc_size_accounting_witness :
  let ops : list (@op Z) := [Push 10; Push 20; Pop; Push 30; Push 40; Push 50] in
  let es := fst (run 0 4 (init 0 4) ops) in
  let q := snd (run 0 4 (init 0 4) ops) in
  size 4 q = Z.of_nat (length (pushed es)) - Z.of_nat (length (popped es)) /\
  0 <= size 4 q <= capacity 4 /\
  (0 <= fill_ratio 4 q)%Q /\ (fill_ratio 4 q <= 1)%Q.
Proof.
  intros ops es q.
  apply (spsc_size_accounting 0 4 eq_refl ltac:(lia) eq_refl ops).
  reflexivity.
Defined.

Lemma spsc_guards_witness :
  let ops : list (@op Z) := [Push 10; Push 20; Pop; Push 30; Push 40; Push 50] in
  let q := snd (run 0 4 (init 0 4) ops) in
  (fst (push 4 q 7) = true <-> size 4 q < capacity 4) /\
  (is_Some (fst (pop 0 4 q)) <-> empty q = false) /\
  (empty q = true <-> size 4 q = 0) /\
  (fst (push 4 q 7) = false -> snd (push 4 q 7) = q) /\
  (fst (pop 0 4 q) = None -> snd (pop 0 4 q) = q).
Proof.
  intros ops q.
  apply (spsc_guards 0 4 eq_refl ltac:(lia) eq_refl ops
           (fst (run 0 4 (init 0 4) ops))).
  reflexivity.
Defined.

End SPSC.

(** ** Real-number comparisons as booleans

    [double] comparisons of the source, under exact arithmetic. *)

Definition Rltb (x y : R) : bool := if Rlt_dec x y then true else false.
Definition Rleb (x y : R) : bool := if Rle_dec x y then true else false.
Definition Reqb (x y : R) : bool := if Req_dec_T x y then true else false.

Lemma Rltb_spec x y : reflect (x < y)%R (Rltb x y).
Proof. unfold Rltb. destruct (Rlt_dec x y); constructor; assumption. Qed.

Lemma Rleb_spec x y : reflect (x <= y)%R (Rleb x y).
Proof. unfold Rleb. destruct (Rle_dec x y); constructor; assumption. Qed.

Lemma Reqb_spec x y : reflect (x = y) (Reqb x y).
Proof. unfold Reqb. destruct (Req_dec_T x y); constructor; assumption. Qed.

(** ** Welford estimator ([include/stats/rolling_stats.hpp]) *)

Module RollingStats.
#[local] Open Scope R_scope.

Record t := mk {
  mean_ : R;
  m2_ : R;
  count_ : Z
}.

Definition init : t := {| mean_ := 0; m2_ := 0; count_ := 0 |}.

Definition add (s : t) (value : R) : t :=
  let count := wrap (count_ s + 1) in
  let delta := value - mean_ s in
  let mean := mean_ s + delta / IZR count in
  let delta2 := value - mean in
  {| mean_ := mean; m2_ := m2_ s + delta * delta2; count_ := count |}.

Definition reset (s : t) : t := init.

Definition mean (s : t) : R := mean_ s.
Definition count (s : t) : Z := count_ s.

Definition variance (s : t) : R :=
  if (1 <? count_ s)%Z then m2_ s / IZR (wrap (count_ s - 1)) else 0.

Definition population_variance (s : t) : R :=
  if (0 <? count_ s)%Z then m2_ s / IZR (count_ s) else 0.

Definition std_dev (s : t) : R := sqrt (variance s).

Definition population_std_dev (s : t) : R := sqrt (population_variance s).

Definition cv (s : t) : R :=
  if negb (Reqb (mean_ s) 0) then std_dev s / Rabs (mean_ s) else 0.

Definition z_score (s : t) (value : R) : R :=
  let sd := std_dev s in
  if Rltb 0 sd then (value - mean_ s) / sd else 0.

Definition add_all (s : t) (xs : list R) : t := fold_left add xs s.

(** Reference quantities of the direct formulas. *)
Fixpoint sum (xs : list R) : R :=
  match xs with
  | [] => 0
  | x :: xs' => x + sum xs'
  end.

Fixpoint sum_sq_dev (m : R) (xs : list R) : R :=
  match xs with
  | [] => 0
  | x :: xs' => (x - m) * (x - m) + sum_sq_dev m xs'
  end.

Fixpoint sum_sq (xs : list R) : R :=
  match xs with
  | [] => 0
  | x :: xs' => x * x + sum_sq xs'
  end.

Lemma sum_app xs ys : sum (xs ++ ys) = sum xs + sum ys.
Proof. induction xs as [|x xs IH]; simpl; [lra | rewrite IH; lra]. Qed.

Lemma sum_sq_app xs ys : sum_sq (xs ++ ys) = sum_sq xs + sum_sq ys.
Proof. induction xs as [|x xs IH]; simpl; [lra | rewrite IH; lra]. Qed.

Lemma sum_sq_dev_expand m xs :
  sum_sq_dev m xs = sum_sq xs - 2 * m * sum xs + INR (length xs) * m * m.
Proof.
  induction xs as [|x xs IH].
  - simpl. lra.
  - cbn [sum_sq_dev sum_sq sum length]. rewrite IH, S_INR. lra.
Qed.

Lemma add_all_snoc s xs x : add_all s (xs ++ [x]) = add (add_all s xs) x.
Proof. unfold add_all. rewrite fold_left_app. reflexivity. Qed.

Lemma count_add s x : count_ (add s x) = wrap (count_ s + 1).
Proof. reflexivity. Qed.

Lemma count_add_all xs : forall s,
  (0 <= count_ s < U64)%Z ->
  count_ (add_all s xs) = wrap (count_ s + Z.of_nat (length xs)).
Proof.
  induction xs as [|x xs IH]; intros s Hs.
  - simpl. rewrite Z.add_0_r, wrap_small by exact Hs. reflexivity.
  - change (add_all s (x :: xs)) with (add_all (add s x) xs).
    rewrite IH by (rewrite count_add; apply wrap_range).
    rewrite count_add. unfold wrap. rewrite Zplus_mod_idemp_l.
    f_equal. cbn [length]. lia.
Qed.

(** The accumulators after [xs], for a length the counter can hold. *)
Lemma welford_invariant xs :
  (Z.of_nat (length xs) < U64)%Z ->
  count_ (add_all init xs) = Z.of_nat (length xs) /\
  mean_ (add_all init xs) * INR (length xs) = sum xs /\
  m2_ (add_all init xs) =
    sum_sq xs - INR (length xs) * mean_ (add_all init xs) * mean_ (add_all init xs).
Proof.
  induction xs as [|x xs IH] using rev_ind; intros Hlen.
  - simpl. repeat split; lra.
  - rewrite length_app in *. cbn [length] in *.
    destruct IH as (Hc & Hm & Hv); [lia|].
    rewrite add_all_snoc. set (s := add_all init xs) in *.
    assert (Hcnt : wrap (count_ s + 1) = Z.of_nat (length xs + 1)).
    { rewrite Hc, wrap_small; lia. }
    assert (Hn : IZR (wrap (count_ s + 1)) = INR (length xs) + 1).
    { rewrite Hcnt, <- INR_IZR_INZ, Nat.add_1_r, S_INR. reflexivity. }
    assert (Hpos : INR (length xs) + 1 <> 0).
    { pose proof (pos_INR (length xs)). lra. }
    unfold add. cbn [count_ mean_ m2_]. rewrite Hn, Nat.add_1_r, S_INR.
    rewrite sum_app, sum_sq_app. cbn [sum sum_sq].
    split; [rewrite Hcnt; f_equal; lia|]. split.
    + rewrite <- Hm. field. exact Hpos.
    + rewrite Hv. field. exact Hpos.
Qed.

(** C3. Welford correctness under exact arithmetic: after adding
    [x1 .. xn] (n within the range of the [size_t] counter) [mean()] is
    [(x1 + .. + xn) / n], [variance()] is the sample variance
    [sum (xi - mean)^2 / (n - 1)] when [n > 1], and [variance()] is 0 when
    [n <= 1]. *)
Theorem welford_mean_variance (xs : list R) :
  (Z.of_nat (length xs) < U64)%Z ->
  let s := add_all init xs in
  let n := INR (length xs) in
  (xs <> [] -> mean s = sum xs / n) /\
  ((1 < length xs)%nat -> variance s = sum_sq_dev (sum xs / n) xs / (n - 1)) /\
  ((length xs <= 1)%nat -> variance s = 0).
Proof.
  intros Hlen s n.
  destruct (welford_invariant xs Hlen) as (Hc & Hm & Hv).
  fold s in Hc, Hm, Hv. fold n in Hm, Hv.
  assert (Hmean : xs <> [] -> mean s = sum xs / n).
  { intros Hne. unfold mean. rewrite <- Hm. field.
    unfold n. apply not_0_INR. destruct xs; [congruence | discriminate]. }
  split; [exact Hmean|]. split.
  - intros Hgt. unfold variance. rewrite Hc.
    destruct (Z.ltb_spec 1 (Z.of_nat (length xs))) as [_|]; [|lia].
    rewrite wrap_small by lia.
    rewrite minus_IZR, <- INR_IZR_INZ. fold n.
    rewrite <- Hmean by (destruct xs; [simpl in Hgt; lia | discriminate]).
    rewrite sum_sq_dev_expand. fold n. unfold mean. rewrite Hv, <- Hm.
    f_equal. ring.
  - intros Hle. unfold variance. rewrite Hc.
    destruct (Z.ltb_spec 1 (Z.of_nat (length xs))); [lia | reflexivity].
Qed.

Lemma welford_mean_variance_witness :
  let xs := [2; 4; 4; 6] in
  let s := add_all init xs in
  let n := INR (length xs) in
  (xs <> [] -> mean s = sum xs / n) /\
  ((1 < length xs)%nat -> variance s = sum_sq_dev (sum xs / n) xs / (n - 1)) /\
  ((length xs <= 1)%nat -> variance s = 0).
Proof.
  apply (welford_mean_variance [2; 4; 4; 6]). reflexivity.
Defined.

Lemma sum_sq_dev_nonneg m xs : 0 <= sum_sq_dev m xs.
Proof.
  induction xs as [|x xs IH]; simpl; [lra|].
  pose proof (Rle_0_sqr (x - m)) as H. unfold Rsqr in H. lra.
Qed.

Lemma sum_sq_dev_zero m xs : sum_sq_dev m xs = 0 <-> Forall (fun x => x = m) xs.
Proof.
  induction xs as [|x xs IH]; simpl.
  - split; [constructor | reflexivity].
  - pose proof (sum_sq_dev_nonneg m xs) as Hxs.
    pose proof (Rle_0_sqr (x - m)) as Hx. unfold Rsqr in Hx.
    split.
    + intros H. assert (Hsq : (x - m) * (x - m) = 0) by lra.
      apply Rmult_integral in Hsq.
      constructor; [destruct Hsq; lra | apply IH; lra].
    + intros H. inversion H as [|? ? Hm Hrest]; subst.
      apply IH in Hrest. rewrite Hrest. lra.
Qed.

(** [m2_] is the sum of squared deviations from the current mean. *)
Lemma m2_sum_sq_dev xs :
  (Z.of_nat (length xs) < U64)%Z ->
  m2_ (add_all init xs) = sum_sq_dev (mean_ (add_all init xs)) xs.
Proof.
  intros Hlen. destruct (welford_invariant xs Hlen) as (_ & Hm & Hv).
  rewrite sum_sq_dev_expand, Hv, <- Hm. ring.
Qed.

Lemma m2_nonneg xs :
  (Z.of_nat (length xs) < U64)%Z -> 0 <= m2_ (add_all init xs).
Proof. intros Hlen. rewrite m2_sum_sq_dev by exact Hlen. apply sum_sq_dev_nonneg. Qed.

(** X3. The sample variance is never negative, never below the population
    variance, and it is zero exactly when all observations are equal
    (to the mean). *)
Theorem variance_zero_iff_constant (xs : list R) :
  (Z.of_nat (length xs) < U64)%Z ->
  let s := add_all init xs in
  0 <= population_variance s <= variance s /\
  (variance s = 0 <-> Forall (fun x => x = mean s) xs).
Proof.
  intros Hlen s.
  destruct (welford_invariant xs Hlen) as (Hc & Hm & _).
  pose proof (m2_nonneg xs Hlen) as Hnn.
  pose proof (m2_sum_sq_dev xs Hlen) as Hssd.
  fold s in Hc, Hm, Hnn, Hssd.
  unfold variance, population_variance, mean. rewrite Hc.
  destruct (Z.ltb_spec 1 (Z.of_nat (length xs))) as [Hgt|Hle].
  - destruct (Z.ltb_spec 0 (Z.of_nat (length xs))) as [_|]; [|lia].
    rewrite wrap_small by lia.
    assert (Hn1 : 0 < IZR (Z.of_nat (length xs) - 1)) by (apply IZR_lt; lia).
    assert (Hn : IZR (Z.of_nat (length xs)) = IZR (Z.of_nat (length xs) - 1) + 1).
    { rewrite minus_IZR. lra. }
    set (k := IZR (Z.of_nat (length xs) - 1)) in *. rewrite Hn.
    split.
    + split.
      * apply Rmult_le_pos; [exact Hnn|]. left. apply Rinv_0_lt_compat. lra.
      * unfold Rdiv. apply Rmult_le_compat_l; [exact Hnn|].
        apply Rinv_le_contravar; lra.
    + rewrite <- sum_sq_dev_zero, <- Hssd. split.
      * intros H. apply (Rmult_eq_compat_r k) in H.
        unfold Rdiv in H. rewrite Rmult_assoc, Rinv_l, Rmult_1_r, Rmult_0_l in H by lra.
        exact H.
      * intros ->. unfold Rdiv. ring.
  - split.
    + destruct (Z.ltb_spec 0 (Z.of_nat (length xs))) as [Hpos|_]; [|lra].
      assert (Hone : Z.of_nat (length xs) = 1%Z) by lia.
      rewrite Hone. destruct xs as [|x [|y xs]]; cbn [length] in Hone; try lia.
      subst s. cbn. change (wrap (0 + 1)) with 1%Z.
      replace ((0 + (x - 0) * (x - (0 + (x - 0) / 1))) / 1) with 0 by field. lra.
    + split; [intros _ | reflexivity].
      destruct xs as [|x [|y xs]]; cbn [length] in Hle; try lia.
      * constructor.
      * constructor; [|constructor]. subst s. cbn.
        change (wrap (0 + 1)) with 1%Z. field.
Qed.

Lemma variance_zero_iff_constant_witness :
  let xs := [2; 4; 4; 6] in
  let s := add_all init xs in
  0 <= population_variance s <= variance s /\
  (variance s = 0 <-> Forall (fun x => x = mean s) xs).
Proof.
  apply (variance_zero_iff_constant [2; 4; 4; 6]). reflexivity.
Defined.

(** The last observation is part of the statistics it is scored
    against, which bounds its z-score: with [n] observations,
    [z^2 * n <= (n - 1)^2]. *)
Lemma z_score_last_bound (xs : list R) (x : R) :
  (Z.of_nat (length xs) + 1 < U64)%Z ->
  let s := add_all init (xs ++ [x]) in
  let n := INR (length xs) + 1 in
  count_ s = (Z.of_nat (length xs) + 1)%Z /\
  z_score s x * z_score s x * n <= (n - 1) * (n - 1).
Proof.
  intros Hlen s n.
  destruct (welford_invariant xs ltac:(lia)) as (Hc & _ & _).
  pose proof (m2_nonneg xs ltac:(lia)) as Hm2.
  pose proof (pos_INR (length xs)) as Hk.
  unfold s. rewrite add_all_snoc. set (s0 := add_all init xs) in *.
  assert (Hw : wrap (count_ s0 + 1) = (Z.of_nat (length xs) + 1)%Z).
  { rewrite Hc. apply wrap_small. lia. }
  assert (Hn : IZR (wrap (count_ s0 + 1)) = n).
  { rewrite Hw, plus_IZR, <- INR_IZR_INZ. reflexivity. }
  split; [rewrite count_add; exact Hw|].
  set (k := INR (length xs)) in *.
  assert (Hnk : n = k + 1) by reflexivity.
  unfold z_score, std_dev, variance. cbn zeta. rewrite count_add, Hw.
  destruct (Z.ltb_spec 1 (Z.of_nat (length xs) + 1)) as [Hgt|Hle].
  - replace (Z.of_nat (length xs) + 1 - 1)%Z with (Z.of_nat (length xs)) by lia.
    rewrite wrap_small by lia. rewrite <- INR_IZR_INZ. fold k.
    assert (Hk1 : 1 <= k).
    { unfold k. replace 1 with (INR 1) by reflexivity. apply le_INR. lia. }
    unfold add. cbn [mean_ m2_ count_]. rewrite Hn.
    set (d := x - mean_ s0).
    set (D := x - (mean_ s0 + d / n)).
    assert (HD : D = d * (k / n)) by (unfold D, d; rewrite Hnk; field; lra).
    set (V := (m2_ s0 + d * D) / k).
    destruct (Rltb_spec 0 (sqrt V)) as [Hsd|Hsd]; [|nra].
    assert (HV : 0 < V).
    { destruct (Rle_lt_dec V 0) as [Hneg|]; [|assumption].
      rewrite sqrt_neg_0 in Hsd by exact Hneg. lra. }
    assert (Hsq : sqrt V * sqrt V = V) by (apply sqrt_sqrt; lra).
    set (r := sqrt V) in *.
    assert (Hbound : D * D * n <= (n - 1) * (n - 1) * V).
    { replace (n - 1) with k by lra.
      assert (HkV : k * V = m2_ s0 + d * D) by (unfold V; field; lra).
      replace (k * k * V) with (k * (k * V)) by ring. rewrite HkV.
      assert (HdD : d * D * k = D * D * n) by (rewrite HD, Hnk; field; lra).
      nra. }
    replace (D / r * (D / r) * n) with (D * D * n / (r * r)) by (field; lra).
    rewrite Hsq.
    apply (Rmult_le_reg_r V); [exact HV|].
    unfold Rdiv. rewrite Rmult_assoc, Rinv_l by lra. lra.
  - rewrite sqrt_0. destruct (Rltb_spec 0 0) as [|_]; [lra|].
    replace (n - 1) with k by lra. nra.
Qed.

(** A stream of equal values: the mean is that value and nothing else
    is accumulated. *)
Record Flat (c : R) (s : t) : Prop := {
  flat_m2 : m2_ s = 0;
  flat_mean : mean_ s = c \/ (mean_ s = 0 /\ count_ s = 0%Z)
}.

Lemma flat_add c s : Flat c s -> Flat c (add s c).
Proof.
  intros [Hm2 Hmean]. constructor; unfold add; cbn [mean_ m2_ count_].
  - destruct Hmean as [->|[-> ->]].
    + rewrite Hm2. unfold Rdiv. ring.
    + rewrite Hm2. change (wrap (0 + 1)) with 1%Z. field.
  - left. destruct Hmean as [->|[-> ->]].
    + unfold Rdiv. ring.
    + change (wrap (0 + 1)) with 1%Z. field.
Qed.

Lemma flat_add_all c xs : forall s,
  Forall (fun x => x = c) xs -> Flat c s -> Flat c (add_all s xs).
Proof.
  induction xs as [|x xs IH]; intros s Hxs Hs; [exact Hs|].
  inversion Hxs as [|? ? Hx Hrest]; subst.
  change (add_all s (c :: xs)) with (add_all (add s c) xs).
  apply IH; [exact Hrest | apply flat_add; exact Hs].
Qed.

Lemma flat_z_score c s v : Flat c s -> z_score s v = 0.
Proof.
  intros [Hm2 _]. unfold z_score, std_dev, variance. cbn zeta. rewrite Hm2.
  assert (Hv : (if (1 <? count_ s)%Z then 0 / IZR (wrap (count_ s - 1)) else 0) = 0).
  { destruct (1 <? count_ s)%Z; [unfold Rdiv; ring | reflexivity]. }
  rewrite Hv, sqrt_0. destruct (Rltb_spec 0 0); [lra | reflexivity].
Qed.

(** A value above a run of equal values: with [k] equal values [c]
    followed by [x > c], the new mean is [c + (x - c) / (k + 1)], the
    variance is [(x - c)^2 / (k + 1)], and the z-score of [x] is
    [k / sqrt (k + 1)], whatever [c] and [x] are; it exceeds every
    threshold [thr >= 0] with [thr^2 * (k + 1) <= k^2]. *)
Lemma spike_z_score (c x thr : R) (s : t) :
  Flat c s -> (1 <= count_ s)%Z -> (count_ s + 1 < U64)%Z -> c < x ->
  0 <= thr -> thr * thr * IZR (count_ s + 1) <= IZR (count_ s) * IZR (count_ s) ->
  thr <= z_score (add s x) x.
Proof.
  intros [Hm2 Hmean] Hk Hk' Hx Ht Hthr.
  destruct Hmean as [Hc|[_ Hz]]; [|lia].
  assert (Hn : 1 <= IZR (count_ s)) by (apply IZR_le; lia).
  unfold z_score, std_dev, variance, add. cbn [mean_ m2_ count_].
  rewrite wrap_small by lia.
  replace (count_ s + 1 - 1)%Z with (count_ s) by lia.
  rewrite wrap_small by lia.
  destruct (Z.ltb_spec 1 (count_ s + 1)) as [_|]; [|lia].
  rewrite Hm2, Hc, plus_IZR in *.
  set (n := IZR (count_ s)) in *. set (d := x - c).
  assert (Hd : 0 < d) by (unfold d; lra).
  replace ((0 + d * (x - (c + d / (n + 1)))) / n) with (d * d / (n + 1))
    by (unfold d; field; lra).
  replace (x - (c + d / (n + 1))) with (d * n / (n + 1)) by (unfold d; field; lra).
  assert (Hv : 0 < d * d / (n + 1)).
  { apply Rdiv_lt_0_compat; [apply Rmult_lt_0_compat; assumption | lra]. }
  set (sd := sqrt (d * d / (n + 1))).
  assert (Hsd : 0 < sd) by (apply sqrt_lt_R0, Hv).
  assert (Hsq : sd * sd = d * d / (n + 1)) by (apply sqrt_sqrt; lra).
  destruct (Rltb_spec 0 sd) as [_|]; [|lra].
  apply (Rmult_le_reg_r sd); [exact Hsd|].
  replace (d * n / (n + 1) / sd * sd) with (d * n / (n + 1)) by (field; lra).
  assert (HA : 0 <= d * n / (n + 1)).
  { apply Rmult_le_pos; [apply Rmult_le_pos; lra|].
    apply Rlt_le, Rinv_0_lt_compat. lra. }
  apply Rsqr_incr_0_var; [|exact HA]. unfold Rsqr.
  replace (thr * sd * (thr * sd)) with (thr * thr * (sd * sd)) by ring.
  rewrite Hsq.
  replace (d * n / (n + 1) * (d * n / (n + 1)))
    with (d * d / (n + 1) * (n * n / (n + 1))) by (field; lra).
  replace (thr * thr * (d * d / (n + 1))) with (d * d / (n + 1) * (thr * thr)) by ring.
  apply Rmult_le_compat_l; [lra|].
  apply (Rmult_le_reg_r (n + 1)); [lra|].
  replace (n * n / (n + 1) * (n + 1)) with (n * n) by (field; lra).
  exact Hthr.
Qed.

End RollingStats.

(** Exponentially weighted estimator of the same header. *)
Module EMAStats.
#[local] Open Scope R_scope.

Record t := mk {
  alpha_ : R;
  mean_ : R;
  var_ : R;
  initialized_ : bool
}.

Definition of_alpha (alpha : R) : t :=
  {| alpha_ := alpha; mean_ := 0; var_ := 0; initialized_ := false |}.

Definition of_window (window : Z) : t :=
  of_alpha (2 / (IZR window + 1)).

Definition add (s : t) (value : R) : t :=
  if negb (initialized_ s) then
    {| alpha_ := alpha_ s; mean_ := value; var_ := 0; initialized_ := true |}
  else
    let delta := value - mean_ s in
    {| alpha_ := alpha_ s;
       mean_ := mean_ s + alpha_ s * delta;
       var_ := (1 - alpha_ s) * (var_ s + alpha_ s * delta * delta);
       initialized_ := true |}.

Definition reset (s : t) : t :=
  {| alpha_ := alpha_ s; mean_ := 0; var_ := 0; initialized_ := false |}.

Definition mean (s : t) : R := mean_ s.
Definition variance (s : t) : R := var_ s.
Definition std_dev (s : t) : R := sqrt (var_ s).
Definition is_initialized (s : t) : bool := initialized_ s.

Definition z_score (s : t) (value : R) : R :=
  let sd := std_dev s in
  if Rltb 0 sd then (value - mean_ s) / sd else 0.

Definition add_all (s : t) (xs : list R) : t := fold_left add xs s.

(** An initialised average over values of [[lo, hi]]. *)
Record InRange (alpha lo hi : R) (s : t) : Prop := {
  ir_alpha : alpha_ s = alpha;
  ir_init : initialized_ s = true;
  ir_mean : lo <= mean_ s <= hi;
  ir_var : 0 <= var_ s <= (hi - lo) * (hi - lo)
}.

Lemma of_window_alpha (window : Z) :
  (1 <= window)%Z -> 0 < alpha_ (of_window window) <= 1.
Proof.
  intros Hw. cbn [of_window of_alpha alpha_].
  assert (H1 : 1 <= IZR window) by (apply IZR_le; exact Hw).
  assert (Hpos : 0 < IZR window + 1) by lra.
  split.
  - apply Rdiv_lt_0_compat; lra.
  - apply (Rmult_le_reg_r (IZR window + 1)); [exact Hpos|].
    unfold Rdiv. rewrite Rmult_assoc, Rinv_l by lra. lra.
Qed.

Lemma in_range_first alpha lo hi s x :
  alpha_ s = alpha -> initialized_ s = false -> lo <= x <= hi ->
  InRange alpha lo hi (add s x).
Proof.
  intros Ha Hi Hx. unfold add. rewrite Hi. cbn [negb].
  constructor; cbn; try assumption; try reflexivity. nra.
Qed.

Lemma in_range_add alpha lo hi s x :
  0 < alpha <= 1 -> InRange alpha lo hi s -> lo <= x <= hi ->
  InRange alpha lo hi (add s x).
Proof.
  intros Ha [Hal Hi Hm Hv] Hx. unfold add. rewrite Hi, Hal. cbn [negb].
  constructor; cbn [alpha_ initialized_ mean_ var_]; try reflexivity.
  - nra.
  - set (d := x - mean_ s).
    assert (Hd : d * d <= (hi - lo) * (hi - lo)) by (unfold d; nra).
    assert (Hd0 : 0 <= d * d) by (pose proof (Rle_0_sqr d) as H; exact H).
    set (D := (hi - lo) * (hi - lo)) in *.
    replace (alpha * d * d) with (alpha * (d * d)) by ring.
    set (dd := d * d) in *. clearbody dd D. split.
    + apply Rmult_le_pos; nra.
    + assert (H1 : var_ s + alpha * dd <= (1 + alpha) * D) by nra.
      assert (H2 : (1 - alpha) * (var_ s + alpha * dd) <= (1 - alpha) * ((1 + alpha) * D)).
      { apply Rmult_le_compat_l; lra. }
      nra.
Qed.

Lemma in_range_add_all alpha lo hi xs : forall s,
  0 < alpha <= 1 -> InRange alpha lo hi s ->
  Forall (fun x => lo <= x <= hi) xs ->
  InRange alpha lo hi (add_all s xs).
Proof.
  induction xs as [|x xs IH]; intros s Ha Hs Hxs; [exact Hs|].
  inversion Hxs as [|? ? Hx Hrest]; subst.
  change (add_all s (x :: xs)) with (add_all (add s x) xs).
  apply IH; [exact Ha | | exact Hrest].
  apply in_range_add; assumption.
Qed.

(** X8. Under exact arithmetic, an exponential average that starts
    uninitialised (fresh or after [reset()]) with a smoothing factor in
    [(0, 1]] and is fed values of [[lo, hi]] keeps its mean in [[lo, hi]]
    and its variance in [[0, (hi - lo)^2]]; a window of at least 1 gives
    such a factor.  (In binary64 the mean can leave the interval by a
    rounding error.) *)
Theorem ema_bounds (s0 : t) (lo hi : R) (xs : list R) :
  0 < alpha_ s0 <= 1 -> initialized_ s0 = false -> xs <> [] ->
  Forall (fun x => lo <= x <= hi) xs ->
  let s := add_all s0 xs in
  is_initialized s = true /\
  lo <= mean s <= hi /\
  0 <= variance s <= (hi - lo) * (hi - lo) /\
  (forall window, (1 <= window)%Z -> 0 < alpha_ (of_window window) <= 1).
Proof.
  intros Ha Hi Hne Hxs s.
  destruct xs as [|x xs]; [congruence|].
  inversion Hxs as [|? ? Hx Hrest]; subst.
  assert (Hs : InRange (alpha_ s0) lo hi s).
  { unfold s. change (add_all s0 (x :: xs)) with (add_all (add s0 x) xs).
    apply in_range_add_all; [exact Ha | | exact Hrest].
    apply in_range_first; [reflexivity | exact Hi | exact Hx]. }
  destruct Hs as [_ Hinit Hm Hv].
  split_and!; try assumption; try apply Hm; try apply Hv.
  intros window Hw. apply of_window_alpha. exact Hw.
Qed.

Lemma ema_bounds_witness :
  let s := add_all (of_alpha (1 / 2)) [1; 3; 2] in
  is_initialized s = true /\
  1 <= mean s <= 3 /\
  0 <= variance s <= (3 - 1) * (3 - 1) /\
  (forall window, (1 <= window)%Z -> 0 < alpha_ (of_window window) <= 1).
Proof.
  apply (ema_bounds (of_alpha (1 / 2)) 1 3 [1; 3; 2]).
  - cbn. lra.
  - reflexivity.
  - discriminate.
  - repeat constructor; lra.
Defined.

(** A stream of equal values leaves no variance behind. *)
Lemma ema_flat (c : R) (xs : list R) : forall s,
  Forall (fun x => x = c) xs ->
  var_ s = 0 ->
  (initialized_ s = true -> mean_ s = c) ->
  var_ (add_all s xs) = 0.
Proof.
  induction xs as [|x xs IH]; intros s Hxs Hv Hm; [exact Hv|].
  inversion Hxs as [|? ? Hx Hrest]; subst.
  change (add_all s (c :: xs)) with (add_all (add s c) xs).
  apply IH; [exact Hrest | |]; unfold add; destruct (initialized_ s); cbn; try reflexivity.
  - rewrite Hv, Hm by reflexivity. ring.
  - intros _. rewrite Hm by reflexivity. ring.
Qed.

End EMAStats.

(** ** Fixed-window statistics ([WindowedStats<WindowSize>])

    The circular buffer is a list of [WindowSize] cells; the [size_t]
    fields are integers below [2^64]. *)

Module WindowedStats.
#[local] Open Scope R_scope.

Section Window.

Variable WindowSize : Z.
(** [static_assert(WindowSize > 0)], and [WindowSize] is a [size_t]. *)
Hypothesis WindowSize_pos : (0 < WindowSize)%Z.
Hypothesis WindowSize_size_t : (WindowSize < U64)%Z.

Record t := mk {
  buffer_ : list R;
  index_ : Z;
  count_ : Z;
  sum_ : R;
  sum_sq_ : R
}.

Definition init : t :=
  {| buffer_ := replicate (Z.to_nat WindowSize) 0;
     index_ := 0; count_ := 0; sum_ := 0; sum_sq_ := 0 |}.

(** [buffer_[i]] for an index inside the array. *)
Definition at_ (s : t) (i : Z) : R := default 0 (buffer_ s !! Z.to_nat i).

Definition add (s : t) (value : R) : t :=
  let full := (WindowSize <=? count_ s)%Z in
  let old_val := at_ s (index_ s) in
  let sum := if full then sum_ s - old_val else sum_ s in
  let sum_sq := if full then sum_sq_ s - old_val * old_val else sum_sq_ s in
  {| buffer_ := <[Z.to_nat (index_ s) := value]> (buffer_ s);
     index_ := (wrap (index_ s + 1) mod WindowSize)%Z;
     count_ := if (count_ s <? WindowSize)%Z then wrap (count_ s + 1) else count_ s;
     sum_ := sum + value;
     sum_sq_ := sum_sq + value * value |}.

Definition reset (s : t) : t := init.

(** [update_sums]: the sums recomputed from the first
    [min(count_, WindowSize)] cells. *)
Definition update_sums (s : t) : t :=
  let n := Z.min (count_ s) WindowSize in
  let cells := take (Z.to_nat n) (buffer_ s) in
  {| buffer_ := buffer_ s; index_ := index_ s; count_ := count_ s;
     sum_ := fold_left (fun acc val => acc + val) cells 0;
     sum_sq_ := fold_left (fun acc val => acc + val * val) cells 0 |}.

Definition mean (s : t) : R :=
  if (0 <? count_ s)%Z then sum_ s / IZR (count_ s) else 0.

Definition variance (s : t) : R :=
  if (count_ s <=? 1)%Z then 0
  else
    let n := IZR (count_ s) in
    let mean_val := mean s in
    (sum_sq_ s - n * mean_val * mean_val) / (n - 1).

Definition std_dev (s : t) : R := sqrt (variance s).

Definition z_score (s : t) (value : R) : R :=
  let sd := std_dev s in
  if Rltb 0 sd then (value - mean s) / sd else 0.

Definition count (s : t) : Z := count_ s.

Definition is_full (s : t) : bool := (WindowSize <=? count_ s)%Z.

Definition add_all (s : t) (xs : list R) : t := fold_left add xs s.

(** The values still inside the window after the stream [xs], oldest
    first: the last [WindowSize] of them, or all if there are fewer. *)
Definition window (xs : list R) : list R :=
  drop (length xs - Z.to_nat WindowSize) xs.

(** The state after the stream [xs]: the value number [p] of the stream
    lives in cell [p mod WindowSize] as long as it is in the window. *)
Record Rep (s : t) (xs : list R) : Prop := {
  rep_len : length (buffer_ s) = Z.to_nat WindowSize;
  rep_index : index_ s = Z.of_nat (length xs mod Z.to_nat WindowSize);
  rep_count : count_ s = Z.of_nat (length (window xs));
  rep_sum : sum_ s = RollingStats.sum (window xs);
  rep_sum_sq : sum_sq_ s = RollingStats.sum_sq (window xs);
  rep_cells : forall p, (length xs - Z.to_nat WindowSize <= p < length xs)%nat ->
                buffer_ s !! (p mod Z.to_nat WindowSize)%nat = xs !! p
}.

Lemma window_length xs :
  length (window xs) = Nat.min (length xs) (Z.to_nat WindowSize).
Proof. unfold window. rewrite length_drop. lia. Qed.

Lemma window_init_rep : Rep init [].
Proof using WindowSize_pos.
  constructor; cbn; try reflexivity.
  - apply length_replicate.
  - rewrite Nat.Div0.mod_0_l. reflexivity.
  - intros p Hp. lia.
Qed.

Lemma window_snoc_full xs x :
  (Z.to_nat WindowSize <= length xs)%nat ->
  exists old,
    xs !! (length xs - Z.to_nat WindowSize)%nat = Some old /\
    window xs = old :: drop (S (length xs - Z.to_nat WindowSize)) xs /\
    window (xs ++ [x]) = drop (S (length xs - Z.to_nat WindowSize)) xs ++ [x].
Proof using WindowSize_pos.
  intros Hfull. set (W := Z.to_nat WindowSize) in *.
  assert (HW : (0 < W)%nat) by (unfold W; lia).
  destruct (lookup_lt_is_Some_2 xs (length xs - W)%nat) as [old Hold]; [lia|].
  exists old. split; [exact Hold|]. split.
  - unfold window. fold W. apply drop_S. exact Hold.
  - unfold window. fold W. rewrite length_app. cbn [length].
    replace (length xs + 1 - W)%nat with (S (length xs - W)) by lia.
    rewrite drop_app_le by lia. reflexivity.
Qed.

Lemma window_snoc_partial xs x :
  (length xs < Z.to_nat WindowSize)%nat ->
  window xs = xs /\ window (xs ++ [x]) = xs ++ [x].
Proof.
  intros Hlt. unfold window. rewrite length_app. cbn [length].
  replace (length xs - Z.to_nat WindowSize)%nat with 0%nat by lia.
  replace (length xs + 1 - Z.to_nat WindowSize)%nat with 0%nat by lia.
  split; reflexivity.
Qed.

Lemma mod_distinct (W p n : nat) :
  (p < n)%nat -> (n - p < W)%nat -> (p mod W <> n mod W)%nat.
Proof.
  intros Hlt Hclose Heq.
  assert (HW : (W <> 0)%nat) by lia.
  pose proof (Nat.div_mod_eq p W) as Hp.
  pose proof (Nat.div_mod_eq n W) as Hn.
  assert (Hd : (n - p = W * (n / W - p / W))%nat).
  { assert (p / W <= n / W)%nat by (apply Nat.Div0.div_le_mono; lia). nia. }
  destruct (n / W - p / W)%nat as [|k] eqn:Hk; nia.
Qed.

Lemma window_add_rep s xs x : Rep s xs -> Rep (add s x) (xs ++ [x]).
Proof using WindowSize_pos WindowSize_size_t.
  intros [Hlen Hidx Hcnt Hsum Hsq Hcells].
  set (W := Z.to_nat WindowSize) in *.
  assert (HW : (0 < W)%nat) by (unfold W; lia).
  assert (HWZ : Z.of_nat W = WindowSize) by (unfold W; lia).
  assert (Hmod : (length xs mod W < W)%nat) by (apply Nat.mod_upper_bound; lia).
  assert (Hslot : Z.to_nat (index_ s) = (length xs mod W)%nat) by (rewrite Hidx; lia).
  rewrite window_length in Hcnt. fold W in Hcnt.
  constructor; unfold add; cbn [buffer_ index_ count_ sum_ sum_sq_]; fold W.
  - rewrite length_insert. exact Hlen.
  - rewrite Hidx, wrap_small by lia.
    rewrite length_app. cbn [length].
    rewrite <- HWZ at 1.
    change 1%Z with (Z.of_nat 1). rewrite <- Nat2Z.inj_add, <- Nat2Z.inj_mod.
    f_equal. rewrite Nat.Div0.add_mod_idemp_l. reflexivity.
  - rewrite window_length, length_app. cbn [length]. fold W. rewrite Hcnt.
    destruct (Z.ltb_spec (Z.of_nat (Nat.min (length xs) W)) WindowSize).
    + rewrite wrap_small by lia. lia.
    + lia.
  - rewrite Hcnt.
    destruct (Z.leb_spec WindowSize (Z.of_nat (Nat.min (length xs) W))) as [Hfull|Hpart].
    + destruct (window_snoc_full xs x) as (old & Hold & Hw & Hw'); [fold W; lia|].
      fold W in Hold, Hw, Hw'.
      assert (Hat : at_ s (index_ s) = old).
      { unfold at_. rewrite Hslot.
        replace (length xs mod W)%nat with ((length xs - W) mod W)%nat.
        - rewrite Hcells by lia. rewrite Hold. reflexivity.
        - replace (length xs) with ((length xs - W) + 1 * W)%nat at 2 by lia.
          rewrite Nat.Div0.mod_add. reflexivity. }
      rewrite Hat, Hw', Hsum, Hw, RollingStats.sum_app. cbn [RollingStats.sum]. lra.
    + destruct (window_snoc_partial xs x) as (Hw & Hw'); [fold W; lia|].
      rewrite Hw', Hsum, Hw, RollingStats.sum_app. cbn [RollingStats.sum]. lra.
  - rewrite Hcnt.
    destruct (Z.leb_spec WindowSize (Z.of_nat (Nat.min (length xs) W))) as [Hfull|Hpart].
    + destruct (window_snoc_full xs x) as (old & Hold & Hw & Hw'); [fold W; lia|].
      fold W in Hold, Hw, Hw'.
      assert (Hat : at_ s (index_ s) = old).
      { unfold at_. rewrite Hslot.
        replace (length xs mod W)%nat with ((length xs - W) mod W)%nat.
        - rewrite Hcells by lia. rewrite Hold. reflexivity.
        - replace (length xs) with ((length xs - W) + 1 * W)%nat at 2 by lia.
          rewrite Nat.Div0.mod_add. reflexivity. }
      rewrite Hat, Hw', Hsq, Hw, RollingStats.sum_sq_app. cbn [RollingStats.sum_sq]. lra.
    + destruct (window_snoc_partial xs x) as (Hw & Hw'); [fold W; lia|].
      rewrite Hw', Hsq, Hw, RollingStats.sum_sq_app. cbn [RollingStats.sum_sq]. lra.
  - intros p Hp. rewrite length_app in Hp. cbn [length] in Hp. rewrite Hslot.
    destruct (decide (p = length xs)) as [->|Hne].
    + rewrite list_lookup_insert_eq by lia.
      rewrite lookup_app_r by lia. rewrite Nat.sub_diag. reflexivity.
    + rewrite list_lookup_insert_ne by (apply not_eq_sym, mod_distinct; lia).
      rewrite lookup_app_l by lia. apply Hcells. lia.
Qed.

Lemma window_add_all_rep xs : forall s pre, Rep s pre -> Rep (add_all s xs) (pre ++ xs).
Proof using WindowSize_pos WindowSize_size_t.
  induction xs as [|x xs IH]; intros s pre Hs.
  - rewrite app_nil_r. exact Hs.
  - change (add_all s (x :: xs)) with (add_all (add s x) xs).
    replace (pre ++ x :: xs) with ((pre ++ [x]) ++ xs) by (rewrite <- app_assoc; reflexivity).
    apply IH, window_add_rep, Hs.
Qed.

(** The running sums against the cells they summarise. *)
Record Sums (s : t) : Prop := {
  su_len : length (buffer_ s) = Z.to_nat WindowSize;
  su_index : (0 <= index_ s < WindowSize)%Z;
  su_count : (0 <= count_ s <= WindowSize)%Z;
  su_filling : (count_ s < WindowSize)%Z -> index_ s = count_ s;
  su_sum : sum_ s = RollingStats.sum (take (Z.to_nat (count_ s)) (buffer_ s));
  su_sum_sq : sum_sq_ s = RollingStats.sum_sq (take (Z.to_nat (count_ s)) (buffer_ s))
}.

Lemma sum_insert (l : list R) : forall i old v,
  l !! i = Some old ->
  RollingStats.sum (<[i := v]> l) = RollingStats.sum l - old + v /\
  RollingStats.sum_sq (<[i := v]> l) = RollingStats.sum_sq l - old * old + v * v.
Proof.
  induction l as [|y l IH]; intros i old v Hi; [discriminate|].
  destruct i as [|i].
  - cbn in *. inversion Hi; subst. split; lra.
  - change (<[S i := v]> (y :: l)) with (y :: <[i := v]> l).
    cbn [RollingStats.sum RollingStats.sum_sq].
    destruct (IH i old v Hi) as [H1 H2]. rewrite H1, H2. split; lra.
Qed.

Lemma fold_sum (l : list R) : forall a,
  fold_left (fun acc val => acc + val) l a = a + RollingStats.sum l.
Proof.
  induction l as [|y l IH]; intros a; cbn; [lra|]. rewrite IH. lra.
Qed.

Lemma fold_sum_sq (l : list R) : forall a,
  fold_left (fun acc val => acc + val * val) l a = a + RollingStats.sum_sq l.
Proof.
  induction l as [|y l IH]; intros a; cbn; [lra|]. rewrite IH. lra.
Qed.

Lemma init_sums : Sums init.
Proof using WindowSize_pos.
  constructor; cbn; try reflexivity; try lia. apply length_replicate.
Qed.

Lemma add_sums s x : Sums s -> Sums (add s x).
Proof using WindowSize_pos WindowSize_size_t.
  intros [Hlen Hidx Hcnt Hfill Hsum Hsq].
  assert (Hidx' : (0 <= wrap (index_ s + 1) mod WindowSize < WindowSize)%Z)
    by (apply Z.mod_pos_bound; lia).
  destruct (lookup_lt_is_Some_2 (buffer_ s) (Z.to_nat (index_ s))) as [old Hold]; [lia|].
  assert (Hat : at_ s (index_ s) = old) by (unfold at_; rewrite Hold; reflexivity).
  destruct (Z.ltb_spec (count_ s) WindowSize) as [Hpart|Hfull].
  - specialize (Hfill Hpart).
    assert (Htake : take (Z.to_nat (count_ s + 1))
                      (<[Z.to_nat (index_ s) := x]> (buffer_ s)) =
                    take (Z.to_nat (count_ s)) (buffer_ s) ++ [x]).
    { replace (Z.to_nat (count_ s + 1)) with (S (Z.to_nat (count_ s))) by lia.
      rewrite Hfill.
      erewrite take_S_r by (apply list_lookup_insert_eq; lia).
      rewrite take_insert_ge by lia. reflexivity. }
    constructor; unfold add; cbn [buffer_ index_ count_ sum_ sum_sq_];
      destruct (Z.ltb_spec (count_ s) WindowSize); try lia;
      destruct (Z.leb_spec WindowSize (count_ s)); try lia;
      rewrite ?(wrap_small (count_ s + 1)) by lia.
    + rewrite length_insert. exact Hlen.
    + lia.
    + intros Hlt. rewrite Hfill, wrap_small by lia. apply Z.mod_small. lia.
    + rewrite Htake, RollingStats.sum_app, <- Hsum. cbn. lra.
    + rewrite Htake, RollingStats.sum_sq_app, <- Hsq. cbn. lra.
  - assert (Hc : count_ s = WindowSize) by lia.
    assert (Hall : forall l : list R, length l = Z.to_nat WindowSize ->
                     take (Z.to_nat (count_ s)) l = l).
    { intros l Hl. apply take_ge. rewrite Hc. lia. }
    rewrite Hall in Hsum, Hsq by exact Hlen.
    destruct (sum_insert (buffer_ s) _ old x Hold) as [H1 H2].
    constructor; unfold add; cbn [buffer_ index_ count_ sum_ sum_sq_];
      destruct (Z.ltb_spec (count_ s) WindowSize); try lia;
      destruct (Z.leb_spec WindowSize (count_ s)); try lia.
    + rewrite length_insert. exact Hlen.
    + rewrite Hall by (rewrite length_insert; exact Hlen). rewrite H1, Hat, Hsum. lra.
    + rewrite Hall by (rewrite length_insert; exact Hlen). rewrite H2, Hat, Hsq. lra.
Qed.

Lemma add_all_sums xs : forall s, Sums s -> Sums (add_all s xs).
Proof using WindowSize_pos WindowSize_size_t.
  induction xs as [|x xs IH]; intros s Hs; [exact Hs|].
  change (add_all s (x :: xs)) with (add_all (add s x) xs).
  apply IH, add_sums, Hs.
Qed.

(** X9. After any stream of [n] values [count()] is [min(n, WindowSize)]
    and [is_full()] holds from the [WindowSize]-th value on.  Under exact
    arithmetic [mean()] is the average of the last [min(n, WindowSize)]
    values and [variance()] their sample variance (0 for fewer than two
    values).  (In binary64 the running sums keep the rounding errors of
    the values that have left the window.) *)
Theorem windowed_stats_last_values (xs : list R) :
  let s := add_all init xs in
  let w := window xs in
  let k := INR (length w) in
  count s = Z.of_nat (Nat.min (length xs) (Z.to_nat WindowSize)) /\
  length w = Nat.min (length xs) (Z.to_nat WindowSize) /\
  (is_full s = true <-> (Z.to_nat WindowSize <= length xs)%nat) /\
  (xs <> [] -> mean s = RollingStats.sum w / k) /\
  ((1 < length w)%nat ->
   variance s = RollingStats.sum_sq_dev (RollingStats.sum w / k) w / (k - 1)) /\
  ((length w <= 1)%nat -> variance s = 0).
Proof using WindowSize_pos WindowSize_size_t.
  intros s w k.
  destruct (window_add_all_rep xs init [] window_init_rep) as [Hlen Hidx Hcnt Hsum Hsq _].
  cbn [app] in *. fold s in Hlen, Hidx, Hcnt, Hsum, Hsq.
  fold w in Hcnt, Hsum, Hsq.
  pose proof (window_length xs) as Hwl. fold w in Hwl.
  assert (Hk : IZR (count_ s) = k).
  { rewrite Hcnt. unfold k. symmetry. apply INR_IZR_INZ. }
  assert (Hmean : xs <> [] -> mean s = RollingStats.sum w / k).
  { intros Hne. unfold mean. rewrite Hk, Hsum.
    destruct (Z.ltb_spec 0 (count_ s)) as [_|Hz]; [reflexivity|].
    destruct xs; [congruence|]. cbn [length] in Hwl. lia. }
  split_and!.
  - unfold count. rewrite Hcnt, Hwl. reflexivity.
  - exact Hwl.
  - unfold is_full. rewrite Hcnt, Hwl.
    destruct (Z.leb_spec WindowSize
                (Z.of_nat (Nat.min (length xs) (Z.to_nat WindowSize)))); split; intros;
      try reflexivity; try discriminate; lia.
  - exact Hmean.
  - intros Hgt. unfold variance.
    destruct (Z.leb_spec (count_ s) 1) as [Hle|_]; [lia|].
    assert (Hne : xs <> []).
    { intros Hnil. rewrite Hwl, Hnil in Hgt. cbn in Hgt. lia. }
    cbn zeta. rewrite Hk, Hmean by exact Hne.
    rewrite RollingStats.sum_sq_dev_expand, Hsq. fold k.
    assert (Hk0 : k <> 0) by (unfold k; apply not_0_INR; lia).
    assert (Hk1 : k - 1 <> 0).
    { unfold k. replace 1 with (INR 1) by reflexivity.
      rewrite <- minus_INR by lia. apply not_0_INR. lia. }
    field. split; assumption.
  - intros Hle. unfold variance.
    destruct (Z.leb_spec (count_ s) 1) as [_|Hgt]; [reflexivity | lia].
Qed.

(** X10. The running sums never drift from the buffer: after any stream,
    recomputing them with [update_sums] changes nothing. *)
Theorem update_sums_is_identity (xs : list R) :
  update_sums (add_all init xs) = add_all init xs.
Proof using WindowSize_pos WindowSize_size_t.
  destruct (add_all_sums xs init init_sums) as [Hlen Hidx Hcnt Hfill Hsum Hsq].
  set (s := add_all init xs) in *.
  unfold update_sums. cbn zeta.
  rewrite Z.min_l by lia.
  rewrite fold_sum, fold_sum_sq, <- Hsum, <- Hsq, !Rplus_0_l.
  destruct s; reflexivity.
Qed.

End Window.

Lemma windowed_stats_last_values_witness :
  let xs := [1; 2; 3; 4; 5] in
  let s := add_all 3 (init 3) xs in
  let w := window 3 xs in
  let k := INR (length w) in
  count s = Z.of_nat (Nat.min (length xs) (Z.to_nat 3)) /\
  length w = Nat.min (length xs) (Z.to_nat 3) /\
  (is_full 3 s = true <-> (Z.to_nat 3 <= length xs)%nat) /\
  (xs <> [] -> mean s = RollingStats.sum w / k) /\
  ((1 < length w)%nat ->
   variance s = RollingStats.sum_sq_dev (RollingStats.sum w / k) w / (k - 1)) /\
  ((length w <= 1)%nat -> variance s = 0).
Proof.
  apply (windowed_stats_last_values 3); [lia | reflexivity].
Defined.

Lemma update_sums_is_identity_witness :
  update_sums 3 (add_all 3 (init 3) [1; 2; 3; 4; 5]) = add_all 3 (init 3) [1; 2; 3; 4; 5].
Proof.
  apply (update_sums_is_identity 3); [lia | reflexivity].
Defined.

End WindowedStats.

(** ** Bivariate comoment estimator ([include/stats/rolling_covar.hpp]) *)

Module RollingCovar.
#[local] Open Scope R_scope.

Record t := mk {
  mean_x_ : R;
  mean_y_ : R;
  c_ : R;
  m2_x_ : R;
  m2_y_ : R;
  count_ : Z
}.

Definition init : t :=
  {| mean_x_ := 0; mean_y_ := 0; c_ := 0; m2_x_ := 0; m2_y_ := 0; count_ := 0 |}.

Definition add (s : t) (x y : R) : t :=
  let count := wrap (count_ s + 1) in
  let n := IZR count in
  let dx := x - mean_x_ s in
  let dy := y - mean_y_ s in
  let mean_x := mean_x_ s + dx / n in
  let mean_y := mean_y_ s + dy / n in
  {| mean_x_ := mean_x;
     mean_y_ := mean_y;
     c_ := c_ s + dx * (y - mean_y);
     m2_x_ := m2_x_ s + dx * (x - mean_x);
     m2_y_ := m2_y_ s + dy * (y - mean_y);
     count_ := count |}.

Definition reset (s : t) : t := init.

Definition mean_x (s : t) : R := mean_x_ s.
Definition mean_y (s : t) : R := mean_y_ s.
Definition count (s : t) : Z := count_ s.

Definition covariance (s : t) : R :=
  if (1 <? count_ s)%Z then c_ s / IZR (wrap (count_ s - 1)) else 0.

Definition population_covariance (s : t) : R :=
  if (0 <? count_ s)%Z then c_ s / IZR (count_ s) else 0.

Definition variance_x (s : t) : R :=
  if (1 <? count_ s)%Z then m2_x_ s / IZR (wrap (count_ s - 1)) else 0.

Definition variance_y (s : t) : R :=
  if (1 <? count_ s)%Z then m2_y_ s / IZR (wrap (count_ s - 1)) else 0.

Definition std_dev_x (s : t) : R := sqrt (variance_x s).
Definition std_dev_y (s : t) : R := sqrt (variance_y s).

Definition correlation (s : t) : R :=
  let var_x := variance_x s in
  let var_y := variance_y s in
  if Rleb var_x 0 || Rleb var_y 0 then 0
  else covariance s / sqrt (var_x * var_y).

Definition beta (s : t) : R :=
  let var_x := variance_x s in
  if Rltb 0 var_x then covariance s / var_x else 0.

Definition r_squared (s : t) : R :=
  let corr := correlation s in corr * corr.

Definition add_all (s : t) (ps : list (R * R)) : t :=
  fold_left (fun acc p => add acc (fst p) (snd p)) ps s.

(** The points of the line [y = 2x + 1] over [x = 1 .. 5]. *)
Definition line_pairs : list (R * R) :=
  [(1, 3); (2, 5); (3, 7); (4, 9); (5, 11)].

(** Reference quantities: the sum of products and the sum of
    cross-deviations of a list of pairs; the two legs exchanged. *)
Fixpoint sum_xy (ps : list (R * R)) : R :=
  match ps with
  | [] => 0
  | p :: ps' => fst p * snd p + sum_xy ps'
  end.

Fixpoint sum_co_dev (mx my : R) (ps : list (R * R)) : R :=
  match ps with
  | [] => 0
  | p :: ps' => (fst p - mx) * (snd p - my) + sum_co_dev mx my ps'
  end.

Definition swap_pairs (ps : list (R * R)) : list (R * R) :=
  map (fun p => (snd p, fst p)) ps.

Definition swap_legs (s : t) : t :=
  {| mean_x_ := mean_y_ s; mean_y_ := mean_x_ s; c_ := c_ s;
     m2_x_ := m2_y_ s; m2_y_ := m2_x_ s; count_ := count_ s |}.

Lemma covar_count_add s x y : count_ (add s x y) = wrap (count_ s + 1).
Proof. reflexivity. Qed.

Lemma covar_count_add_all ps : forall s,
  (0 <= count_ s < U64)%Z ->
  count_ (add_all s ps) = wrap (count_ s + Z.of_nat (length ps)).
Proof.
  induction ps as [|p ps IH]; intros s Hs.
  - simpl. rewrite Z.add_0_r, wrap_small by exact Hs. reflexivity.
  - change (add_all s (p :: ps)) with (add_all (add s (fst p) (snd p)) ps).
    rewrite IH by (rewrite covar_count_add; apply wrap_range).
    rewrite covar_count_add. unfold wrap. rewrite Zplus_mod_idemp_l.
    f_equal. cbn [length]. lia.
Qed.

(** One update, with the new accumulators named. *)
Lemma add_to mx my c vx vy k x y mx' my' c' vx' vy' k' :
  (0 <= k)%Z -> (k' < U64)%Z -> k' = (k + 1)%Z ->
  mx' = mx + (x - mx) / IZR k' ->
  my' = my + (y - my) / IZR k' ->
  c' = c + (x - mx) * (y - my') ->
  vx' = vx + (x - mx) * (x - mx') ->
  vy' = vy + (y - my) * (y - my') ->
  add {| mean_x_ := mx; mean_y_ := my; c_ := c; m2_x_ := vx; m2_y_ := vy;
         count_ := k |} x y =
  {| mean_x_ := mx'; mean_y_ := my'; c_ := c'; m2_x_ := vx'; m2_y_ := vy';
     count_ := k' |}.
Proof.
  intros H0 H1 -> -> -> -> -> ->.
  unfold add. cbn [mean_x_ mean_y_ c_ m2_x_ m2_y_ count_].
  rewrite wrap_small by lia. reflexivity.
Qed.

Lemma line_state :
  add_all init line_pairs =
  {| mean_x_ := 3; mean_y_ := 7; c_ := 20; m2_x_ := 10; m2_y_ := 40; count_ := 5 |}.
Proof.
  unfold add_all, line_pairs, init. cbn [fold_left fst snd].
  rewrite (add_to 0 0 0 0 0 0 1 3 1 3 0 0 0 1) by (reflexivity || lia || lra).
  rewrite (add_to 1 3 0 0 0 1 2 5 (3/2) 4 1 (1/2) 2 2) by (reflexivity || lia || lra).
  rewrite (add_to (3/2) 4 1 (1/2) 2 2 3 7 2 5 4 2 8 3) by (reflexivity || lia || lra).
  rewrite (add_to 2 5 4 2 8 3 4 9 (5/2) 6 10 5 20 4) by (reflexivity || lia || lra).
  rewrite (add_to (5/2) 6 10 5 20 4 5 11 3 7 20 10 40 5) by (reflexivity || lia || lra).
  reflexivity.
Qed.

(** C4. Ground truth of the line [y = 2x + 1]: after the five pairs
    [(x, 2x + 1)], [x = 1 .. 5], the means are 3 and 7, the correlation is
    1 and beta is 2, exactly. *)
Theorem covar_line_ground_truth :
  let s := add_all init line_pairs in
  mean_x s = 3 /\ mean_y s = 7 /\ correlation s = 1 /\ beta s = 2.
Proof.
  intros s. unfold s. rewrite line_state.
  assert (Hvx : variance_x {| mean_x_ := 3; mean_y_ := 7; c_ := 20; m2_x_ := 10;
                              m2_y_ := 40; count_ := 5 |} = 5 / 2).
  { unfold variance_x. cbn [count_ m2_x_ m2_y_ c_ Z.ltb Z.compare Pos.compare Pos.compare_cont].
    change (wrap (5 - 1)) with 4%Z. lra. }
  assert (Hvy : variance_y {| mean_x_ := 3; mean_y_ := 7; c_ := 20; m2_x_ := 10;
                              m2_y_ := 40; count_ := 5 |} = 10).
  { unfold variance_y. cbn [count_ m2_x_ m2_y_ c_ Z.ltb Z.compare Pos.compare Pos.compare_cont].
    change (wrap (5 - 1)) with 4%Z. lra. }
  assert (Hcov : covariance {| mean_x_ := 3; mean_y_ := 7; c_ := 20; m2_x_ := 10;
                               m2_y_ := 40; count_ := 5 |} = 5).
  { unfold covariance. cbn [count_ m2_x_ m2_y_ c_ Z.ltb Z.compare Pos.compare Pos.compare_cont].
    change (wrap (5 - 1)) with 4%Z. lra. }
  repeat split; try reflexivity.
  - unfold correlation. rewrite Hvx, Hvy, Hcov.
    destruct (Rleb_spec (5 / 2) 0) as [Hc|_]; [lra|].
    destruct (Rleb_spec 10 0) as [Hc|_]; [lra|].
    cbn [orb]. replace (5 / 2 * 10) with (5 * 5) by lra.
    rewrite sqrt_square by lra. field.
  - unfold beta. rewrite Hvx, Hcov.
    destruct (Rltb_spec 0 (5 / 2)) as [_|Hc]; [field | lra].
Qed.

Lemma covar_add_all_snoc s ps p :
  add_all s (ps ++ [p]) = add (add_all s ps) (fst p) (snd p).
Proof. unfold add_all. rewrite fold_left_app. reflexivity. Qed.

Lemma sum_xy_app ps qs : sum_xy (ps ++ qs) = sum_xy ps + sum_xy qs.
Proof. induction ps as [|p ps IH]; simpl; [lra | rewrite IH; lra]. Qed.

Lemma sum_co_dev_expand mx my ps :
  sum_co_dev mx my ps =
  sum_xy ps - mx * RollingStats.sum (map snd ps) - my * RollingStats.sum (map fst ps)
  + INR (length ps) * mx * my.
Proof.
  induction ps as [|p ps IH].
  - simpl. lra.
  - cbn [sum_co_dev sum_xy map RollingStats.sum length]. rewrite IH, S_INR. lra.
Qed.

(** Each leg is accumulated exactly as [RollingStats] does it. *)
Lemma marginal_x ps : forall s sx,
  mean_x_ s = RollingStats.mean_ sx ->
  m2_x_ s = RollingStats.m2_ sx ->
  count_ s = RollingStats.count_ sx ->
  let s' := add_all s ps in
  let sx' := RollingStats.add_all sx (map fst ps) in
  mean_x_ s' = RollingStats.mean_ sx' /\
  m2_x_ s' = RollingStats.m2_ sx' /\
  count_ s' = RollingStats.count_ sx'.
Proof.
  induction ps as [|p ps IH]; intros s sx Hm Hv Hc; cbn zeta.
  - simpl. auto.
  - change (add_all s (p :: ps)) with (add_all (add s (fst p) (snd p)) ps).
    change (RollingStats.add_all sx (map fst (p :: ps)))
      with (RollingStats.add_all (RollingStats.add sx (fst p)) (map fst ps)).
    apply IH; unfold add, RollingStats.add; cbn; rewrite ?Hm, ?Hv, ?Hc; reflexivity.
Qed.

Lemma marginal_y ps : forall s sy,
  mean_y_ s = RollingStats.mean_ sy ->
  m2_y_ s = RollingStats.m2_ sy ->
  count_ s = RollingStats.count_ sy ->
  let s' := add_all s ps in
  let sy' := RollingStats.add_all sy (map snd ps) in
  mean_y_ s' = RollingStats.mean_ sy' /\
  m2_y_ s' = RollingStats.m2_ sy' /\
  count_ s' = RollingStats.count_ sy'.
Proof.
  induction ps as [|p ps IH]; intros s sy Hm Hv Hc; cbn zeta.
  - simpl. auto.
  - change (add_all s (p :: ps)) with (add_all (add s (fst p) (snd p)) ps).
    change (RollingStats.add_all sy (map snd (p :: ps)))
      with (RollingStats.add_all (RollingStats.add sy (snd p)) (map snd ps)).
    apply IH; unfold add, RollingStats.add; cbn; rewrite ?Hm, ?Hv, ?Hc; reflexivity.
Qed.

(** The comoment after [ps], for a length the counter can hold. *)
Lemma comoment_invariant ps :
  (Z.of_nat (length ps) < U64)%Z ->
  let s := add_all init ps in
  count_ s = Z.of_nat (length ps) /\
  mean_x_ s * INR (length ps) = RollingStats.sum (map fst ps) /\
  mean_y_ s * INR (length ps) = RollingStats.sum (map snd ps) /\
  c_ s = sum_xy ps - INR (length ps) * mean_x_ s * mean_y_ s.
Proof.
  induction ps as [|p ps IH] using rev_ind; intros Hlen; cbn zeta.
  - simpl. repeat split; lra.
  - rewrite length_app in *. cbn [length] in *.
    destruct IH as (Hc & Hx & Hy & Hco); [lia|].
    rewrite covar_add_all_snoc. set (s := add_all init ps) in *.
    assert (Hcnt : wrap (count_ s + 1) = Z.of_nat (length ps + 1)).
    { rewrite Hc, wrap_small; lia. }
    assert (Hn : IZR (wrap (count_ s + 1)) = INR (length ps) + 1).
    { rewrite Hcnt, <- INR_IZR_INZ, Nat.add_1_r, S_INR. reflexivity. }
    assert (Hpos : INR (length ps) + 1 <> 0).
    { pose proof (pos_INR (length ps)). lra. }
    unfold add. cbn [count_ mean_x_ mean_y_ c_]. rewrite Hn, Nat.add_1_r, S_INR.
    rewrite !map_app, !RollingStats.sum_app, sum_xy_app.
    cbn [map RollingStats.sum sum_xy].
    split; [rewrite Hcnt; f_equal; lia|]. split_and!.
    + rewrite <- Hx. field. exact Hpos.
    + rewrite <- Hy. field. exact Hpos.
    + rewrite Hco. field. exact Hpos.
Qed.

(** X4. Under exact arithmetic the two legs are accumulated as two
    [RollingStats] would do it: means and variances agree with those of a
    [RollingStats] fed the x-values, respectively the y-values.  The
    covariance of [n > 1] pairs is the sum of cross-deviations from the
    means over [n - 1], and it is 0 for [n <= 1].  (In binary64 the
    covariance agrees with the direct formula only up to rounding.) *)
Theorem covar_direct_formulas (ps : list (R * R)) :
  (Z.of_nat (length ps) < U64)%Z ->
  let s := add_all init ps in
  let sx := RollingStats.add_all RollingStats.init (map fst ps) in
  let sy := RollingStats.add_all RollingStats.init (map snd ps) in
  let n := INR (length ps) in
  (mean_x s = RollingStats.mean sx /\ variance_x s = RollingStats.variance sx) /\
  (mean_y s = RollingStats.mean sy /\ variance_y s = RollingStats.variance sy) /\
  ((1 < length ps)%nat ->
   covariance s = sum_co_dev (mean_x s) (mean_y s) ps / (n - 1)) /\
  ((length ps <= 1)%nat -> covariance s = 0).
Proof.
  intros Hlen s sx sy n.
  destruct (marginal_x ps init RollingStats.init eq_refl eq_refl eq_refl)
    as (Hmx & Hvx & Hcx).
  destruct (marginal_y ps init RollingStats.init eq_refl eq_refl eq_refl)
    as (Hmy & Hvy & Hcy).
  destruct (comoment_invariant ps Hlen) as (Hc & Hx & Hy & Hco).
  fold s in Hmx, Hvx, Hcx, Hmy, Hvy, Hcy, Hc, Hx, Hy, Hco.
  fold sx in Hmx, Hvx, Hcx. fold sy in Hmy, Hvy, Hcy.
  split_and!.
  - exact Hmx.
  - unfold variance_x, RollingStats.variance. rewrite <- Hcx, Hvx. reflexivity.
  - exact Hmy.
  - unfold variance_y, RollingStats.variance. rewrite <- Hcy, Hvy. reflexivity.
  - intros Hgt. unfold covariance, mean_x, mean_y. rewrite Hc.
    destruct (Z.ltb_spec 1 (Z.of_nat (length ps))) as [_|]; [|lia].
    rewrite wrap_small by lia.
    rewrite minus_IZR, <- INR_IZR_INZ. fold n.
    rewrite sum_co_dev_expand, Hco, <- Hx, <- Hy. fold n.
    f_equal. ring.
  - intros Hle. unfold covariance. rewrite Hc.
    destruct (Z.ltb_spec 1 (Z.of_nat (length ps))); [lia | reflexivity].
Qed.

Lemma covar_direct_formulas_witness :
  let ps := line_pairs in
  let s := add_all init ps in
  let sx := RollingStats.add_all RollingStats.init (map fst ps) in
  let sy := RollingStats.add_all RollingStats.init (map snd ps) in
  let n := INR (length ps) in
  (mean_x s = RollingStats.mean sx /\ variance_x s = RollingStats.variance sx) /\
  (mean_y s = RollingStats.mean sy /\ variance_y s = RollingStats.variance sy) /\
  ((1 < length ps)%nat ->
   covariance s = sum_co_dev (mean_x s) (mean_y s) ps / (n - 1)) /\
  ((length ps <= 1)%nat -> covariance s = 0).
Proof.
  apply (covar_direct_formulas line_pairs). reflexivity.
Defined.

(** Cauchy-Schwarz, one update at a time: the squared comoment never
    exceeds the product of the two sums of squared deviations. *)
Record CS (s : t) : Prop := {
  cs_count : (0 <= count_ s < U64)%Z;
  cs_m2_x : 0 <= m2_x_ s;
  cs_m2_y : 0 <= m2_y_ s;
  cs_comoment : c_ s * c_ s <= m2_x_ s * m2_y_ s
}.

Lemma cs_step (c vx vy a b k : R) :
  0 <= vx -> 0 <= vy -> c * c <= vx * vy -> 0 <= k ->
  (c + k * (a * b)) * (c + k * (a * b)) <= (vx + k * (a * a)) * (vy + k * (b * b)).
Proof.
  intros Hvx Hvy Hc Hk.
  assert (Hcross : 2 * c * (a * b) <= vx * (b * b) + vy * (a * a)).
  { set (P := vx * (b * b) + vy * (a * a)).
    set (Q := 2 * c * (a * b)).
    assert (HP : 0 <= P).
    { unfold P. pose proof (Rle_0_sqr a). pose proof (Rle_0_sqr b).
      unfold Rsqr in *. nra. }
    assert (HQP : Q * Q <= P * P).
    { unfold P, Q.
      assert (H1 : 4 * (c * c) * ((a * a) * (b * b)) <=
                   4 * (vx * vy) * ((a * a) * (b * b))).
      { pose proof (Rle_0_sqr (a * b)) as Hab. unfold Rsqr in Hab.
        apply Rmult_le_compat_r; [nra | lra]. }
      pose proof (Rle_0_sqr (vx * (b * b) - vy * (a * a))) as H2.
      unfold Rsqr in H2. nra. }
    destruct (Rle_lt_dec Q P) as [|Hlt]; [assumption|].
    exfalso. nra. }
  nra.
Qed.

Lemma cs_add s x y : CS s -> (count_ s + 1 < U64)%Z -> CS (add s x y).
Proof.
  intros [Hcnt Hvx Hvy Hc] Hlt.
  assert (Hw : wrap (count_ s + 1) = (count_ s + 1)%Z) by (apply wrap_small; lia).
  assert (Hn : 1 <= IZR (count_ s + 1)) by (apply IZR_le; lia).
  set (n := IZR (count_ s + 1)) in *.
  assert (Hk : 0 <= 1 - / n).
  { assert (/ n <= 1); [|lra].
    rewrite <- Rinv_1. apply Rinv_le_contravar; lra. }
  set (dx := x - mean_x_ s). set (dy := y - mean_y_ s).
  constructor; unfold add; cbn [count_ m2_x_ m2_y_ c_ mean_x_ mean_y_]; rewrite Hw;
    fold n dx dy.
  - lia.
  - replace (dx * (x - (mean_x_ s + dx / n))) with ((1 - / n) * (dx * dx))
      by (unfold dx, Rdiv; ring).
    pose proof (Rle_0_sqr dx) as H. unfold Rsqr in H. nra.
  - replace (dy * (y - (mean_y_ s + dy / n))) with ((1 - / n) * (dy * dy))
      by (unfold dy, Rdiv; ring).
    pose proof (Rle_0_sqr dy) as H. unfold Rsqr in H. nra.
  - replace (dx * (y - (mean_y_ s + dy / n))) with ((1 - / n) * (dx * dy))
      by (unfold dx, dy, Rdiv; ring).
    replace (dx * (x - (mean_x_ s + dx / n))) with ((1 - / n) * (dx * dx))
      by (unfold dx, Rdiv; ring).
    replace (dy * (y - (mean_y_ s + dy / n))) with ((1 - / n) * (dy * dy))
      by (unfold dy, Rdiv; ring).
    apply cs_step; assumption.
Qed.

Lemma cs_add_all ps : forall s,
  CS s -> (count_ s + Z.of_nat (length ps) < U64)%Z -> CS (add_all s ps).
Proof.
  induction ps as [|p ps IH]; intros s Hs Hlen.
  - exact Hs.
  - change (add_all s (p :: ps)) with (add_all (add s (fst p) (snd p)) ps).
    cbn [length] in Hlen. pose proof (cs_count s Hs).
    apply IH.
    + apply cs_add; [exact Hs | lia].
    + rewrite covar_count_add, wrap_small; lia.
Qed.

Lemma cs_init : CS init.
Proof. constructor; cbn; try lra. unfold U64. lia. Qed.

(** What Cauchy-Schwarz gives for the accessors. *)
Lemma correlation_range s :
  CS s -> 0 <= variance_x s /\ 0 <= variance_y s /\ -1 <= correlation s <= 1.
Proof.
  intros [Hcnt Hvx Hvy Hc].
  unfold correlation, covariance, variance_x, variance_y.
  destruct (Z.ltb_spec 1 (count_ s)) as [Hgt|Hle].
  - rewrite wrap_small by lia.
    assert (Hd : 0 < IZR (count_ s - 1)) by (apply IZR_lt; lia).
    set (d := IZR (count_ s - 1)) in *.
    assert (Hid : 0 < / d) by (apply Rinv_0_lt_compat; exact Hd).
    assert (Hx : 0 <= m2_x_ s / d) by (unfold Rdiv; nra).
    assert (Hy : 0 <= m2_y_ s / d) by (unfold Rdiv; nra).
    split; [exact Hx|]. split; [exact Hy|].
    destruct (Rleb_spec (m2_x_ s / d) 0) as [|Hxp]; [cbn; lra|].
    destruct (Rleb_spec (m2_y_ s / d) 0) as [|Hyp]; [cbn; lra|].
    cbn [orb].
    set (V := m2_x_ s / d * (m2_y_ s / d)).
    assert (HV : 0 < V) by (unfold V; nra).
    assert (Hr : 0 < sqrt V) by (apply sqrt_lt_R0; exact HV).
    assert (Hrr : sqrt V * sqrt V = V) by (apply sqrt_sqrt; lra).
    set (r := sqrt V) in *. set (C := c_ s / d).
    assert (HCV : C * C <= r * r).
    { rewrite Hrr. unfold C, V, Rdiv.
      replace (c_ s * / d * (c_ s * / d)) with (c_ s * c_ s * (/ d * / d)) by ring.
      replace (m2_x_ s * / d * (m2_y_ s * / d))
        with (m2_x_ s * m2_y_ s * (/ d * / d)) by ring.
      apply Rmult_le_compat_r; [nra | exact Hc]. }
    assert (Hir : 0 < / r) by (apply Rinv_0_lt_compat; exact Hr).
    assert (Hup : C <= r) by (destruct (Rle_lt_dec C r); [assumption | exfalso; nra]).
    assert (Hlo : - r <= C) by (destruct (Rle_lt_dec (- r) C); [assumption | exfalso; nra]).
    unfold Rdiv. split.
    + replace (-1) with (- r * / r) by (field; lra).
      apply Rmult_le_compat_r; lra.
    + replace 1 with (r * / r) by (field; lra).
      apply Rmult_le_compat_r; lra.
  - split; [lra|]. split; [lra|].
    destruct (Rleb_spec 0 0) as [_|Hn]; [cbn; lra | lra].
Qed.

(** X5. Whatever the data, [correlation()] lies in [[-1, 1]],
    [r_squared()] in [[0, 1]], and both variances are non-negative. *)
Theorem correlation_bounded (ps : list (R * R)) :
  (Z.of_nat (length ps) < U64)%Z ->
  let s := add_all init ps in
  -1 <= correlation s <= 1 /\
  0 <= r_squared s <= 1 /\
  0 <= variance_x s /\ 0 <= variance_y s.
Proof.
  intros Hlen s.
  assert (Hcs : CS s).
  { apply cs_add_all; [apply cs_init | cbn; lia]. }
  destruct (correlation_range s Hcs) as (Hx & Hy & Hlo & Hhi).
  split; [split; assumption|]. split; [|split; assumption].
  unfold r_squared. cbn zeta. split; nra.
Qed.

Lemma correlation_bounded_witness :
  let s := add_all init [(1, 2); (2, 1); (3, 5)] in
  -1 <= correlation s <= 1 /\
  0 <= r_squared s <= 1 /\
  0 <= variance_x s /\ 0 <= variance_y s.
Proof.
  apply (correlation_bounded [(1, 2); (2, 1); (3, 5)]). reflexivity.
Defined.

Lemma add_swap_legs s x y : add (swap_legs s) y x = swap_legs (add s x y).
Proof.
  unfold add, swap_legs. cbn [mean_x_ mean_y_ c_ m2_x_ m2_y_ count_].
  f_equal. unfold Rdiv. ring.
Qed.

Lemma add_all_swap_legs ps : forall s,
  add_all (swap_legs s) (swap_pairs ps) = swap_legs (add_all s ps).
Proof.
  induction ps as [|p ps IH]; intros s; [reflexivity|].
  change (add_all (swap_legs s) (swap_pairs (p :: ps)))
    with (add_all (add (swap_legs s) (snd p) (fst p)) (swap_pairs ps)).
  rewrite add_swap_legs. apply IH.
Qed.

(** X6. Under exact arithmetic the estimator is symmetric in its two
    legs: feeding the pairs with x and y exchanged gives the same
    covariance and the same correlation, and the two regression slopes
    multiply to [r_squared()].  (In binary64 the comoment update
    [dx * (y - mean_y)] rounds differently for the two orders.) *)
Theorem covar_leg_symmetry (ps : list (R * R)) :
  let s := add_all init ps in
  let s' := add_all init (swap_pairs ps) in
  covariance s' = covariance s /\
  correlation s' = correlation s /\
  variance_x s' = variance_y s /\
  beta s' * beta s = r_squared s.
Proof.
  intros s s'.
  assert (Hs' : s' = swap_legs s) by apply (add_all_swap_legs ps init).
  assert (Hcov : covariance s' = covariance s) by (rewrite Hs'; reflexivity).
  assert (Hvx : variance_x s' = variance_y s) by (rewrite Hs'; reflexivity).
  assert (Hvy : variance_y s' = variance_x s) by (rewrite Hs'; reflexivity).
  split; [exact Hcov|].
  assert (Hcorr : correlation s' = correlation s).
  { unfold correlation. cbn zeta. rewrite Hcov, Hvx, Hvy.
    rewrite orb_comm, (Rmult_comm (variance_y s)). reflexivity. }
  split; [exact Hcorr|]. split; [exact Hvx|].
  unfold beta, r_squared, correlation. cbn zeta. rewrite Hcov, Hvx.
  destruct (Rltb_spec 0 (variance_y s)) as [Hy|Hy];
    destruct (Rltb_spec 0 (variance_x s)) as [Hx|Hx];
    destruct (Rleb_spec (variance_x s) 0) as [Hx'|Hx'];
    destruct (Rleb_spec (variance_y s) 0) as [Hy'|Hy'];
    cbn [orb]; try lra.
  assert (HV : 0 < variance_x s * variance_y s) by nra.
  assert (Hr : 0 < sqrt (variance_x s * variance_y s)) by (apply sqrt_lt_R0; exact HV).
  assert (Hrr : sqrt (variance_x s * variance_y s) * sqrt (variance_x s * variance_y s)
                = variance_x s * variance_y s) by (apply sqrt_sqrt; lra).
  set (r := sqrt (variance_x s * variance_y s)) in *.
  replace (covariance s / r * (covariance s / r))
    with (covariance s * covariance s / (r * r)) by (field; lra).
  rewrite Hrr. field. lra.
Qed.

(** Data on a line [y = a x + b]. *)
Record OnLine (a b : R) (s : t) : Prop := {
  ol_c : c_ s = a * m2_x_ s;
  ol_m2_y : m2_y_ s = a * a * m2_x_ s;
  ol_mean : mean_y_ s = a * mean_x_ s + b \/
            (mean_x_ s = 0 /\ mean_y_ s = 0 /\ count_ s = 0%Z)
}.

Lemma on_line_add a b s x :
  OnLine a b s -> OnLine a b (add s x (a * x + b)).
Proof.
  intros [Hc Hv Hm].
  destruct Hm as [Hm|(Hx0 & Hy0 & Hc0)].
  - constructor; unfold add; cbn [mean_x_ mean_y_ c_ m2_x_ m2_y_ count_].
    + rewrite Hc, Hm. unfold Rdiv. ring.
    + rewrite Hv, Hm. unfold Rdiv. ring.
    + left. rewrite Hm. unfold Rdiv. ring.
  - constructor; unfold add; cbn [mean_x_ mean_y_ c_ m2_x_ m2_y_ count_];
      rewrite Hc0, Hx0, Hy0; change (wrap (0 + 1)) with 1%Z.
    + rewrite Hc. field.
    + rewrite Hv. field.
    + left. field.
Qed.

Lemma on_line_add_all a b ps : forall s,
  Forall (fun p => snd p = a * fst p + b) ps ->
  OnLine a b s -> OnLine a b (add_all s ps).
Proof.
  induction ps as [|p ps IH]; intros s Hps Hs; [exact Hs|].
  inversion Hps as [|? ? Hp Hrest]; subst.
  change (add_all s (p :: ps)) with (add_all (add s (fst p) (snd p)) ps).
  apply IH; [exact Hrest|]. rewrite Hp. apply on_line_add. exact Hs.
Qed.

(** The accessors on data of a line whose x-values vary. *)
Lemma on_line_accessors (a b : R) (s : t) :
  OnLine a b s -> 0 < variance_x s ->
  beta s = a /\
  mean_y s = a * mean_x s + b /\
  (0 < a -> correlation s = 1) /\
  (a < 0 -> correlation s = -1) /\
  (a = 0 -> correlation s = 0).
Proof.
  intros [Hc Hv Hm] Hvar.
  assert (Hcnt : (1 < count_ s)%Z).
  { unfold variance_x in Hvar. destruct (Z.ltb_spec 1 (count_ s)); [assumption | lra]. }
  assert (Hcov : covariance s = a * variance_x s).
  { unfold covariance, variance_x.
    destruct (Z.ltb_spec 1 (count_ s)); [|lia]. rewrite Hc. unfold Rdiv. ring. }
  assert (Hvy : variance_y s = a * a * variance_x s).
  { unfold variance_y, variance_x.
    destruct (Z.ltb_spec 1 (count_ s)); [|lia]. rewrite Hv. unfold Rdiv. ring. }
  split_and!.
  - unfold beta. cbn zeta. destruct (Rltb_spec 0 (variance_x s)); [|lra].
    rewrite Hcov. field. lra.
  - destruct Hm as [Hm|(_ & _ & H0)]; [exact Hm | lia].
  - intros Ha. unfold correlation. cbn zeta. rewrite Hvy, Hcov.
    assert (Haa : 0 < a * a * variance_x s).
    { apply Rmult_lt_0_compat; [nra | exact Hvar]. }
    destruct (Rleb_spec (variance_x s) 0) as [|_]; [lra|].
    destruct (Rleb_spec (a * a * variance_x s) 0) as [|_]; [lra|].
    cbn [orb].
    replace (variance_x s * (a * a * variance_x s))
      with ((a * variance_x s) * (a * variance_x s)) by ring.
    rewrite sqrt_square by nra. field. nra.
  - intros Ha. unfold correlation. cbn zeta. rewrite Hvy, Hcov.
    assert (Haa : 0 < a * a * variance_x s).
    { apply Rmult_lt_0_compat; [nra | exact Hvar]. }
    destruct (Rleb_spec (variance_x s) 0) as [|_]; [lra|].
    destruct (Rleb_spec (a * a * variance_x s) 0) as [|_]; [lra|].
    cbn [orb].
    replace (variance_x s * (a * a * variance_x s))
      with ((- a * variance_x s) * (- a * variance_x s)) by ring.
    rewrite sqrt_square by nra. field. nra.
  - intros Ha. unfold correlation. cbn zeta. rewrite Hvy, Ha.
    destruct (Rleb_spec (0 * 0 * variance_x s) 0) as [_|Hn]; [|lra].
    rewrite orb_true_r. reflexivity.
Qed.

Lemma on_line_init (a b : R) : OnLine a b init.
Proof. constructor; cbn; try lra. right. auto. Qed.

(** A leg that never moves: nothing is accumulated for it. *)
Record FlatX (c : R) (s : t) : Prop := {
  fx_m2 : m2_x_ s = 0;
  fx_mean : mean_x_ s = c \/ (mean_x_ s = 0 /\ count_ s = 0%Z)
}.

Lemma flat_x_add c s y : FlatX c s -> FlatX c (add s c y).
Proof.
  intros [Hm2 Hmean]. constructor; unfold add; cbn [mean_x_ m2_x_ count_].
  - destruct Hmean as [->|[-> ->]].
    + rewrite Hm2. unfold Rdiv. ring.
    + rewrite Hm2. change (wrap (0 + 1)) with 1%Z. field.
  - left. destruct Hmean as [->|[-> ->]].
    + unfold Rdiv. ring.
    + change (wrap (0 + 1)) with 1%Z. field.
Qed.

Lemma flat_x_add_all c ps : forall s,
  Forall (fun p => fst p = c) ps -> FlatX c s -> FlatX c (add_all s ps).
Proof.
  induction ps as [|p ps IH]; intros s Hps Hs; [exact Hs|].
  inversion Hps as [|? ? Hp Hrest]; subst.
  change (add_all s (p :: ps)) with (add_all (add s (fst p) (snd p)) ps).
  apply IH; [exact Hrest | apply flat_x_add; exact Hs].
Qed.

Lemma zero_m2_no_correlation s :
  m2_x_ s = 0 \/ m2_y_ s = 0 -> correlation s = 0.
Proof.
  intros H. unfold correlation, variance_x, variance_y. cbn zeta.
  destruct H as [H|H]; rewrite H.
  - assert (Hv : (if (1 <? count_ s)%Z then 0 / IZR (wrap (count_ s - 1)) else 0) = 0).
    { destruct (1 <? count_ s)%Z; [unfold Rdiv; ring | reflexivity]. }
    rewrite Hv. destruct (Rleb_spec 0 0) as [_|]; [reflexivity | lra].
  - assert (Hv : (if (1 <? count_ s)%Z then 0 / IZR (wrap (count_ s - 1)) else 0) = 0).
    { destruct (1 <? count_ s)%Z; [unfold Rdiv; ring | reflexivity]. }
    rewrite Hv. destruct (Rleb_spec 0 0) as [_|]; [|lra].
    rewrite orb_true_r. reflexivity.
Qed.

(** A flat leg, whichever it is, leaves the correlation at 0. *)
Lemma flat_leg_no_correlation (c : R) (ps : list (R * R)) :
  Forall (fun p => fst p = c) ps \/ Forall (fun p => snd p = c) ps ->
  correlation (add_all init ps) = 0.
Proof.
  assert (Hinit : FlatX c init) by (constructor; cbn; auto).
  intros [Hx|Hy]; apply zero_m2_no_correlation.
  - left. apply (fx_m2 c), flat_x_add_all; [exact Hx | exact Hinit].
  - right.
    assert (Hsw : FlatX c (add_all init (swap_pairs ps))).
    { apply flat_x_add_all; [|exact Hinit].
      unfold swap_pairs. rewrite Forall_map.
      eapply Forall_impl; [exact Hy|]. intros p Hp. exact Hp. }
    change init with (swap_legs init) in Hsw. rewrite add_all_swap_legs in Hsw.
    exact (fx_m2 c _ Hsw).
Qed.

(** X7. Under exact arithmetic, for pairs that lie exactly on a line
    [y = a x + b], with x-values that are not all equal: [beta()] is the
    slope [a], the means lie on the line, [correlation()] is 1 for a
    rising line, -1 for a falling one and 0 for a flat one.  (In binary64
    these values are met only up to rounding.) *)
Theorem covar_exact_line (a b : R) (ps : list (R * R)) :
  Forall (fun p => snd p = a * fst p + b) ps ->
  let s := add_all init ps in
  0 < variance_x s ->
  beta s = a /\
  mean_y s = a * mean_x s + b /\
  (0 < a -> correlation s = 1) /\
  (a < 0 -> correlation s = -1) /\
  (a = 0 -> correlation s = 0).
Proof.
  intros Hps s Hvar.
  apply on_line_accessors; [|exact Hvar].
  apply on_line_add_all; [exact Hps | apply on_line_init].
Qed.

Lemma covar_exact_line_witness :
  let s := add_all init line_pairs in
  beta s = 2 /\
  mean_y s = 2 * mean_x s + 1 /\
  (0 < 2 -> correlation s = 1) /\
  (2 < 0 -> correlation s = -1) /\
  (2 = 0 -> correlation s = 0).
Proof.
  apply (covar_exact_line 2 1 line_pairs).
  - unfold line_pairs. repeat constructor; cbn; lra.
  - rewrite line_state. unfold variance_x.
    cbn [count_ m2_x_ Z.ltb Z.compare Pos.compare Pos.compare_cont].
    change (wrap (5 - 1)) with 4%Z. lra.
Defined.

End RollingCovar.

(** ** Exponentially weighted covariance ([EMACovar]) *)

Module EMACovar.
#[local] Open Scope R_scope.

Record t := mk {
  alpha_ : R;
  mean_x_ : R;
  mean_y_ : R;
  cov_ : R;
  var_x_ : R;
  var_y_ : R;
  initialized_ : bool
}.

Definition of_alpha (alpha : R) : t :=
  {| alpha_ := alpha; mean_x_ := 0; mean_y_ := 0; cov_ := 0; var_x_ := 0;
     var_y_ := 0; initialized_ := false |}.

Definition of_window (window : Z) : t :=
  of_alpha (2 / (IZR window + 1)).

Definition add (s : t) (x y : R) : t :=
  if negb (initialized_ s) then
    {| alpha_ := alpha_ s; mean_x_ := x; mean_y_ := y; cov_ := 0; var_x_ := 0;
       var_y_ := 0; initialized_ := true |}
  else
    let dx := x - mean_x_ s in
    let dy := y - mean_y_ s in
    {| alpha_ := alpha_ s;
       mean_x_ := mean_x_ s + alpha_ s * dx;
       mean_y_ := mean_y_ s + alpha_ s * dy;
       cov_ := (1 - alpha_ s) * cov_ s + alpha_ s * dx * dy;
       var_x_ := (1 - alpha_ s) * var_x_ s + alpha_ s * dx * dx;
       var_y_ := (1 - alpha_ s) * var_y_ s + alpha_ s * dy * dy;
       initialized_ := true |}.

Definition reset (s : t) : t :=
  {| alpha_ := alpha_ s; mean_x_ := 0; mean_y_ := 0; cov_ := 0; var_x_ := 0;
     var_y_ := 0; initialized_ := false |}.

Definition mean_x (s : t) : R := mean_x_ s.
Definition mean_y (s : t) : R := mean_y_ s.
Definition covariance (s : t) : R := cov_ s.
Definition variance_x (s : t) : R := var_x_ s.
Definition variance_y (s : t) : R := var_y_ s.

Definition correlation (s : t) : R :=
  if Rleb (var_x_ s) 0 || Rleb (var_y_ s) 0 then 0
  else cov_ s / sqrt (var_x_ s * var_y_ s).

Definition beta (s : t) : R :=
  if Rltb 0 (var_x_ s) then cov_ s / var_x_ s else 0.

Definition is_initialized (s : t) : bool := initialized_ s.

Definition add_all (s : t) (ps : list (R * R)) : t :=
  fold_left (fun acc p => add acc (fst p) (snd p)) ps s.

(** Cauchy-Schwarz for the weighted moments. *)
Record CS (alpha : R) (s : t) : Prop := {
  cs_alpha : alpha_ s = alpha;
  cs_var_x : 0 <= var_x_ s;
  cs_var_y : 0 <= var_y_ s;
  cs_cov : cov_ s * cov_ s <= var_x_ s * var_y_ s
}.

Lemma ema_cs_add alpha s x y :
  0 < alpha <= 1 -> CS alpha s -> CS alpha (add s x y).
Proof.
  intros Ha [Hal Hvx Hvy Hc]. unfold add. rewrite Hal.
  destruct (initialized_ s); cbn [negb]; constructor;
    cbn [alpha_ var_x_ var_y_ cov_]; try reflexivity; try lra.
  - pose proof (Rle_0_sqr (x - mean_x_ s)) as H. unfold Rsqr in H. nra.
  - pose proof (Rle_0_sqr (y - mean_y_ s)) as H. unfold Rsqr in H. nra.
  - set (dx := x - mean_x_ s). set (dy := y - mean_y_ s).
    replace (alpha * dx * dy) with (alpha * (dx * dy)) by ring.
    replace (alpha * dx * dx) with (alpha * (dx * dx)) by ring.
    replace (alpha * dy * dy) with (alpha * (dy * dy)) by ring.
    apply RollingCovar.cs_step; try nra.
    replace ((1 - alpha) * cov_ s * ((1 - alpha) * cov_ s))
      with ((1 - alpha) * (1 - alpha) * (cov_ s * cov_ s)) by ring.
    replace ((1 - alpha) * var_x_ s * ((1 - alpha) * var_y_ s))
      with ((1 - alpha) * (1 - alpha) * (var_x_ s * var_y_ s)) by ring.
    apply Rmult_le_compat_l; [nra | exact Hc].
Qed.

Lemma ema_cs_add_all alpha ps : forall s,
  0 < alpha <= 1 -> CS alpha s -> CS alpha (add_all s ps).
Proof.
  induction ps as [|p ps IH]; intros s Ha Hs; [exact Hs|].
  change (add_all s (p :: ps)) with (add_all (add s (fst p) (snd p)) ps).
  apply IH; [exact Ha | apply ema_cs_add; assumption].
Qed.

(** X29. An [EMACovar] with a smoothing factor in [(0, 1]], fresh or
    reset, keeps both variances non-negative and reports a correlation
    within [[-1, 1]] whatever pairs it is fed. *)
Theorem ema_correlation_bounded (s0 : t) (ps : list (R * R)) :
  0 < alpha_ s0 <= 1 ->
  let s := add_all (reset s0) ps in
  0 <= variance_x s /\ 0 <= variance_y s /\ -1 <= correlation s <= 1.
Proof.
  intros Ha s.
  assert (Hcs : CS (alpha_ s0) s).
  { apply ema_cs_add_all; [exact Ha|]. constructor; cbn; try reflexivity; lra. }
  destruct Hcs as [_ Hvx Hvy Hc].
  split; [exact Hvx|]. split; [exact Hvy|].
  unfold correlation.
  destruct (Rleb_spec (var_x_ s) 0) as [|Hxp]; [cbn; lra|].
  destruct (Rleb_spec (var_y_ s) 0) as [|Hyp]; [cbn; lra|].
  cbn [orb].
  set (V := var_x_ s * var_y_ s) in *.
  assert (HV : 0 < V) by (unfold V; nra).
  assert (Hr : 0 < sqrt V) by (apply sqrt_lt_R0; exact HV).
  assert (Hrr : sqrt V * sqrt V = V) by (apply sqrt_sqrt; lra).
  set (r := sqrt V) in *.
  assert (Hir : 0 < / r) by (apply Rinv_0_lt_compat; exact Hr).
  assert (Hup : cov_ s <= r)
    by (destruct (Rle_lt_dec (cov_ s) r); [assumption | exfalso; nra]).
  assert (Hlo : - r <= cov_ s)
    by (destruct (Rle_lt_dec (- r) (cov_ s)); [assumption | exfalso; nra]).
  unfold Rdiv. split.
  - replace (-1) with (- r * / r) by (field; lra).
    apply Rmult_le_compat_r; lra.
  - replace 1 with (r * / r) by (field; lra).
    apply Rmult_le_compat_r; lra.
Qed.

Lemma ema_correlation_bounded_witness :
  let s := add_all (reset (of_alpha (1 / 2))) [(1, 2); (2, 1); (3, 5)] in
  0 <= variance_x s /\ 0 <= variance_y s /\ -1 <= correlation s <= 1.
Proof.
  apply (ema_correlation_bounded (of_alpha (1 / 2)) [(1, 2); (2, 1); (3, 5)]).
  cbn. lra.
Defined.

End EMACovar.

(** ** The accessors in binary64

    The estimators compute in [double].  This module repeats
    [RollingStats] and [RollingCovar] over the kernel's binary64 floats:
    every arithmetic operation of the source is one IEEE 754 operation,
    rounded to nearest with ties to even (no fused multiply-add), and a
    comparison with a NaN is false.  The counters stay 64-bit integers. *)

Module Binary64.
#[local] Open Scope float_scope.

(** [static_cast<double>] of a 64-bit unsigned integer: the nearest
    binary64 value. *)
Definition of_uint64 (z : Z) : float :=
  SF2Prim (binary_normalize prec emax z 0 false).

Module RollingStats.

Record t := mk {
  mean_ : float;
  m2_ : float;
  count_ : Z
}.

Definition init : t := {| mean_ := 0; m2_ := 0; count_ := 0 |}.

Definition add (s : t) (value : float) : t :=
  let count := wrap (count_ s + 1) in
  let delta := value - mean_ s in
  let mean := mean_ s + delta / of_uint64 count in
  let delta2 := value - mean in
  {| mean_ := mean; m2_ := m2_ s + delta * delta2; count_ := count |}.

Definition mean (s : t) : float := mean_ s.
Definition count (s : t) : Z := count_ s.

Definition variance (s : t) : float :=
  if (1 <? count_ s)%Z then m2_ s / of_uint64 (wrap (count_ s - 1)) else 0.

Definition std_dev (s : t) : float := PrimFloat.sqrt (variance s).

Definition cv (s : t) : float :=
  if negb (mean_ s =? 0) then std_dev s / abs (mean_ s) else 0.

Definition z_score (s : t) (value : float) : float :=
  let sd := std_dev s in
  if 0 <? sd then (value - mean_ s) / sd else 0.

Definition add_all (s : t) (xs : list float) : t := fold_left add xs s.

End RollingStats.

Module RollingCovar.

Record t := mk {
  mean_x_ : float;
  mean_y_ : float;
  c_ : float;
  m2_x_ : float;
  m2_y_ : float;
  count_ : Z
}.

Definition init : t :=
  {| mean_x_ := 0; mean_y_ := 0; c_ := 0; m2_x_ := 0; m2_y_ := 0; count_ := 0 |}.

Definition add (s : t) (x y : float) : t :=
  let count := wrap (count_ s + 1) in
  let n := of_uint64 count in
  let dx := x - mean_x_ s in
  let dy := y - mean_y_ s in
  let mean_x := mean_x_ s + dx / n in
  let mean_y := mean_y_ s + dy / n in
  {| mean_x_ := mean_x;
     mean_y_ := mean_y;
     c_ := c_ s + dx * (y - mean_y);
     m2_x_ := m2_x_ s + dx * (x - mean_x);
     m2_y_ := m2_y_ s + dy * (y - mean_y);
     count_ := count |}.

Definition count (s : t) : Z := count_ s.

Definition covariance (s : t) : float :=
  if (1 <? count_ s)%Z then c_ s / of_uint64 (wrap (count_ s - 1)) else 0.

Definition variance_x (s : t) : float :=
  if (1 <? count_ s)%Z then m2_x_ s / of_uint64 (wrap (count_ s - 1)) else 0.

Definition variance_y (s : t) : float :=
  if (1 <? count_ s)%Z then m2_y_ s / of_uint64 (wrap (count_ s - 1)) else 0.

Definition correlation (s : t) : float :=
  let var_x := variance_x s in
  let var_y := variance_y s in
  if ((var_x <=? 0) || (var_y <=? 0))%bool then 0
  else covariance s / PrimFloat.sqrt (var_x * var_y).

Definition beta (s : t) : float :=
  let var_x := variance_x s in
  if 0 <? var_x then covariance s / var_x else 0.

Definition add_all (s : t) (ps : list (float * float)) : t :=
  fold_left (fun acc p => add acc (fst p) (snd p)) ps s.

End RollingCovar.






(** Rounding shows in the results as well: the four points
    [(-4, -20), (20, 100), (39, 195), (49, 245)] of the line [y = 5 x]
    give a correlation above 1 and a slope above 5, and exchanging the
    legs of [(25, -37), (-10, -47), (-48, -47)] changes the covariance. *)
Example correlation_above_one :
  let s := RollingCovar.add_all RollingCovar.init
             [(-4, -20); (20, 100); (39, 195); (49, 245)] in
  (1 <? RollingCovar.correlation s) = true /\ (5 <? RollingCovar.beta s) = true.
Proof. vm_compute. split; reflexivity. Qed.

Example leg_order_changes_covariance :
  let s := RollingCovar.add_all RollingCovar.init
             [(25, -37); (-10, -47); (-48, -47)] in
  let s' := RollingCovar.add_all RollingCovar.init
              [(-37, 25); (-47, -10); (-47, -48)] in
  (RollingCovar.covariance s' <? RollingCovar.covariance s) = true.
Proof. vm_compute. reflexivity. Qed.

End Binary64.

(** ** Guarded accessors (exact arithmetic) *)

Section Guards.
#[local] Open Scope R_scope.

Lemma count_divisor_pos (c : Z) : (1 < c < U64)%Z -> 0 < IZR (wrap (c - 1)).
Proof.
  intros Hc. rewrite wrap_small by lia. apply IZR_lt. lia.
Qed.

Lemma correlation_cases (s : RollingCovar.t) :
  let vx := RollingCovar.variance_x s in
  let vy := RollingCovar.variance_y s in
  (vx <= 0 \/ vy <= 0 -> RollingCovar.correlation s = 0) /\
  (0 < vx -> 0 < vy ->
     0 < sqrt (vx * vy) /\
     RollingCovar.correlation s = RollingCovar.covariance s / sqrt (vx * vy)).
Proof.
  intros vx vy. unfold RollingCovar.correlation. fold vx vy. split.
  - intros [H|H].
    + destruct (Rleb_spec vx 0); [reflexivity | contradiction].
    + destruct (Rleb_spec vy 0); [|contradiction].
      rewrite orb_true_r. reflexivity.
  - intros Hx Hy. split.
    + apply sqrt_lt_R0, Rmult_lt_0_compat; assumption.
    + destruct (Rleb_spec vx 0); [lra|].
      destruct (Rleb_spec vy 0); [lra|]. reflexivity.
Qed.

Lemma beta_cases (s : RollingCovar.t) :
  let vx := RollingCovar.variance_x s in
  (vx <= 0 -> RollingCovar.beta s = 0) /\
  (0 < vx -> RollingCovar.beta s = RollingCovar.covariance s / vx).
Proof.
  intros vx. unfold RollingCovar.beta. fold vx.
  destruct (Rltb_spec 0 vx); split; intros; try reflexivity; lra.
Qed.

Lemma z_score_cases (s : RollingStats.t) (value : R) :
  let sd := RollingStats.std_dev s in
  (~ 0 < sd -> RollingStats.z_score s value = 0) /\
  (0 < sd -> RollingStats.z_score s value = (value - RollingStats.mean s) / sd).
Proof.
  intros sd. unfold RollingStats.z_score. fold sd.
  destruct (Rltb_spec 0 sd); split; intros; try reflexivity; contradiction.
Qed.

Lemma cv_cases (s : RollingStats.t) :
  let m := RollingStats.mean s in
  (m = 0 -> RollingStats.cv s = 0) /\
  (m <> 0 ->
     0 < Rabs m /\ RollingStats.cv s = RollingStats.std_dev s / Rabs m).
Proof.
  intros m. unfold RollingStats.cv. fold (RollingStats.mean s). fold m.
  destruct (Reqb_spec m 0); cbn [negb]; split; intros; try reflexivity;
    try contradiction.
  split; [apply Rabs_pos_lt; assumption | reflexivity].
Qed.

Lemma variance_cases (s : RollingStats.t) :
  ((RollingStats.count s <= 1)%Z -> RollingStats.variance s = 0) /\
  ((1 < RollingStats.count s < U64)%Z ->
     0 < IZR (wrap (RollingStats.count s - 1)) /\
     RollingStats.variance s =
       RollingStats.m2_ s / IZR (wrap (RollingStats.count s - 1))).
Proof.
  unfold RollingStats.variance, RollingStats.count.
  destruct (Z.ltb_spec 1 (RollingStats.count_ s)); split; intros;
    try reflexivity; try lia.
  split; [apply count_divisor_pos; assumption | reflexivity].
Qed.

Lemma covar_variance_cases (s : RollingCovar.t) :
  ((RollingCovar.count s <= 1)%Z ->
     RollingCovar.variance_x s = 0 /\ RollingCovar.variance_y s = 0 /\
     RollingCovar.covariance s = 0) /\
  ((1 < RollingCovar.count s < U64)%Z ->
     0 < IZR (wrap (RollingCovar.count s - 1)) /\
     RollingCovar.variance_x s =
       RollingCovar.m2_x_ s / IZR (wrap (RollingCovar.count s - 1)) /\
     RollingCovar.variance_y s =
       RollingCovar.m2_y_ s / IZR (wrap (RollingCovar.count s - 1)) /\
     RollingCovar.covariance s =
       RollingCovar.c_ s / IZR (wrap (RollingCovar.count s - 1))).
Proof.
  unfold RollingCovar.variance_x, RollingCovar.variance_y, RollingCovar.covariance,
    RollingCovar.count.
  destruct (Z.ltb_spec 1 (RollingCovar.count_ s)); split; intros;
    try lia; try (split_and!; reflexivity).
  split; [apply count_divisor_pos; assumption | split_and!; reflexivity].
Qed.

(** Over exact reals every divisor is positive once the guard has let the
    division through: [correlation] is 0 when either variance is not
    positive and otherwise [cov / sqrt (var_x * var_y)] with
    [sqrt (var_x * var_y) > 0]; [beta] is 0 when [var_x <= 0] and
    otherwise [cov / var_x]; [z_score] is 0 when the standard deviation is
    not strictly positive and otherwise [(x - mean) / sd]; [cv] is 0 when
    the mean is 0 and otherwise [sd / |mean|] with [|mean| > 0].  The
    variances and the covariance they rest on are 0 for a count of at most
    1 and otherwise a quotient by [count - 1 > 0]. *)
Lemma guarded_accessors_exact :
  (forall s : RollingCovar.t,
     let vx := RollingCovar.variance_x s in
     let vy := RollingCovar.variance_y s in
     (vx <= 0 \/ vy <= 0 -> RollingCovar.correlation s = 0) /\
     (0 < vx -> 0 < vy ->
        0 < sqrt (vx * vy) /\
        RollingCovar.correlation s = RollingCovar.covariance s / sqrt (vx * vy)) /\
     (vx <= 0 -> RollingCovar.beta s = 0) /\
     (0 < vx -> RollingCovar.beta s = RollingCovar.covariance s / vx) /\
     ((RollingCovar.count s <= 1)%Z -> vx = 0 /\ vy = 0 /\ RollingCovar.covariance s = 0) /\
     ((1 < RollingCovar.count s < U64)%Z ->
        0 < IZR (wrap (RollingCovar.count s - 1)) /\
        vx = RollingCovar.m2_x_ s / IZR (wrap (RollingCovar.count s - 1)) /\
        vy = RollingCovar.m2_y_ s / IZR (wrap (RollingCovar.count s - 1)) /\
        RollingCovar.covariance s =
          RollingCovar.c_ s / IZR (wrap (RollingCovar.count s - 1)))) /\
  (forall (s : RollingStats.t) (value : R),
     let sd := RollingStats.std_dev s in
     let m := RollingStats.mean s in
     (~ 0 < sd -> RollingStats.z_score s value = 0) /\
     (0 < sd -> RollingStats.z_score s value = (value - m) / sd) /\
     (m = 0 -> RollingStats.cv s = 0) /\
     (m <> 0 -> 0 < Rabs m /\ RollingStats.cv s = sd / Rabs m) /\
     ((RollingStats.count s <= 1)%Z -> RollingStats.variance s = 0) /\
     ((1 < RollingStats.count s < U64)%Z ->
        0 < IZR (wrap (RollingStats.count s - 1)) /\
        RollingStats.variance s =
          RollingStats.m2_ s / IZR (wrap (RollingStats.count s - 1)))).
Proof.
  split.
  - intros s vx vy.
    destruct (correlation_cases s) as [Hc0 Hc1].
    destruct (beta_cases s) as [Hb0 Hb1].
    destruct (covar_variance_cases s) as [Hv0 Hv1].
    split_and!; auto.
  - intros s value sd m.
    destruct (z_score_cases s value) as [Hz0 Hz1].
    destruct (cv_cases s) as [Hv0 Hv1].
    destruct (variance_cases s) as [Hs0 Hs1].
    split_and!; auto.
Qed.

End Guards.


(** ** Signal rules ([include/engine/signal_rules.hpp])

    [evaluate] returns the pair (fires, signal_strength); the second
    component is the value written to the out-parameter. *)

Module ZScoreRule.
#[local] Open Scope R_scope.

Record t := mk {
  stats_ : RollingStats.t;
  threshold_ : R;
  last_value_ : R;
  has_value_ : bool
}.

Definition new (threshold : R) : t :=
  {| stats_ := RollingStats.init; threshold_ := threshold;
     last_value_ := 0; has_value_ := false |}.

Definition add_observation (r : t) (value : R) : t :=
  {| stats_ := RollingStats.add (stats_ r) value;
     threshold_ := threshold_ r;
     last_value_ := value;
     has_value_ := true |}.

Definition evaluate (r : t) : bool * R :=
  if negb (has_value_ r) || (RollingStats.count (stats_ r) <? 10)%Z then (false, 0)
  else
    let signal_strength := RollingStats.z_score (stats_ r) (last_value_ r) in
    (Rleb (threshold_ r) (Rabs signal_strength), signal_strength).

Definition reset (r : t) : t :=
  {| stats_ := RollingStats.reset (stats_ r);
     threshold_ := threshold_ r;
     last_value_ := 0;
     has_value_ := false |}.

Definition add_observations (r : t) (xs : list R) : t :=
  fold_left add_observation xs r.

Lemma stats_add_observations xs : forall r,
  stats_ (add_observations r xs) = RollingStats.add_all (stats_ r) xs.
Proof.
  induction xs as [|x xs IH]; intros r; [reflexivity|].
  cbn [add_observations fold_left]. fold (add_observations (add_observation r x) xs).
  rewrite IH. reflexivity.
Qed.

End ZScoreRule.

Module CorrelationBreakRule.
#[local] Open Scope R_scope.

Record t := mk {
  covar_ : RollingCovar.t;
  correlation_threshold_ : R;
  min_observations_ : R;
  below_threshold_ : bool
}.

Definition new (corr_threshold min_obs : R) : t :=
  {| covar_ := RollingCovar.init;
     correlation_threshold_ := corr_threshold;
     min_observations_ := min_obs;
     below_threshold_ := false |}.

(** The constructor's default arguments. *)
Definition default_corr_threshold : R := 3 / 10.
Definition default_min_obs : R := 50.

Definition add_pair (r : t) (x y : R) : t :=
  {| covar_ := RollingCovar.add (covar_ r) x y;
     correlation_threshold_ := correlation_threshold_ r;
     min_observations_ := min_observations_ r;
     below_threshold_ := below_threshold_ r |}.

Definition evaluate (r : t) : bool * R :=
  if Rltb (IZR (RollingCovar.count (covar_ r))) (min_observations_ r) then (false, 0)
  else
    let corr := RollingCovar.correlation (covar_ r) in
    (Rltb (Rabs corr) (correlation_threshold_ r), corr).

Definition reset (r : t) : t :=
  {| covar_ := RollingCovar.reset (covar_ r);
     correlation_threshold_ := correlation_threshold_ r;
     min_observations_ := min_observations_ r;
     below_threshold_ := false |}.

Definition correlation (r : t) : R := RollingCovar.correlation (covar_ r).
Definition beta (r : t) : R := RollingCovar.beta (covar_ r).

Definition add_pairs (r : t) (ps : list (R * R)) : t :=
  fold_left (fun acc p => add_pair acc (fst p) (snd p)) ps r.

Lemma covar_add_pairs ps : forall r,
  covar_ (add_pairs r ps) = RollingCovar.add_all (covar_ r) ps.
Proof.
  induction ps as [|p ps IH]; intros r; [reflexivity|].
  cbn [add_pairs fold_left].
  fold (add_pairs (add_pair r (fst p) (snd p)) ps).
  rewrite IH. reflexivity.
Qed.

Lemma min_observations_add_pairs ps : forall r,
  min_observations_ (add_pairs r ps) = min_observations_ r.
Proof.
  induction ps as [|p ps IH]; intros r; [reflexivity|].
  cbn [add_pairs fold_left].
  fold (add_pairs (add_pair r (fst p) (snd p)) ps).
  rewrite IH. reflexivity.
Qed.

End CorrelationBreakRule.

Module MeanReversionRule.
#[local] Open Scope R_scope.

Record t := mk {
  fast_ema_ : EMAStats.t;
  slow_ema_ : EMAStats.t;
  threshold_ : R;
  last_value_ : R;
  has_value_ : bool
}.

Definition new (fast_window slow_window : Z) (threshold : R) : t :=
  {| fast_ema_ := EMAStats.of_window fast_window;
     slow_ema_ := EMAStats.of_window slow_window;
     threshold_ := threshold;
     last_value_ := 0;
     has_value_ := false |}.

(** [MeanReversionRule()] with the default arguments. *)
Definition default : t := new 10 50 2.

Definition add_observation (r : t) (value : R) : t :=
  {| fast_ema_ := EMAStats.add (fast_ema_ r) value;
     slow_ema_ := EMAStats.add (slow_ema_ r) value;
     threshold_ := threshold_ r;
     last_value_ := value;
     has_value_ := true |}.

Definition evaluate (r : t) : bool * R :=
  if negb (has_value_ r) || negb (EMAStats.is_initialized (fast_ema_ r))
     || negb (EMAStats.is_initialized (slow_ema_ r)) then (false, 0)
  else
    let fast_mean := EMAStats.mean (fast_ema_ r) in
    let slow_mean := EMAStats.mean (slow_ema_ r) in
    let fast_std := EMAStats.std_dev (fast_ema_ r) in
    if Rleb fast_std 0 then (false, 0)
    else
      let signal_strength := (fast_mean - slow_mean) / fast_std in
      (Rleb (threshold_ r) (Rabs signal_strength), signal_strength).

Definition reset (r : t) : t :=
  {| fast_ema_ := EMAStats.reset (fast_ema_ r);
     slow_ema_ := EMAStats.reset (slow_ema_ r);
     threshold_ := threshold_ r;
     last_value_ := 0;
     has_value_ := false |}.

Definition add_observations (r : t) (xs : list R) : t :=
  fold_left add_observation xs r.

End MeanReversionRule.

Module VolumeRule.
#[local] Open Scope R_scope.

Record t := mk {
  volume_stats_ : RollingStats.t;
  threshold_ : R;
  last_volume_ : R;
  has_volume_ : bool
}.

Definition new (threshold : R) : t :=
  {| volume_stats_ := RollingStats.init; threshold_ := threshold;
     last_volume_ := 0; has_volume_ := false |}.

Definition add_volume (r : t) (volume : R) : t :=
  {| volume_stats_ := RollingStats.add (volume_stats_ r) volume;
     threshold_ := threshold_ r;
     last_volume_ := volume;
     has_volume_ := true |}.

Definition evaluate (r : t) : bool * R :=
  if negb (has_volume_ r) || (RollingStats.count (volume_stats_ r) <? 20)%Z
  then (false, 0)
  else
    let signal_strength := RollingStats.z_score (volume_stats_ r) (last_volume_ r) in
    (Rleb (threshold_ r) signal_strength, signal_strength).

Definition reset (r : t) : t :=
  {| volume_stats_ := RollingStats.reset (volume_stats_ r);
     threshold_ := threshold_ r;
     last_volume_ := 0;
     has_volume_ := false |}.

Definition add_volumes (r : t) (xs : list R) : t :=
  fold_left add_volume xs r.

Lemma stats_add_volumes xs : forall r,
  volume_stats_ (add_volumes r xs) = RollingStats.add_all (volume_stats_ r) xs.
Proof.
  induction xs as [|x xs IH]; intros r; [reflexivity|].
  cbn [add_volumes fold_left]. fold (add_volumes (add_volume r x) xs).
  rewrite IH. reflexivity.
Qed.

End VolumeRule.

(** *** Warm-up *)

Section Warmup.
#[local] Open Scope R_scope.

Lemma warm_count_stats (s : RollingStats.t) (xs : list R) (k : Z) :
  RollingStats.count_ s = 0%Z -> (Z.of_nat (length xs) < k)%Z ->
  (RollingStats.count (RollingStats.add_all s xs) <? k)%Z = true.
Proof.
  intros Hs Hk. unfold RollingStats.count.
  rewrite RollingStats.count_add_all by (rewrite Hs; unfold U64; lia).
  rewrite Hs, Z.add_0_l. apply Z.ltb_lt.
  pose proof (Z.mod_le (Z.of_nat (length xs)) U64 ltac:(lia) U64_pos).
  unfold wrap. lia.
Qed.

Lemma zscore_warmup (r : ZScoreRule.t) (xs : list R) :
  RollingStats.count_ (ZScoreRule.stats_ r) = 0%Z ->
  (length xs < 10)%nat ->
  ZScoreRule.evaluate (ZScoreRule.add_observations r xs) = (false, 0).
Proof.
  intros Hr Hlen. unfold ZScoreRule.evaluate.
  rewrite ZScoreRule.stats_add_observations.
  rewrite warm_count_stats by (assumption || lia).
  rewrite orb_true_r. reflexivity.
Qed.

Lemma volume_warmup (r : VolumeRule.t) (xs : list R) :
  RollingStats.count_ (VolumeRule.volume_stats_ r) = 0%Z ->
  (length xs < 20)%nat ->
  VolumeRule.evaluate (VolumeRule.add_volumes r xs) = (false, 0).
Proof.
  intros Hr Hlen. unfold VolumeRule.evaluate.
  rewrite VolumeRule.stats_add_volumes.
  rewrite warm_count_stats by (assumption || lia).
  rewrite orb_true_r. reflexivity.
Qed.

Lemma correlation_warmup (r : CorrelationBreakRule.t) (ps : list (R * R)) :
  RollingCovar.count_ (CorrelationBreakRule.covar_ r) = 0%Z ->
  INR (length ps) < CorrelationBreakRule.min_observations_ r ->
  CorrelationBreakRule.evaluate (CorrelationBreakRule.add_pairs r ps) = (false, 0).
Proof.
  intros Hr Hlen. unfold CorrelationBreakRule.evaluate.
  rewrite CorrelationBreakRule.covar_add_pairs,
    CorrelationBreakRule.min_observations_add_pairs.
  unfold RollingCovar.count.
  rewrite RollingCovar.covar_count_add_all by (rewrite Hr; unfold U64; lia).
  rewrite Hr, Z.add_0_l.
  destruct (Rltb_spec (IZR (wrap (Z.of_nat (length ps))))
              (CorrelationBreakRule.min_observations_ r)) as [_|Hn];
    [reflexivity | exfalso; apply Hn].
  eapply Rle_lt_trans; [|exact Hlen].
  rewrite INR_IZR_INZ. apply IZR_le.
  apply Z.mod_le; [lia | apply U64_pos].
Qed.

(** C5. Warm-up gating: a [ZScoreRule] that is new or has been reset
    evaluates to (false, 0) while fewer than 10 observations have been
    added since, a [VolumeRule] while fewer than 20, and a
    [CorrelationBreakRule] while fewer pairs than its minimum (50 by
    default, and in the rules the router creates). *)
Theorem warmup_gating :
  (forall (r : ZScoreRule.t) (threshold : R) (xs : list R),
     (length xs < 10)%nat ->
     ZScoreRule.evaluate (ZScoreRule.add_observations (ZScoreRule.new threshold) xs)
       = (false, 0) /\
     ZScoreRule.evaluate (ZScoreRule.add_observations (ZScoreRule.reset r) xs)
       = (false, 0)) /\
  (forall (r : VolumeRule.t) (threshold : R) (xs : list R),
     (length xs < 20)%nat ->
     VolumeRule.evaluate (VolumeRule.add_volumes (VolumeRule.new threshold) xs)
       = (false, 0) /\
     VolumeRule.evaluate (VolumeRule.add_volumes (VolumeRule.reset r) xs)
       = (false, 0)) /\
  (forall (r : CorrelationBreakRule.t) (corr_threshold min_obs : R)
          (ps : list (R * R)),
     (INR (length ps) < min_obs ->
      CorrelationBreakRule.evaluate
        (CorrelationBreakRule.add_pairs
           (CorrelationBreakRule.new corr_threshold min_obs) ps) = (false, 0)) /\
     (INR (length ps) < CorrelationBreakRule.min_observations_ r ->
      CorrelationBreakRule.evaluate
        (CorrelationBreakRule.add_pairs (CorrelationBreakRule.reset r) ps)
        = (false, 0)) /\
     ((length ps < 50)%nat ->
      CorrelationBreakRule.evaluate
        (CorrelationBreakRule.add_pairs
           (CorrelationBreakRule.new corr_threshold
              CorrelationBreakRule.default_min_obs) ps) = (false, 0))).
Proof.
  split; [|split].
  - intros r threshold xs Hlen.
    split; apply zscore_warmup; (reflexivity || assumption).
  - intros r threshold xs Hlen.
    split; apply volume_warmup; (reflexivity || assumption).
  - intros r corr_threshold min_obs ps. split; [|split].
    + intros Hlen. apply correlation_warmup; [reflexivity | exact Hlen].
    + intros Hlen. apply correlation_warmup; [reflexivity | exact Hlen].
    + intros Hlen. apply correlation_warmup; [reflexivity|].
      cbn [CorrelationBreakRule.min_observations_ CorrelationBreakRule.new].
      unfold CorrelationBreakRule.default_min_obs.
      change 50 with (IZR (Z.of_nat 50)). rewrite <- INR_IZR_INZ.
      apply lt_INR. exact Hlen.
Qed.

End Warmup.

(** *** What the rules report on special streams *)

Section RuleBehaviour.
#[local] Open Scope R_scope.

Lemma zscore_last_observation (r : ZScoreRule.t) (xs : list R) (x : R) :
  let r' := ZScoreRule.add_observations r (xs ++ [x]) in
  ZScoreRule.has_value_ r' = true /\
  ZScoreRule.last_value_ r' = x /\
  ZScoreRule.threshold_ r' = ZScoreRule.threshold_ r.
Proof.
  cbn zeta. unfold ZScoreRule.add_observations. rewrite fold_left_app. cbn.
  split; [reflexivity|]. split; [reflexivity|].
  generalize dependent r. induction xs as [|y ys IH]; intros r; [reflexivity|].
  cbn. rewrite IH. reflexivity.
Qed.

Lemma volume_last_observation (r : VolumeRule.t) (xs : list R) (x : R) :
  let r' := VolumeRule.add_volumes r (xs ++ [x]) in
  VolumeRule.has_volume_ r' = true /\
  VolumeRule.last_volume_ r' = x /\
  VolumeRule.threshold_ r' = VolumeRule.threshold_ r.
Proof.
  cbn zeta. unfold VolumeRule.add_volumes. rewrite fold_left_app. cbn.
  split; [reflexivity|]. split; [reflexivity|].
  generalize dependent r. induction xs as [|y ys IH]; intros r; [reflexivity|].
  cbn. rewrite IH. reflexivity.
Qed.

Lemma square_le_from_abs (t z : R) : 0 <= t -> t <= Rabs z -> t * t <= z * z.
Proof.
  intros Ht Hz. unfold Rabs in Hz. destruct (Rcase_abs z); nra.
Qed.

(** X11. The value a z-score rule scores is its own last observation,
    which is part of the statistics: under exact arithmetic, with [n]
    observations the reported strength [z] satisfies
    [z^2 * n <= (n - 1)^2], for [ZScoreRule] and [VolumeRule] alike, so a
    rule with a threshold above [(n - 1) / sqrt n] cannot fire on its
    [n]-th observation.  (In binary64 the bound is met up to rounding.) *)
Theorem zscore_strength_bounded (threshold : R) (xs : list R) (x : R) :
  (Z.of_nat (length xs) + 1 < U64)%Z ->
  let n := INR (length xs) + 1 in
  let z := ZScoreRule.evaluate
             (ZScoreRule.add_observations (ZScoreRule.new threshold) (xs ++ [x])) in
  let v := VolumeRule.evaluate
             (VolumeRule.add_volumes (VolumeRule.new threshold) (xs ++ [x])) in
  snd z * snd z * n <= (n - 1) * (n - 1) /\
  snd v * snd v * n <= (n - 1) * (n - 1) /\
  (0 <= threshold -> (n - 1) * (n - 1) < threshold * threshold * n ->
   fst z = false /\ fst v = false).
Proof.
  intros Hlen n z v.
  destruct (RollingStats.z_score_last_bound xs x Hlen) as (_ & Hb).
  fold n in Hb.
  pose proof (pos_INR (length xs)) as Hk.
  assert (H0 : 0 * 0 * n <= (n - 1) * (n - 1)) by (unfold n; nra).
  destruct (zscore_last_observation (ZScoreRule.new threshold) xs x) as (Hz1 & Hz2 & Hz3).
  destruct (volume_last_observation (VolumeRule.new threshold) xs x) as (Hv1 & Hv2 & Hv3).
  assert (Hz : snd z * snd z * n <= (n - 1) * (n - 1) /\
               (0 <= threshold -> (n - 1) * (n - 1) < threshold * threshold * n ->
                fst z = false)).
  { unfold z, ZScoreRule.evaluate. rewrite Hz1, Hz2, Hz3.
    rewrite ZScoreRule.stats_add_observations. cbn [negb orb ZScoreRule.new
      ZScoreRule.stats_ ZScoreRule.threshold_].
    destruct (RollingStats.count _ <? 10)%Z; cbn [fst snd].
    - split; [exact H0 | reflexivity].
    - split; [exact Hb|]. intros Ht Hlt.
      destruct (Rleb_spec threshold
                  (Rabs (RollingStats.z_score
                           (RollingStats.add_all RollingStats.init (xs ++ [x])) x)))
        as [Hle|_]; [|reflexivity].
      pose proof (square_le_from_abs _ _ Ht Hle) as Hsq.
      exfalso. unfold n in *. nra. }
  assert (Hv : snd v * snd v * n <= (n - 1) * (n - 1) /\
               (0 <= threshold -> (n - 1) * (n - 1) < threshold * threshold * n ->
                fst v = false)).
  { unfold v, VolumeRule.evaluate. rewrite Hv1, Hv2, Hv3.
    rewrite VolumeRule.stats_add_volumes. cbn [negb orb VolumeRule.new
      VolumeRule.volume_stats_ VolumeRule.threshold_].
    destruct (RollingStats.count _ <? 20)%Z; cbn [fst snd].
    - split; [exact H0 | reflexivity].
    - split; [exact Hb|]. intros Ht Hlt.
      destruct (Rleb_spec threshold
                  (RollingStats.z_score
                     (RollingStats.add_all RollingStats.init (xs ++ [x])) x))
        as [Hle|_]; [|reflexivity].
      assert (Habs : threshold <=
                     Rabs (RollingStats.z_score
                             (RollingStats.add_all RollingStats.init (xs ++ [x])) x)).
      { eapply Rle_trans; [exact Hle | apply Rle_abs]. }
      pose proof (square_le_from_abs _ _ Ht Habs) as Hsq.
      exfalso. unfold n in *. nra. }
  destruct Hz as [Hz Hzf]. destruct Hv as [Hv Hvf].
  split; [exact Hz|]. split; [exact Hv|].
  intros Ht Hlt. split; [apply Hzf | apply Hvf]; assumption.
Qed.

Lemma zscore_strength_bounded_witness :
  let xs := [1; 2; 3; 4; 5; 6; 7; 8; 9] in
  let n := INR (length xs) + 1 in
  let z := ZScoreRule.evaluate
             (ZScoreRule.add_observations (ZScoreRule.new 3) (xs ++ [100])) in
  let v := VolumeRule.evaluate
             (VolumeRule.add_volumes (VolumeRule.new 3) (xs ++ [100])) in
  snd z * snd z * n <= (n - 1) * (n - 1) /\
  snd v * snd v * n <= (n - 1) * (n - 1) /\
  (0 <= 3 -> (n - 1) * (n - 1) < 3 * 3 * n -> fst z = false /\ fst v = false).
Proof.
  apply (zscore_strength_bounded 3 [1; 2; 3; 4; 5; 6; 7; 8; 9] 100). reflexivity.
Defined.

(** X12. A stream of equal values never fires a z-score or volume rule
    with a positive threshold, and never fires a mean-reversion rule
    whatever its windows and threshold: the standard deviation is 0 and
    the rules report (false, 0). *)
Theorem flat_stream_never_fires (c threshold : R) (xs : list R) :
  0 < threshold -> Forall (fun x => x = c) xs ->
  ZScoreRule.evaluate (ZScoreRule.add_observations (ZScoreRule.new threshold) xs)
    = (false, 0) /\
  VolumeRule.evaluate (VolumeRule.add_volumes (VolumeRule.new threshold) xs)
    = (false, 0) /\
  (forall fast_window slow_window t,
     MeanReversionRule.evaluate
       (MeanReversionRule.add_observations
          (MeanReversionRule.new fast_window slow_window t) xs) = (false, 0)).
Proof.
  intros Ht Hxs.
  assert (Hflat : RollingStats.Flat c (RollingStats.add_all RollingStats.init xs)).
  { apply RollingStats.flat_add_all; [exact Hxs|].
    constructor; cbn; auto. }
  destruct (Rleb_spec threshold (Rabs 0)) as [Habs|_]; [rewrite Rabs_R0 in Habs; lra|].
  destruct (Rleb_spec threshold 0) as [Hle|_]; [lra|].
  split_and!.
  - unfold ZScoreRule.evaluate. rewrite ZScoreRule.stats_add_observations.
    cbn [ZScoreRule.new ZScoreRule.stats_].
    destruct (_ || _); [reflexivity|]. cbn zeta.
    rewrite (RollingStats.flat_z_score c) by exact Hflat.
    assert (Hthr : forall ys r, ZScoreRule.threshold_ (ZScoreRule.add_observations r ys)
                                = ZScoreRule.threshold_ r).
    { induction ys as [|y ys IH]; intros r; [reflexivity|].
      change (ZScoreRule.add_observations r (y :: ys))
        with (ZScoreRule.add_observations (ZScoreRule.add_observation r y) ys).
      rewrite IH. reflexivity. }
    rewrite Hthr. cbn [ZScoreRule.threshold_ ZScoreRule.new].
    destruct (Rleb_spec threshold (Rabs 0)) as [Habs|_]; [|reflexivity].
    rewrite Rabs_R0 in Habs. lra.
  - unfold VolumeRule.evaluate. rewrite VolumeRule.stats_add_volumes.
    cbn [VolumeRule.new VolumeRule.volume_stats_].
    destruct (_ || _); [reflexivity|]. cbn zeta.
    rewrite (RollingStats.flat_z_score c) by exact Hflat.
    assert (Hthr : forall ys r, VolumeRule.threshold_ (VolumeRule.add_volumes r ys)
                                = VolumeRule.threshold_ r).
    { induction ys as [|y ys IH]; intros r; [reflexivity|].
      change (VolumeRule.add_volumes r (y :: ys))
        with (VolumeRule.add_volumes (VolumeRule.add_volume r y) ys).
      rewrite IH. reflexivity. }
    rewrite Hthr. cbn [VolumeRule.threshold_ VolumeRule.new].
    destruct (Rleb_spec threshold 0) as [Hle|_]; [lra | reflexivity].
  - intros fast_window slow_window t.
    assert (Hfast : forall ys r,
              MeanReversionRule.fast_ema_ (MeanReversionRule.add_observations r ys)
              = EMAStats.add_all (MeanReversionRule.fast_ema_ r) ys).
    { induction ys as [|y ys IH]; intros r; [reflexivity|].
      change (MeanReversionRule.add_observations r (y :: ys))
        with (MeanReversionRule.add_observations
                (MeanReversionRule.add_observation r y) ys).
      rewrite IH. reflexivity. }
    unfold MeanReversionRule.evaluate.
    destruct (_ || _ || _); [reflexivity|]. cbn zeta.
    unfold EMAStats.std_dev. rewrite Hfast.
    rewrite (EMAStats.ema_flat c) by (try exact Hxs; cbn; try reflexivity; discriminate).
    rewrite sqrt_0.
    destruct (Rleb_spec 0 0) as [_|Hn]; [reflexivity | lra].
Qed.

Lemma flat_stream_never_fires_witness :
  ZScoreRule.evaluate
    (ZScoreRule.add_observations (ZScoreRule.new 2) [5; 5; 5; 5; 5; 5; 5; 5; 5; 5; 5])
    = (false, 0) /\
  VolumeRule.evaluate
    (VolumeRule.add_volumes (VolumeRule.new 2) [5; 5; 5; 5; 5; 5; 5; 5; 5; 5; 5])
    = (false, 0) /\
  (forall fast_window slow_window t,
     MeanReversionRule.evaluate
       (MeanReversionRule.add_observations
          (MeanReversionRule.new fast_window slow_window t)
          [5; 5; 5; 5; 5; 5; 5; 5; 5; 5; 5]) = (false, 0)).
Proof.
  apply (flat_stream_never_fires 5 2 [5; 5; 5; 5; 5; 5; 5; 5; 5; 5; 5]).
  - lra.
  - repeat constructor.
Defined.

Lemma correlation_threshold_add_pairs ps : forall r,
  CorrelationBreakRule.correlation_threshold_ (CorrelationBreakRule.add_pairs r ps)
  = CorrelationBreakRule.correlation_threshold_ r.
Proof.
  induction ps as [|p ps IH]; intros r; [reflexivity|].
  change (CorrelationBreakRule.add_pairs r (p :: ps))
    with (CorrelationBreakRule.add_pairs
            (CorrelationBreakRule.add_pair r (fst p) (snd p)) ps).
  rewrite IH. reflexivity.
Qed.

(** A rule past its warm-up reports the correlation itself. *)
Lemma correlation_rule_warm (threshold min_obs : R) (ps : list (R * R)) :
  (Z.of_nat (length ps) < U64)%Z -> min_obs <= INR (length ps) ->
  CorrelationBreakRule.evaluate
    (CorrelationBreakRule.add_pairs (CorrelationBreakRule.new threshold min_obs) ps) =
  (Rltb (Rabs (RollingCovar.correlation (RollingCovar.add_all RollingCovar.init ps)))
        threshold,
   RollingCovar.correlation (RollingCovar.add_all RollingCovar.init ps)).
Proof.
  intros Hlen Hmin. unfold CorrelationBreakRule.evaluate.
  rewrite CorrelationBreakRule.covar_add_pairs,
    CorrelationBreakRule.min_observations_add_pairs,
    correlation_threshold_add_pairs.
  cbn [CorrelationBreakRule.new CorrelationBreakRule.covar_
       CorrelationBreakRule.min_observations_
       CorrelationBreakRule.correlation_threshold_].
  unfold RollingCovar.count.
  rewrite RollingCovar.covar_count_add_all by (cbn; unfold U64; lia).
  cbn [RollingCovar.count_ RollingCovar.init]. rewrite Z.add_0_l, wrap_small by lia.
  rewrite <- INR_IZR_INZ.
  destruct (Rltb_spec (INR (length ps)) min_obs) as [Hlt|_]; [lra | reflexivity].
Qed.

(** X13. Under exact arithmetic, a correlation rule past its warm-up
    reports the correlation as its strength, always within [[-1, 1]].
    With a threshold above 1 it fires on every evaluation; with a
    positive threshold it fires, with strength 0, whenever one of the two
    legs has not moved at all; with a threshold of at most 1 it never
    fires on legs that are exactly linearly related.  (In binary64 the
    correlation can leave [[-1, 1]] by rounding or by underflow of the
    product of the variances.) *)
Theorem correlation_rule_extremes (threshold min_obs : R) (ps : list (R * R)) :
  (Z.of_nat (length ps) < U64)%Z -> min_obs <= INR (length ps) ->
  let r := CorrelationBreakRule.add_pairs
             (CorrelationBreakRule.new threshold min_obs) ps in
  let covar := RollingCovar.add_all RollingCovar.init ps in
  snd (CorrelationBreakRule.evaluate r) = RollingCovar.correlation covar /\
  -1 <= snd (CorrelationBreakRule.evaluate r) <= 1 /\
  (1 < threshold -> fst (CorrelationBreakRule.evaluate r) = true) /\
  (0 < threshold ->
   forall c, Forall (fun p => fst p = c) ps \/ Forall (fun p => snd p = c) ps ->
   CorrelationBreakRule.evaluate r = (true, 0)) /\
  (threshold <= 1 ->
   forall a b, a <> 0 -> Forall (fun p => snd p = a * fst p + b) ps ->
   0 < RollingCovar.variance_x covar ->
   fst (CorrelationBreakRule.evaluate r) = false).
Proof.
  intros Hlen Hmin r covar.
  pose proof (correlation_rule_warm threshold min_obs ps Hlen Hmin) as Hev.
  fold r covar in Hev. rewrite Hev. cbn [fst snd].
  assert (Hcs : RollingCovar.CS covar).
  { apply RollingCovar.cs_add_all; [apply RollingCovar.cs_init | cbn; lia]. }
  destruct (RollingCovar.correlation_range covar Hcs) as (_ & _ & Hlo & Hhi).
  assert (Habs : Rabs (RollingCovar.correlation covar) <= 1).
  { apply Rabs_le. split; assumption. }
  split_and!; try assumption; try reflexivity.
  - intros Ht.
    destruct (Rltb_spec (Rabs (RollingCovar.correlation covar)) threshold);
      [reflexivity | lra].
  - intros Ht c Hflat.
    pose proof (RollingCovar.flat_leg_no_correlation c ps Hflat) as Hzero.
    fold covar in Hzero. rewrite Hzero, Rabs_R0.
    destruct (Rltb_spec 0 threshold); [reflexivity | lra].
  - intros Ht a b Ha Hline Hvar.
    destruct (RollingCovar.on_line_accessors a b covar) as (_ & _ & Hpos & Hneg & _);
      [apply RollingCovar.on_line_add_all;
         [exact Hline | apply RollingCovar.on_line_init] | exact Hvar |].
    assert (Hone : Rabs (RollingCovar.correlation covar) = 1).
    { destruct (Rtotal_order a 0) as [Hlt|[Heq|Hgt]].
      - rewrite (Hneg Hlt). unfold Rabs. destruct (Rcase_abs (-1)); lra.
      - contradiction.
      - rewrite (Hpos Hgt). apply Rabs_R1. }
    rewrite Hone.
    destruct (Rltb_spec 1 threshold); [lra | reflexivity].
Qed.

Lemma correlation_rule_extremes_witness :
  let ps := [(1, 3); (2, 5); (3, 7)] in
  let r := CorrelationBreakRule.add_pairs (CorrelationBreakRule.new (3 / 10) 3) ps in
  let covar := RollingCovar.add_all RollingCovar.init ps in
  snd (CorrelationBreakRule.evaluate r) = RollingCovar.correlation covar /\
  -1 <= snd (CorrelationBreakRule.evaluate r) <= 1 /\
  (1 < 3 / 10 -> fst (CorrelationBreakRule.evaluate r) = true) /\
  (0 < 3 / 10 ->
   forall c, Forall (fun p => fst p = c) ps \/ Forall (fun p => snd p = c) ps ->
   CorrelationBreakRule.evaluate r = (true, 0)) /\
  (3 / 10 <= 1 ->
   forall a b, a <> 0 -> Forall (fun p => snd p = a * fst p + b) ps ->
   0 < RollingCovar.variance_x covar ->
   fst (CorrelationBreakRule.evaluate r) = false).
Proof.
  apply (correlation_rule_extremes (3 / 10) 3 [(1, 3); (2, 5); (3, 7)]).
  - reflexivity.
  - cbn. lra.
Defined.

(** A value above a run of equal values makes both z-score rules fire
    once the run is long enough. *)
Lemma flat_prefix_stats (c : R) (k : nat) :
  (Z.of_nat k + 1 < U64)%Z ->
  let s := RollingStats.add_all RollingStats.init (replicate k c) in
  RollingStats.Flat c s /\ RollingStats.count_ s = Z.of_nat k.
Proof.
  intros Hk s. split.
  - apply RollingStats.flat_add_all.
    + apply Forall_replicate. reflexivity.
    + constructor; cbn; [reflexivity | right; split; reflexivity].
  - unfold s. rewrite RollingStats.count_add_all by (cbn; unfold U64; lia).
    rewrite length_replicate. cbn [RollingStats.count_ RollingStats.init].
    apply wrap_small. lia.
Qed.

Lemma zscore_threshold_kept (xs : list R) : forall r : ZScoreRule.t,
  ZScoreRule.threshold_ (ZScoreRule.add_observations r xs) = ZScoreRule.threshold_ r.
Proof.
  induction xs as [|y ys IH]; intros r; [reflexivity|].
  change (ZScoreRule.add_observations r (y :: ys))
    with (ZScoreRule.add_observations (ZScoreRule.add_observation r y) ys).
  rewrite IH. reflexivity.
Qed.

Lemma volume_threshold_kept (xs : list R) : forall r : VolumeRule.t,
  VolumeRule.threshold_ (VolumeRule.add_volumes r xs) = VolumeRule.threshold_ r.
Proof.
  induction xs as [|y ys IH]; intros r; [reflexivity|].
  change (VolumeRule.add_volumes r (y :: ys))
    with (VolumeRule.add_volumes (VolumeRule.add_volume r y) ys).
  rewrite IH. reflexivity.
Qed.

Lemma zscore_spike_fires (thr c x : R) (k : nat) :
  (9 <= k)%nat -> (Z.of_nat k + 1 < U64)%Z -> c < x -> 0 <= thr ->
  thr * thr * IZR (Z.of_nat k + 1) <= IZR (Z.of_nat k) * IZR (Z.of_nat k) ->
  fst (ZScoreRule.evaluate
         (ZScoreRule.add_observation
            (ZScoreRule.add_observations (ZScoreRule.new thr) (replicate k c)) x))
  = true.
Proof.
  intros Hk9 Hk Hx Hthr Hsq.
  destruct (flat_prefix_stats c k Hk) as [Hflat Hcount]. cbn zeta in *.
  unfold ZScoreRule.evaluate.
  cbn [ZScoreRule.add_observation ZScoreRule.has_value_ ZScoreRule.stats_
       ZScoreRule.last_value_ ZScoreRule.threshold_ negb orb].
  rewrite ZScoreRule.stats_add_observations.
  cbn [ZScoreRule.new ZScoreRule.stats_].
  set (s := RollingStats.add_all RollingStats.init (replicate k c)) in *.
  assert (Hc' : RollingStats.count (RollingStats.add s x) = (Z.of_nat k + 1)%Z).
  { unfold RollingStats.count, RollingStats.add. cbn [RollingStats.count_].
    rewrite Hcount. apply wrap_small. lia. }
  rewrite Hc'. destruct (Z.ltb_spec (Z.of_nat k + 1) 10) as [|_]; [lia|].
  cbn [fst].
  assert (Ht : ZScoreRule.threshold_
                 (ZScoreRule.add_observations (ZScoreRule.new thr) (replicate k c))
               = thr).
  { apply zscore_threshold_kept. }
  rewrite Ht.
  pose proof (RollingStats.spike_z_score c x thr s Hflat) as Hz.
  rewrite Hcount in Hz. specialize (Hz ltac:(lia) Hk Hx Hthr Hsq).
  destruct (Rleb_spec thr (Rabs (RollingStats.z_score (RollingStats.add s x) x)))
    as [_|Hn]; [reflexivity|].
  exfalso. apply Hn. eapply Rle_trans; [exact Hz | apply Rle_abs].
Qed.

Lemma volume_spike_fires (thr c x : R) (k : nat) :
  (19 <= k)%nat -> (Z.of_nat k + 1 < U64)%Z -> c < x -> 0 <= thr ->
  thr * thr * IZR (Z.of_nat k + 1) <= IZR (Z.of_nat k) * IZR (Z.of_nat k) ->
  fst (VolumeRule.evaluate
         (VolumeRule.add_volume
            (VolumeRule.add_volumes (VolumeRule.new thr) (replicate k c)) x))
  = true.
Proof.
  intros Hk19 Hk Hx Hthr Hsq.
  destruct (flat_prefix_stats c k Hk) as [Hflat Hcount]. cbn zeta in *.
  unfold VolumeRule.evaluate.
  cbn [VolumeRule.add_volume VolumeRule.has_volume_ VolumeRule.volume_stats_
       VolumeRule.last_volume_ VolumeRule.threshold_ negb orb].
  rewrite VolumeRule.stats_add_volumes.
  cbn [VolumeRule.new VolumeRule.volume_stats_].
  set (s := RollingStats.add_all RollingStats.init (replicate k c)) in *.
  assert (Hc' : RollingStats.count (RollingStats.add s x) = (Z.of_nat k + 1)%Z).
  { unfold RollingStats.count, RollingStats.add. cbn [RollingStats.count_].
    rewrite Hcount. apply wrap_small. lia. }
  rewrite Hc'. destruct (Z.ltb_spec (Z.of_nat k + 1) 20) as [|_]; [lia|].
  cbn [fst].
  assert (Ht : VolumeRule.threshold_
                 (VolumeRule.add_volumes (VolumeRule.new thr) (replicate k c))
               = thr).
  { apply volume_threshold_kept. }
  rewrite Ht.
  pose proof (RollingStats.spike_z_score c x thr s Hflat) as Hz.
  rewrite Hcount in Hz. specialize (Hz ltac:(lia) Hk Hx Hthr Hsq).
  destruct (Rleb_spec thr (RollingStats.z_score (RollingStats.add s x) x))
    as [_|Hn]; [reflexivity|].
  exfalso. apply Hn. exact Hz.
Qed.

End RuleBehaviour.

(** ** The composite engine ([CompositeSignalEngine])

    [SignalRule] is the interface of the four rules; the engine holds two
    vectors that [add_rule] extends together.  An index outside
    [weights_] is undefined ([None]). *)

Module CompositeSignalEngine.
#[local] Open Scope R_scope.

Inductive SignalRule :=
  | ZScore (rule : ZScoreRule.t)
  | CorrBreak (rule : CorrelationBreakRule.t)
  | MeanRev (rule : MeanReversionRule.t)
  | Volume (rule : VolumeRule.t).

Definition rule_evaluate (rule : SignalRule) : bool * R :=
  match rule with
  | ZScore r => ZScoreRule.evaluate r
  | CorrBreak r => CorrelationBreakRule.evaluate r
  | MeanRev r => MeanReversionRule.evaluate r
  | Volume r => VolumeRule.evaluate r
  end.

Definition rule_reset (rule : SignalRule) : SignalRule :=
  match rule with
  | ZScore r => ZScore (ZScoreRule.reset r)
  | CorrBreak r => CorrBreak (CorrelationBreakRule.reset r)
  | MeanRev r => MeanRev (MeanReversionRule.reset r)
  | Volume r => Volume (VolumeRule.reset r)
  end.

Definition rule_name (rule : SignalRule) : string :=
  match rule with
  | ZScore _ => "ZScore"
  | CorrBreak _ => "CorrBreak"
  | MeanRev _ => "MeanRev"
  | Volume _ => "Volume"
  end.

Record t := mk {
  rules_ : list SignalRule;
  weights_ : list R;
  composite_threshold_ : R
}.

Definition init : t :=
  {| rules_ := []; weights_ := []; composite_threshold_ := 1 |}.

Definition add_rule (e : t) (rule : SignalRule) (weight : R) : t :=
  {| rules_ := rules_ e ++ [rule];
     weights_ := weights_ e ++ [weight];
     composite_threshold_ := composite_threshold_ e |}.

(** The loop of [evaluate] from index [i] on: the accumulated strength,
    the accumulated weight and the number of active rules. *)
Fixpoint evaluate_loop (rules : list SignalRule) (weights : list R) (i : nat)
    (acc : R * R * Z) : option (R * R * Z) :=
  match rules with
  | [] => Some acc
  | rule :: rest =>
      let '(composite_strength, total_weight, active_rules) := acc in
      let '(fires, strength) := rule_evaluate rule in
      if fires then
        match weights !! i with
        | Some w =>
            evaluate_loop rest weights (S i)
              (composite_strength + strength * w, total_weight + w,
               wrap (active_rules + 1))
        | None => None
        end
      else evaluate_loop rest weights (S i) acc
  end.

Definition evaluate (e : t) : option (bool * R) :=
  match rules_ e with
  | [] => Some (false, 0)
  | _ =>
      match evaluate_loop (rules_ e) (weights_ e) 0 (0, 0, 0%Z) with
      | Some (composite_strength, total_weight, active_rules) =>
          if (active_rules =? 0)%Z then Some (false, 0)
          else
            let composite_strength := composite_strength / total_weight in
            Some (Rleb (composite_threshold_ e) (Rabs composite_strength),
                  composite_strength)
      | None => None
      end
  end.

Definition reset_all (e : t) : t :=
  {| rules_ := map rule_reset (rules_ e);
     weights_ := weights_ e;
     composite_threshold_ := composite_threshold_ e |}.

Definition set_composite_threshold (e : t) (threshold : R) : t :=
  {| rules_ := rules_ e; weights_ := weights_ e; composite_threshold_ := threshold |}.

Definition rule_count (e : t) : Z := Z.of_nat (length (rules_ e)).

Definition add_rules (e : t) (rws : list (SignalRule * R)) : t :=
  fold_left (fun acc rw => add_rule acc (fst rw) (snd rw)) rws e.

(** The rules that fire, with their weights. *)
Definition active (rws : list (SignalRule * R)) : list (SignalRule * R) :=
  List.filter (fun rw => fst (rule_evaluate (fst rw))) rws.

Definition strength_of (rw : SignalRule * R) : R := snd (rule_evaluate (fst rw)).

Definition weighted_sum (rws : list (SignalRule * R)) : R :=
  RollingStats.sum (map (fun rw => strength_of rw * snd rw) rws).

Definition weight_sum (rws : list (SignalRule * R)) : R :=
  RollingStats.sum (map snd rws).

(** Two rules that fire: a z-score rule after nine prices of 100 and one
    of 200, and a volume rule after nineteen sizes of 10 and one of
    1000. *)
Definition fired_zscore : ZScoreRule.t :=
  ZScoreRule.add_observation
    (ZScoreRule.add_observations (ZScoreRule.new 2) (replicate 9 100)) 200.

Definition fired_volume : VolumeRule.t :=
  VolumeRule.add_volume
    (VolumeRule.add_volumes (VolumeRule.new 3) (replicate 19 10)) 1000.

Lemma add_rules_fields rws : forall e,
  rules_ (add_rules e rws) = rules_ e ++ map fst rws /\
  weights_ (add_rules e rws) = weights_ e ++ map snd rws /\
  composite_threshold_ (add_rules e rws) = composite_threshold_ e.
Proof.
  induction rws as [|rw rws IH]; intros e.
  - cbn. rewrite !app_nil_r. auto.
  - change (add_rules e (rw :: rws)) with (add_rules (add_rule e (fst rw) (snd rw)) rws).
    destruct (IH (add_rule e (fst rw) (snd rw))) as (-> & -> & ->).
    cbn [add_rule rules_ weights_ composite_threshold_ map].
    rewrite <- !app_assoc. auto.
Qed.

Lemma evaluate_loop_aligned (rest : list (SignalRule * R)) : forall pre cs tw act,
  evaluate_loop (map fst rest) (map snd (pre ++ rest)) (length pre) (cs, tw, act) =
  Some (cs + weighted_sum (active rest), tw + weight_sum (active rest),
        wrap (act + Z.of_nat (length (active rest)))) \/
  (active rest = [] /\
   evaluate_loop (map fst rest) (map snd (pre ++ rest)) (length pre) (cs, tw, act) =
   Some (cs, tw, act)).
Proof.
  induction rest as [|rw rest IH]; intros pre cs tw act.
  - right. split; reflexivity.
  - cbn [map evaluate_loop]. unfold active. cbn [List.filter]. fold (active rest).
    replace (pre ++ rw :: rest) with ((pre ++ [rw]) ++ rest)
      by (rewrite <- app_assoc; reflexivity).
    assert (Hi : S (length pre) = length (pre ++ [rw]))
      by (rewrite length_app; cbn; lia).
    rewrite Hi.
    destruct (rule_evaluate (fst rw)) as [fires strength] eqn:Hev. cbn [fst].
    destruct fires.
    + assert (Hw : map snd ((pre ++ [rw]) ++ rest) !! length pre = Some (snd rw)).
      { rewrite <- app_assoc, map_app. rewrite lookup_app_r by (rewrite length_map; lia).
        rewrite length_map, Nat.sub_diag. reflexivity. }
      rewrite Hw. left.
      unfold weighted_sum, weight_sum. cbn [map RollingStats.sum length].
      unfold strength_of at 1. rewrite Hev. cbn [snd].
      destruct (IH (pre ++ [rw]) (cs + strength * snd rw) (tw + snd rw)
                  (wrap (act + 1))) as [->|[Hnil ->]].
      * f_equal. rewrite !pair_equal_spec. unfold weighted_sum, weight_sum.
        split_and!; [lra | lra |].
        unfold wrap. rewrite Zplus_mod_idemp_l. f_equal. lia.
      * rewrite Hnil. cbn [map RollingStats.sum length].
        f_equal. rewrite !pair_equal_spec.
        split_and!; [lra | lra | reflexivity].
    + apply IH.
Qed.

Lemma weighted_average_bounds (rws : list (SignalRule * R)) (lo hi : R) :
  Forall (fun rw => 0 < snd rw) rws ->
  Forall (fun rw => lo <= strength_of rw <= hi) rws ->
  lo * weight_sum rws <= weighted_sum rws <= hi * weight_sum rws /\
  (rws <> [] -> 0 < weight_sum rws).
Proof.
  unfold weighted_sum, weight_sum.
  induction rws as [|rw rws IH]; intros Hw Hs.
  - cbn. split; [lra | congruence].
  - inversion Hw as [|? ? Hw1 Hw2]; subst. inversion Hs as [|? ? Hs1 Hs2]; subst.
    destruct (IH Hw2 Hs2) as (Hb & Hpos). cbn [map RollingStats.sum].
    assert (Hnn : 0 <= RollingStats.sum (map snd rws)).
    { destruct rws; [cbn; lra | left; apply Hpos; discriminate]. }
    split; [nra|]. intros _. lra.
Qed.

(** X14. An engine built with [add_rule] from positively weighted rules
    never reads outside its weights.  When no rule fires it reports
    (false, 0); otherwise its strength is the weighted sum of the
    strengths of the rules that fire divided by the sum of their weights,
    and it fires when the magnitude of that quotient reaches the
    composite threshold.  Under exact arithmetic the quotient lies
    between the smallest and the largest of those strengths.  (In
    binary64 it can leave that range by a rounding error.) *)
Theorem composite_weighted_average (rws : list (SignalRule * R)) (threshold : R) :
  (Z.of_nat (length rws) < U64)%Z ->
  Forall (fun rw => 0 < snd rw) rws ->
  let e := set_composite_threshold (add_rules init rws) threshold in
  rule_count e = Z.of_nat (length rws) /\
  (active rws = [] -> evaluate e = Some (false, 0)) /\
  (active rws <> [] ->
   exists s,
     evaluate e = Some (Rleb threshold (Rabs s), s) /\
     s = weighted_sum (active rws) / weight_sum (active rws) /\
     forall lo hi,
       Forall (fun rw => lo <= strength_of rw <= hi) (active rws) -> lo <= s <= hi).
Proof.
  intros Hlen Hw e.
  destruct (add_rules_fields rws init) as (Hr & Hws & Hthr).
  cbn [init rules_ weights_ composite_threshold_ app] in Hr, Hws, Hthr.
  assert (Hre : rules_ e = map fst rws) by exact Hr.
  assert (Hwe : weights_ e = map snd rws) by exact Hws.
  assert (Hact_len : (length (active rws) <= length rws)%nat).
  { unfold active. apply List.filter_length_le. }
  assert (Hact_w : Forall (fun rw => 0 < snd rw) (active rws)).
  { rewrite Forall_forall in Hw |- *. intros rw Hin. apply Hw.
    apply list_elem_of_In in Hin. unfold active in Hin.
    apply List.filter_In in Hin. apply list_elem_of_In, Hin. }
  pose proof (evaluate_loop_aligned rws [] 0 0 0%Z) as Hloop.
  cbn [app length] in Hloop.
  assert (Hev : rws <> [] ->
            evaluate e =
            match evaluate_loop (map fst rws) (map snd rws) 0 (0, 0, 0%Z) with
            | Some (composite_strength, total_weight, active_rules) =>
                if (active_rules =? 0)%Z then Some (false, 0)
                else Some (Rleb threshold (Rabs (composite_strength / total_weight)),
                           composite_strength / total_weight)
            | None => None
            end).
  { intros Hne. unfold evaluate. rewrite Hre, Hwe.
    destruct rws as [|rw rws']; [congruence | reflexivity]. }
  split_and!.
  - unfold rule_count. rewrite Hre, length_map. reflexivity.
  - intros Hnil. destruct rws as [|rw rws']; [reflexivity|].
    rewrite Hev by discriminate.
    destruct Hloop as [->|[_ ->]].
    + rewrite Hnil. cbn [length]. change (wrap (0 + Z.of_nat 0)) with 0%Z.
      reflexivity.
    + reflexivity.
  - intros Hne.
    exists (weighted_sum (active rws) / weight_sum (active rws)).
    split; [|split; [reflexivity|]].
    + rewrite Hev by (intros ->; apply Hne; reflexivity).
      destruct Hloop as [->|[Hnil _]]; [|contradiction].
      rewrite Z.add_0_l, wrap_small by lia.
      destruct (Z.eqb_spec (Z.of_nat (length (active rws))) 0) as [Hz|_].
      { exfalso. apply Hne. destruct (active rws); [reflexivity | cbn in Hz; lia]. }
      rewrite !Rplus_0_l. reflexivity.
    + intros lo hi Hs.
      destruct (weighted_average_bounds (active rws) lo hi Hact_w Hs) as (Hb & Hpos).
      specialize (Hpos Hne).
      set (T := weight_sum (active rws)) in *.
      set (S := weighted_sum (active rws)) in *.
      assert (HiT : 0 < / T) by (apply Rinv_0_lt_compat; exact Hpos).
      unfold Rdiv. split.
      * replace lo with (lo * T * / T) by (field; lra).
        apply Rmult_le_compat_r; lra.
      * replace hi with (hi * T * / T) by (field; lra).
        apply Rmult_le_compat_r; lra.
Qed.

Lemma fired_rules_active :
  active [(ZScore fired_zscore, 1); (ZScore (ZScoreRule.new 2), 1);
          (Volume fired_volume, 2)]
  = [(ZScore fired_zscore, 1); (Volume fired_volume, 2)].
Proof.
  unfold active. cbn [List.filter fst rule_evaluate].
  unfold fired_zscore, fired_volume.
  rewrite (zscore_spike_fires 2 100 200 9);
    [|lia | unfold U64; lia | lra | lra |
      change (IZR (Z.of_nat 9 + 1)) with 10; change (IZR (Z.of_nat 9)) with 9; lra].
  rewrite (volume_spike_fires 3 10 1000 19);
    [|lia | unfold U64; lia | lra | lra |
      change (IZR (Z.of_nat 19 + 1)) with 20; change (IZR (Z.of_nat 19)) with 19; lra].
  reflexivity.
Qed.

Lemma composite_weighted_average_witness :
  let rws := [(ZScore fired_zscore, 1); (ZScore (ZScoreRule.new 2), 1);
              (Volume fired_volume, 2)] in
  let e := set_composite_threshold (add_rules init rws) 1 in
  active rws = [(ZScore fired_zscore, 1); (Volume fired_volume, 2)] /\
  rule_count e = 3%Z /\
  exists s,
    evaluate e = Some (Rleb 1 (Rabs s), s) /\
    s = weighted_sum (active rws) / weight_sum (active rws) /\
    forall lo hi,
      Forall (fun rw => lo <= strength_of rw <= hi) (active rws) -> lo <= s <= hi.
Proof.
  intros rws e.
  destruct (composite_weighted_average rws 1) as (Hcount & _ & Hfire).
  - reflexivity.
  - repeat constructor; cbn; lra.
  - split; [exact fired_rules_active|]. split; [exact Hcount|].
    apply Hfire. unfold rws. rewrite fired_rules_active. discriminate.
Defined.

End CompositeSignalEngine.

(** ** The monotonic clock

    [steady_clock::now()] returns the next reading of a stream; a time
    point is a count of nanoseconds. *)

Module Clock.

Record t := mk {
  readings : nat -> Z;
  pos : nat
}.

Definition now (c : t) : Z * t :=
  (readings c (pos c), {| readings := readings c; pos := S (pos c) |}).

End Clock.

(** ** Latency histogram ([include/util/latency.hpp]) *)

Module LatencyHistogram.

Definition NUM_BUCKETS : nat := 10.

Definition BUCKET_EDGES : list Z :=
  [0; 50; 100; 250; 500; 1000; 2000; 5000; 10000; 50000; 1000000].

Definition edge (i : nat) : Z := nth i BUCKET_EDGES 0.

Record t := mk {
  buckets_ : list Z;
  total_samples_ : Z;
  total_latency_us_ : Z;
  min_latency_us_ : Z;
  max_latency_us_ : Z;
  start_time_ : Z;
  timing_started_ : bool
}.

Definition reset (h : t) : t :=
  {| buckets_ := replicate NUM_BUCKETS 0;
     total_samples_ := 0;
     total_latency_us_ := 0;
     min_latency_us_ := UINT64_MAX;
     max_latency_us_ := 0;
     start_time_ := start_time_ h;
     timing_started_ := false |}.

(** The constructor: default members, then [reset()]. *)
Definition init : t :=
  reset {| buckets_ := replicate NUM_BUCKETS 0; total_samples_ := 0;
           total_latency_us_ := 0; min_latency_us_ := UINT64_MAX;
           max_latency_us_ := 0; start_time_ := 0; timing_started_ := false |}.

(** The bucket search: [n] iterations left, [i] the loop index; without a
    [break] the initial [bucket] is what remains. *)
Fixpoint bucket_loop (latency_us : Z) (i n : nat) (bucket : nat) : nat :=
  match n with
  | O => bucket
  | S n' =>
      if latency_us <? wrap (edge (S i)) then i
      else bucket_loop latency_us (S i) n' bucket
  end.

Definition find_bucket (latency_us : Z) : nat :=
  let bucket := bucket_loop latency_us 0 NUM_BUCKETS 0 in
  if (NUM_BUCKETS <=? bucket)%nat then (NUM_BUCKETS - 1)%nat else bucket.

Definition add_sample_us (clk : Clock.t) (h : t) (latency_us : Z) : t * Clock.t :=
  let '(start_time, clk') :=
    if negb (timing_started_ h) then Clock.now clk else (start_time_ h, clk) in
  let bucket := find_bucket latency_us in
  let current_min := min_latency_us_ h in
  let current_max := max_latency_us_ h in
  ({| buckets_ := alter (fun c => wrap (c + 1)) bucket (buckets_ h);
      total_samples_ := wrap (total_samples_ h + 1);
      total_latency_us_ := wrap (total_latency_us_ h + latency_us);
      min_latency_us_ := if latency_us <? current_min then latency_us else current_min;
      max_latency_us_ := if current_max <? latency_us then latency_us else current_max;
      start_time_ := start_time;
      timing_started_ := true |}, clk').

(** [duration_cast<microseconds>] truncates toward zero; the cast to
    [uint64_t] wraps. *)
Definition add_sample (clk : Clock.t) (h : t) (start end_ : Z) : t * Clock.t :=
  let latency_us := Z.quot (end_ - start) 1000 in
  add_sample_us clk h (wrap latency_us).

Definition total_samples (h : t) : Z := total_samples_ h.

(** The mean as an exact quotient; the code's [double] is this quotient
    computed in binary64 ([mean_latency_us_binary64] below). *)
Definition mean_latency_us (h : t) : Q :=
  let total := total_samples h in
  if 0 <? total then (inject_Z (total_latency_us_ h) / inject_Z total)%Q else 0%Q.

(** [mean_latency_us] as the code computes it: the sum and the count are
    converted to [double] and divided in binary64.  [mean_latency_us]
    above is the exact quotient that this division rounds; the two
    conversions are exact for values below [2^53]. *)
Definition mean_latency_us_binary64 (h : t) : float :=
  let total := total_samples h in
  if 0 <? total
  then PrimFloat.div (Binary64.of_uint64 (total_latency_us_ h)) (Binary64.of_uint64 total)
  else 0%float.

Definition min_latency_us (h : t) : Z :=
  let min_val := min_latency_us_ h in
  if min_val =? UINT64_MAX then 0 else min_val.

Definition max_latency_us (h : t) : Z := max_latency_us_ h.

(** The cast of a non-negative [double] to [uint64_t]. *)
Definition Qtrunc (q : Q) : Z := Z.quot (Qnum q) (Zpos (Qden q)).

(** The cumulative scan of [percentile_us], [bs] the buckets from index
    [i] on. *)
Fixpoint percentile_scan (target_count : Z) (bs : list Z) (i : nat)
    (cumulative : Z) : Q :=
  match bs with
  | [] => inject_Z (edge NUM_BUCKETS)
  | bucket_count :: bs' =>
      let cumulative := wrap (cumulative + bucket_count) in
      if target_count <=? cumulative then
        let bucket_start := inject_Z (edge i) in
        let bucket_end := inject_Z (edge (S i)) in
        if bucket_count =? 0 then bucket_start
        else
          let prev_cumulative := wrap (cumulative - bucket_count) in
          let position :=
            (inject_Z (wrap (target_count - prev_cumulative))
               / inject_Z bucket_count)%Q in
          (bucket_start + position * (bucket_end - bucket_start))%Q
      else percentile_scan target_count bs' (S i) cumulative
  end.

Definition percentile_us (h : t) (p : Q) : Q :=
  let total := total_samples h in
  if total =? 0 then 0%Q
  else
    let target_count := Qtrunc (inject_Z total * p / 100)%Q in
    percentile_scan target_count (buckets_ h) 0 0.

Definition p50_us (h : t) : Q := percentile_us h 50.
Definition p95_us (h : t) : Q := percentile_us h 95.
Definition p99_us (h : t) : Q := percentile_us h 99.

(** A run of [add_sample_us] calls. *)
Fixpoint add_samples (clk : Clock.t) (h : t) (xs : list Z) : t * Clock.t :=
  match xs with
  | [] => (h, clk)
  | x :: xs' =>
      let '(h1, clk1) := add_sample_us clk h x in
      add_samples clk1 h1 xs'
  end.

Definition clock0 : Clock.t := {| Clock.readings := fun _ => 0; Clock.pos := 0 |}.

(** *** Vocabulary of the statements below *)

Definition sumZ (xs : list Z) : Z := fold_right Z.add 0 xs.

(** The bound on a percentile: the upper edge of the bucket that holds the
    maximum, or the maximum itself when it lies beyond the last edge. *)
Definition upper_bound (m : Z) : Z := Z.max m (edge (S (find_bucket m))).

(** The state reached by adding the samples [xs] one after the other. *)
Record HInv (h : t) (xs : list Z) : Prop := {
  hi_len : length (buckets_ h) = NUM_BUCKETS;
  hi_nonneg : Forall (fun c => 0 <= c) (buckets_ h);
  hi_total : total_samples_ h = Z.of_nat (length xs);
  hi_bsum : sumZ (buckets_ h) = Z.of_nat (length xs);
  hi_sum : total_latency_us_ h = sumZ xs;
  hi_min0 : 0 <= min_latency_us_ h;
  hi_min : Forall (fun x => min_latency_us_ h <= x) xs;
  hi_max0 : 0 <= max_latency_us_ h;
  hi_max : Forall (fun x => x <= max_latency_us_ h) xs;
  hi_occ : forall k c, buckets_ h !! k = Some c -> 0 < c ->
             edge (S k) <= upper_bound (max_latency_us_ h)
}.

(** [sample_rate_per_second]: reads the clock once timing has started. *)
Definition sample_rate_per_second (clk : Clock.t) (h : t) : Q * Clock.t :=
  if negb (timing_started_ h) then (0%Q, clk)
  else
    let '(now, clk') := Clock.now clk in
    let elapsed := Z.quot (now - start_time_ h) 1000 in
    if elapsed <=? 0 then (0%Q, clk')
    else
      let total := total_samples h in
      ((inject_Z total * 1000000 / inject_Z elapsed)%Q, clk').

Record BucketInfo := mkBucketInfo {
  lower_bound_us : Z;
  upper_bound_us : Z;
  count : Z;
  percentage : Q
}.

(** The rows of [get_histogram]; [percentage] is the exact quotient that
    the code computes in binary64. *)
Definition get_histogram (h : t) : list BucketInfo :=
  let total := total_samples h in
  map (fun i =>
         let count := nth i (buckets_ h) 0 in
         let percentage :=
           if 0 <? total then (inject_Z count * 100 / inject_Z total)%Q else 0%Q in
         {| lower_bound_us := edge i;
            upper_bound_us := edge (S i);
            count := count;
            percentage := percentage |})
      (seq 0 NUM_BUCKETS).

(** Smallest and largest sample, as the two compare-and-swap loops
    accumulate them, and the number of samples the search sends to
    bucket [k]. *)
Definition list_min (xs : list Z) : Z := fold_left Z.min xs UINT64_MAX.
Definition list_max (xs : list Z) : Z := fold_left Z.max xs 0.

Definition count_in (k : nat) (xs : list Z) : Z :=
  Z.of_nat (length (List.filter (fun x => Nat.eqb (find_bucket x) k) xs)).

Definition Qsum (qs : list Q) : Q := fold_right Qplus 0%Q qs.

Record HExact (h : t) (xs : list Z) : Prop := {
  he_min : min_latency_us_ h = list_min xs;
  he_max : max_latency_us_ h = list_max xs;
  he_buckets : forall k, nth k (buckets_ h) 0 = count_in k xs
}.

Example s6_buckets :
  buckets_ (fst (add_samples clock0 init [10; 75; 300; 1500]))
  = [1; 1; 0; 1; 0; 1; 0; 0; 0; 0].
Proof. vm_compute. reflexivity. Qed.

Example s6_mean :
  (mean_latency_us (fst (add_samples clock0 init [10; 75; 300; 1500]%Z)) == 471.25)%Q.
Proof. vm_compute. reflexivity. Qed.

(** Beyond [2^53] the rounded mean can leave the range of the samples:
    the single sample [2^53 + 1 = 9007199254740993] has the binary64 mean
    [2^53], below the minimum, and the single sample [2^64 - 4] has the
    binary64 mean [2^64], above the maximum. *)
Example mean_binary64_outside_range :
  let h := fst (add_samples clock0 init [9007199254740993]) in
  let h' := fst (add_samples clock0 init [U64 - 4]) in
  min_latency_us h = 9007199254740993 /\
  mean_latency_us_binary64 h = 9007199254740992%float /\
  max_latency_us h' = 18446744073709551612 /\
  mean_latency_us_binary64 h' = 18446744073709551616%float.
Proof. vm_compute. repeat split. Qed.

Example s6_p50 :
  (p50_us (fst (add_samples clock0 init [10; 75; 300; 1500]%Z)) == 100)%Q.
Proof. vm_compute. reflexivity. Qed.

(** Every edge is at most the last one. *)
Lemma edge_le_last (j : nat) : wrap (edge j) <= 1000000.
Proof.
  do 11 (destruct j as [|j]; [vm_compute; discriminate|]).
  unfold edge. rewrite nth_overflow by (simpl; lia). vm_compute. discriminate.
Qed.

Lemma bucket_loop_no_break (latency_us : Z) (n : nat) : forall i bucket,
  1000000 <= latency_us ->
  bucket_loop latency_us i n bucket = bucket.
Proof.
  induction n as [|n IH]; intros i bucket Hl; [reflexivity|].
  cbn [bucket_loop]. pose proof (edge_le_last (S i)).
  destruct (Z.ltb_spec latency_us (wrap (edge (S i)))); [lia|].
  apply IH, Hl.
Qed.

(** C10. A sample at or beyond the last edge: the search finds no edge,
    the index stays 0, and the sample is counted in bucket [0, 50) while
    every other bucket (the last one included) is untouched; total, sum,
    minimum and maximum are updated with the sample's own value. *)
Theorem overflow_sample_first_bucket (clk : Clock.t) (h : t) (latency_us : Z) :
  1000000 <= latency_us ->
  let h' := fst (add_sample_us clk h latency_us) in
  find_bucket latency_us = 0%nat /\
  buckets_ h' !! 0%nat = (fun c => wrap (c + 1)) <$> (buckets_ h !! 0%nat) /\
  (forall i, i <> 0%nat -> buckets_ h' !! i = buckets_ h !! i) /\
  total_samples_ h' = wrap (total_samples_ h + 1) /\
  total_latency_us_ h' = wrap (total_latency_us_ h + latency_us) /\
  min_latency_us_ h' = Z.min (min_latency_us_ h) latency_us /\
  max_latency_us_ h' = Z.max (max_latency_us_ h) latency_us.
Proof.
  intros Hl h'.
  assert (Hfb : find_bucket latency_us = 0%nat).
  { unfold find_bucket. rewrite bucket_loop_no_break by exact Hl. reflexivity. }
  subst h'. unfold add_sample_us. rewrite Hfb.
  destruct (negb (timing_started_ h)); [destruct (Clock.now clk) as [st clk']|];
    cbn [fst buckets_ total_samples_ total_latency_us_ min_latency_us_ max_latency_us_].
  all: repeat split; try reflexivity.
  all: try (apply list_lookup_alter_eq).
  all: try (intros i Hi; apply list_lookup_alter_ne; congruence).
  all: try (destruct (Z.ltb_spec latency_us (min_latency_us_ h)); lia).
  all: try (destruct (Z.ltb_spec (max_latency_us_ h) latency_us); lia).
Qed.

Lemma overflow_sample_first_bucket_witness :
  let h' := fst (add_sample_us clock0 init 2000000) in
  find_bucket 2000000 = 0%nat /\
  buckets_ h' !! 0%nat = (fun c => wrap (c + 1)) <$> (buckets_ init !! 0%nat) /\
  (forall i, i <> 0%nat -> buckets_ h' !! i = buckets_ init !! i) /\
  total_samples_ h' = wrap (total_samples_ init + 1) /\
  total_latency_us_ h' = wrap (total_latency_us_ init + 2000000) /\
  min_latency_us_ h' = Z.min (min_latency_us_ init) 2000000 /\
  max_latency_us_ h' = Z.max (max_latency_us_ init) 2000000.
Proof.
  apply (overflow_sample_first_bucket clock0 init 2000000). lia.
Defined.

(** Two samples of 10 microseconds: every percentile is interpolated to
    the middle of bucket [0, 50) and exceeds the maximum. *)
Lemma percentile_exceeds_max :
  let h := fst (add_samples clock0 init [10; 10]) in
  0 < total_samples h /\
  ~ ((p50_us h <= p95_us h)%Q /\ (p95_us h <= p99_us h)%Q /\
     (p99_us h <= inject_Z (max_latency_us h))%Q /\
     (inject_Z (min_latency_us h) <= mean_latency_us h)%Q /\
     (mean_latency_us h <= inject_Z (max_latency_us h))%Q).
Proof.
  split; [reflexivity|].
  intros (_ & _ & H & _). vm_compute in H. apply H. reflexivity.
Qed.

(** *** Order of the reported statistics *)

Lemma edge_increasing (i : nat) : (i < NUM_BUCKETS)%nat -> edge i < edge (S i).
Proof.
  unfold NUM_BUCKETS. intros Hi.
  do 10 (destruct i as [|i]; [reflexivity|]). lia.
Qed.

Lemma edge_le_end (i : nat) : (i <= NUM_BUCKETS)%nat -> edge i <= edge NUM_BUCKETS.
Proof.
  unfold NUM_BUCKETS. intros Hi.
  do 11 (destruct i as [|i]; [vm_compute; discriminate|]). lia.
Qed.

Lemma edge_nonneg (i : nat) : 0 <= edge i.
Proof.
  do 11 (destruct i as [|i]; [vm_compute; discriminate|]).
  unfold edge. rewrite nth_overflow by (simpl; lia). lia.
Qed.

(** Interpolation inside one bucket stays inside it and is monotone in the
    target count. *)
Lemma interpolate_bounds (lo hi a a' b : Z) :
  lo <= hi -> 0 <= a <= a' -> a' <= b -> 0 < b ->
  (inject_Z lo <= inject_Z lo + inject_Z a / inject_Z b * (inject_Z hi - inject_Z lo) /\
   inject_Z lo + inject_Z a / inject_Z b * (inject_Z hi - inject_Z lo)
     <= inject_Z lo + inject_Z a' / inject_Z b * (inject_Z hi - inject_Z lo) /\
   inject_Z lo + inject_Z a' / inject_Z b * (inject_Z hi - inject_Z lo)
     <= inject_Z hi)%Q.
Proof.
  intros Hlh Ha Ha' Hb.
  assert (Hbq : (0 < inject_Z b)%Q).
  { change (inject_Z 0 < inject_Z b)%Q. rewrite <- Zlt_Qlt. exact Hb. }
  assert (Hw : (0 <= inject_Z hi - inject_Z lo)%Q).
  { rewrite Zle_Qle in Hlh. lra. }
  assert (Hinv : (0 <= / inject_Z b)%Q) by (apply Qinv_le_0_compat; lra).
  assert (Hdiv : forall c c' : Z, c <= c' ->
            (inject_Z c / inject_Z b <= inject_Z c' / inject_Z b)%Q).
  { intros c c' Hc. unfold Qdiv. apply Qmult_le_compat_r; [|exact Hinv].
    rewrite <- Zle_Qle. exact Hc. }
  assert (H0 : (0 <= inject_Z a / inject_Z b)%Q).
  { unfold Qdiv. apply Qmult_le_0_compat; [|exact Hinv].
    change (inject_Z 0 <= inject_Z a)%Q. rewrite <- Zle_Qle. lia. }
  assert (H1 : (inject_Z a' / inject_Z b <= 1)%Q).
  { apply Qle_shift_div_r; [exact Hbq|]. rewrite Qmult_1_l, <- Zle_Qle. lia. }
  pose proof (Hdiv a a' ltac:(lia)) as Hm.
  set (x := (inject_Z a / inject_Z b)%Q) in *.
  set (x' := (inject_Z a' / inject_Z b)%Q) in *.
  set (w := (inject_Z hi - inject_Z lo)%Q) in *.
  assert (Hhi : (inject_Z hi == inject_Z lo + w)%Q) by (unfold w; ring).
  rewrite Hhi. clearbody x x' w.
  repeat split; nra.
Qed.

(** The scan is monotone in the target count and stays between the lower
    edge of the bucket it starts from and the last edge. *)
Lemma percentile_scan_mono (bs : list Z) : forall i cum t t',
  Forall (fun c => 0 <= c) bs ->
  0 <= cum -> cum + sumZ bs < U64 ->
  cum <= t <= t' ->
  (i + length bs = NUM_BUCKETS)%nat ->
  (inject_Z (edge i) <= percentile_scan t bs i cum /\
   percentile_scan t bs i cum <= percentile_scan t' bs i cum /\
   percentile_scan t' bs i cum <= inject_Z (edge NUM_BUCKETS))%Q.
Proof.
  induction bs as [|b bs IH]; intros i cum t t' Hnn Hcum Hsum Ht Hlen.
  - cbn [percentile_scan]. cbn [length] in Hlen.
    replace i with NUM_BUCKETS by lia. repeat split; apply Qle_refl.
  - inversion Hnn as [|? ? Hb Hnn']; subst.
    cbn [sumZ fold_right] in Hsum. fold (sumZ bs) in Hsum.
    cbn [length] in Hlen.
    assert (Hsnn : 0 <= sumZ bs).
    { clear -Hnn'. induction Hnn'; cbn [sumZ fold_right]; [lia|].
      fold (sumZ l). lia. }
    assert (Hi : (i < NUM_BUCKETS)%nat) by lia.
    pose proof (edge_increasing i Hi) as Hedge.
    pose proof (edge_le_end (S i) ltac:(lia)) as Hend.
    cbn [percentile_scan].
    rewrite (wrap_small (cum + b)) by lia.
    replace (cum + b - b) with cum by lia.
    rewrite (wrap_small cum) by lia.
    assert (Hnext : forall u, cum + b <= u ->
              (inject_Z (edge (S i)) <= percentile_scan u bs (S i) (cum + b) /\
               percentile_scan u bs (S i) (cum + b) <= inject_Z (edge NUM_BUCKETS))%Q).
    { intros u Hu.
      destruct (IH (S i) (cum + b) u u) as (H1 & _ & H3);
        try assumption; try lia. split; assumption. }
    assert (Hsel : forall u, cum <= u <= cum + b -> 0 < b ->
              wrap (u - cum) = u - cum) by (intros; apply wrap_small; lia).
    destruct (Z.leb_spec t (cum + b)) as [Hts|Hts];
      destruct (Z.leb_spec t' (cum + b)) as [Hts'|Hts']; try lia.
    + destruct (Z.eqb_spec b 0) as [Hb0|Hb0].
      * repeat split; try apply Qle_refl.
        rewrite <- Zle_Qle. lia.
      * rewrite !Hsel by lia.
        destruct (interpolate_bounds (edge i) (edge (S i)) (t - cum) (t' - cum) b)
          as (H1 & H2 & H3); try lia.
        repeat split; try assumption.
        eapply Qle_trans; [exact H3|]. rewrite <- Zle_Qle. exact Hend.
    + destruct (Hnext t' ltac:(lia)) as [Hlo Hhi].
      destruct (Z.eqb_spec b 0) as [Hb0|Hb0].
      * repeat split; try apply Qle_refl; try assumption.
        eapply Qle_trans; [|exact Hlo]. rewrite <- Zle_Qle. lia.
      * rewrite !Hsel by lia.
        destruct (interpolate_bounds (edge i) (edge (S i)) (t - cum) (t - cum) b)
          as (H1 & H2 & H3); try lia.
        repeat split; try assumption.
        eapply Qle_trans; [exact H3 | exact Hlo].
    + destruct (IH (S i) (cum + b) t t') as (H1 & H2 & H3);
        try assumption; try lia.
      repeat split; try assumption.
      eapply Qle_trans; [|exact H1]. rewrite <- Zle_Qle. lia.
Qed.

(** With a positive target the scan stops in a non-empty bucket, hence
    below any bound on the upper edges of the non-empty buckets. *)
Lemma percentile_scan_upper (B : Z) (bs : list Z) : forall i cum t,
  Forall (fun c => 0 <= c) bs ->
  0 <= cum < t -> t <= cum + sumZ bs -> cum + sumZ bs < U64 ->
  (i + length bs = NUM_BUCKETS)%nat ->
  (forall k c, bs !! k = Some c -> 0 < c -> edge (S (i + k)) <= B) ->
  (percentile_scan t bs i cum <= inject_Z B)%Q.
Proof.
  induction bs as [|b bs IH]; intros i cum t Hnn Hcum Ht Hsum Hlen Hocc.
  - cbn [sumZ fold_right] in Ht. lia.
  - inversion Hnn as [|? ? Hb Hnn']; subst.
    cbn [sumZ fold_right] in Ht, Hsum. fold (sumZ bs) in Ht, Hsum.
    cbn [length] in Hlen.
    assert (Hsnn : 0 <= sumZ bs).
    { clear -Hnn'. induction Hnn'; cbn [sumZ fold_right]; [lia|].
      fold (sumZ l). lia. }
    cbn [percentile_scan].
    rewrite (wrap_small (cum + b)) by lia.
    replace (cum + b - b) with cum by lia.
    rewrite (wrap_small cum) by lia.
    destruct (Z.leb_spec t (cum + b)) as [Hts|Hts].
    + assert (Hbpos : 0 < b) by lia.
      destruct (Z.eqb_spec b 0) as [Hb0|_]; [lia|].
      rewrite (wrap_small (t - cum)) by lia.
      pose proof (edge_increasing i ltac:(lia)) as Hedge.
      destruct (interpolate_bounds (edge i) (edge (S i)) (t - cum) (t - cum) b)
        as (_ & _ & H3); try lia.
      eapply Qle_trans; [exact H3|]. rewrite <- Zle_Qle.
      specialize (Hocc 0%nat b eq_refl Hbpos).
      rewrite Nat.add_0_r in Hocc. exact Hocc.
    + apply IH; try assumption; try lia.
      intros k c Hk Hc. specialize (Hocc (S k) c Hk Hc).
      replace (S i + k)%nat with (i + S k)%nat by lia. exact Hocc.
Qed.

Lemma percentile_scan_zero (b : Z) (bs : list Z) :
  0 <= b < U64 -> (percentile_scan 0 (b :: bs) 0 0 == 0)%Q.
Proof.
  intros Hb. cbn [percentile_scan]. rewrite Z.add_0_l, (wrap_small b) by lia.
  destruct (Z.leb_spec 0 b) as [_|]; [|lia].
  destruct (Z.eqb_spec b 0) as [_|Hne]; [reflexivity|].
  rewrite Z.sub_diag. change (wrap 0) with 0. rewrite Z.sub_diag.
  change (wrap 0) with 0. change (inject_Z (edge 0)) with 0%Q.
  change (inject_Z 0) with 0%Q. field.
  change 0%Q with (inject_Z 0). rewrite inject_Z_injective. exact Hne.
Qed.

(** The truncated target count. *)
Lemma Qtrunc_floor (q : Q) : (0 <= q)%Q -> Qtrunc q = Qfloor q.
Proof.
  destruct q as [n d]. unfold Qle, Qtrunc, Qfloor. cbn [Qnum Qden].
  intros Hn. apply Z.quot_div_nonneg; lia.
Qed.

Lemma target_count_bounds (total : Z) (p p' : Q) :
  0 <= total -> (0 <= p)%Q -> (p <= p')%Q -> (p' <= 100)%Q ->
  0 <= Qtrunc (inject_Z total * p / 100) /\
  Qtrunc (inject_Z total * p / 100) <= Qtrunc (inject_Z total * p' / 100) /\
  Qtrunc (inject_Z total * p' / 100) <= total.
Proof.
  intros Ht Hp Hpp Hp'.
  assert (Htq : (0 <= inject_Z total)%Q).
  { change (inject_Z 0 <= inject_Z total)%Q. rewrite <- Zle_Qle. exact Ht. }
  assert (H0 : (0 <= inject_Z total * p / 100)%Q).
  { apply Qle_shift_div_l; [reflexivity|]. nra. }
  assert (H1 : (inject_Z total * p / 100 <= inject_Z total * p' / 100)%Q).
  { apply Qle_shift_div_l; [reflexivity|].
    assert (Heq : (inject_Z total * p / 100 * 100 == inject_Z total * p)%Q) by field.
    rewrite Heq. nra. }
  assert (H2 : (inject_Z total * p' / 100 <= inject_Z total)%Q).
  { apply Qle_shift_div_r; [reflexivity|]. nra. }
  rewrite !Qtrunc_floor by (assumption || (eapply Qle_trans; eassumption)).
  repeat split.
  - change 0 with (Qfloor 0). apply Qfloor_resp_le, H0.
  - apply Qfloor_resp_le, H1.
  - rewrite <- (Qfloor_Z total) at 2. apply Qfloor_resp_le, H2.
Qed.

(** The bucket search as a cascade of comparisons. *)
Lemma find_bucket_cascade (x : Z) :
  find_bucket x =
    if x <? 50 then 0%nat else if x <? 100 then 1%nat
    else if x <? 250 then 2%nat else if x <? 500 then 3%nat
    else if x <? 1000 then 4%nat else if x <? 2000 then 5%nat
    else if x <? 5000 then 6%nat else if x <? 10000 then 7%nat
    else if x <? 50000 then 8%nat else if x <? 1000000 then 9%nat
    else 0%nat.
Proof.
  unfold find_bucket, NUM_BUCKETS. cbn [bucket_loop].
  change (wrap (edge 1)) with 50. change (wrap (edge 2)) with 100.
  change (wrap (edge 3)) with 250. change (wrap (edge 4)) with 500.
  change (wrap (edge 5)) with 1000. change (wrap (edge 6)) with 2000.
  change (wrap (edge 7)) with 5000. change (wrap (edge 8)) with 10000.
  change (wrap (edge 9)) with 50000. change (wrap (edge 10)) with 1000000.
  repeat (match goal with |- context [?a <? ?b] => destruct (a <? b) end;
          [reflexivity|]).
  reflexivity.
Qed.

Lemma find_bucket_lt (x : Z) : (find_bucket x < NUM_BUCKETS)%nat.
Proof.
  rewrite find_bucket_cascade. unfold NUM_BUCKETS.
  repeat (match goal with |- context [?a <? ?b] => destruct (a <? b) end; [lia|]).
  lia.
Qed.

Lemma upper_bound_cascade (m : Z) :
  upper_bound m =
    Z.max m (if m <? 50 then 50 else if m <? 100 then 100
             else if m <? 250 then 250 else if m <? 500 then 500
             else if m <? 1000 then 1000 else if m <? 2000 then 2000
             else if m <? 5000 then 5000 else if m <? 10000 then 10000
             else if m <? 50000 then 50000 else if m <? 1000000 then 1000000
             else 50).
Proof.
  unfold upper_bound. rewrite find_bucket_cascade.
  repeat (match goal with |- context [?a <? ?b] => destruct (a <? b) end;
          [reflexivity|]).
  reflexivity.
Qed.

Lemma upper_bound_mono (m m' : Z) : m <= m' -> upper_bound m <= upper_bound m'.
Proof.
  intros Hm. rewrite !upper_bound_cascade.
  repeat (match goal with
          | |- context [?a <? ?b] => destruct (Z.ltb_spec a b)
          end); lia.
Qed.

Lemma sumZ_app (xs ys : list Z) : sumZ (xs ++ ys) = sumZ xs + sumZ ys.
Proof.
  induction xs as [|x xs IH]; cbn [sumZ fold_right app]; [reflexivity|].
  fold (sumZ (xs ++ ys)) (sumZ xs). lia.
Qed.

Lemma sumZ_nonneg (xs : list Z) : Forall (fun c => 0 <= c) xs -> 0 <= sumZ xs.
Proof.
  induction 1 as [|x xs Hx _ IH]; cbn [sumZ fold_right]; [lia|].
  fold (sumZ xs). lia.
Qed.

Lemma sumZ_lookup_le (bs : list Z) : forall k c,
  Forall (fun c => 0 <= c) bs -> bs !! k = Some c -> c <= sumZ bs.
Proof.
  induction bs as [|b bs IH]; intros k c Hnn Hk; [discriminate|].
  inversion Hnn as [|? ? Hb Hnn']; subst.
  cbn [sumZ fold_right]. fold (sumZ bs).
  pose proof (sumZ_nonneg bs Hnn').
  destruct k as [|k]; cbn in Hk.
  - inversion Hk; subst. lia.
  - specialize (IH k c Hnn' Hk). lia.
Qed.

Lemma sumZ_alter (f : Z -> Z) (bs : list Z) : forall k c,
  bs !! k = Some c -> sumZ (alter f k bs) = sumZ bs + (f c - c).
Proof.
  induction bs as [|b bs IH]; intros k c Hk; [discriminate|].
  destruct k as [|k]; cbn in Hk.
  - inversion Hk; subst. cbn [alter list_alter sumZ fold_right]. lia.
  - change (alter f (S k) (b :: bs)) with (b :: alter f k bs).
    cbn [sumZ fold_right]. fold (sumZ (alter f k bs)) (sumZ bs).
    rewrite (IH k c Hk). lia.
Qed.

Lemma reset_inv (h0 : t) : HInv (reset h0) [].
Proof.
  split; cbn; try (constructor; fail); try reflexivity; try discriminate.
  - repeat constructor; lia.
  - intros k c Hk Hc. exfalso.
    do 10 (destruct k as [|k]; [cbn in Hk; inversion Hk; lia|]). discriminate.
Qed.

Lemma add_sample_us_inv (clk : Clock.t) (h : t) (xs : list Z) (x : Z) :
  HInv h xs -> 0 <= x < U64 ->
  Z.of_nat (length xs) + 1 < U64 -> sumZ xs + x < U64 ->
  HInv (fst (add_sample_us clk h x)) (xs ++ [x]).
Proof.
  intros [Hlen Hnn Htot Hbs Hsum Hmin0 Hmin Hmax0 Hmax Hocc] Hx Hn Hs.
  assert (Hsnn : 0 <= sumZ xs).
  { apply sumZ_nonneg. eapply Forall_impl; [exact Hmin|]. cbn. intros; lia. }
  pose proof (find_bucket_lt x) as Hfb.
  destruct (lookup_lt_is_Some_2 (buckets_ h) (find_bucket x)) as [c Hc];
    [rewrite Hlen; exact Hfb|].
  pose proof (sumZ_lookup_le _ _ _ Hnn Hc) as Hcle.
  assert (Hc0 : 0 <= c).
  { rewrite Forall_lookup in Hnn. exact (Hnn _ _ Hc). }
  unfold add_sample_us.
  destruct (if negb (timing_started_ h) then Clock.now clk else (start_time_ h, clk))
    as [st clk'].
  cbn [fst]. split;
    cbn [buckets_ total_samples_ total_latency_us_ min_latency_us_ max_latency_us_].
  - rewrite length_alter. exact Hlen.
  - apply Forall_alter; [exact Hnn|]. intros y _ _. apply wrap_range.
  - rewrite length_app, Htot, wrap_small; cbn [length]; lia.
  - rewrite (sumZ_alter _ _ _ _ Hc), wrap_small, length_app by lia.
    cbn [length]. lia.
  - rewrite sumZ_app, Hsum, wrap_small by lia. cbn [sumZ fold_right]. lia.
  - destruct (Z.ltb_spec x (min_latency_us_ h)); lia.
  - apply Forall_app. split.
    + eapply Forall_impl; [exact Hmin|]. cbn. intros y Hy.
      destruct (Z.ltb_spec x (min_latency_us_ h)); lia.
    + constructor; [|constructor].
      destruct (Z.ltb_spec x (min_latency_us_ h)); lia.
  - destruct (Z.ltb_spec (max_latency_us_ h) x); lia.
  - apply Forall_app. split.
    + eapply Forall_impl; [exact Hmax|]. cbn. intros y Hy.
      destruct (Z.ltb_spec (max_latency_us_ h) x); lia.
    + constructor; [|constructor].
      destruct (Z.ltb_spec (max_latency_us_ h) x); lia.
  - intros k c' Hk Hc'.
    set (m' := if max_latency_us_ h <? x then x else max_latency_us_ h).
    assert (Hm1 : max_latency_us_ h <= m') by
      (unfold m'; destruct (Z.ltb_spec (max_latency_us_ h) x); lia).
    assert (Hm2 : x <= m') by
      (unfold m'; destruct (Z.ltb_spec (max_latency_us_ h) x); lia).
    destruct (decide (k = find_bucket x)) as [->|Hne].
    + etransitivity; [|apply upper_bound_mono, Hm2].
      unfold upper_bound. lia.
    + rewrite list_lookup_alter_ne in Hk by congruence.
      etransitivity; [|apply upper_bound_mono, Hm1].
      eapply Hocc; eassumption.
Qed.

Lemma add_samples_inv (xs : list Z) : forall clk h pre,
  HInv h pre -> Forall (fun x => 0 <= x < U64) xs ->
  Z.of_nat (length pre) + Z.of_nat (length xs) < U64 ->
  sumZ pre + sumZ xs < U64 ->
  HInv (fst (add_samples clk h xs)) (pre ++ xs).
Proof.
  induction xs as [|x xs IH]; intros clk h pre Hinv Hxs Hn Hs.
  - cbn. rewrite app_nil_r. exact Hinv.
  - inversion Hxs as [|? ? Hx Hxs']; subst.
    cbn [length sumZ fold_right] in Hn, Hs. fold (sumZ xs) in Hs.
    assert (Hrest : 0 <= sumZ xs).
    { apply sumZ_nonneg. eapply Forall_impl; [exact Hxs'|]. cbn. intros; lia. }
    cbn [add_samples].
    pose proof (add_sample_us_inv clk h pre x Hinv Hx ltac:(lia) ltac:(lia)) as H1.
    destruct (add_sample_us clk h x) as [h1 clk1]. cbn [fst] in H1.
    replace (pre ++ x :: xs) with ((pre ++ [x]) ++ xs)
      by (rewrite <- app_assoc; reflexivity).
    apply IH; try assumption.
    + rewrite length_app. cbn [length]. lia.
    + rewrite sumZ_app. cbn [sumZ fold_right]. lia.
Qed.

Lemma sumZ_lower (lo : Z) (xs : list Z) :
  Forall (fun x => lo <= x) xs -> lo * Z.of_nat (length xs) <= sumZ xs.
Proof.
  induction 1 as [|x xs Hx _ IH]; cbn [sumZ fold_right length]; [lia|].
  fold (sumZ xs). lia.
Qed.

Lemma sumZ_upper (hi : Z) (xs : list Z) :
  Forall (fun x => x <= hi) xs -> sumZ xs <= hi * Z.of_nat (length xs).
Proof.
  induction 1 as [|x xs Hx _ IH]; cbn [sumZ fold_right length]; [lia|].
  fold (sumZ xs). lia.
Qed.

Lemma mean_between (lo hi sum n : Z) :
  0 < n -> lo * n <= sum -> sum <= hi * n ->
  (inject_Z lo <= inject_Z sum / inject_Z n /\
   inject_Z sum / inject_Z n <= inject_Z hi)%Q.
Proof.
  intros Hn Hlo Hhi.
  assert (Hnq : (0 < inject_Z n)%Q).
  { change (inject_Z 0 < inject_Z n)%Q. rewrite <- Zlt_Qlt. exact Hn. }
  split.
  - apply Qle_shift_div_l; [exact Hnq|].
    rewrite <- inject_Z_mult, <- Zle_Qle. exact Hlo.
  - apply Qle_shift_div_r; [exact Hnq|].
    rewrite <- inject_Z_mult, <- Zle_Qle. exact Hhi.
Qed.

(** C9 (as the code has it). For a histogram filled, from construction or
    from a [reset()], by any non-empty run of [add_sample_us] calls whose
    count and latency sum stay below [2^64]: [p50 <= p95 <= p99], and
    [p99] is at most the upper edge of the bucket holding the maximum (or
    the maximum itself when it is at or beyond the last edge); the
    percentiles are interpolated inside a bucket and are not bounded by
    the maximum.  When the count and the sum are below [2^53], so that
    both convert to [double] exactly, [min <= mean <= max] for the mean
    taken as the exact quotient of the sum by the count, which
    [mean_latency_us()] returns rounded to binary64. *)
Theorem histogram_statistics_order (clk : Clock.t) (h0 : t) (xs : list Z) :
  xs <> [] -> Forall (fun x => 0 <= x < U64) xs ->
  Z.of_nat (length xs) < U64 -> sumZ xs < U64 ->
  let h := fst (add_samples clk (reset h0) xs) in
  0 < total_samples h /\
  (p50_us h <= p95_us h)%Q /\ (p95_us h <= p99_us h)%Q /\
  (p99_us h <= inject_Z (upper_bound (max_latency_us h)))%Q /\
  (Z.of_nat (length xs) < 2 ^ 53 -> sumZ xs < 2 ^ 53 ->
   (inject_Z (min_latency_us h) <= mean_latency_us h)%Q /\
   (mean_latency_us h <= inject_Z (max_latency_us h))%Q).
Proof.
  intros Hne Hxs Hlen Hsum h.
  pose proof (add_samples_inv xs clk (reset h0) [] (reset_inv h0) Hxs) as Hinv.
  cbn [app length sumZ fold_right] in Hinv.
  specialize (Hinv ltac:(lia) ltac:(lia)). fold h in Hinv.
  destruct Hinv as [Hbl Hnn Htot Hbs Hs Hmin0 Hmin Hmax0 Hmax Hocc].
  assert (Hn : 0 < Z.of_nat (length xs)).
  { destruct xs; [congruence | cbn [length]; lia]. }
  assert (Htotal : 0 < total_samples h) by (unfold total_samples; lia).
  split; [exact Htotal|].
  assert (Hperc : forall p, percentile_us h p =
            percentile_scan (Qtrunc (inject_Z (total_samples h) * p / 100))
              (buckets_ h) 0 0).
  { intros p. unfold percentile_us.
    destruct (Z.eqb_spec (total_samples h) 0); [lia | reflexivity]. }
  unfold p50_us, p95_us, p99_us. rewrite !Hperc.
  destruct (target_count_bounds (total_samples h) 50 95 ltac:(lia))
    as (H50 & H5095 & _); try (unfold Qle; cbn; lia).
  destruct (target_count_bounds (total_samples h) 95 99 ltac:(lia))
    as (_ & H9599 & H99); try (unfold Qle; cbn; lia).
  set (t50 := Qtrunc (inject_Z (total_samples h) * 50 / 100)) in *.
  set (t95 := Qtrunc (inject_Z (total_samples h) * 95 / 100)) in *.
  set (t99 := Qtrunc (inject_Z (total_samples h) * 99 / 100)) in *.
  assert (Hmono : forall t t', 0 <= t <= t' ->
            (percentile_scan t (buckets_ h) 0 0
               <= percentile_scan t' (buckets_ h) 0 0)%Q).
  { intros t t' Ht.
    destruct (percentile_scan_mono (buckets_ h) 0%nat 0 t t') as (_ & H & _);
      try assumption; try lia. }
  split; [apply Hmono; lia|]. split; [apply Hmono; lia|]. split.
  - unfold max_latency_us.
    destruct (Z.eq_dec t99 0) as [H0|H0].
    + rewrite H0. destruct (buckets_ h) as [|b bs] eqn:Hb; [discriminate|].
      inversion Hnn; subst.
      rewrite percentile_scan_zero.
      * change 0%Q with (inject_Z 0). rewrite <- Zle_Qle.
        unfold upper_bound. lia.
      * split; [assumption|].
        pose proof (sumZ_lookup_le (b :: bs) 0%nat b ltac:(constructor; assumption)
                      eq_refl). lia.
    + unfold total_samples in H99.
      apply percentile_scan_upper; try assumption; lia.
  - intros _ _. unfold mean_latency_us.
    destruct (Z.ltb_spec 0 (total_samples h)) as [_|]; [|lia].
    unfold total_samples, max_latency_us. rewrite Htot, Hs.
    pose proof (sumZ_lower _ _ Hmin) as Hlo.
    pose proof (sumZ_upper _ _ Hmax) as Hhi.
    assert (Hrep : min_latency_us h <= min_latency_us_ h).
    { unfold min_latency_us.
      destruct (Z.eqb_spec (min_latency_us_ h) UINT64_MAX); lia. }
    destruct (mean_between (min_latency_us h) (max_latency_us_ h) (sumZ xs)
                (Z.of_nat (length xs))) as [Ha Hb]; try assumption; try nia.
    split; assumption.
Qed.

Lemma histogram_statistics_order_witness :
  let h := fst (add_samples clock0 init [10; 75; 300; 1500]) in
  0 < total_samples h /\
  (p50_us h <= p95_us h)%Q /\ (p95_us h <= p99_us h)%Q /\
  (p99_us h <= inject_Z (upper_bound (max_latency_us h)))%Q /\
  (inject_Z (min_latency_us h) <= mean_latency_us h)%Q /\
  (mean_latency_us h <= inject_Z (max_latency_us h))%Q.
Proof.
  pose proof (histogram_statistics_order clock0 init [10; 75; 300; 1500]) as H.
  cbv zeta in H.
  destruct H as (Ht & H50 & H95 & H99 & Hmean).
  - discriminate.
  - repeat constructor; unfold U64; lia.
  - reflexivity.
  - reflexivity.
  - destruct Hmean as [Hlo Hhi]; [reflexivity | reflexivity |].
    cbv zeta. split_and!; assumption.
Defined.

(** *** Exact statistics and the histogram rows *)

Lemma count_in_snoc (k : nat) (xs : list Z) (x : Z) :
  count_in k (xs ++ [x]) =
  count_in k xs + (if Nat.eqb (find_bucket x) k then 1 else 0).
Proof.
  unfold count_in. rewrite List.filter_app, length_app. cbn [List.filter].
  destruct (Nat.eqb (find_bucket x) k); cbn [length]; lia.
Qed.

Lemma count_in_le (k : nat) (xs : list Z) : 0 <= count_in k xs <= Z.of_nat (length xs).
Proof.
  unfold count_in. pose proof (List.filter_length_le
    (fun x => Nat.eqb (find_bucket x) k) xs). lia.
Qed.

Lemma nth_alter (f : Z -> Z) (bs : list Z) (i k : nat) :
  nth k (alter f i bs) 0 =
  if decide (k = i) then
    (if decide (k < length bs)%nat then f (nth k bs 0) else 0)
  else nth k bs 0.
Proof.
  rewrite !nth_lookup.
  destruct (decide (k = i)) as [->|Hne].
  - rewrite list_lookup_alter_eq.
    destruct (decide (i < length bs)%nat) as [Hlt|Hge].
    + destruct (lookup_lt_is_Some_2 bs i Hlt) as [c Hc]. rewrite Hc. reflexivity.
    + rewrite lookup_ge_None_2 by lia. reflexivity.
  - rewrite list_lookup_alter_ne by congruence. reflexivity.
Qed.

Lemma reset_exact (h0 : t) : HExact (reset h0) [].
Proof.
  constructor; cbn; try reflexivity.
  intros k. do 10 (destruct k as [|k]; [reflexivity|]). destruct k; reflexivity.
Qed.

Lemma add_sample_us_exact (clk : Clock.t) (h : t) (xs : list Z) (x : Z) :
  HInv h xs -> HExact h xs -> Z.of_nat (length xs) + 1 < U64 ->
  HExact (fst (add_sample_us clk h x)) (xs ++ [x]).
Proof.
  intros Hinv [Hmin Hmax Hb] Hn.
  pose proof (find_bucket_lt x) as Hfb.
  unfold add_sample_us.
  destruct (if negb (timing_started_ h) then Clock.now clk else (start_time_ h, clk))
    as [st clk'].
  cbn [fst]. constructor; cbn [buckets_ min_latency_us_ max_latency_us_].
  - unfold list_min. rewrite fold_left_app. cbn [fold_left]. fold (list_min xs).
    rewrite <- Hmin. destruct (Z.ltb_spec x (min_latency_us_ h)); lia.
  - unfold list_max. rewrite fold_left_app. cbn [fold_left]. fold (list_max xs).
    rewrite <- Hmax. destruct (Z.ltb_spec (max_latency_us_ h) x); lia.
  - intros k. rewrite nth_alter, count_in_snoc, Hb.
    pose proof (count_in_le k xs) as Hle.
    destruct (decide (k = find_bucket x)) as [->|Hne].
    + rewrite Nat.eqb_refl.
      destruct (decide (find_bucket x < length (buckets_ h))%nat) as [_|Hge].
      * apply wrap_small. lia.
      * exfalso. apply Hge. rewrite (hi_len _ _ Hinv). exact Hfb.
    + destruct (Nat.eqb_spec (find_bucket x) k); [congruence | lia].
Qed.

Lemma add_samples_exact (xs : list Z) : forall clk h pre,
  HInv h pre -> HExact h pre -> Forall (fun x => 0 <= x < U64) xs ->
  Z.of_nat (length pre) + Z.of_nat (length xs) < U64 ->
  sumZ pre + sumZ xs < U64 ->
  HExact (fst (add_samples clk h xs)) (pre ++ xs).
Proof.
  induction xs as [|x xs IH]; intros clk h pre Hinv Hex Hxs Hn Hs.
  - cbn. rewrite app_nil_r. exact Hex.
  - inversion Hxs as [|? ? Hx Hxs']; subst.
    cbn [length sumZ fold_right] in Hn, Hs. fold (sumZ xs) in Hs.
    assert (Hrest : 0 <= sumZ xs).
    { apply sumZ_nonneg. eapply Forall_impl; [exact Hxs'|]. cbn. intros; lia. }
    cbn [add_samples].
    pose proof (add_sample_us_inv clk h pre x Hinv Hx ltac:(lia) ltac:(lia)) as H1.
    pose proof (add_sample_us_exact clk h pre x Hinv Hex ltac:(lia)) as H2.
    destruct (add_sample_us clk h x) as [h1 clk1]. cbn [fst] in H1, H2.
    replace (pre ++ x :: xs) with ((pre ++ [x]) ++ xs)
      by (rewrite <- app_assoc; reflexivity).
    apply IH; try assumption.
    + rewrite length_app. cbn [length]. lia.
    + rewrite sumZ_app. cbn [sumZ fold_right]. lia.
Qed.

Lemma list_min_spec (xs : list Z) : forall a,
  fold_left Z.min xs a <= a /\
  Forall (fun x => fold_left Z.min xs a <= x) xs /\
  (fold_left Z.min xs a = a \/ fold_left Z.min xs a ∈ xs).
Proof.
  induction xs as [|x xs IH]; intros a; cbn [fold_left].
  - split; [lia|]. split; [constructor | left; reflexivity].
  - destruct (IH (Z.min a x)) as (H1 & H2 & H3). split; [lia|]. split.
    + constructor; [lia | exact H2].
    + destruct H3 as [H3|H3].
      * destruct (Z.min_spec a x) as [[_ Hm]|[_ Hm]].
        -- left. rewrite H3. exact Hm.
        -- right. rewrite H3, Hm. constructor.
      * right. constructor. exact H3.
Qed.

Lemma list_max_spec (xs : list Z) : forall a,
  a <= fold_left Z.max xs a /\
  Forall (fun x => x <= fold_left Z.max xs a) xs /\
  (fold_left Z.max xs a = a \/ fold_left Z.max xs a ∈ xs).
Proof.
  induction xs as [|x xs IH]; intros a; cbn [fold_left].
  - split; [lia|]. split; [constructor | left; reflexivity].
  - destruct (IH (Z.max a x)) as (H1 & H2 & H3). split; [lia|]. split.
    + constructor; [lia | exact H2].
    + destruct H3 as [H3|H3].
      * destruct (Z.max_spec a x) as [[_ Hm]|[_ Hm]].
        -- right. rewrite H3, Hm. constructor.
        -- left. rewrite H3. exact Hm.
      * right. constructor. exact H3.
Qed.

(** X15. The numbers a histogram holds after [reset()] and the samples
    [xs]: [total_samples()] is their number, [max_latency_us()] the
    largest and [min_latency_us()] the smallest of them, and the quotient
    of the stored sum by the count, taken exactly, is their average
    ([mean_latency_us()] returns this quotient rounded to binary64); with
    no sample all four are 0, and the minimum is also reported as 0 when
    every sample equals [UINT64_MAX]. *)
Theorem histogram_exact_statistics (clk : Clock.t) (h0 : t) (xs : list Z) :
  Forall (fun x => 0 <= x < U64) xs ->
  Z.of_nat (length xs) < U64 -> sumZ xs < U64 ->
  let h := fst (add_samples clk (reset h0) xs) in
  total_samples h = Z.of_nat (length xs) /\
  (xs <> [] ->
   (mean_latency_us h == inject_Z (sumZ xs) / inject_Z (Z.of_nat (length xs)))%Q /\
   max_latency_us h = list_max xs /\ list_max xs ∈ xs /\
   Forall (fun x => list_min xs <= x <= list_max xs) xs /\
   list_min xs ∈ xs /\
   min_latency_us h = (if list_min xs =? UINT64_MAX then 0 else list_min xs)) /\
  (xs = [] ->
   mean_latency_us h = 0%Q /\ max_latency_us h = 0 /\ min_latency_us h = 0).
Proof.
  intros Hxs Hlen Hsum h.
  pose proof (add_samples_inv xs clk (reset h0) [] (reset_inv h0) Hxs) as Hinv.
  pose proof (add_samples_exact xs clk (reset h0) [] (reset_inv h0) (reset_exact h0) Hxs)
    as Hex.
  cbn [app length sumZ fold_right] in Hinv, Hex.
  specialize (Hinv ltac:(lia) ltac:(lia)). specialize (Hex ltac:(lia) ltac:(lia)).
  fold h in Hinv, Hex.
  destruct Hex as [Hmin Hmax _].
  pose proof (hi_total _ _ Hinv) as Htot. pose proof (hi_sum _ _ Hinv) as Hs.
  split; [exact Htot|]. split.
  - intros Hne.
    assert (Hn : 0 < Z.of_nat (length xs)).
    { destruct xs; [congruence | cbn [length]; lia]. }
    destruct (list_min_spec xs UINT64_MAX) as (Hm1 & Hm2 & Hm3).
    destruct (list_max_spec xs 0) as (HM1 & HM2 & HM3).
    fold (list_min xs) in Hm1, Hm2, Hm3. fold (list_max xs) in HM1, HM2, HM3.
    assert (Hmax_in : list_max xs ∈ xs).
    { destruct HM3 as [H0|Hin]; [|exact Hin].
      destruct xs as [|x xs']; [congruence|].
      inversion Hxs as [|? ? Hx _]; subst. inversion HM2 as [|? ? Hx0 _]; subst.
      assert (x = 0) by lia. subst x. rewrite H0. constructor. }
    assert (Hmin_in : list_min xs ∈ xs).
    { destruct Hm3 as [H0|Hin]; [|exact Hin].
      destruct xs as [|x xs']; [congruence|].
      inversion Hxs as [|? ? Hx _]; subst. inversion Hm2 as [|? ? Hx0 _]; subst.
      assert (x = UINT64_MAX) by (unfold UINT64_MAX in *; lia). subst x.
      rewrite H0. constructor. }
    split_and!.
    + unfold mean_latency_us, total_samples. rewrite Htot, Hs.
      destruct (Z.ltb_spec 0 (Z.of_nat (length xs))); [reflexivity | lia].
    + exact Hmax.
    + exact Hmax_in.
    + rewrite Forall_forall in Hm2, HM2 |- *. intros x Hx.
      split; [apply Hm2 | apply HM2]; exact Hx.
    + exact Hmin_in.
    + unfold min_latency_us. cbn zeta. rewrite Hmin. reflexivity.
  - intros ->. subst h. cbn. split_and!; reflexivity.
Qed.

Lemma histogram_exact_statistics_witness :
  let xs := [10; 75; 300; 1500] in
  let h := fst (add_samples clock0 init xs) in
  total_samples h = Z.of_nat (length xs) /\
  (xs <> [] ->
   (mean_latency_us h == inject_Z (sumZ xs) / inject_Z (Z.of_nat (length xs)))%Q /\
   max_latency_us h = list_max xs /\ list_max xs ∈ xs /\
   Forall (fun x => list_min xs <= x <= list_max xs) xs /\
   list_min xs ∈ xs /\
   min_latency_us h = (if list_min xs =? UINT64_MAX then 0 else list_min xs)) /\
  (xs = [] ->
   mean_latency_us h = 0%Q /\ max_latency_us h = 0 /\ min_latency_us h = 0).
Proof.
  apply (histogram_exact_statistics clock0 init [10; 75; 300; 1500]).
  - repeat constructor; unfold U64; lia.
  - reflexivity.
  - reflexivity.
Defined.

Lemma find_bucket_range (x : Z) :
  (0 <= x < 1000000 -> edge (find_bucket x) <= x < edge (S (find_bucket x))) /\
  (1000000 <= x -> find_bucket x = 0%nat).
Proof.
  rewrite find_bucket_cascade. split; intros Hx.
  - repeat (match goal with |- context [?a <? ?b] => destruct (Z.ltb_spec a b) end;
            [unfold edge, BUCKET_EDGES; cbn [nth]; lia|]).
    lia.
  - repeat (match goal with |- context [?a <? ?b] => destruct (Z.ltb_spec a b) end;
            [lia|]).
    reflexivity.
Qed.

Lemma nth_seq_tabulate (l : list Z) (n : nat) :
  length l = n -> map (fun i => nth i l 0) (seq 0 n) = l.
Proof.
  intros Hlen. apply list_eq. intros i.
  rewrite list_lookup_fmap.
  destruct (decide (i < n)%nat) as [Hlt|Hge].
  - rewrite lookup_seq_lt by exact Hlt. cbn.
    destruct (lookup_lt_is_Some_2 l i ltac:(lia)) as [c Hc].
    rewrite Hc. f_equal. rewrite nth_lookup, Hc. reflexivity.
  - rewrite lookup_seq_ge by lia. cbn. symmetry. apply lookup_ge_None_2. lia.
Qed.

Lemma inject_Z_nonzero (n : Z) : 0 < n -> ~ (inject_Z n == 0)%Q.
Proof. intros Hn H0. unfold Qeq in H0. cbn in H0. lia. Qed.

Lemma Qsum_shares (n : Z) (cs : list Z) :
  0 < n ->
  (Qsum (map (fun c => inject_Z c * 100 / inject_Z n) cs)
   == inject_Z (sumZ cs) * 100 / inject_Z n)%Q.
Proof.
  intros Hn. induction cs as [|c cs IH].
  - cbn. reflexivity.
  - cbn [map Qsum fold_right sumZ]. fold (sumZ cs).
    fold (Qsum (map (fun c0 => inject_Z c0 * 100 / inject_Z n) cs))%Q.
    rewrite IH, inject_Z_plus. field.
    apply inject_Z_nonzero. exact Hn.
Qed.

(** X16. The rows [get_histogram()] returns after [reset()] and the
    samples [xs]: ten rows whose bounds are consecutive edges; the count
    of row [i] is the number of samples the bucket search sends to [i],
    and the counts add up to the number of samples.  Each percentage is
    the quotient [count * 100 / total]; taken exactly, the percentages
    add up to 100 (the code rounds each to binary64, so their sum is 100
    only up to rounding).  The search sends a sample below 1000000 to the
    row whose range contains it, and any larger one to row 0. *)
Theorem histogram_rows (clk : Clock.t) (h0 : t) (xs : list Z) :
  Forall (fun x => 0 <= x < U64) xs ->
  Z.of_nat (length xs) < U64 -> sumZ xs < U64 ->
  let h := fst (add_samples clk (reset h0) xs) in
  let rows := get_histogram h in
  let n := Z.of_nat (length xs) in
  length rows = NUM_BUCKETS /\
  (forall i row, rows !! i = Some row ->
     lower_bound_us row = edge i /\ upper_bound_us row = edge (S i) /\
     count row = count_in i xs /\
     percentage row =
       if 0 <? n then (inject_Z (count row) * 100 / inject_Z n)%Q else 0%Q) /\
  sumZ (map count rows) = n /\
  (xs <> [] -> (Qsum (map percentage rows) == 100)%Q) /\
  (forall x, (0 <= x < 1000000 ->
              edge (find_bucket x) <= x < edge (S (find_bucket x))) /\
             (1000000 <= x -> find_bucket x = 0%nat)).
Proof.
  intros Hxs Hlen Hsum h rows n.
  pose proof (add_samples_inv xs clk (reset h0) [] (reset_inv h0) Hxs) as Hinv.
  pose proof (add_samples_exact xs clk (reset h0) [] (reset_inv h0) (reset_exact h0) Hxs)
    as Hex.
  cbn [app length sumZ fold_right] in Hinv, Hex.
  specialize (Hinv ltac:(lia) ltac:(lia)). specialize (Hex ltac:(lia) ltac:(lia)).
  fold h in Hinv, Hex.
  destruct Hex as [_ _ Hb].
  pose proof (hi_total _ _ Hinv) as Htot. pose proof (hi_bsum _ _ Hinv) as Hbs.
  pose proof (hi_len _ _ Hinv) as Hbl.
  fold n in Htot, Hbs.
  assert (Hcounts : map count rows = buckets_ h).
  { unfold rows, get_histogram. cbn zeta. rewrite map_map. cbn [count].
    apply nth_seq_tabulate. exact Hbl. }
  split_and!.
  - unfold rows, get_histogram. cbn zeta. rewrite length_map, length_seq. reflexivity.
  - intros i row Hrow. unfold rows, get_histogram in Hrow. cbn zeta in Hrow.
    rewrite list_lookup_fmap in Hrow.
    destruct (seq 0 NUM_BUCKETS !! i) as [j|] eqn:Hj; [|discriminate].
    apply lookup_seq in Hj as [-> _]. cbn in Hrow. inversion Hrow; subst row.
    cbn [lower_bound_us upper_bound_us count percentage].
    unfold total_samples. rewrite Htot, Hb. auto.
  - rewrite Hcounts. exact Hbs.
  - intros Hne.
    assert (Hn : 0 < n).
    { unfold n. destruct xs; [congruence | cbn [length]; lia]. }
    assert (Hperc : map percentage rows =
                    map (fun c => (inject_Z c * 100 / inject_Z n)%Q) (buckets_ h)).
    { rewrite <- Hcounts. unfold rows, get_histogram. cbn zeta.
      rewrite !map_map. cbn [count percentage].
      unfold total_samples. rewrite Htot.
      destruct (Z.ltb_spec 0 n); [reflexivity | lia]. }
    rewrite Hperc, Qsum_shares, Hbs by exact Hn. field.
    apply inject_Z_nonzero. exact Hn.
  - intros x. apply find_bucket_range.
Qed.

Lemma histogram_rows_witness :
  let xs := [10; 75; 300; 1500] in
  let h := fst (add_samples clock0 init xs) in
  let rows := get_histogram h in
  let n := Z.of_nat (length xs) in
  length rows = NUM_BUCKETS /\
  (forall i row, rows !! i = Some row ->
     lower_bound_us row = edge i /\ upper_bound_us row = edge (S i) /\
     count row = count_in i xs /\
     percentage row =
       if 0 <? n then (inject_Z (count row) * 100 / inject_Z n)%Q else 0%Q) /\
  sumZ (map count rows) = n /\
  (xs <> [] -> (Qsum (map percentage rows) == 100)%Q) /\
  (forall x, (0 <= x < 1000000 ->
              edge (find_bucket x) <= x < edge (S (find_bucket x))) /\
             (1000000 <= x -> find_bucket x = 0%nat)).
Proof.
  apply (histogram_rows clock0 init [10; 75; 300; 1500]).
  - repeat constructor; unfold U64; lia.
  - reflexivity.
  - reflexivity.
Defined.

(** *** Percentiles in general *)

Lemma sumZ_zero_all (bs : list Z) :
  Forall (fun c => 0 <= c) bs -> sumZ bs = 0 -> Forall (fun c => c = 0) bs.
Proof.
  induction bs as [|c bs IH]; intros Hnn Hs; [constructor|].
  inversion Hnn as [|? ? Hc Hrest]; subst.
  cbn [sumZ fold_right] in Hs. fold (sumZ bs) in Hs.
  pose proof (sumZ_nonneg bs Hrest).
  constructor; [lia | apply IH; [exact Hrest | lia]].
Qed.

(** Asking for all the samples ends the scan in the highest non-empty
    bucket, at its upper edge. *)
Lemma percentile_scan_all (bs : list Z) : forall i cum,
  Forall (fun c => 0 <= c) bs ->
  0 <= cum -> cum + sumZ bs < U64 -> 0 < sumZ bs ->
  exists j c,
    bs !! j = Some c /\ 0 < c /\
    (forall k c', (j < k)%nat -> bs !! k = Some c' -> c' = 0) /\
    (percentile_scan (cum + sumZ bs) bs i cum == inject_Z (edge (S (i + j))))%Q.
Proof.
  induction bs as [|c bs IH]; intros i cum Hnn Hcum Hlt Hpos.
  - cbn in Hpos. lia.
  - inversion Hnn as [|? ? Hc Hrest]; subst.
    cbn [sumZ fold_right] in Hlt, Hpos |- *. fold (sumZ bs) in Hlt, Hpos |- *.
    pose proof (sumZ_nonneg bs Hrest) as Hbs.
    cbn [percentile_scan]. rewrite (wrap_small (cum + c)) by lia.
    destruct (Z.leb_spec (cum + (c + sumZ bs)) (cum + c)) as [Hle|Hgt].
    + assert (Hz : sumZ bs = 0) by lia.
      assert (Hc0 : 0 < c) by lia.
      exists 0%nat, c. split; [reflexivity|]. split; [exact Hc0|]. split.
      * intros k c' Hk Hlook. destruct k as [|k]; [lia|]. cbn in Hlook.
        pose proof (sumZ_zero_all bs Hrest Hz) as Hall.
        rewrite Forall_lookup in Hall. exact (Hall _ _ Hlook).
      * destruct (Z.eqb_spec c 0) as [|_]; [lia|].
        replace (cum + c - c) with cum by lia.
        rewrite (wrap_small cum) by lia.
        replace (cum + (c + sumZ bs) - cum) with c by lia.
        rewrite wrap_small by lia. rewrite Nat.add_0_r.
        field. apply inject_Z_nonzero. exact Hc0.
    + destruct (IH (S i) (cum + c) Hrest ltac:(lia) ltac:(lia) ltac:(lia))
        as (j & c' & Hj & Hc' & Habove & Heq).
      exists (S j), c'. split; [exact Hj|]. split; [exact Hc'|]. split.
      * intros k c'' Hk Hlook. destruct k as [|k]; [lia|]. cbn in Hlook.
        apply (Habove k); [lia | exact Hlook].
      * replace (cum + (c + sumZ bs)) with (cum + c + sumZ bs) by lia.
        rewrite Heq. replace (S i + j)%nat with (i + S j)%nat by lia. reflexivity.
Qed.

Lemma Qtrunc_all (total : Z) : 0 <= total -> Qtrunc (inject_Z total * 100 / 100) = total.
Proof.
  intros Ht. unfold Qtrunc. cbn.
  rewrite Z.mul_1_r. apply Z.quot_mul. lia.
Qed.

Lemma Qtrunc_none (total : Z) : Qtrunc (inject_Z total * 0 / 100) = 0.
Proof. unfold Qtrunc. cbn. rewrite Z.mul_0_r. reflexivity. Qed.

(** X17. Percentiles of a histogram after [reset()] and the samples [xs]:
    [percentile_us] is monotone in [p] over [[0, 100]] and stays within
    [[0, 1000000]]; [percentile_us(0)] is 0 whatever the samples;
    [percentile_us(100)] is the upper edge of the highest non-empty
    bucket; with no samples every percentile is 0. *)
Theorem percentile_monotone (clk : Clock.t) (h0 : t) (xs : list Z) (p p' : Q) :
  Forall (fun x => 0 <= x < U64) xs ->
  Z.of_nat (length xs) < U64 -> sumZ xs < U64 ->
  (0 <= p)%Q -> (p <= p')%Q -> (p' <= 100)%Q ->
  let h := fst (add_samples clk (reset h0) xs) in
  (0 <= percentile_us h p)%Q /\
  (percentile_us h p <= percentile_us h p')%Q /\
  (percentile_us h p' <= 1000000)%Q /\
  (percentile_us h 0 == 0)%Q /\
  (xs <> [] ->
   exists j, 0 < count_in j xs /\
             (forall k, (j < k)%nat -> count_in k xs = 0) /\
             (percentile_us h 100 == inject_Z (edge (S j)))%Q) /\
  (xs = [] -> percentile_us h p = 0%Q).
Proof.
  intros Hxs Hlen Hsum Hp0 Hpp Hp100 h.
  pose proof (add_samples_inv xs clk (reset h0) [] (reset_inv h0) Hxs) as Hinv.
  pose proof (add_samples_exact xs clk (reset h0) [] (reset_inv h0) (reset_exact h0) Hxs)
    as Hex.
  cbn [app length sumZ fold_right] in Hinv, Hex.
  specialize (Hinv ltac:(lia) ltac:(lia)). specialize (Hex ltac:(lia) ltac:(lia)).
  fold h in Hinv, Hex.
  destruct Hex as [_ _ Hb].
  destruct Hinv as [Hbl Hnn Htot Hbs _ _ _ _ _ _].
  destruct xs as [|x xs'].
  - subst h. cbn. split_and!; try reflexivity; try (unfold Qle; cbn; lia).
    intros Hne. congruence.
  - set (xs := x :: xs') in *.
    assert (Hn : 0 < Z.of_nat (length xs)) by (unfold xs; cbn [length]; lia).
    assert (Hperc : forall q, percentile_us h q =
              percentile_scan (Qtrunc (inject_Z (total_samples h) * q / 100))
                (buckets_ h) 0 0).
    { intros q. unfold percentile_us.
      destruct (Z.eqb_spec (total_samples h) 0) as [H0|_]; [|reflexivity].
      unfold total_samples in H0. lia. }
    destruct (target_count_bounds (total_samples h) p p') as (Ht0 & Htt & Ht100);
      try assumption; [unfold total_samples; lia|].
    destruct (percentile_scan_mono (buckets_ h) 0%nat 0
                (Qtrunc (inject_Z (total_samples h) * p / 100))
                (Qtrunc (inject_Z (total_samples h) * p' / 100)))
      as (Hlo & Hmono & Hhi); try assumption; try lia.
    split_and!.
    + rewrite Hperc. exact Hlo.
    + rewrite !Hperc. exact Hmono.
    + rewrite Hperc. exact Hhi.
    + rewrite Hperc, Qtrunc_none.
      destruct (buckets_ h) as [|b bs] eqn:Hbk; [discriminate|].
      apply percentile_scan_zero. inversion Hnn; subst.
      pose proof (sumZ_lookup_le (b :: bs) 0%nat b ltac:(constructor; assumption)
                    eq_refl). lia.
    + intros _. rewrite Hperc, Qtrunc_all by (unfold total_samples; lia).
      unfold total_samples. rewrite Htot, <- Hbs.
      destruct (percentile_scan_all (buckets_ h) 0%nat 0 Hnn ltac:(lia) ltac:(lia)
                  ltac:(lia)) as (j & c & Hj & Hc & Habove & Heq).
      exists j. split_and!.
      * rewrite <- Hb, nth_lookup, Hj. exact Hc.
      * intros k Hk. rewrite <- Hb, nth_lookup.
        destruct (buckets_ h !! k) as [c'|] eqn:Hk'; [|reflexivity].
        cbn. exact (Habove k c' Hk Hk').
      * rewrite Z.add_0_l in Heq. exact Heq.
    + discriminate.
Qed.

Lemma percentile_monotone_witness :
  let h := fst (add_samples clock0 init [10; 75; 300; 1500]) in
  let xs := [10; 75; 300; 1500] in
  (0 <= percentile_us h 25)%Q /\
  (percentile_us h 25 <= percentile_us h 75)%Q /\
  (percentile_us h 75 <= 1000000)%Q /\
  (percentile_us h 0 == 0)%Q /\
  (xs <> [] ->
   exists j, 0 < count_in j xs /\
             (forall k, (j < k)%nat -> count_in k xs = 0) /\
             (percentile_us h 100 == inject_Z (edge (S j)))%Q) /\
  (xs = [] -> percentile_us h 25 = 0%Q).
Proof.
  apply (percentile_monotone clock0 init [10; 75; 300; 1500] 25 75).
  - repeat constructor; unfold U64; lia.
  - reflexivity.
  - reflexivity.
  - unfold Qle; cbn; lia.
  - unfold Qle; cbn; lia.
  - unfold Qle; cbn; lia.
Defined.

(** *** Timing *)



(** X28. A sample whose end lies a microsecond or more before its start:
    the negative duration is cast to [uint64_t], so the recorded latency
    is [2^64] minus the gap; it is counted in the first bucket and
    becomes the new maximum unless the maximum is larger still, while the
    sum of latencies, taken modulo [2^64], drops by the gap. *)
Theorem negative_duration_sample (clk : Clock.t) (h : t) (start end_ : Z) :
  end_ + 1000 <= start -> start - end_ < 1000 * (U64 - 1000000) ->
  let gap := Z.quot (start - end_) 1000 in
  let h' := fst (add_sample clk h start end_) in
  0 < gap /\ 1000000 <= U64 - gap < U64 /\
  buckets_ h' = alter (fun c => wrap (c + 1)) 0%nat (buckets_ h) /\
  total_samples_ h' = wrap (total_samples_ h + 1) /\
  max_latency_us_ h' = Z.max (max_latency_us_ h) (U64 - gap) /\
  min_latency_us_ h' = Z.min (min_latency_us_ h) (U64 - gap) /\
  total_latency_us_ h' = wrap (total_latency_us_ h - gap).
Proof.
  intros Hneg Hbound gap h'.
  assert (Hq : Z.quot (end_ - start) 1000 = - gap).
  { unfold gap. replace (end_ - start) with (- (start - end_)) by lia.
    apply Z.quot_opp_l. lia. }
  assert (Hgap : 0 < gap).
  { unfold gap. apply Z.quot_str_pos. lia. }
  assert (Hgap' : gap * 1000 <= start - end_).
  { unfold gap. pose proof (Z.mul_quot_le (start - end_) 1000 ltac:(lia) ltac:(lia)). lia. }
  assert (Hw : wrap (- gap) = U64 - gap).
  { unfold wrap. symmetry. apply (Z.mod_unique_pos _ _ (-1)); lia. }
  assert (Hrange : 1000000 <= U64 - gap < U64) by lia.
  assert (Hfb : find_bucket (U64 - gap) = 0%nat).
  { unfold find_bucket. rewrite bucket_loop_no_break by lia. reflexivity. }
  split; [exact Hgap|]. split; [exact Hrange|].
  subst h'. unfold add_sample. rewrite Hq, Hw. unfold add_sample_us. rewrite Hfb.
  destruct (negb (timing_started_ h)); [destruct (Clock.now clk) as [st clk']|];
    cbn [fst buckets_ total_samples_ total_latency_us_ min_latency_us_ max_latency_us_].
  all: split_and!; try reflexivity.
  all: try (destruct (Z.ltb_spec (max_latency_us_ h) (U64 - gap)); lia).
  all: try (destruct (Z.ltb_spec (U64 - gap) (min_latency_us_ h)); lia).
  all: unfold wrap; replace (total_latency_us_ h + (U64 - gap))
         with (total_latency_us_ h - gap + 1 * U64) by lia;
       apply Z.mod_add; unfold U64; lia.
Qed.

Lemma negative_duration_sample_witness :
  let gap := Z.quot (5000 - 1000) 1000 in
  let h' := fst (add_sample clock0 init 5000 1000) in
  0 < gap /\ 1000000 <= U64 - gap < U64 /\
  buckets_ h' = alter (fun c => wrap (c + 1)) 0%nat (buckets_ init) /\
  total_samples_ h' = wrap (total_samples_ init + 1) /\
  max_latency_us_ h' = Z.max (max_latency_us_ init) (U64 - gap) /\
  min_latency_us_ h' = Z.min (min_latency_us_ init) (U64 - gap) /\
  total_latency_us_ h' = wrap (total_latency_us_ init - gap).
Proof.
  apply (negative_duration_sample clock0 init 5000 1000).
  - lia.
  - unfold U64. lia.
Defined.

End LatencyHistogram.

(** ** Ticks and signal events ([include/md/tick.hpp]) *)

Module Tick.

Record t := mk {
  last_price : R;
  bid_price : R;
  ask_price : R;
  last_size : R;
  timestamp : Z;
  symbol : string;
  sequence_id : Z
}.

(** The constructor with all fields: the timestamp is the clock reading
    at construction. *)
Definition make (clk : Clock.t) (sym : string) (last bid ask size : R) (seq : Z)
    : t * Clock.t :=
  let '(now, clk') := Clock.now clk in
  ({| last_price := last; bid_price := bid; ask_price := ask; last_size := size;
      timestamp := now; symbol := sym; sequence_id := seq |}, clk').

Definition mid_price (tick : t) : R :=
  ((bid_price tick + ask_price tick) * (5 / 10))%R.

Definition spread (tick : t) : R := (ask_price tick - bid_price tick)%R.

Definition spread_bps (tick : t) : R :=
  let mid := mid_price tick in
  if Rltb 0 mid then (spread tick / mid * 10000)%R else 0%R.

Definition is_valid (tick : t) : bool :=
  Rltb 0 (last_price tick) && Rltb 0 (bid_price tick) && Rltb 0 (ask_price tick)
  && Rleb (bid_price tick) (ask_price tick) && negb (String.eqb (symbol tick) "").

Lemma is_valid_spec (tick : t) :
  is_valid tick = true <->
  (0 < last_price tick /\ 0 < bid_price tick /\ 0 < ask_price tick /\
   bid_price tick <= ask_price tick)%R /\ symbol tick <> "".
Proof.
  unfold is_valid.
  destruct (Rltb_spec 0 (last_price tick)); destruct (Rltb_spec 0 (bid_price tick));
    destruct (Rltb_spec 0 (ask_price tick));
    destruct (Rleb_spec (bid_price tick) (ask_price tick));
    destruct (String.eqb_spec (symbol tick) ""); cbn;
    split; try discriminate; try tauto; intros; split_and!; try assumption; congruence.
Qed.

(** X24. The quote of a valid tick under exact arithmetic: the mid price
    lies between bid and ask and is positive, the spread is not negative,
    and [spread_bps()] lies in [[0, 20000)], being 0 exactly when bid and
    ask coincide.  (In binary64 [spread_bps()] can round up to 20000.) *)
Theorem valid_tick_quote (tick : t) :
  is_valid tick = true ->
  (bid_price tick <= mid_price tick <= ask_price tick /\
   0 < mid_price tick /\
   0 <= spread tick /\
   0 <= spread_bps tick < 20000 /\
   (spread_bps tick = 0 <-> bid_price tick = ask_price tick))%R.
Proof.
  intros Hv. apply is_valid_spec in Hv as ((Hl & Hb & Ha & Hba) & _).
  unfold spread_bps, mid_price, spread. cbn zeta.
  set (b := bid_price tick) in *. set (a := ask_price tick) in *.
  assert (Hmid : (0 < (b + a) * (5 / 10))%R) by lra.
  destruct (Rltb_spec 0 ((b + a) * (5 / 10))%R) as [_|Hn]; [|lra].
  assert (Hinv : (0 < / ((b + a) * (5 / 10)))%R) by (apply Rinv_0_lt_compat; exact Hmid).
  assert (Hq : ((a - b) / ((b + a) * (5 / 10)) * 10000
                = (a - b) * (20000 / (a + b)))%R) by (field; lra).
  assert (Hden : (0 < / (a + b))%R) by (apply Rinv_0_lt_compat; lra).
  split_and!; try lra.
  - rewrite Hq. apply Rmult_le_pos; [lra|]. unfold Rdiv. nra.
  - rewrite Hq.
    apply (Rmult_lt_reg_r (a + b)); [lra|].
    replace ((a - b) * (20000 / (a + b)) * (a + b))%R with ((a - b) * 20000)%R
      by (field; lra).
    lra.
  - split.
    + intros H0. rewrite Hq in H0. apply Rmult_integral in H0 as [H0|H0]; [lra|].
      exfalso. unfold Rdiv in H0. nra.
    + intros Heq. rewrite Hq, Heq. unfold Rdiv. ring.
Qed.

Lemma valid_tick_quote_witness :
  let tick := {| last_price := 100; bid_price := 99; ask_price := 101;
                 last_size := 10; timestamp := 0; symbol := "AAPL";
                 sequence_id := 1 |} in
  (bid_price tick <= mid_price tick <= ask_price tick /\
   0 < mid_price tick /\
   0 <= spread tick /\
   0 <= spread_bps tick < 20000 /\
   (spread_bps tick = 0 <-> bid_price tick = ask_price tick))%R.
Proof.
  intros tick. apply (valid_tick_quote tick).
  apply is_valid_spec. cbn. split; [lra | discriminate].
Defined.

End Tick.

Module SymbolTable.

Definition intern (sym : string) : string := sym.

End SymbolTable.

Module SignalEvent.

Inductive Type_ :=
  | Z_SCORE_BREAK
  | CORRELATION_BREAK
  | PAIR_TRADE_ENTRY
  | PAIR_TRADE_EXIT
  | VOLUME_SPIKE.

Record t := mk {
  event_type : Type_;
  primary_symbol : string;
  secondary_symbol : string;
  signal_strength : R;
  confidence : R;
  event_time : Z;
  generation_time : Z;
  signal_id : Z
}.

(** The five-argument constructor: [event_time] is read from the clock and
    [generation_time] is initialised from it. *)
Definition make (clk : Clock.t) (type : Type_) (primary secondary : string)
    (strength conf : R) : t * Clock.t :=
  let '(now, clk') := Clock.now clk in
  ({| event_type := type;
      primary_symbol := primary;
      secondary_symbol := secondary;
      signal_strength := strength;
      confidence := conf;
      event_time := now;
      generation_time := now;
      signal_id := 0 |}, clk').

Definition set_signal_id (e : t) (id : Z) : t :=
  {| event_type := event_type e; primary_symbol := primary_symbol e;
     secondary_symbol := secondary_symbol e; signal_strength := signal_strength e;
     confidence := confidence e; event_time := event_time e;
     generation_time := generation_time e; signal_id := id |}.

Definition set_generation_time (e : t) (time : Z) : t :=
  {| event_type := event_type e; primary_symbol := primary_symbol e;
     secondary_symbol := secondary_symbol e; signal_strength := signal_strength e;
     confidence := confidence e; event_time := event_time e;
     generation_time := time; signal_id := signal_id e |}.

(** The three-argument constructor. *)
Definition make3 (clk : Clock.t) (type : Type_) (primary : string) (strength : R)
    : t * Clock.t :=
  let '(now, clk') := Clock.now clk in
  ({| event_type := type;
      primary_symbol := primary;
      secondary_symbol := "";
      signal_strength := strength;
      confidence := 1;
      event_time := now;
      generation_time := now;
      signal_id := 0 |}, clk').

(** [latency()]: the duration in whole microseconds. *)
Definition latency (e : t) : Z := Z.quot (generation_time e - event_time e) 1000.

Definition type_name (e : t) : string :=
  match event_type e with
  | Z_SCORE_BREAK => "ZBreak"
  | CORRELATION_BREAK => "CorrBreak"
  | PAIR_TRADE_ENTRY => "PairEntry"
  | PAIR_TRADE_EXIT => "PairExit"
  | VOLUME_SPIKE => "VolSpike"
  end.

End SignalEvent.

(** ** Router ([include/engine/router.hpp])

    The rule maps hold [unique_ptr]s: a key that is looked up with
    [operator[]] and absent yields a null pointer, and dereferencing it is
    undefined; the model fails ([None]) there.  [signal_callback_] is
    whether a callback is installed; the events it is called with are
    appended to [out]. *)

Module Router.

Record t := mk {
  zscore_rules_ : gmap string ZScoreRule.t;
  volume_rules_ : gmap string VolumeRule.t;
  correlation_rules_ : gmap string CorrelationBreakRule.t;
  mean_reversion_rules_ : gmap string MeanReversionRule.t;
  watched_pairs_ : list (string * string);
  latest_ticks_ : gmap string Tick.t;
  signal_callback_ : bool;
  signal_counter_ : Z;
  latency_hist_ : LatencyHistogram.t;
  ticks_processed_ : Z;
  zscore_threshold_ : R;
  correlation_threshold_ : R;
  volume_threshold_ : R
}.

Definition init : t :=
  {| zscore_rules_ := ∅; volume_rules_ := ∅; correlation_rules_ := ∅;
     mean_reversion_rules_ := ∅; watched_pairs_ := []; latest_ticks_ := ∅;
     signal_callback_ := false; signal_counter_ := 0;
     latency_hist_ := LatencyHistogram.init; ticks_processed_ := 0;
     zscore_threshold_ := 25 / 10; correlation_threshold_ := 3 / 10;
     volume_threshold_ := 3 |}.

Definition with_zscore_rules (m : gmap string ZScoreRule.t) (r : t) : t :=
  mk m (volume_rules_ r) (correlation_rules_ r) (mean_reversion_rules_ r)
     (watched_pairs_ r) (latest_ticks_ r) (signal_callback_ r) (signal_counter_ r)
     (latency_hist_ r) (ticks_processed_ r) (zscore_threshold_ r)
     (correlation_threshold_ r) (volume_threshold_ r).

Definition with_volume_rules (m : gmap string VolumeRule.t) (r : t) : t :=
  mk (zscore_rules_ r) m (correlation_rules_ r) (mean_reversion_rules_ r)
     (watched_pairs_ r) (latest_ticks_ r) (signal_callback_ r) (signal_counter_ r)
     (latency_hist_ r) (ticks_processed_ r) (zscore_threshold_ r)
     (correlation_threshold_ r) (volume_threshold_ r).

Definition with_correlation_rules (m : gmap string CorrelationBreakRule.t) (r : t) : t :=
  mk (zscore_rules_ r) (volume_rules_ r) m (mean_reversion_rules_ r)
     (watched_pairs_ r) (latest_ticks_ r) (signal_callback_ r) (signal_counter_ r)
     (latency_hist_ r) (ticks_processed_ r) (zscore_threshold_ r)
     (correlation_threshold_ r) (volume_threshold_ r).

Definition with_mean_reversion_rules (m : gmap string MeanReversionRule.t) (r : t) : t :=
  mk (zscore_rules_ r) (volume_rules_ r) (correlation_rules_ r) m
     (watched_pairs_ r) (latest_ticks_ r) (signal_callback_ r) (signal_counter_ r)
     (latency_hist_ r) (ticks_processed_ r) (zscore_threshold_ r)
     (correlation_threshold_ r) (volume_threshold_ r).

Definition with_watched_pairs (l : list (string * string)) (r : t) : t :=
  mk (zscore_rules_ r) (volume_rules_ r) (correlation_rules_ r)
     (mean_reversion_rules_ r) l (latest_ticks_ r) (signal_callback_ r)
     (signal_counter_ r) (latency_hist_ r) (ticks_processed_ r)
     (zscore_threshold_ r) (correlation_threshold_ r) (volume_threshold_ r).

Definition with_latest_ticks (m : gmap string Tick.t) (r : t) : t :=
  mk (zscore_rules_ r) (volume_rules_ r) (correlation_rules_ r)
     (mean_reversion_rules_ r) (watched_pairs_ r) m (signal_callback_ r)
     (signal_counter_ r) (latency_hist_ r) (ticks_processed_ r)
     (zscore_threshold_ r) (correlation_threshold_ r) (volume_threshold_ r).

Definition with_signal_callback (b : bool) (r : t) : t :=
  mk (zscore_rules_ r) (volume_rules_ r) (correlation_rules_ r)
     (mean_reversion_rules_ r) (watched_pairs_ r) (latest_ticks_ r) b
     (signal_counter_ r) (latency_hist_ r) (ticks_processed_ r)
     (zscore_threshold_ r) (correlation_threshold_ r) (volume_threshold_ r).

Definition with_signal_counter (c : Z) (r : t) : t :=
  mk (zscore_rules_ r) (volume_rules_ r) (correlation_rules_ r)
     (mean_reversion_rules_ r) (watched_pairs_ r) (latest_ticks_ r)
     (signal_callback_ r) c (latency_hist_ r) (ticks_processed_ r)
     (zscore_threshold_ r) (correlation_threshold_ r) (volume_threshold_ r).

Definition with_latency_hist (h : LatencyHistogram.t) (r : t) : t :=
  mk (zscore_rules_ r) (volume_rules_ r) (correlation_rules_ r)
     (mean_reversion_rules_ r) (watched_pairs_ r) (latest_ticks_ r)
     (signal_callback_ r) (signal_counter_ r) h (ticks_processed_ r)
     (zscore_threshold_ r) (correlation_threshold_ r) (volume_threshold_ r).

Definition with_ticks_processed (c : Z) (r : t) : t :=
  mk (zscore_rules_ r) (volume_rules_ r) (correlation_rules_ r)
     (mean_reversion_rules_ r) (watched_pairs_ r) (latest_ticks_ r)
     (signal_callback_ r) (signal_counter_ r) (latency_hist_ r) c
     (zscore_threshold_ r) (correlation_threshold_ r) (volume_threshold_ r).

Definition set_zscore_threshold (r : t) (threshold : R) : t :=
  mk (zscore_rules_ r) (volume_rules_ r) (correlation_rules_ r)
     (mean_reversion_rules_ r) (watched_pairs_ r) (latest_ticks_ r)
     (signal_callback_ r) (signal_counter_ r) (latency_hist_ r)
     (ticks_processed_ r) threshold (correlation_threshold_ r)
     (volume_threshold_ r).

Definition set_correlation_threshold (r : t) (threshold : R) : t :=
  mk (zscore_rules_ r) (volume_rules_ r) (correlation_rules_ r)
     (mean_reversion_rules_ r) (watched_pairs_ r) (latest_ticks_ r)
     (signal_callback_ r) (signal_counter_ r) (latency_hist_ r)
     (ticks_processed_ r) (zscore_threshold_ r) threshold (volume_threshold_ r).

Definition set_volume_threshold (r : t) (threshold : R) : t :=
  mk (zscore_rules_ r) (volume_rules_ r) (correlation_rules_ r)
     (mean_reversion_rules_ r) (watched_pairs_ r) (latest_ticks_ r)
     (signal_callback_ r) (signal_counter_ r) (latency_hist_ r)
     (ticks_processed_ r) (zscore_threshold_ r) (correlation_threshold_ r)
     threshold.

(** Installing a (non-empty) callback. *)
Definition set_signal_callback (r : t) : t := with_signal_callback true r.

Definition make_pair_key (s1 s2 : string) : string :=
  if String.ltb s1 s2 then s1 +:+ "|" +:+ s2 else s2 +:+ "|" +:+ s1.

Definition add_watched_pair (r : t) (symbol1 symbol2 : string) : t :=
  let pair_key := make_pair_key symbol1 symbol2 in
  let r := with_watched_pairs (watched_pairs_ r ++ [(symbol1, symbol2)]) r in
  with_correlation_rules
    (<[pair_key := CorrelationBreakRule.new (correlation_threshold_ r) 50]>
       (correlation_rules_ r)) r.

(** *** The effects of the hot path

    A computation runs on a world: the router, the clock, and the events
    handed to the callback so far (oldest first). *)

Record World := mkWorld {
  rt : t;
  clk : Clock.t;
  out : list SignalEvent.t
}.

Definition M (A : Type) : Type := World -> option (A * World).

Definition ret {A} (a : A) : M A := fun w => Some (a, w).

Definition bind {A B} (m : M A) (f : A -> M B) : M B :=
  fun w => match m w with
           | Some (a, w') => f a w'
           | None => None
           end.

Definition undefined {A} : M A := fun _ => None.

Notation "x <- m ;; k" := (bind m (fun x => k))
  (at level 100, m at next level, right associativity).
Notation "m ;;; k" := (bind m (fun _ => k))
  (at level 100, right associativity).

Definition get : M t := fun w => Some (rt w, w).

Definition modify (f : t -> t) : M unit :=
  fun w => Some (tt, {| rt := f (rt w); clk := clk w; out := out w |}).

Definition now : M Z :=
  fun w => let '(time, c) := Clock.now (clk w) in
           Some (time, {| rt := rt w; clk := c; out := out w |}).

(** [signal_callback_(event)] *)
Definition call_back (event : SignalEvent.t) : M unit :=
  fun w => Some (tt, {| rt := rt w; clk := clk w; out := out w ++ [event] |}).

(** Dereferencing the pointer stored under a key. *)
Definition deref {V} (m : gmap string V) (key : string) : M V :=
  match m !! key with
  | Some v => ret v
  | None => undefined
  end.

Definition when (b : bool) (m : M unit) : M unit := if b then m else ret tt.

Definition emit_signal (type : SignalEvent.Type_) (primary secondary : string)
    (strength confidence : R) : M unit :=
  r <- get ;;
  if negb (signal_callback_ r) then ret tt
  else
    event <- (fun w =>
      let '(e, c) :=
        SignalEvent.make (clk w) type (SymbolTable.intern primary)
          (if String.eqb secondary "" then "" else SymbolTable.intern secondary)
          strength confidence in
      Some (e, {| rt := rt w; clk := c; out := out w |})) ;;
    modify (with_signal_counter (wrap (signal_counter_ r + 1))) ;;;
    let event := SignalEvent.set_signal_id event (signal_counter_ r) in
    time <- now ;;
    let event := SignalEvent.set_generation_time event time in
    call_back event.

Definition ensure_rules_exist (symbol : string) : M unit :=
  modify (fun r =>
    match zscore_rules_ r !! symbol with
    | None => with_zscore_rules
                (<[symbol := ZScoreRule.new (zscore_threshold_ r)]> (zscore_rules_ r)) r
    | Some _ => r
    end) ;;;
  modify (fun r =>
    match volume_rules_ r !! symbol with
    | None => with_volume_rules
                (<[symbol := VolumeRule.new (volume_threshold_ r)]> (volume_rules_ r)) r
    | Some _ => r
    end) ;;;
  modify (fun r =>
    match mean_reversion_rules_ r !! symbol with
    | None => with_mean_reversion_rules
                (<[symbol := MeanReversionRule.default]> (mean_reversion_rules_ r)) r
    | Some _ => r
    end).

Definition process_single_symbol_signals (tick : Tick.t) : M unit :=
  let symbol := Tick.symbol tick in
  r <- get ;;
  zscore_rule <- deref (zscore_rules_ r) symbol ;;
  let zscore_rule := ZScoreRule.add_observation zscore_rule (Tick.last_price tick) in
  modify (fun r => with_zscore_rules (<[symbol := zscore_rule]> (zscore_rules_ r)) r) ;;;
  let '(fires, zscore_strength) := ZScoreRule.evaluate zscore_rule in
  when fires
    (emit_signal SignalEvent.Z_SCORE_BREAK symbol "" zscore_strength (95 / 100)) ;;;
  r <- get ;;
  volume_rule <- deref (volume_rules_ r) symbol ;;
  let volume_rule := VolumeRule.add_volume volume_rule (Tick.last_size tick) in
  modify (fun r => with_volume_rules (<[symbol := volume_rule]> (volume_rules_ r)) r) ;;;
  let '(fires, volume_strength) := VolumeRule.evaluate volume_rule in
  when fires
    (emit_signal SignalEvent.VOLUME_SPIKE symbol "" volume_strength (90 / 100)) ;;;
  r <- get ;;
  mean_rev_rule <- deref (mean_reversion_rules_ r) symbol ;;
  let mean_rev_rule :=
    MeanReversionRule.add_observation mean_rev_rule (Tick.last_price tick) in
  modify (fun r => with_mean_reversion_rules
                     (<[symbol := mean_rev_rule]> (mean_reversion_rules_ r)) r) ;;;
  let '(fires, mean_rev_strength) := MeanReversionRule.evaluate mean_rev_rule in
  when fires
    (emit_signal SignalEvent.PAIR_TRADE_ENTRY symbol "" mean_rev_strength (85 / 100)).

(** One iteration of the loop over [watched_pairs_]. *)
Definition process_pair (current_symbol : string) (p : string * string) : M unit :=
  let '(symbol1, symbol2) := p in
  if negb (String.eqb symbol1 current_symbol) && negb (String.eqb symbol2 current_symbol)
  then ret tt
  else
    r <- get ;;
    match latest_ticks_ r !! symbol1, latest_ticks_ r !! symbol2 with
    | Some tick1, Some tick2 =>
        let pair_key := make_pair_key symbol1 symbol2 in
        corr_rule <- deref (correlation_rules_ r) pair_key ;;
        let corr_rule :=
          CorrelationBreakRule.add_pair corr_rule
            (Tick.last_price tick1) (Tick.last_price tick2) in
        modify (fun r => with_correlation_rules
                           (<[pair_key := corr_rule]> (correlation_rules_ r)) r) ;;;
        let '(fires, corr_strength) := CorrelationBreakRule.evaluate corr_rule in
        when fires
          (emit_signal SignalEvent.CORRELATION_BREAK symbol1 symbol2
             corr_strength (88 / 100))
    | _, _ => ret tt
    end.

Fixpoint for_each_pair (current_symbol : string) (pairs : list (string * string))
    : M unit :=
  match pairs with
  | [] => ret tt
  | p :: pairs' =>
      process_pair current_symbol p ;;;
      for_each_pair current_symbol pairs'
  end.

Definition process_cross_symbol_signals (tick : Tick.t) : M unit :=
  r <- get ;;
  for_each_pair (Tick.symbol tick) (watched_pairs_ r).

Definition process_tick (tick : Tick.t) : M unit :=
  start_time <- now ;;
  let symbol := Tick.symbol tick in
  modify (fun r => with_latest_ticks (<[symbol := tick]> (latest_ticks_ r)) r) ;;;
  ensure_rules_exist symbol ;;;
  process_single_symbol_signals tick ;;;
  process_cross_symbol_signals tick ;;;
  (fun w =>
     let '(h, c) :=
       LatencyHistogram.add_sample (clk w) (latency_hist_ (rt w))
         (Tick.timestamp tick) start_time in
     Some (tt, {| rt := with_latency_hist h (rt w); clk := c; out := out w |})) ;;;
  modify (fun r => with_ticks_processed (wrap (ticks_processed_ r + 1)) r).

Fixpoint process_ticks (ticks : list Tick.t) : M unit :=
  match ticks with
  | [] => ret tt
  | tick :: ticks' => process_tick tick ;;; process_ticks ticks'
  end.

(** *** Reasoning about computations

    [ok m w Q]: from [w] the computation [m] is defined and its result and
    final world satisfy [Q]. *)

Definition ok {A} (m : M A) (w : World) (Q : A -> World -> Prop) : Prop :=
  exists a w', m w = Some (a, w') /\ Q a w'.

(** What one [emit_signal] call does. *)
Definition emitted (type : SignalEvent.Type_) (primary secondary : string)
    (strength confidence : R) (w : World) : SignalEvent.t :=
  {| SignalEvent.event_type := type;
     SignalEvent.primary_symbol := primary;
     SignalEvent.secondary_symbol := secondary;
     SignalEvent.signal_strength := strength;
     SignalEvent.confidence := confidence;
     SignalEvent.event_time := Clock.readings (clk w) (Clock.pos (clk w));
     SignalEvent.generation_time := Clock.readings (clk w) (S (Clock.pos (clk w)));
     SignalEvent.signal_id := signal_counter_ (rt w) |}.

(** *** What a stretch of the hot path may do

    [Ev Sh rd lo hi e]: the event has a shape allowed by [Sh], its
    [event_time] is the clock reading number [k] and its [generation_time]
    the next reading, both taken in the stretch [[lo, hi)]. *)

Definition Ev (Sh : SignalEvent.Type_ -> string -> string -> Prop)
    (rd : nat -> Z) (lo hi : nat) (e : SignalEvent.t) : Prop :=
  Sh (SignalEvent.event_type e) (SignalEvent.primary_symbol e)
     (SignalEvent.secondary_symbol e) /\
  exists k, (lo <= k)%nat /\ (S k < hi)%nat /\
    SignalEvent.event_time e = rd k /\
    SignalEvent.generation_time e = rd (S k).

Record Step (Sh : SignalEvent.Type_ -> string -> string -> Prop)
    (w w' : World) : Prop := {
  st_readings : Clock.readings (clk w') = Clock.readings (clk w);
  st_pos : (Clock.pos (clk w) <= Clock.pos (clk w'))%nat;
  st_pairs : watched_pairs_ (rt w') = watched_pairs_ (rt w);
  st_cb : signal_callback_ (rt w') = signal_callback_ (rt w);
  st_latest : latest_ticks_ (rt w') = latest_ticks_ (rt w);
  st_corr_dom : forall key, is_Some (correlation_rules_ (rt w) !! key) ->
                  is_Some (correlation_rules_ (rt w') !! key);
  st_out : exists evs, out w' = out w ++ evs /\
             Forall (Ev Sh (Clock.readings (clk w)) (Clock.pos (clk w))
                       (Clock.pos (clk w'))) evs
}.

(** A step that leaves everything but [signal_counter_] in the router. *)
Definition counter_only (w w' : World) : Prop :=
  exists c, rt w' = with_signal_counter c (rt w).

(** Every watched pair has its correlation rule: what [add_watched_pair]
    establishes and the hot path relies on. *)
Definition WF (r : t) : Prop :=
  Forall (fun p => is_Some (correlation_rules_ r !! make_pair_key (fst p) (snd p)))
         (watched_pairs_ r).

(** The events one [process_tick] may hand to the callback. *)
Definition tick_shape (pairs : list (string * string)) (symbol : string)
    (type : SignalEvent.Type_) (primary secondary : string) : Prop :=
  match type with
  | SignalEvent.CORRELATION_BREAK => (primary, secondary) ∈ pairs
  | _ => primary = symbol /\ secondary = ""
  end.

(** *** The exact effect of the cross-symbol step on one pair *)

Definition pair_effect (symbol1 symbol2 : string) (w w' : World) : Prop :=
  latest_ticks_ (rt w') = latest_ticks_ (rt w) /\
  watched_pairs_ (rt w') = watched_pairs_ (rt w) /\
  signal_callback_ (rt w') = signal_callback_ (rt w) /\
  Clock.readings (clk w') = Clock.readings (clk w) /\
  (exists evs, out w' = out w ++ evs) /\
  (latest_ticks_ (rt w) !! symbol1 = None \/ latest_ticks_ (rt w) !! symbol2 = None ->
   correlation_rules_ (rt w') = correlation_rules_ (rt w)) /\
  (forall tick1 tick2 rule,
     latest_ticks_ (rt w) !! symbol1 = Some tick1 ->
     latest_ticks_ (rt w) !! symbol2 = Some tick2 ->
     correlation_rules_ (rt w) !! make_pair_key symbol1 symbol2 = Some rule ->
     signal_callback_ (rt w) = true ->
     let rule' := CorrelationBreakRule.add_pair rule
                    (Tick.last_price tick1) (Tick.last_price tick2) in
     correlation_rules_ (rt w') =
       <[make_pair_key symbol1 symbol2 := rule']> (correlation_rules_ (rt w)) /\
     (fst (CorrelationBreakRule.evaluate rule') = true ->
      exists e, e ∈ out w' /\
        SignalEvent.event_type e = SignalEvent.CORRELATION_BREAK /\
        SignalEvent.primary_symbol e = symbol1 /\
        SignalEvent.secondary_symbol e = symbol2 /\
        exists k, SignalEvent.event_time e = Clock.readings (clk w) k)).

(** *** A run in which a CorrelationBreak is emitted

    The pair is registered as ("MSFT", "AAPL"); one MSFT tick and fifty
    AAPL ticks follow, all at price 100, created at time 0 and processed
    while the clock reads 1000 and later. *)

Definition ce_router : t :=
  add_watched_pair (set_signal_callback init) "MSFT" "AAPL".

Definition ce_clock : Clock.t :=
  {| Clock.readings := fun n => 1000 + Z.of_nat n; Clock.pos := 0 |}.

Definition ce_world : World := {| rt := ce_router; clk := ce_clock; out := [] |}.

Definition ce_tick (symbol : string) (seq : nat) : Tick.t :=
  {| Tick.last_price := 100; Tick.bid_price := 99; Tick.ask_price := 101;
     Tick.last_size := 10; Tick.timestamp := 0; Tick.symbol := symbol;
     Tick.sequence_id := Z.of_nat seq |}.

Definition ce_ticks : list Tick.t :=
  ce_tick "MSFT" 1 :: map (ce_tick "AAPL") (seq 1 50).

(** The worlds of the run after [k] pair observations. *)
Record Scen (k : Z) (w : World) : Prop := {
  sc_pairs : watched_pairs_ (rt w) = [("MSFT", "AAPL")];
  sc_cb : signal_callback_ (rt w) = true;
  sc_clock : Clock.readings (clk w) = Clock.readings ce_clock;
  sc_msft : exists tick, latest_ticks_ (rt w) !! "MSFT" = Some tick /\
                         Tick.last_price tick = 100%R;
  sc_rule : exists rule,
      correlation_rules_ (rt w) !! "AAPL|MSFT" = Some rule /\
      CorrelationBreakRule.min_observations_ rule = 50%R /\
      CorrelationBreakRule.correlation_threshold_ rule = (3 / 10)%R /\
      RollingCovar.count_ (CorrelationBreakRule.covar_ rule) = k /\
      RollingCovar.m2_x_ (CorrelationBreakRule.covar_ rule) = 0%R /\
      (RollingCovar.mean_x_ (CorrelationBreakRule.covar_ rule) = 100%R \/
       k = 0 /\ RollingCovar.mean_x_ (CorrelationBreakRule.covar_ rule) = 0%R)
}.

(** The break event of the run. *)
Definition ce_break (e : SignalEvent.t) : Prop :=
  SignalEvent.event_type e = SignalEvent.CORRELATION_BREAK /\
  SignalEvent.primary_symbol e = "MSFT" /\
  SignalEvent.secondary_symbol e = "AAPL" /\
  exists j : nat, SignalEvent.event_time e = 1000 + Z.of_nat j.

(** *** Statistics and monitoring *)

Definition ticks_processed (r : t) : Z := ticks_processed_ r.
Definition signals_generated (r : t) : Z := signal_counter_ r.
Definition latency_histogram (r : t) : LatencyHistogram.t := latency_hist_ r.

Definition processing_rate (c : Clock.t) (r : t) : Q * Clock.t :=
  LatencyHistogram.sample_rate_per_second c (latency_hist_ r).

(** [reset_stats]: every rule of the four maps is reset in place. *)
Definition reset_stats (r : t) : t :=
  mk (ZScoreRule.reset <$> zscore_rules_ r)
     (VolumeRule.reset <$> volume_rules_ r)
     (CorrelationBreakRule.reset <$> correlation_rules_ r)
     (MeanReversionRule.reset <$> mean_reversion_rules_ r)
     (watched_pairs_ r) (latest_ticks_ r) (signal_callback_ r) 0
     (LatencyHistogram.reset (latency_hist_ r)) 0
     (zscore_threshold_ r) (correlation_threshold_ r) (volume_threshold_ r).

Definition get_correlation (r : t) (symbol1 symbol2 : string) : R :=
  match correlation_rules_ r !! make_pair_key symbol1 symbol2 with
  | Some rule => CorrelationBreakRule.correlation rule
  | None => 0%R
  end.

(** *** Accounting of a stretch of the hot path

    [Acct w w' evs]: the stretch hands exactly [evs] to the callback,
    numbers them with consecutive values of the counter, reads the clock
    twice per event, and leaves the bookkeeping fields alone. *)

Definition next_id (c : Z) : Z := wrap (c + 1).

Definition shape (e : SignalEvent.t)
    : SignalEvent.Type_ * string * string * R * R :=
  (SignalEvent.event_type e, SignalEvent.primary_symbol e,
   SignalEvent.secondary_symbol e, SignalEvent.signal_strength e,
   SignalEvent.confidence e).

Record Acct (w w' : World) (evs : list SignalEvent.t) : Prop := {
  ac_cb : signal_callback_ (rt w') = signal_callback_ (rt w);
  ac_hist : latency_hist_ (rt w') = latency_hist_ (rt w);
  ac_ticks : ticks_processed_ (rt w') = ticks_processed_ (rt w);
  ac_latest : latest_ticks_ (rt w') = latest_ticks_ (rt w);
  ac_pairs : watched_pairs_ (rt w') = watched_pairs_ (rt w);
  ac_zscore : zscore_threshold_ (rt w') = zscore_threshold_ (rt w);
  ac_corr : correlation_threshold_ (rt w') = correlation_threshold_ (rt w);
  ac_volume : volume_threshold_ (rt w') = volume_threshold_ (rt w);
  ac_readings : Clock.readings (clk w') = Clock.readings (clk w);
  ac_out : out w' = out w ++ evs;
  ac_counter : signal_counter_ (rt w') =
               Nat.iter (length evs) next_id (signal_counter_ (rt w));
  ac_pos : Clock.pos (clk w') = (Clock.pos (clk w) + 2 * length evs)%nat;
  ac_silent : signal_callback_ (rt w) = false -> evs = [];
  ac_events : forall i e, evs !! i = Some e ->
      SignalEvent.signal_id e = Nat.iter i next_id (signal_counter_ (rt w)) /\
      SignalEvent.event_time e =
        Clock.readings (clk w) (Clock.pos (clk w) + 2 * i) /\
      SignalEvent.generation_time e =
        Clock.readings (clk w) (S (Clock.pos (clk w) + 2 * i))
}.

(** The signal a rule result gives rise to. *)
Definition signal_of (type : SignalEvent.Type_) (symbol : string) (confidence : R)
    (result : bool * R) : list (SignalEvent.Type_ * string * string * R * R) :=
  if fst result then [(type, symbol, "", snd result, confidence)] else [].

(** The rule a symbol has, or the one [ensure_rules_exist] creates. *)
Definition zscore_rule_of (r : t) (symbol : string) : ZScoreRule.t :=
  default (ZScoreRule.new (zscore_threshold_ r)) (zscore_rules_ r !! symbol).

Definition volume_rule_of (r : t) (symbol : string) : VolumeRule.t :=
  default (VolumeRule.new (volume_threshold_ r)) (volume_rules_ r !! symbol).

Definition mean_reversion_rule_of (r : t) (symbol : string) : MeanReversionRule.t :=
  default MeanReversionRule.default (mean_reversion_rules_ r !! symbol).

(** The single-symbol signals of a tick, in the order of emission. *)
Definition single_symbol_signals (r : t) (tick : Tick.t)
    : list (SignalEvent.Type_ * string * string * R * R) :=
  let symbol := Tick.symbol tick in
  if signal_callback_ r then
    signal_of SignalEvent.Z_SCORE_BREAK symbol (95 / 100)
      (ZScoreRule.evaluate
         (ZScoreRule.add_observation (zscore_rule_of r symbol) (Tick.last_price tick)))
    ++ signal_of SignalEvent.VOLUME_SPIKE symbol (90 / 100)
      (VolumeRule.evaluate
         (VolumeRule.add_volume (volume_rule_of r symbol) (Tick.last_size tick)))
    ++ signal_of SignalEvent.PAIR_TRADE_ENTRY symbol (85 / 100)
      (MeanReversionRule.evaluate
         (MeanReversionRule.add_observation (mean_reversion_rule_of r symbol)
            (Tick.last_price tick)))
  else [].

(** What one [process_tick] does, with [evs_s] the single-symbol events
    and [evs_c] the cross-symbol events it hands to the callback. *)
Record TickEffect (tick : Tick.t) (w w' : World)
    (evs_s evs_c : list SignalEvent.t) : Prop := {
  te_out : out w' = out w ++ evs_s ++ evs_c;
  te_single : map shape evs_s = single_symbol_signals (rt w) tick;
  te_cross : Forall (fun e => SignalEvent.event_type e = SignalEvent.CORRELATION_BREAK)
               evs_c;
  te_counter : signal_counter_ (rt w') =
               Nat.iter (length (evs_s ++ evs_c)) next_id (signal_counter_ (rt w));
  te_events : forall i e, (evs_s ++ evs_c) !! i = Some e ->
      SignalEvent.signal_id e = Nat.iter i next_id (signal_counter_ (rt w)) /\
      SignalEvent.event_time e =
        Clock.readings (clk w) (S (Clock.pos (clk w)) + 2 * i) /\
      SignalEvent.generation_time e =
        Clock.readings (clk w) (S (S (Clock.pos (clk w)) + 2 * i));
  te_silent : signal_callback_ (rt w) = false -> evs_s ++ evs_c = [];
  te_latest : latest_ticks_ (rt w') = <[Tick.symbol tick := tick]> (latest_ticks_ (rt w));
  te_ticks : ticks_processed_ (rt w') = wrap (ticks_processed_ (rt w) + 1);
  te_hist : latency_hist_ (rt w') =
            fst (LatencyHistogram.add_sample
                   {| Clock.readings := Clock.readings (clk w);
                      Clock.pos := S (Clock.pos (clk w))
                                   + 2 * length (evs_s ++ evs_c) |}
                   (latency_hist_ (rt w)) (Tick.timestamp tick)
                   (Clock.readings (clk w) (Clock.pos (clk w))));
  te_readings : Clock.readings (clk w') = Clock.readings (clk w);
  te_cb : signal_callback_ (rt w') = signal_callback_ (rt w);
  te_pairs : watched_pairs_ (rt w') = watched_pairs_ (rt w);
  te_zscore_threshold : zscore_threshold_ (rt w') = zscore_threshold_ (rt w);
  te_corr_threshold : correlation_threshold_ (rt w') = correlation_threshold_ (rt w);
  te_volume_threshold : volume_threshold_ (rt w') = volume_threshold_ (rt w);
  te_zscore_rules : zscore_rules_ (rt w') =
      <[Tick.symbol tick :=
          ZScoreRule.add_observation (zscore_rule_of (rt w) (Tick.symbol tick))
            (Tick.last_price tick)]> (zscore_rules_ (rt w));
  te_volume_rules : volume_rules_ (rt w') =
      <[Tick.symbol tick :=
          VolumeRule.add_volume (volume_rule_of (rt w) (Tick.symbol tick))
            (Tick.last_size tick)]> (volume_rules_ (rt w));
  te_mean_reversion_rules : mean_reversion_rules_ (rt w') =
      <[Tick.symbol tick :=
          MeanReversionRule.add_observation
            (mean_reversion_rule_of (rt w) (Tick.symbol tick))
            (Tick.last_price tick)]> (mean_reversion_rules_ (rt w))
}.

(** The ticks of one symbol in a batch, and how many observations the
    z-score and volume rules of a symbol hold. *)
Definition ticks_of (symbol : string) (ticks : list Tick.t) : nat :=
  length (List.filter (fun tick => String.eqb (Tick.symbol tick) symbol) ticks).

Definition zscore_count (r : t) (symbol : string) : Z :=
  RollingStats.count (ZScoreRule.stats_ (zscore_rule_of r symbol)).

Definition volume_count (r : t) (symbol : string) : Z :=
  RollingStats.count (VolumeRule.volume_stats_ (volume_rule_of r symbol)).

(** The pair observations a rule key holds, and how many more a tick of
    [symbol] can give it: one per watched pair with that key that
    involves the symbol. *)
Definition corr_count (r : t) (key : string) : Z :=
  match correlation_rules_ r !! key with
  | Some rule => RollingCovar.count (CorrelationBreakRule.covar_ rule)
  | None => 0
  end.

Definition corr_min_obs (r : t) (key : string) : Prop :=
  forall rule, correlation_rules_ r !! key = Some rule ->
    CorrelationBreakRule.min_observations_ rule = 50%R.

Definition feeds (key : string) (pairs : list (string * string)) (symbol : string)
    : nat :=
  length (List.filter
            (fun p => String.eqb (make_pair_key (fst p) (snd p)) key
                      && (String.eqb (fst p) symbol || String.eqb (snd p) symbol))
            pairs).

Fixpoint batch_feeds (key : string) (pairs : list (string * string))
    (ticks : list Tick.t) : nat :=
  match ticks with
  | [] => 0
  | tick :: ticks' =>
      feeds key pairs (Tick.symbol tick) + batch_feeds key pairs ticks'
  end.

(** The cross-symbol signal of one fed pair. *)
Definition pair_signal (callback : bool) (symbol1 symbol2 : string)
    (result : bool * R) : list (SignalEvent.Type_ * string * string * R * R) :=
  if callback && fst result
  then [(SignalEvent.CORRELATION_BREAK, symbol1, symbol2, snd result, (88 / 100)%R)]
  else [].

(** The world a batch of ticks leaves behind. *)
Definition run_ticks (ticks : list Tick.t) (w : World) : World :=
  match process_ticks ticks w with
  | Some (_, w') => w'
  | None => w
  end.

(** The run above up to its last tick, the world it reaches, and a last
    tick that moves price and size. *)
Definition ce_warm_ticks : list Tick.t :=
  ce_tick "MSFT" 1 :: map (ce_tick "AAPL") (seq 1 49).

Definition ce_warm : World := run_ticks ce_warm_ticks ce_world.

Definition ce_spike : Tick.t :=
  {| Tick.last_price := 200; Tick.bid_price := 199; Tick.ask_price := 201;
     Tick.last_size := 1000; Tick.timestamp := 0; Tick.symbol := "AAPL";
     Tick.sequence_id := 50 |}.

(** The worlds of the run after [k] AAPL ticks: the pair rule as in
    [Scen], and the z-score and volume rules of AAPL fed [k] equal
    values. *)
Record Warm (k : nat) (w : World) : Prop := {
  wm_scen : Scen (Z.of_nat k) w;
  wm_wf : WF (rt w);
  wm_zscore : zscore_rule_of (rt w) "AAPL" =
              ZScoreRule.add_observations (ZScoreRule.new (25 / 10))
                (replicate k 100%R);
  wm_volume : volume_rule_of (rt w) "AAPL" =
              VolumeRule.add_volumes (VolumeRule.new 3) (replicate k 10%R)
}.

(** *** Properties *)

Lemma ok_ret {A} (a : A) w Q : Q a w -> ok (ret a) w Q.
Proof. intros H. exists a, w. split; [reflexivity | exact H]. Qed.

Lemma ok_bind {A B} (m : M A) (f : A -> M B) w Q :
  ok m w (fun a w' => ok (f a) w' Q) -> ok (bind m f) w Q.
Proof.
  intros (a & w' & Hm & b & w'' & Hf & HQ).
  exists b, w''. unfold bind. rewrite Hm. split; assumption.
Qed.

Lemma ok_conseq {A} (m : M A) w (Q Q' : A -> World -> Prop) :
  ok m w Q -> (forall a w', Q a w' -> Q' a w') -> ok m w Q'.
Proof.
  intros (a & w' & Hm & HQ) Himp. exists a, w'. split; [exact Hm | auto].
Qed.

Lemma ok_get w Q : Q (rt w) w -> ok get w Q.
Proof. intros H. exists (rt w), w. split; [reflexivity | exact H]. Qed.

Lemma ok_modify f w Q :
  Q tt {| rt := f (rt w); clk := clk w; out := out w |} -> ok (modify f) w Q.
Proof. intros H. eexists _, _. split; [reflexivity | exact H]. Qed.

Lemma ok_now w Q :
  Q (Clock.readings (clk w) (Clock.pos (clk w)))
    {| rt := rt w;
       clk := {| Clock.readings := Clock.readings (clk w);
                 Clock.pos := S (Clock.pos (clk w)) |};
       out := out w |} ->
  ok now w Q.
Proof. intros H. eexists _, _. split; [reflexivity | exact H]. Qed.

Lemma ok_call_back e w Q :
  Q tt {| rt := rt w; clk := clk w; out := out w ++ [e] |} -> ok (call_back e) w Q.
Proof. intros H. eexists _, _. split; [reflexivity | exact H]. Qed.

Lemma ok_deref {V} (m : gmap string V) key v w Q :
  m !! key = Some v -> Q v w -> ok (deref m key) w Q.
Proof.
  intros Hk H. unfold deref. rewrite Hk. apply ok_ret, H.
Qed.

Lemma ok_when (b : bool) m w Q :
  (b = true -> ok m w Q) -> (b = false -> Q tt w) -> ok (when b m) w Q.
Proof.
  intros Ht Hf. destruct b; cbn [when]; [auto | apply ok_ret; auto].
Qed.

Lemma ok_inv {A} (m : M A) w Q a w' : ok m w Q -> m w = Some (a, w') -> Q a w'.
Proof.
  intros (a0 & w0 & Hm & HQ) Heq. rewrite Hm in Heq. inversion Heq; subst. exact HQ.
Qed.

Lemma emit_signal_eq type primary secondary strength confidence w :
  emit_signal type primary secondary strength confidence w =
  Some (tt,
    if signal_callback_ (rt w) then
      {| rt := with_signal_counter (wrap (signal_counter_ (rt w) + 1)) (rt w);
         clk := {| Clock.readings := Clock.readings (clk w);
                   Clock.pos := S (S (Clock.pos (clk w))) |};
         out := out w ++ [emitted type primary secondary strength confidence w] |}
    else w).
Proof.
  unfold emit_signal, bind, get. destruct (signal_callback_ (rt w)); cbn.
  - unfold emitted, SymbolTable.intern.
    destruct (String.eqb_spec secondary "") as [->|_]; reflexivity.
  - reflexivity.
Qed.

Lemma Ev_weaken Sh rd lo hi lo' hi' e :
  (lo' <= lo)%nat -> (hi <= hi')%nat -> Ev Sh rd lo hi e -> Ev Sh rd lo' hi' e.
Proof.
  intros Hlo Hhi (Hs & k & H1 & H2 & H3 & H4).
  split; [exact Hs|]. exists k. repeat split; try assumption; lia.
Qed.

Lemma Step_refl Sh w : Step Sh w w.
Proof.
  split; try reflexivity; auto.
  exists []. rewrite app_nil_r. split; [reflexivity | constructor].
Qed.

Lemma Step_trans Sh w1 w2 w3 : Step Sh w1 w2 -> Step Sh w2 w3 -> Step Sh w1 w3.
Proof.
  intros [Hr1 Hp1 Hw1 Hc1 Hl1 Hd1 (evs1 & Ho1 & He1)]
         [Hr2 Hp2 Hw2 Hc2 Hl2 Hd2 (evs2 & Ho2 & He2)].
  split; try congruence; try lia; auto.
  exists (evs1 ++ evs2). split.
  - rewrite Ho2, Ho1, app_assoc. reflexivity.
  - apply Forall_app. split.
    + eapply Forall_impl; [exact He1|]. intros e. apply Ev_weaken; lia.
    + rewrite Hr1 in He2.
      eapply Forall_impl; [exact He2|]. intros e. apply Ev_weaken; lia.
Qed.

Lemma with_signal_counter_id r : with_signal_counter (signal_counter_ r) r = r.
Proof. destruct r. reflexivity. Qed.

Lemma emit_signal_ok Sh type primary secondary strength confidence w :
  Sh type primary secondary ->
  ok (emit_signal type primary secondary strength confidence) w
     (fun _ w' => Step Sh w w' /\ counter_only w w').
Proof.
  intros HSh. eexists tt, _. split; [apply emit_signal_eq|].
  destruct (signal_callback_ (rt w)) eqn:Hcb.
  - split; [|eexists; reflexivity].
    split; cbn; try reflexivity; try lia; auto.
    eexists. split; [reflexivity|]. constructor; [|constructor].
    split; [exact HSh|]. exists (Clock.pos (clk w)).
    repeat split; cbn; lia.
  - split; [apply Step_refl|].
    exists (signal_counter_ (rt w)). symmetry. apply with_signal_counter_id.
Qed.

Lemma when_emit_ok Sh (fires : bool) type primary secondary strength confidence w :
  Sh type primary secondary ->
  ok (when fires (emit_signal type primary secondary strength confidence)) w
     (fun _ w' => Step Sh w w' /\ counter_only w w').
Proof.
  intros HSh. apply ok_when; intros _.
  - apply emit_signal_ok, HSh.
  - split; [apply Step_refl|].
    exists (signal_counter_ (rt w)). symmetry. apply with_signal_counter_id.
Qed.

(** A step that only rewrites router fields other than the pairs, the
    callback, the latest ticks and the correlation rules. *)
Lemma Step_router Sh w r' :
  watched_pairs_ r' = watched_pairs_ (rt w) ->
  signal_callback_ r' = signal_callback_ (rt w) ->
  latest_ticks_ r' = latest_ticks_ (rt w) ->
  (forall key, is_Some (correlation_rules_ (rt w) !! key) ->
               is_Some (correlation_rules_ r' !! key)) ->
  Step Sh w {| rt := r'; clk := clk w; out := out w |}.
Proof.
  intros Hw Hc Hl Hd. split; cbn; try assumption; try reflexivity.
  exists []. rewrite app_nil_r. split; [reflexivity | constructor].
Qed.

Lemma ensure_rules_exist_ok Sh symbol w :
  ok (ensure_rules_exist symbol) w
     (fun _ w' =>
        Step Sh w w' /\
        correlation_rules_ (rt w') = correlation_rules_ (rt w) /\
        is_Some (zscore_rules_ (rt w') !! symbol) /\
        is_Some (volume_rules_ (rt w') !! symbol) /\
        is_Some (mean_reversion_rules_ (rt w') !! symbol)).
Proof.
  unfold ensure_rules_exist.
  apply ok_bind, ok_modify. apply ok_bind, ok_modify. apply ok_modify.
  cbn [rt clk out].
  destruct (zscore_rules_ (rt w) !! symbol) eqn:Hz;
    destruct (volume_rules_ (rt w) !! symbol) eqn:Hv;
    destruct (mean_reversion_rules_ (rt w) !! symbol) eqn:Hm;
    cbn; rewrite ?Hv, ?Hm; cbn; rewrite ?Hm; cbn;
    (split; [apply Step_router; cbn; auto|]);
    rewrite ?lookup_insert_eq, ?Hz, ?Hv, ?Hm; auto.
Qed.

Lemma process_single_symbol_signals_ok Sh tick w :
  (forall type, type <> SignalEvent.CORRELATION_BREAK ->
                Sh type (Tick.symbol tick) "") ->
  is_Some (zscore_rules_ (rt w) !! Tick.symbol tick) ->
  is_Some (volume_rules_ (rt w) !! Tick.symbol tick) ->
  is_Some (mean_reversion_rules_ (rt w) !! Tick.symbol tick) ->
  ok (process_single_symbol_signals tick) w
     (fun _ w' =>
        Step Sh w w' /\
        correlation_rules_ (rt w') = correlation_rules_ (rt w)).
Proof.
  intros HSh [zr Hz] [vr Hv] [mr Hm].
  unfold process_single_symbol_signals.
  apply ok_bind, ok_get. eapply ok_bind, ok_deref; [exact Hz|].
  apply ok_bind, ok_modify.
  destruct (ZScoreRule.evaluate _) as [fires1 s1].
  apply ok_bind. eapply ok_conseq; [apply (when_emit_ok Sh); apply HSh; discriminate|].
  intros [] w1 [Hst1 [c1 Hrt1]]. cbn [rt] in Hrt1.
  apply ok_bind, ok_get. rewrite Hrt1. cbn [volume_rules_ with_signal_counter].
  eapply ok_bind, ok_deref; [cbn; exact Hv|].
  apply ok_bind, ok_modify.
  destruct (VolumeRule.evaluate _) as [fires2 s2].
  apply ok_bind. eapply ok_conseq; [apply (when_emit_ok Sh); apply HSh; discriminate|].
  intros [] w2 [Hst2 [c2 Hrt2]]. cbn [rt] in Hrt2.
  apply ok_bind, ok_get. rewrite Hrt2, Hrt1. cbn.
  eapply ok_bind, ok_deref; [exact Hm|].
  apply ok_bind, ok_modify.
  destruct (MeanReversionRule.evaluate _) as [fires3 s3].
  eapply ok_conseq; [apply (when_emit_ok Sh); apply HSh; discriminate|].
  intros [] w3 [Hst3 [c3 Hrt3]]. cbn [rt] in Hrt3.
  split.
  - eapply Step_trans; [|exact Hst3].
    eapply Step_trans; [|apply Step_router; rewrite ?Hrt2, ?Hrt1; cbn; auto].
    eapply Step_trans; [|exact Hst2].
    eapply Step_trans; [|apply Step_router; rewrite ?Hrt1; cbn; auto].
    eapply Step_trans; [|exact Hst1].
    apply Step_router; cbn; auto.
  - rewrite Hrt3. cbn. rewrite Hrt2. cbn. rewrite Hrt1. reflexivity.
Qed.

Lemma process_pair_ok Sh current_symbol symbol1 symbol2 w :
  Sh SignalEvent.CORRELATION_BREAK symbol1 symbol2 ->
  is_Some (correlation_rules_ (rt w) !! make_pair_key symbol1 symbol2) ->
  ok (process_pair current_symbol (symbol1, symbol2)) w (fun _ w' => Step Sh w w').
Proof.
  intros HSh [rule Hrule]. unfold process_pair.
  destruct (negb (String.eqb symbol1 current_symbol)
            && negb (String.eqb symbol2 current_symbol)).
  { apply ok_ret, Step_refl. }
  apply ok_bind, ok_get.
  destruct (latest_ticks_ (rt w) !! symbol1) as [tick1|];
    [|apply ok_ret, Step_refl].
  destruct (latest_ticks_ (rt w) !! symbol2) as [tick2|];
    [|apply ok_ret, Step_refl].
  eapply ok_bind, ok_deref; [exact Hrule|].
  apply ok_bind, ok_modify.
  destruct (CorrelationBreakRule.evaluate _) as [fires strength].
  eapply ok_conseq; [apply (when_emit_ok Sh), HSh|].
  intros [] w1 [Hst1 _].
  eapply Step_trans; [|exact Hst1].
  apply Step_router; cbn; auto.
  intros key Hkey.
  destruct (decide (make_pair_key symbol1 symbol2 = key)) as [->|Hne].
  - rewrite lookup_insert_eq. eauto.
  - rewrite lookup_insert_ne by exact Hne. exact Hkey.
Qed.

Lemma for_each_pair_ok Sh current_symbol pairs : forall w,
  Forall (fun p => Sh SignalEvent.CORRELATION_BREAK (fst p) (snd p) /\
                   is_Some (correlation_rules_ (rt w) !! make_pair_key (fst p) (snd p)))
         pairs ->
  ok (for_each_pair current_symbol pairs) w (fun _ w' => Step Sh w w').
Proof.
  induction pairs as [|[symbol1 symbol2] pairs IH]; intros w Hall.
  - apply ok_ret, Step_refl.
  - inversion Hall as [|? ? [HSh Hrule] Hrest]; subst. cbn [fst snd] in *.
    cbn [for_each_pair]. apply ok_bind.
    eapply ok_conseq; [apply (process_pair_ok Sh); eassumption|].
    intros [] w1 Hst1.
    eapply ok_conseq; [apply IH|].
    + eapply Forall_impl; [exact Hrest|]. intros p [Hp1 Hp2].
      split; [exact Hp1 | apply (st_corr_dom _ _ _ Hst1), Hp2].
    + intros [] w2 Hst2. eapply Step_trans; eassumption.
Qed.

Lemma WF_init : WF init.
Proof. constructor. Qed.

Lemma WF_configure r threshold :
  WF r ->
  WF (set_signal_callback r) /\ WF (set_zscore_threshold r threshold) /\
  WF (set_correlation_threshold r threshold) /\
  WF (set_volume_threshold r threshold).
Proof. intros H. repeat split; exact H. Qed.

Lemma WF_add_watched_pair r symbol1 symbol2 :
  WF r -> WF (add_watched_pair r symbol1 symbol2).
Proof.
  unfold WF, add_watched_pair. cbn. intros H.
  apply Forall_app. split.
  - eapply Forall_impl; [exact H|]. intros p [rule Hp].
    destruct (decide (make_pair_key symbol1 symbol2 = make_pair_key (fst p) (snd p)))
      as [->|Hne].
    + rewrite lookup_insert_eq. eauto.
    + rewrite lookup_insert_ne by exact Hne. eauto.
  - constructor; [|constructor]. cbn. rewrite lookup_insert_eq. eauto.
Qed.

Lemma add_sample_clock c h start end_ :
  Clock.readings (snd (LatencyHistogram.add_sample c h start end_)) = Clock.readings c /\
  (Clock.pos c <= Clock.pos (snd (LatencyHistogram.add_sample c h start end_)))%nat.
Proof.
  unfold LatencyHistogram.add_sample, LatencyHistogram.add_sample_us.
  destruct (negb (LatencyHistogram.timing_started_ h)); cbn; split;
    reflexivity || lia.
Qed.

(** [process_tick] is defined on every well-formed router, keeps it
    well-formed, and every event it emits has a shape allowed by
    [tick_shape] and clock readings taken after the [start_time] reading. *)
Lemma process_tick_ok tick w :
  WF (rt w) ->
  ok (process_tick tick) w
     (fun _ w' =>
        WF (rt w') /\
        watched_pairs_ (rt w') = watched_pairs_ (rt w) /\
        signal_callback_ (rt w') = signal_callback_ (rt w) /\
        Clock.readings (clk w') = Clock.readings (clk w) /\
        exists evs, out w' = out w ++ evs /\
          Forall (Ev (tick_shape (watched_pairs_ (rt w)) (Tick.symbol tick))
                     (Clock.readings (clk w)) (S (Clock.pos (clk w)))
                     (Clock.pos (clk w'))) evs).
Proof.
  intros Hwf. unfold process_tick.
  set (Sh := tick_shape (watched_pairs_ (rt w)) (Tick.symbol tick)).
  apply ok_bind, ok_now. apply ok_bind, ok_modify.
  set (w1 := {| rt := with_latest_ticks _ _; clk := _; out := _ |}).
  apply ok_bind. eapply ok_conseq; [apply (ensure_rules_exist_ok Sh)|].
  intros [] w2 (Hst2 & Hcr2 & Hz & Hv & Hm).
  apply ok_bind.
  eapply ok_conseq; [apply (process_single_symbol_signals_ok Sh); try assumption|].
  { intros type Hty. unfold Sh, tick_shape. destruct type; try congruence; auto. }
  intros [] w3 (Hst3 & Hcr3).
  pose proof (Step_trans _ _ _ _ Hst2 Hst3) as Hst13.
  apply ok_bind. unfold process_cross_symbol_signals.
  apply ok_bind, ok_get.
  eapply ok_conseq; [apply (for_each_pair_ok Sh)|].
  { rewrite (st_pairs _ _ _ Hst13). subst w1. cbn [rt watched_pairs_ with_latest_ticks].
    unfold WF in Hwf. rewrite Forall_forall in Hwf. apply Forall_forall.
    intros [s1 s2] Hin. split.
    - unfold Sh, tick_shape. cbn. exact Hin.
    - rewrite Hcr3, Hcr2. cbn. apply (Hwf _ Hin). }
  intros [] w4 Hst4.
  pose proof (Step_trans _ _ _ _ Hst13 Hst4) as Hst14.
  destruct Hst14 as [Hr Hp Hw Hc Hl Hd (evs & Ho & He)].
  subst w1. cbn [rt clk out watched_pairs_ signal_callback_ with_latest_ticks
                 correlation_rules_ Clock.readings Clock.pos] in *.
  apply ok_bind.
  pose proof (add_sample_clock (clk w4) (latency_hist_ (rt w4))
                (Tick.timestamp tick)
                (Clock.readings (clk w) (Clock.pos (clk w)))) as [Hsr Hsp].
  destruct (LatencyHistogram.add_sample _ _ _ _) as [h c] eqn:Hadd.
  cbn [snd] in Hsr, Hsp.
  eexists tt, _. split; [rewrite Hadd; reflexivity|].
  apply ok_modify. cbn.
  repeat split.
  - unfold WF. cbn. rewrite Hw. unfold WF in Hwf.
    eapply Forall_impl; [exact Hwf|]. intros p Hp'. apply Hd, Hp'.
  - exact Hw.
  - exact Hc.
  - congruence.
  - exists evs. split; [exact Ho|].
    eapply Forall_impl; [exact He|]. intros e. apply Ev_weaken; lia.
Qed.

(** C6 (as the code has it). On a well-formed router [process_tick] is
    defined, and every CorrelationBreak event it emits carries as
    (primary, secondary) a pair of [watched_pairs_], that is, the two
    symbols in the argument order of the [add_watched_pair] call that
    registered them; only the rule key is canonical. *)
Theorem correlation_break_symbols_as_registered (tick : Tick.t) (w : World) :
  WF (rt w) ->
  exists w' evs,
    process_tick tick w = Some (tt, w') /\
    out w' = out w ++ evs /\
    forall e, e ∈ evs ->
      SignalEvent.event_type e = SignalEvent.CORRELATION_BREAK ->
      (SignalEvent.primary_symbol e, SignalEvent.secondary_symbol e)
        ∈ watched_pairs_ (rt w).
Proof.
  intros Hwf.
  destruct (process_tick_ok tick w Hwf)
    as ([] & w' & Hrun & _ & _ & _ & _ & evs & Hout & Hev).
  exists w', evs. split; [exact Hrun|]. split; [exact Hout|].
  intros e He Hty. rewrite Forall_forall in Hev.
  destruct (Hev e He) as [Hshape _]. unfold tick_shape in Hshape.
  rewrite Hty in Hshape. exact Hshape.
Qed.

(** C7 (as the code has it). Every event emitted during [process_tick]
    has as [event_time] the clock value read by the [SignalEvent]
    constructor inside [emit_signal], a reading taken after the
    [start_time] reading of that [process_tick], and as [generation_time]
    the reading that follows it. *)
Theorem event_time_is_clock_reading (tick : Tick.t) (w : World) :
  WF (rt w) ->
  exists w' evs,
    process_tick tick w = Some (tt, w') /\
    out w' = out w ++ evs /\
    forall e, e ∈ evs ->
      exists k, (Clock.pos (clk w) < k)%nat /\ (S k < Clock.pos (clk w'))%nat /\
        SignalEvent.event_time e = Clock.readings (clk w) k /\
        SignalEvent.generation_time e = Clock.readings (clk w) (S k).
Proof.
  intros Hwf.
  destruct (process_tick_ok tick w Hwf)
    as ([] & w' & Hrun & _ & _ & _ & _ & evs & Hout & Hev).
  exists w', evs. split; [exact Hrun|]. split; [exact Hout|].
  intros e He. rewrite Forall_forall in Hev.
  destruct (Hev e He) as [_ (k & Hlo & Hhi & Het & Hgt)].
  exists k. repeat split; try assumption; lia.
Qed.

(** [process_ticks] is defined on every well-formed router. *)
Lemma process_ticks_ok ticks : forall w,
  WF (rt w) ->
  ok (process_ticks ticks) w
     (fun _ w' => WF (rt w') /\ exists evs, out w' = out w ++ evs).
Proof.
  induction ticks as [|tick ticks IH]; intros w Hwf.
  - apply ok_ret. split; [exact Hwf|]. exists []. rewrite app_nil_r. reflexivity.
  - cbn [process_ticks]. apply ok_bind.
    eapply ok_conseq; [apply process_tick_ok, Hwf|].
    intros [] w1 (Hwf1 & _ & _ & _ & evs1 & Ho1 & _).
    eapply ok_conseq; [apply IH, Hwf1|].
    intros [] w2 (Hwf2 & evs2 & Ho2). split; [exact Hwf2|].
    exists (evs1 ++ evs2). rewrite Ho2, Ho1, app_assoc. reflexivity.
Qed.

Lemma process_pair_exact current_symbol symbol1 symbol2 w :
  symbol1 = current_symbol \/ symbol2 = current_symbol ->
  is_Some (correlation_rules_ (rt w) !! make_pair_key symbol1 symbol2) ->
  ok (process_pair current_symbol (symbol1, symbol2)) w
     (fun _ w' => pair_effect symbol1 symbol2 w w').
Proof.
  intros Hcur [rule Hrule]. unfold process_pair.
  assert (Hguard : negb (String.eqb symbol1 current_symbol)
                   && negb (String.eqb symbol2 current_symbol) = false).
  { destruct Hcur as [->| ->]; rewrite String.eqb_refl; cbn;
      [reflexivity | apply andb_false_r]. }
  rewrite Hguard. apply ok_bind, ok_get.
  assert (Hskip : latest_ticks_ (rt w) !! symbol1 = None \/
                  latest_ticks_ (rt w) !! symbol2 = None ->
                  pair_effect symbol1 symbol2 w w).
  { intros Hnone. unfold pair_effect. split_and!; try reflexivity.
    - exists []. rewrite app_nil_r. reflexivity.
    - intros t1 t2 r1 E1 E2. destruct Hnone; congruence. }
  destruct (latest_ticks_ (rt w) !! symbol1) as [tick1|] eqn:H1;
    [|apply ok_ret, Hskip; auto].
  destruct (latest_ticks_ (rt w) !! symbol2) as [tick2|] eqn:H2;
    [|apply ok_ret, Hskip; auto].
  clear Hskip.
  eapply ok_bind, ok_deref; [exact Hrule|]. apply ok_bind, ok_modify.
  destruct (CorrelationBreakRule.evaluate _) as [fires strength] eqn:Hev.
  apply ok_when; intros Hf.
  - eexists tt, _. split; [apply emit_signal_eq|]. cbn [rt clk out].
    destruct (signal_callback_ _) eqn:Hcb; unfold pair_effect; cbn;
      (split_and!; try reflexivity; try congruence).
    + eexists. reflexivity.
    + intros [E|E]; congruence.
    + intros t1 t2 r1 E1 E2 E3 _.
      rewrite H1 in E1. rewrite H2 in E2. rewrite Hrule in E3.
      inversion E1; inversion E2; inversion E3; subst.
      split; [reflexivity|]. intros _.
      eexists. split; [apply elem_of_app; right; apply list_elem_of_singleton; reflexivity|].
      cbn. split_and!; try reflexivity. eexists; reflexivity.
    + exists []. rewrite app_nil_r. reflexivity.
    + intros [E|E]; congruence.
    + intros t1 t2 r1 E1 E2 E3 E4. cbn in Hcb. congruence.
  - unfold pair_effect; cbn. split_and!; try reflexivity.
    + exists []. rewrite app_nil_r. reflexivity.
    + intros [E|E]; congruence.
    + intros t1 t2 r1 E1 E2 E3 _.
      rewrite H1 in E1. rewrite H2 in E2. rewrite Hrule in E3.
      inversion E1; inversion E2; inversion E3; subst.
      split; [reflexivity|]. rewrite Hev. cbn. congruence.
Qed.

(** [process_tick] on a router that watches exactly one pair. *)
Lemma process_tick_single_pair tick symbol1 symbol2 w :
  watched_pairs_ (rt w) = [(symbol1, symbol2)] ->
  symbol1 = Tick.symbol tick \/ symbol2 = Tick.symbol tick ->
  is_Some (correlation_rules_ (rt w) !! make_pair_key symbol1 symbol2) ->
  ok (process_tick tick) w
     (fun _ w' =>
        pair_effect symbol1 symbol2
          {| rt := with_latest_ticks
                     (<[Tick.symbol tick := tick]> (latest_ticks_ (rt w))) (rt w);
             clk := clk w; out := out w |} w').
Proof.
  intros Hpairs Hcur Hrule. unfold process_tick.
  set (Sh := fun (_ : SignalEvent.Type_) (_ _ : string) => True).
  apply ok_bind, ok_now. apply ok_bind, ok_modify. cbn [rt clk out].
  set (w1 := {| rt := with_latest_ticks _ _; clk := _; out := _ |}).
  apply ok_bind. eapply ok_conseq; [apply (ensure_rules_exist_ok Sh)|].
  intros [] w2 (Hst2 & Hcr2 & Hz & Hv & Hm).
  apply ok_bind.
  eapply ok_conseq;
    [apply (process_single_symbol_signals_ok Sh); try assumption; intros; exact I|].
  intros [] w3 (Hst3 & Hcr3).
  destruct (Step_trans _ _ _ _ Hst2 Hst3) as [Hr Hp Hw Hc Hl _ (evs & Ho & _)].
  subst w1.
  cbn [rt clk out watched_pairs_ signal_callback_ latest_ticks_ with_latest_ticks
       correlation_rules_ Clock.readings Clock.pos] in *.
  apply ok_bind. unfold process_cross_symbol_signals.
  apply ok_bind, ok_get. rewrite Hw, Hpairs. cbn [for_each_pair].
  apply ok_bind.
  eapply ok_conseq; [apply process_pair_exact|].
  { exact Hcur. }
  { rewrite Hcr3, Hcr2. exact Hrule. }
  intros [] w4 (El & Ew & Ec & Er & (evs4 & Eo) & Eskip & Eadd).
  apply ok_ret. apply ok_bind.
  pose proof (add_sample_clock (clk w4) (latency_hist_ (rt w4))
                (Tick.timestamp tick)
                (Clock.readings (clk w) (Clock.pos (clk w)))) as [Hsr _].
  destruct (LatencyHistogram.add_sample _ _ _ _) as [h c] eqn:Hadd.
  cbn [snd] in Hsr.
  eexists tt, _. split; [rewrite Hadd; reflexivity|].
  apply ok_modify. unfold pair_effect. cbn.
  rewrite Hl, Hcr3, Hcr2, Hc in *. cbn in *.
  split_and!; try congruence.
  - exists (evs ++ evs4). rewrite Eo, Ho, app_assoc. reflexivity.
  - exact Eskip.
  - intros t1 t2 rule E1 E2 E3 E4.
    destruct (Eadd t1 t2 rule E1 E2 E3 E4) as [Ecr Eev].
    split; [exact Ecr|]. intros Hf.
    destruct (Eev Hf) as (e & He & Hty & Hp1 & Hp2 & k & Het).
    exists e. split_and!; try assumption. exists k. congruence.
Qed.

Lemma covar_constant_x (c : RollingCovar.t) (p y : R) :
  0 <= RollingCovar.count_ c -> RollingCovar.count_ c + 1 < U64 ->
  RollingCovar.m2_x_ c = 0%R ->
  (RollingCovar.mean_x_ c = p \/
   RollingCovar.count_ c = 0 /\ RollingCovar.mean_x_ c = 0%R) ->
  RollingCovar.count_ (RollingCovar.add c p y) = RollingCovar.count_ c + 1 /\
  RollingCovar.m2_x_ (RollingCovar.add c p y) = 0%R /\
  RollingCovar.mean_x_ (RollingCovar.add c p y) = p.
Proof.
  intros H0 H1 Hm2 Hmean. unfold RollingCovar.add.
  cbn [RollingCovar.count_ RollingCovar.m2_x_ RollingCovar.mean_x_].
  rewrite wrap_small by lia. split; [reflexivity|].
  rewrite Hm2. destruct Hmean as [-> | [Hc ->]].
  - unfold Rdiv. split; ring.
  - rewrite Hc. change (IZR (0 + 1)) with 1%R. split; field.
Qed.

Lemma constant_x_fires (rule : CorrelationBreakRule.t) :
  CorrelationBreakRule.min_observations_ rule = 50%R ->
  CorrelationBreakRule.correlation_threshold_ rule = (3 / 10)%R ->
  RollingCovar.count_ (CorrelationBreakRule.covar_ rule) = 50 ->
  RollingCovar.m2_x_ (CorrelationBreakRule.covar_ rule) = 0%R ->
  CorrelationBreakRule.evaluate rule = (true, 0%R).
Proof.
  intros Hmin Hthr Hcnt Hm2. unfold CorrelationBreakRule.evaluate.
  unfold RollingCovar.count. rewrite Hmin, Hthr, Hcnt.
  destruct (Rltb_spec 50 50) as [Hc|_]; [lra|].
  assert (Hcorr : RollingCovar.correlation (CorrelationBreakRule.covar_ rule) = 0%R).
  { unfold RollingCovar.correlation, RollingCovar.variance_x.
    rewrite Hcnt, Hm2. cbn [Z.ltb Z.compare Pos.compare Pos.compare_cont].
    unfold Rdiv at 1. rewrite Rmult_0_l.
    destruct (Rleb_spec 0 0) as [_|Hc]; [reflexivity | lra]. }
  rewrite Hcorr, Rabs_R0.
  destruct (Rltb_spec 0 (3 / 10)) as [_|Hc]; [reflexivity | lra].
Qed.

Lemma ce_key : make_pair_key "MSFT" "AAPL" = "AAPL|MSFT".
Proof. reflexivity. Qed.

Lemma ce_first_tick :
  ok (process_tick (ce_tick "MSFT" 1)) ce_world (fun _ w' => Scen 0 w').
Proof.
  eapply ok_conseq; [apply (process_tick_single_pair _ "MSFT" "AAPL")|].
  - reflexivity.
  - left. reflexivity.
  - rewrite ce_key. cbn. rewrite lookup_insert_eq. eauto.
  - intros [] w' (El & Ew & Ec & Er & _ & Eskip & _). cbn in *.
    split.
    + rewrite Ew. reflexivity.
    + rewrite Ec. reflexivity.
    + rewrite Er. reflexivity.
    + eexists. rewrite El, lookup_insert_eq. split; reflexivity.
    + rewrite Eskip by (right; rewrite lookup_insert_ne by discriminate;
                        apply lookup_empty).
      eexists. rewrite lookup_insert_eq. split; [reflexivity|].
      cbn. split_and!; try reflexivity. right. split; reflexivity.
Qed.

Lemma ce_aapl_tick (k : Z) (n : nat) (w : World) :
  Scen k w -> 0 <= k < 50 ->
  ok (process_tick (ce_tick "AAPL" n)) w
     (fun _ w' => Scen (k + 1) w' /\
                  (k + 1 = 50 -> exists e, e ∈ out w' /\ ce_break e)).
Proof.
  intros [Hp Hcb Hclk (tm & Hmsft & Hprice)
          (rule & Hrule & Hmin & Hthr & Hcnt & Hm2 & Hmean)] Hk.
  eapply ok_conseq; [apply (process_tick_single_pair _ "MSFT" "AAPL")|].
  - exact Hp.
  - right. reflexivity.
  - rewrite ce_key, Hrule. eauto.
  - intros [] w' (El & Ew & Ec & Er & _ & _ & Eadd). cbn in *.
    specialize (Eadd tm (ce_tick "AAPL" n) rule).
    rewrite lookup_insert_ne, lookup_insert_eq in Eadd by discriminate.
    rewrite ce_key in Eadd.
    destruct (Eadd Hmsft eq_refl Hrule Hcb) as [Ecr Eev]. clear Eadd.
    rewrite Hprice in Ecr, Eev. cbn [Tick.last_price ce_tick] in Ecr, Eev.
    set (rule' := CorrelationBreakRule.add_pair rule 100 100) in *.
    destruct (covar_constant_x (CorrelationBreakRule.covar_ rule) 100 100)
      as (Hc' & Hm' & Hx'); try assumption; try (unfold U64; lia).
    { destruct Hmean as [Hx|[Hk0 Hx]]; [left; exact Hx | right; split; [lia | exact Hx]]. }
    assert (Hcov : CorrelationBreakRule.covar_ rule' =
                   RollingCovar.add (CorrelationBreakRule.covar_ rule) 100 100)
      by reflexivity.
    assert (Hscen : Scen (k + 1) w').
    { split.
      - rewrite Ew. exact Hp.
      - rewrite Ec. exact Hcb.
      - rewrite Er. exact Hclk.
      - exists tm. rewrite El, lookup_insert_ne by discriminate. auto.
      - exists rule'. rewrite Ecr, lookup_insert_eq.
        split_and!; [reflexivity | exact Hmin | exact Hthr | | exact Hm' |].
        + rewrite Hcov, Hc', Hcnt. reflexivity.
        + left. exact Hx'. }
    split; [exact Hscen|]. intros H50.
    assert (Hfire : CorrelationBreakRule.evaluate rule' = (true, 0%R)).
    { apply constant_x_fires; [exact Hmin | exact Hthr | | exact Hm'].
      rewrite Hcov, Hc', Hcnt. exact H50. }
    destruct Eev as (e & He & Hty & Hp1 & Hp2 & j & Het);
      [rewrite Hfire; reflexivity|].
    exists e. split; [exact He|]. unfold ce_break. split_and!; try assumption.
    exists j. rewrite Het, Hclk. reflexivity.
Qed.

Lemma ce_run_aapl (ns : list nat) : forall k w,
  Scen k w -> 0 <= k -> k + Z.of_nat (length ns) = 50 -> ns <> [] ->
  ok (process_ticks (map (ce_tick "AAPL") ns)) w
     (fun _ w' => exists e, e ∈ out w' /\ ce_break e).
Proof.
  induction ns as [|n ns IH]; intros k w Hsc Hk Hlen Hne; [congruence|].
  cbn [map process_ticks length] in *. apply ok_bind.
  eapply ok_conseq; [apply (ce_aapl_tick k n w Hsc); lia|].
  intros [] w1 [Hsc1 Hbreak].
  destruct ns as [|n' ns'].
  - apply ok_ret. apply Hbreak. cbn [length] in Hlen. lia.
  - apply (IH (k + 1) w1 Hsc1); [lia | cbn [length] in *; lia | discriminate].
Qed.

Lemma ce_run :
  ok (process_ticks ce_ticks) ce_world
     (fun _ w' => exists e, e ∈ out w' /\ ce_break e).
Proof.
  unfold ce_ticks. cbn [process_ticks]. apply ok_bind.
  eapply ok_conseq; [apply ce_first_tick|].
  intros [] w1 Hsc. apply (ce_run_aapl _ 0 w1 Hsc); [lia | reflexivity | discriminate].
Qed.

(** The run is a legal use of the interface. *)
Lemma ce_router_WF : WF ce_router.
Proof. apply WF_add_watched_pair, WF_init. Qed.

(** The claimed canonical order fails: the run emits a CorrelationBreak
    whose primary symbol "MSFT" is lexicographically larger than its
    secondary symbol "AAPL". *)
Lemma correlation_break_primary_is_larger :
  exists w' e,
    process_ticks ce_ticks ce_world = Some (tt, w') /\
    e ∈ out w' /\
    SignalEvent.event_type e = SignalEvent.CORRELATION_BREAK /\
    SignalEvent.primary_symbol e = "MSFT" /\
    SignalEvent.secondary_symbol e = "AAPL" /\
    String.ltb (SignalEvent.secondary_symbol e) (SignalEvent.primary_symbol e) = true.
Proof.
  destruct ce_run as ([] & w' & Hrun & e & He & Hty & Hp1 & Hp2 & _).
  exists w', e. split_and!; try assumption.
  rewrite Hp1, Hp2. reflexivity.
Qed.

(** The claimed event time fails: the run emits an event whose
    [event_time] (a clock reading, 1000 or later) is the timestamp of none
    of the ticks (all 0). *)
Lemma event_time_is_not_tick_timestamp :
  exists w' e,
    process_ticks ce_ticks ce_world = Some (tt, w') /\
    e ∈ out w' /\
    forall tick, tick ∈ ce_ticks ->
      SignalEvent.event_time e <> Tick.timestamp tick.
Proof.
  destruct ce_run as ([] & w' & Hrun & e & He & _ & _ & _ & j & Het).
  exists w', e. split_and!; try assumption.
  intros tick Hin. rewrite Het.
  assert (Hts : Tick.timestamp tick = 0).
  { unfold ce_ticks in Hin. apply elem_of_cons in Hin as [->|Hin]; [reflexivity|].
    apply list_elem_of_fmap in Hin as (n & -> & _). reflexivity. }
  rewrite Hts. lia.
Qed.

(** *** Accounting *)

Lemma ok_and {A} (m : M A) w (Q1 Q2 : A -> World -> Prop) :
  ok m w Q1 -> ok m w Q2 -> ok m w (fun a w' => Q1 a w' /\ Q2 a w').
Proof.
  intros (a1 & w1 & H1 & HQ1) (a2 & w2 & H2 & HQ2).
  rewrite H1 in H2. inversion H2; subst.
  exists a2, w2. split; [exact H1 | split; assumption].
Qed.

Lemma iter_next_id_add (n m : nat) (c : Z) :
  Nat.iter (n + m) next_id c = Nat.iter m next_id (Nat.iter n next_id c).
Proof. rewrite Nat.add_comm. apply Nat.iter_add. Qed.

Lemma iter_next_id_wrap (n : nat) (c : Z) :
  0 <= c < U64 -> Nat.iter n next_id c = wrap (c + Z.of_nat n).
Proof.
  intros Hc. induction n as [|n IH].
  - cbn. rewrite Z.add_0_r, wrap_small by exact Hc. reflexivity.
  - rewrite Nat.iter_succ, IH. unfold next_id, wrap.
    rewrite Zplus_mod_idemp_l. f_equal. lia.
Qed.

Lemma Acct_refl w : Acct w w [].
Proof.
  constructor; try reflexivity.
  - rewrite app_nil_r. reflexivity.
  - cbn. lia.
  - intros i e Hi. discriminate.
Qed.

Lemma Acct_trans w1 w2 w3 evs1 evs2 :
  Acct w1 w2 evs1 -> Acct w2 w3 evs2 -> Acct w1 w3 (evs1 ++ evs2).
Proof.
  intros [Hcb1 Hh1 Ht1 Hl1 Hp1 Hz1 Hc1 Hv1 Hr1 Ho1 Hn1 Hpos1 Hs1 He1]
         [Hcb2 Hh2 Ht2 Hl2 Hp2 Hz2 Hc2 Hv2 Hr2 Ho2 Hn2 Hpos2 Hs2 He2].
  constructor; try congruence.
  - rewrite Ho2, Ho1, app_assoc. reflexivity.
  - rewrite Hn2, Hn1, length_app. symmetry. apply iter_next_id_add.
  - rewrite Hpos2, Hpos1, length_app. lia.
  - intros Hcb. rewrite Hs1 by exact Hcb. rewrite Hs2 by congruence. reflexivity.
  - intros i e Hi.
    destruct (decide (i < length evs1)%nat) as [Hlt|Hge].
    + rewrite lookup_app_l in Hi by exact Hlt. apply He1, Hi.
    + rewrite lookup_app_r in Hi by lia.
      destruct (He2 _ _ Hi) as (Hid & Het & Hgt).
      rewrite Hid, Het, Hgt, Hn1, Hr1, Hpos1, <- iter_next_id_add.
      replace (length evs1 + (i - length evs1))%nat with i by lia.
      replace (Clock.pos (clk w1) + 2 * length evs1 + 2 * (i - length evs1))%nat
        with (Clock.pos (clk w1) + 2 * i)%nat by lia.
      auto.
Qed.

(** A step that only rewrites the rule maps. *)
Lemma Acct_rules w r' :
  signal_callback_ r' = signal_callback_ (rt w) ->
  latency_hist_ r' = latency_hist_ (rt w) ->
  ticks_processed_ r' = ticks_processed_ (rt w) ->
  latest_ticks_ r' = latest_ticks_ (rt w) ->
  watched_pairs_ r' = watched_pairs_ (rt w) ->
  zscore_threshold_ r' = zscore_threshold_ (rt w) ->
  correlation_threshold_ r' = correlation_threshold_ (rt w) ->
  volume_threshold_ r' = volume_threshold_ (rt w) ->
  signal_counter_ r' = signal_counter_ (rt w) ->
  Acct w {| rt := r'; clk := clk w; out := out w |} [].
Proof.
  intros. constructor; cbn; try assumption; try reflexivity.
  - rewrite app_nil_r. reflexivity.
  - lia.
  - intros i e Hi. discriminate.
Qed.

Lemma emit_signal_acct type primary secondary strength confidence w :
  ok (emit_signal type primary secondary strength confidence) w
     (fun _ w' =>
        exists evs, Acct w w' evs /\ counter_only w w' /\
          map shape evs =
            if signal_callback_ (rt w)
            then [(type, primary, secondary, strength, confidence)] else []).
Proof.
  eexists tt, _. split; [apply emit_signal_eq|].
  destruct (signal_callback_ (rt w)) eqn:Hcb.
  - exists [emitted type primary secondary strength confidence w].
    split; [|split; [eexists; reflexivity | reflexivity]].
    constructor; cbn; try reflexivity; try lia.
    + congruence.
    + intros i e Hi. destruct i as [|i]; [|discriminate].
      cbn in Hi. inversion Hi; subst e. cbn. rewrite Nat.add_0_r. auto.
  - exists []. split; [apply Acct_refl|]. split; [|reflexivity].
    exists (signal_counter_ (rt w)). symmetry. apply with_signal_counter_id.
Qed.

Lemma when_emit_acct (fires : bool) type primary strength confidence w :
  ok (when fires (emit_signal type primary "" strength confidence)) w
     (fun _ w' =>
        exists evs, Acct w w' evs /\ counter_only w w' /\
          map shape evs =
            if signal_callback_ (rt w)
            then signal_of type primary confidence (fires, strength) else []).
Proof.
  unfold signal_of. cbn [fst snd]. apply ok_when; intros ->.
  - apply emit_signal_acct.
  - exists []. split; [apply Acct_refl|]. split.
    + exists (signal_counter_ (rt w)). symmetry. apply with_signal_counter_id.
    + destruct (signal_callback_ (rt w)); reflexivity.
Qed.

Lemma ensure_rules_exist_acct symbol w :
  ok (ensure_rules_exist symbol) w
     (fun _ w' =>
        Acct w w' [] /\
        zscore_rules_ (rt w') =
          <[symbol := zscore_rule_of (rt w) symbol]> (zscore_rules_ (rt w)) /\
        volume_rules_ (rt w') =
          <[symbol := volume_rule_of (rt w) symbol]> (volume_rules_ (rt w)) /\
        mean_reversion_rules_ (rt w') =
          <[symbol := mean_reversion_rule_of (rt w) symbol]>
            (mean_reversion_rules_ (rt w)) /\
        correlation_rules_ (rt w') = correlation_rules_ (rt w)).
Proof.
  unfold ensure_rules_exist, zscore_rule_of, volume_rule_of, mean_reversion_rule_of.
  apply ok_bind, ok_modify. apply ok_bind, ok_modify. apply ok_modify.
  cbn [rt clk out].
  destruct (zscore_rules_ (rt w) !! symbol) eqn:Hz;
    destruct (volume_rules_ (rt w) !! symbol) eqn:Hv;
    destruct (mean_reversion_rules_ (rt w) !! symbol) eqn:Hm;
    cbn; rewrite ?Hv, ?Hm; cbn; rewrite ?Hm; cbn;
    (split; [apply Acct_rules; reflexivity|]);
    rewrite ?(insert_id _ _ _ Hz), ?(insert_id _ _ _ Hv), ?(insert_id _ _ _ Hm);
    auto.
Qed.

Lemma process_single_symbol_signals_acct tick w zr vr mr :
  zscore_rules_ (rt w) !! Tick.symbol tick = Some zr ->
  volume_rules_ (rt w) !! Tick.symbol tick = Some vr ->
  mean_reversion_rules_ (rt w) !! Tick.symbol tick = Some mr ->
  let zr' := ZScoreRule.add_observation zr (Tick.last_price tick) in
  let vr' := VolumeRule.add_volume vr (Tick.last_size tick) in
  let mr' := MeanReversionRule.add_observation mr (Tick.last_price tick) in
  ok (process_single_symbol_signals tick) w
     (fun _ w' =>
        exists evs, Acct w w' evs /\
          zscore_rules_ (rt w') = <[Tick.symbol tick := zr']> (zscore_rules_ (rt w)) /\
          volume_rules_ (rt w') = <[Tick.symbol tick := vr']> (volume_rules_ (rt w)) /\
          mean_reversion_rules_ (rt w') =
            <[Tick.symbol tick := mr']> (mean_reversion_rules_ (rt w)) /\
          correlation_rules_ (rt w') = correlation_rules_ (rt w) /\
          map shape evs =
            if signal_callback_ (rt w) then
              signal_of SignalEvent.Z_SCORE_BREAK (Tick.symbol tick) (95 / 100)
                (ZScoreRule.evaluate zr')
              ++ signal_of SignalEvent.VOLUME_SPIKE (Tick.symbol tick) (90 / 100)
                (VolumeRule.evaluate vr')
              ++ signal_of SignalEvent.PAIR_TRADE_ENTRY (Tick.symbol tick) (85 / 100)
                (MeanReversionRule.evaluate mr')
            else []).
Proof.
  intros Hz Hv Hm zr' vr' mr'.
  unfold process_single_symbol_signals.
  apply ok_bind, ok_get. eapply ok_bind, ok_deref; [exact Hz|].
  apply ok_bind, ok_modify. fold zr'.
  set (w0 := {| rt := with_zscore_rules _ _; clk := clk w; out := out w |}).
  assert (Ha0 : Acct w w0 []) by (apply Acct_rules; reflexivity).
  destruct (ZScoreRule.evaluate zr') as [fires1 s1] eqn:He1.
  apply ok_bind. eapply ok_conseq; [apply when_emit_acct|].
  intros [] w1 (evs1 & Ha1 & [c1 Hrt1] & Hsh1). cbn [rt] in Hrt1.
  apply ok_bind, ok_get. rewrite Hrt1. cbn [volume_rules_ with_signal_counter].
  eapply ok_bind, ok_deref; [cbn; exact Hv|].
  apply ok_bind, ok_modify. fold vr'.
  set (w1' := {| rt := with_volume_rules _ _; clk := clk w1; out := out w1 |}).
  assert (Ha1' : Acct w1 w1' []).
  { apply Acct_rules; rewrite Hrt1; reflexivity. }
  destruct (VolumeRule.evaluate vr') as [fires2 s2] eqn:He2.
  apply ok_bind. eapply ok_conseq; [apply when_emit_acct|].
  intros [] w2 (evs2 & Ha2 & [c2 Hrt2] & Hsh2). cbn [rt] in Hrt2.
  apply ok_bind, ok_get. rewrite Hrt2. subst w1'. cbn [rt]. rewrite Hrt1. cbn.
  eapply ok_bind, ok_deref; [exact Hm|].
  apply ok_bind, ok_modify. fold mr'.
  match goal with
  | |- ok _ ?x _ => set (w2' := x)
  end.
  assert (Ha2' : Acct w2 w2' []).
  { apply Acct_rules; rewrite Hrt2; cbn; rewrite ?Hrt1; reflexivity. }
  destruct (MeanReversionRule.evaluate mr') as [fires3 s3] eqn:He3.
  eapply ok_conseq; [apply when_emit_acct|].
  intros [] w3 (evs3 & Ha3 & [c3 Hrt3] & Hsh3). cbn [rt] in Hrt3.
  exists (evs1 ++ evs2 ++ evs3).
  rewrite (ac_cb _ _ _ Ha0) in Hsh1.
  rewrite (ac_cb _ _ _ Ha1'), (ac_cb _ _ _ Ha1), (ac_cb _ _ _ Ha0) in Hsh2.
  rewrite (ac_cb _ _ _ Ha2'), (ac_cb _ _ _ Ha2), (ac_cb _ _ _ Ha1'),
    (ac_cb _ _ _ Ha1), (ac_cb _ _ _ Ha0) in Hsh3.
  split_and!.
  - pose proof (Acct_trans _ _ _ _ _ Ha0 Ha1) as H01.
    pose proof (Acct_trans _ _ _ _ _ Ha1' Ha2) as H12.
    pose proof (Acct_trans _ _ _ _ _ Ha2' Ha3) as H23.
    cbn [app] in H01, H12, H23.
    exact (Acct_trans _ _ _ _ _ H01 (Acct_trans _ _ _ _ _ H12 H23)).
  - rewrite Hrt3. subst w2'. cbn. rewrite Hrt2. cbn. rewrite Hrt1. reflexivity.
  - rewrite Hrt3. subst w2'. cbn. rewrite Hrt2. cbn. rewrite Hrt1. reflexivity.
  - rewrite Hrt3. subst w2'. cbn. rewrite Hrt2. cbn. rewrite Hrt1. reflexivity.
  - rewrite Hrt3. subst w2'. cbn. rewrite Hrt2. cbn. rewrite Hrt1. reflexivity.
  - rewrite !map_app, Hsh1, Hsh2, Hsh3.
    destruct (signal_callback_ (rt w)); reflexivity.
Qed.

Lemma process_pair_acct current_symbol symbol1 symbol2 w :
  is_Some (correlation_rules_ (rt w) !! make_pair_key symbol1 symbol2) ->
  ok (process_pair current_symbol (symbol1, symbol2)) w
     (fun _ w' =>
        exists evs, Acct w w' evs /\
          zscore_rules_ (rt w') = zscore_rules_ (rt w) /\
          volume_rules_ (rt w') = volume_rules_ (rt w) /\
          mean_reversion_rules_ (rt w') = mean_reversion_rules_ (rt w) /\
          Forall (fun e => SignalEvent.event_type e = SignalEvent.CORRELATION_BREAK)
                 evs /\
          (forall key, is_Some (correlation_rules_ (rt w) !! key) ->
                       is_Some (correlation_rules_ (rt w') !! key))).
Proof.
  intros [rule Hrule]. unfold process_pair.
  assert (Hskip : ok (ret tt) w
            (fun _ w' =>
               exists evs, Acct w w' evs /\
                 zscore_rules_ (rt w') = zscore_rules_ (rt w) /\
                 volume_rules_ (rt w') = volume_rules_ (rt w) /\
                 mean_reversion_rules_ (rt w') = mean_reversion_rules_ (rt w) /\
                 Forall (fun e => SignalEvent.event_type e
                                  = SignalEvent.CORRELATION_BREAK) evs /\
                 (forall key, is_Some (correlation_rules_ (rt w) !! key) ->
                              is_Some (correlation_rules_ (rt w') !! key)))).
  { apply ok_ret. exists []. split; [apply Acct_refl|]. split_and!; auto. }
  destruct (negb (String.eqb symbol1 current_symbol)
            && negb (String.eqb symbol2 current_symbol)); [exact Hskip|].
  apply ok_bind, ok_get.
  destruct (latest_ticks_ (rt w) !! symbol1) as [tick1|]; [|exact Hskip].
  destruct (latest_ticks_ (rt w) !! symbol2) as [tick2|]; [|exact Hskip].
  eapply ok_bind, ok_deref; [exact Hrule|].
  apply ok_bind, ok_modify.
  match goal with |- ok _ ?x _ => set (w0 := x) end.
  assert (Ha0 : Acct w w0 []) by (apply Acct_rules; reflexivity).
  destruct (CorrelationBreakRule.evaluate _) as [fires strength].
  apply ok_when; intros ->.
  - eapply ok_conseq; [apply emit_signal_acct|].
    intros [] w1 (evs & Ha1 & [c1 Hrt1] & Hsh). exists evs.
    split; [exact (Acct_trans _ _ _ _ _ Ha0 Ha1)|].
    rewrite Hrt1. subst w0. cbn. split_and!; try reflexivity.
    + cbn in Hsh.
      destruct (signal_callback_ (rt w)); destruct evs as [|e [|e' evs]];
        try discriminate Hsh; constructor.
      * unfold shape in Hsh. inversion Hsh. reflexivity.
      * constructor.
    + intros key Hkey.
      destruct (decide (make_pair_key symbol1 symbol2 = key)) as [->|Hne].
      * rewrite lookup_insert_eq. eauto.
      * rewrite lookup_insert_ne by exact Hne. exact Hkey.
  - exists []. split; [exact Ha0|]. subst w0. cbn. split_and!; try reflexivity.
    + constructor.
    + intros key Hkey.
      destruct (decide (make_pair_key symbol1 symbol2 = key)) as [->|Hne].
      * rewrite lookup_insert_eq. eauto.
      * rewrite lookup_insert_ne by exact Hne. exact Hkey.
Qed.

Lemma for_each_pair_acct current_symbol pairs : forall w,
  Forall (fun p => is_Some (correlation_rules_ (rt w) !! make_pair_key (fst p) (snd p)))
         pairs ->
  ok (for_each_pair current_symbol pairs) w
     (fun _ w' =>
        exists evs, Acct w w' evs /\
          zscore_rules_ (rt w') = zscore_rules_ (rt w) /\
          volume_rules_ (rt w') = volume_rules_ (rt w) /\
          mean_reversion_rules_ (rt w') = mean_reversion_rules_ (rt w) /\
          Forall (fun e => SignalEvent.event_type e = SignalEvent.CORRELATION_BREAK)
                 evs).
Proof.
  induction pairs as [|[symbol1 symbol2] pairs IH]; intros w Hall.
  - apply ok_ret. exists []. split; [apply Acct_refl|]. split_and!; auto.
  - inversion Hall as [|? ? Hrule Hrest]; subst. cbn [fst snd] in *.
    cbn [for_each_pair]. apply ok_bind.
    eapply ok_conseq; [apply process_pair_acct; exact Hrule|].
    intros [] w1 (evs1 & Ha1 & Hz1 & Hv1 & Hm1 & Hty1 & Hdom1).
    eapply ok_conseq; [apply IH|].
    + eapply Forall_impl; [exact Hrest|]. intros p Hp. apply Hdom1, Hp.
    + intros [] w2 (evs2 & Ha2 & Hz2 & Hv2 & Hm2 & Hty2).
      exists (evs1 ++ evs2). split; [exact (Acct_trans _ _ _ _ _ Ha1 Ha2)|].
      split_and!; try congruence. apply Forall_app. split; assumption.
Qed.

Lemma process_tick_acct tick w :
  WF (rt w) ->
  ok (process_tick tick) w
     (fun _ w' => exists evs_s evs_c, TickEffect tick w w' evs_s evs_c).
Proof.
  intros Hwf. unfold process_tick.
  apply ok_bind, ok_now. apply ok_bind, ok_modify.
  match goal with |- ok _ ?x _ => set (w1 := x) end.
  apply ok_bind. eapply ok_conseq; [apply ensure_rules_exist_acct|].
  intros [] w2 (Ha2 & Hz2 & Hv2 & Hm2 & Hc2).
  apply ok_bind.
  eapply ok_conseq;
    [apply (process_single_symbol_signals_acct tick w2
              (zscore_rule_of (rt w1) (Tick.symbol tick))
              (volume_rule_of (rt w1) (Tick.symbol tick))
              (mean_reversion_rule_of (rt w1) (Tick.symbol tick)));
     rewrite ?Hz2, ?Hv2, ?Hm2; apply lookup_insert_eq|].
  intros [] w3 (evs_s & Ha3 & Hz3 & Hv3 & Hm3 & Hc3 & Hsh3).
  pose proof (Acct_trans _ _ _ _ _ Ha2 Ha3) as Ha13. cbn [app] in Ha13.
  apply ok_bind. unfold process_cross_symbol_signals.
  apply ok_bind, ok_get.
  eapply ok_conseq; [apply for_each_pair_acct|].
  { rewrite (ac_pairs _ _ _ Ha13). subst w1. cbn [rt watched_pairs_ with_latest_ticks].
    unfold WF in Hwf. eapply Forall_impl; [exact Hwf|].
    intros p Hp. rewrite Hc3, Hc2. exact Hp. }
  intros [] w4 (evs_c & Ha4 & Hz4 & Hv4 & Hm4 & Hty4).
  pose proof (Acct_trans _ _ _ _ _ Ha13 Ha4) as Ha14.
  destruct Ha14 as [Hcb Hh Ht Hl Hp Hzt Hct Hvt Hr Ho Hn Hpos Hs He].
  subst w1. cbn [rt clk out] in *.
  apply ok_bind.
  destruct (LatencyHistogram.add_sample (clk w4) (latency_hist_ (rt w4))
              (Tick.timestamp tick) (Clock.readings (clk w) (Clock.pos (clk w))))
    as [h c] eqn:Hadd.
  eexists tt, _. split; [rewrite Hadd; reflexivity|].
  apply ok_modify. cbn [rt clk out].
  exists evs_s, evs_c. constructor; cbn.
  - exact Ho.
  - rewrite Hsh3, (ac_cb _ _ _ Ha2). unfold single_symbol_signals. reflexivity.
  - exact Hty4.
  - exact Hn.
  - exact He.
  - exact Hs.
  - exact Hl.
  - rewrite Ht. reflexivity.
  - assert (Hclk : clk w4 = {| Clock.readings := Clock.readings (clk w);
                               Clock.pos := S (Clock.pos (clk w))
                                            + 2 * length (evs_s ++ evs_c) |}).
    { destruct (clk w4) as [rd ps]. cbn in Hr, Hpos. subst. reflexivity. }
    replace h with (fst (LatencyHistogram.add_sample (clk w4) (latency_hist_ (rt w4))
                           (Tick.timestamp tick)
                           (Clock.readings (clk w) (Clock.pos (clk w)))))
      by (rewrite Hadd; reflexivity).
    rewrite Hclk, Hh. reflexivity.
  - pose proof (add_sample_clock (clk w4) (latency_hist_ (rt w4))
                  (Tick.timestamp tick)
                  (Clock.readings (clk w) (Clock.pos (clk w)))) as [Hsr _].
    rewrite Hadd in Hsr. cbn in Hsr. rewrite Hsr, Hr. reflexivity.
  - exact Hcb.
  - exact Hp.
  - exact Hzt.
  - exact Hct.
  - exact Hvt.
  - rewrite Hz4, Hz3, Hz2. cbn. apply insert_insert_eq.
  - rewrite Hv4, Hv3, Hv2. cbn. apply insert_insert_eq.
  - rewrite Hm4, Hm3, Hm2. cbn. apply insert_insert_eq.
Qed.

Lemma process_tick_full tick w :
  WF (rt w) ->
  exists w' evs_s evs_c,
    process_tick tick w = Some (tt, w') /\ WF (rt w') /\
    TickEffect tick w w' evs_s evs_c.
Proof.
  intros Hwf.
  destruct (ok_and _ _ _ _ (process_tick_ok tick w Hwf) (process_tick_acct tick w Hwf))
    as ([] & w' & Hrun & (Hwf' & _) & evs_s & evs_c & Heff).
  exists w', evs_s, evs_c. auto.
Qed.

(** *** A tick that hands events to the callback *)

Lemma process_ticks_app (a b : list Tick.t) (w : World) :
  process_ticks (a ++ b) w =
  match process_ticks a w with
  | Some (_, w1) => process_ticks b w1
  | None => None
  end.
Proof.
  revert w. induction a as [|tick a IH]; intros w; [reflexivity|].
  cbn [app process_ticks]. unfold bind.
  destruct (process_tick tick w) as [[[] w1]|]; [apply IH | reflexivity].
Qed.

Lemma process_pair_fed current_symbol symbol1 symbol2 tick1 tick2 rule w :
  symbol1 = current_symbol \/ symbol2 = current_symbol ->
  latest_ticks_ (rt w) !! symbol1 = Some tick1 ->
  latest_ticks_ (rt w) !! symbol2 = Some tick2 ->
  correlation_rules_ (rt w) !! make_pair_key symbol1 symbol2 = Some rule ->
  ok (process_pair current_symbol (symbol1, symbol2)) w
     (fun _ w' =>
        exists evs, Acct w w' evs /\
          map shape evs =
            pair_signal (signal_callback_ (rt w)) symbol1 symbol2
              (CorrelationBreakRule.evaluate
                 (CorrelationBreakRule.add_pair rule (Tick.last_price tick1)
                    (Tick.last_price tick2)))).
Proof.
  intros Hcur H1 H2 Hrule. unfold process_pair.
  assert (Hguard : negb (String.eqb symbol1 current_symbol)
                   && negb (String.eqb symbol2 current_symbol) = false).
  { destruct Hcur as [->| ->]; rewrite String.eqb_refl; cbn;
      [reflexivity | apply andb_false_r]. }
  rewrite Hguard. apply ok_bind, ok_get. rewrite H1, H2.
  eapply ok_bind, ok_deref; [exact Hrule|]. apply ok_bind, ok_modify.
  match goal with |- ok _ ?x _ => set (w0 := x) end.
  assert (Ha0 : Acct w w0 []) by (apply Acct_rules; reflexivity).
  destruct (CorrelationBreakRule.evaluate _) as [fires strength] eqn:Hev.
  unfold pair_signal. cbn [fst snd].
  apply ok_when; intros ->.
  - eapply ok_conseq; [apply emit_signal_acct|].
    intros [] w1 (evs & Ha1 & _ & Hsh). exists evs.
    split; [exact (Acct_trans _ _ _ _ _ Ha0 Ha1)|].
    rewrite Hsh. subst w0. cbn [rt signal_callback_ with_correlation_rules].
    destruct (signal_callback_ (rt w)); reflexivity.
  - exists []. split; [exact Ha0|]. rewrite andb_false_r. reflexivity.
Qed.

(** [process_tick] on a router that watches one pair whose two symbols
    have a latest tick once this one is stored. *)
Lemma process_tick_one_pair tick symbol1 symbol2 tick1 tick2 rule w :
  watched_pairs_ (rt w) = [(symbol1, symbol2)] ->
  symbol1 = Tick.symbol tick \/ symbol2 = Tick.symbol tick ->
  <[Tick.symbol tick := tick]> (latest_ticks_ (rt w)) !! symbol1 = Some tick1 ->
  <[Tick.symbol tick := tick]> (latest_ticks_ (rt w)) !! symbol2 = Some tick2 ->
  correlation_rules_ (rt w) !! make_pair_key symbol1 symbol2 = Some rule ->
  ok (process_tick tick) w
     (fun _ w' =>
        exists evs_s evs_c,
          out w' = out w ++ evs_s ++ evs_c /\
          map shape evs_s = single_symbol_signals (rt w) tick /\
          map shape evs_c =
            pair_signal (signal_callback_ (rt w)) symbol1 symbol2
              (CorrelationBreakRule.evaluate
                 (CorrelationBreakRule.add_pair rule (Tick.last_price tick1)
                    (Tick.last_price tick2)))).
Proof.
  intros Hpairs Hcur H1 H2 Hrule. unfold process_tick.
  apply ok_bind, ok_now. apply ok_bind, ok_modify.
  match goal with |- ok _ ?x _ => set (w1 := x) end.
  apply ok_bind. eapply ok_conseq; [apply ensure_rules_exist_acct|].
  intros [] w2 (Ha2 & Hz2 & Hv2 & Hm2 & Hc2).
  apply ok_bind.
  eapply ok_conseq;
    [apply (process_single_symbol_signals_acct tick w2
              (zscore_rule_of (rt w1) (Tick.symbol tick))
              (volume_rule_of (rt w1) (Tick.symbol tick))
              (mean_reversion_rule_of (rt w1) (Tick.symbol tick)));
     rewrite ?Hz2, ?Hv2, ?Hm2; apply lookup_insert_eq|].
  intros [] w3 (evs_s & Ha3 & Hz3 & Hv3 & Hm3 & Hc3 & Hsh3).
  pose proof (Acct_trans _ _ _ _ _ Ha2 Ha3) as Ha13. cbn [app] in Ha13.
  apply ok_bind. unfold process_cross_symbol_signals.
  apply ok_bind, ok_get. rewrite (ac_pairs _ _ _ Ha13).
  subst w1. cbn [rt clk out watched_pairs_ with_latest_ticks] in *.
  rewrite Hpairs. cbn [for_each_pair]. apply ok_bind.
  eapply ok_conseq; [apply (process_pair_fed _ symbol1 symbol2 tick1 tick2 rule)|].
  { exact Hcur. }
  { rewrite (ac_latest _ _ _ Ha13). exact H1. }
  { rewrite (ac_latest _ _ _ Ha13). exact H2. }
  { rewrite Hc3, Hc2. exact Hrule. }
  intros [] w4 (evs_c & Ha4 & Hsh4). apply ok_ret.
  pose proof (Acct_trans _ _ _ _ _ Ha13 Ha4) as Ha14.
  apply ok_bind.
  destruct (LatencyHistogram.add_sample (clk w4) (latency_hist_ (rt w4))
              (Tick.timestamp tick) (Clock.readings (clk w) (Clock.pos (clk w))))
    as [h c] eqn:Hadd.
  eexists tt, _. split; [rewrite Hadd; reflexivity|].
  apply ok_modify. cbn [rt clk out].
  exists evs_s, evs_c. split_and!.
  - exact (ac_out _ _ _ Ha14).
  - rewrite Hsh3, (ac_cb _ _ _ Ha2). reflexivity.
  - rewrite Hsh4, (ac_cb _ _ _ Ha13). reflexivity.
Qed.

Lemma zscore_observations_snoc (r : ZScoreRule.t) (k : nat) (c : R) :
  ZScoreRule.add_observation (ZScoreRule.add_observations r (replicate k c)) c =
  ZScoreRule.add_observations r (replicate (S k) c).
Proof.
  rewrite replicate_S_end. unfold ZScoreRule.add_observations.
  rewrite fold_left_app. reflexivity.
Qed.

Lemma volume_observations_snoc (r : VolumeRule.t) (k : nat) (c : R) :
  VolumeRule.add_volume (VolumeRule.add_volumes r (replicate k c)) c =
  VolumeRule.add_volumes r (replicate (S k) c).
Proof.
  rewrite replicate_S_end. unfold VolumeRule.add_volumes.
  rewrite fold_left_app. reflexivity.
Qed.

Lemma warm_first_tick :
  ok (process_tick (ce_tick "MSFT" 1)) ce_world (fun _ w' => Warm 0 w').
Proof.
  eapply ok_conseq;
    [apply (ok_and _ _ _ _ ce_first_tick
              (ok_and _ _ _ _
                 (process_tick_ok (ce_tick "MSFT" 1) ce_world ce_router_WF)
                 (process_tick_acct (ce_tick "MSFT" 1) ce_world ce_router_WF)))|].
  intros [] w' (Hscen & (Hwf & _) & evs_s & evs_c & Heff).
  destruct Heff. constructor; try assumption.
  - unfold zscore_rule_of. rewrite te_zscore_rules0, te_zscore_threshold0.
    cbn [Tick.symbol ce_tick]. rewrite lookup_insert_ne by discriminate.
    reflexivity.
  - unfold volume_rule_of. rewrite te_volume_rules0, te_volume_threshold0.
    cbn [Tick.symbol ce_tick]. rewrite lookup_insert_ne by discriminate.
    reflexivity.
Qed.

Lemma warm_aapl_tick (k n : nat) (w : World) :
  Warm k w -> (k < 50)%nat ->
  ok (process_tick (ce_tick "AAPL" n)) w (fun _ w' => Warm (S k) w').
Proof.
  intros [Hscen Hwf Hz Hv] Hk.
  eapply ok_conseq;
    [apply (ok_and _ _ _ _ (ce_aapl_tick (Z.of_nat k) n w Hscen ltac:(lia))
              (ok_and _ _ _ _ (process_tick_ok _ _ Hwf)
                 (process_tick_acct _ _ Hwf)))|].
  intros [] w' ((Hscen' & _) & (Hwf' & _) & evs_s & evs_c & Heff).
  destruct Heff. constructor; try assumption.
  - replace (Z.of_nat (S k)) with (Z.of_nat k + 1) by lia. exact Hscen'.
  - unfold zscore_rule_of at 1. rewrite te_zscore_rules0.
    cbn [Tick.symbol Tick.last_price ce_tick]. rewrite lookup_insert_eq.
    cbn [default]. rewrite Hz. apply zscore_observations_snoc.
  - unfold volume_rule_of at 1. rewrite te_volume_rules0.
    cbn [Tick.symbol Tick.last_size ce_tick]. rewrite lookup_insert_eq.
    cbn [default]. rewrite Hv. apply volume_observations_snoc.
Qed.

Lemma warm_aapl_ticks (ns : list nat) : forall k w,
  Warm k w -> (k + length ns <= 50)%nat ->
  ok (process_ticks (map (ce_tick "AAPL") ns)) w
     (fun _ w' => Warm (k + length ns) w').
Proof.
  induction ns as [|n ns IH]; intros k w Hw Hk.
  - apply ok_ret. cbn [length]. rewrite Nat.add_0_r. exact Hw.
  - cbn [map process_ticks length] in *. apply ok_bind.
    eapply ok_conseq; [apply (warm_aapl_tick k n w Hw); lia|].
    intros [] w1 Hw1.
    replace (k + S (length ns))%nat with (S k + length ns)%nat by lia.
    apply IH; [exact Hw1 | lia].
Qed.

Lemma ce_warm_state :
  process_ticks ce_warm_ticks ce_world = Some (tt, ce_warm) /\ Warm 49 ce_warm.
Proof.
  assert (H : ok (process_ticks ce_warm_ticks) ce_world (fun _ w' => Warm 49 w')).
  { unfold ce_warm_ticks. cbn [process_ticks]. apply ok_bind.
    eapply ok_conseq; [apply warm_first_tick|].
    intros [] w1 Hw1.
    eapply ok_conseq; [apply (warm_aapl_ticks (seq 1 49) 0 w1 Hw1)|].
    - rewrite length_seq. lia.
    - intros [] w2 Hw2. rewrite length_seq in Hw2. exact Hw2. }
  destruct H as ([] & w' & Hrun & Hw').
  unfold ce_warm, run_ticks. rewrite Hrun. split; [reflexivity | exact Hw'].
Qed.

(** From the warm world any AAPL tick completes the 50 pair observations
    and the pair rule fires with strength 0, the MSFT leg being flat. *)
Lemma warm_last_tick (tick : Tick.t) (w : World) :
  Warm 49 w -> Tick.symbol tick = "AAPL" ->
  exists w' evs_s e,
    process_tick tick w = Some (tt, w') /\
    out w' = out w ++ evs_s ++ [e] /\
    map shape evs_s = single_symbol_signals (rt w) tick /\
    shape e = (SignalEvent.CORRELATION_BREAK, "MSFT", "AAPL", 0%R, (88 / 100)%R).
Proof.
  intros [[Hp Hcb Hclk (tm & Hmsft & Hprice)
             (rule & Hrule & Hmin & Hthr & Hcnt & Hm2 & Hmean)] Hwf Hz Hv] Hsym.
  destruct (process_tick_one_pair tick "MSFT" "AAPL" tm tick rule w Hp)
    as ([] & w' & Hrun & evs_s & evs_c & Hout & Hsh_s & Hsh_c).
  - right. symmetry. exact Hsym.
  - rewrite Hsym, lookup_insert_ne by discriminate. exact Hmsft.
  - rewrite Hsym. apply lookup_insert_eq.
  - rewrite ce_key. exact Hrule.
  - rewrite Hprice, Hcb in Hsh_c.
    destruct (covar_constant_x (CorrelationBreakRule.covar_ rule) 100
                (Tick.last_price tick))
      as (Hc' & Hm' & _); try assumption; try (rewrite Hcnt; unfold U64; lia).
    { destruct Hmean as [Hx|[Hk0 _]]; [left; exact Hx | lia]. }
    rewrite (constant_x_fires
               (CorrelationBreakRule.add_pair rule 100 (Tick.last_price tick)))
      in Hsh_c; try assumption.
    + unfold pair_signal in Hsh_c. cbn [andb fst snd] in Hsh_c.
      destruct evs_c as [|e [|e' evs_c]]; try discriminate Hsh_c.
      cbn [map] in Hsh_c.
      exists w', evs_s, e. split_and!; try assumption. congruence.
    + cbn [CorrelationBreakRule.add_pair CorrelationBreakRule.covar_].
      rewrite Hc', Hcnt. reflexivity.
Qed.

(** The last tick of the run moves price and size: both z-score rules of
    AAPL fire before the pair rule does. *)
Lemma warm_spike_signals (w : World) :
  Warm 49 w ->
  exists z v rest,
    single_symbol_signals (rt w) ce_spike =
    (SignalEvent.Z_SCORE_BREAK, "AAPL", "", z, (95 / 100)%R)
    :: (SignalEvent.VOLUME_SPIKE, "AAPL", "", v, (90 / 100)%R) :: rest.
Proof.
  intros [[_ Hcb _ _ _] _ Hz Hv].
  unfold single_symbol_signals. rewrite Hcb.
  cbn [Tick.symbol Tick.last_price Tick.last_size ce_spike]. rewrite Hz, Hv.
  unfold signal_of.
  rewrite (zscore_spike_fires (25 / 10) 100 200 49);
    [|lia | unfold U64; lia | lra | lra |
      change (IZR (Z.of_nat 49 + 1)) with 50%R;
      change (IZR (Z.of_nat 49)) with 49%R; lra].
  rewrite (volume_spike_fires 3 10 1000 49);
    [|lia | unfold U64; lia | lra | lra |
      change (IZR (Z.of_nat 49 + 1)) with 50%R;
      change (IZR (Z.of_nat 49)) with 49%R; lra].
  cbn [app]. eexists _, _, _. reflexivity.
Qed.

Lemma ce_spike_run :
  exists w',
    process_ticks (ce_warm_ticks ++ [ce_spike]) ce_world = Some (tt, w') /\
    (3 <= length (out w'))%nat.
Proof.
  destruct ce_warm_state as [Hrun Hwarm].
  destruct (warm_last_tick ce_spike ce_warm Hwarm eq_refl)
    as (w' & evs_s & e & Hrun' & Hout & Hsh & _).
  destruct (warm_spike_signals ce_warm Hwarm) as (z & v & rest & Hsig).
  exists w'. rewrite process_ticks_app, Hrun. cbn [process_ticks]. unfold bind.
  rewrite Hrun'. split; [reflexivity|].
  rewrite Hout, !length_app. rewrite Hsig in Hsh.
  apply (f_equal (@length _)) in Hsh. rewrite length_map in Hsh.
  cbn [length] in *. lia.
Qed.

(** The theorems above at the tick that completes the run: the 51st tick
    is processed in the world the first 50 leave behind and hands a
    CorrelationBreak to the callback. *)
Lemma correlation_break_symbols_as_registered_witness :
  WF (rt ce_warm) /\
  exists w' evs,
    process_tick (ce_tick "AAPL" 50) ce_warm = Some (tt, w') /\
    out w' = out ce_warm ++ evs /\
    (forall e, e ∈ evs ->
       SignalEvent.event_type e = SignalEvent.CORRELATION_BREAK ->
       (SignalEvent.primary_symbol e, SignalEvent.secondary_symbol e)
         ∈ watched_pairs_ (rt ce_warm)) /\
    exists e, e ∈ evs /\
      SignalEvent.event_type e = SignalEvent.CORRELATION_BREAK /\
      SignalEvent.primary_symbol e = "MSFT" /\
      SignalEvent.secondary_symbol e = "AAPL".
Proof.
  destruct ce_warm_state as [_ Hwarm].
  pose proof (wm_wf _ _ Hwarm) as Hwf. split; [exact Hwf|].
  destruct (correlation_break_symbols_as_registered (ce_tick "AAPL" 50) ce_warm Hwf)
    as (w' & evs & Hrun & Hout & Hall).
  exists w', evs. split; [exact Hrun|]. split; [exact Hout|]. split; [exact Hall|].
  destruct (warm_last_tick (ce_tick "AAPL" 50) ce_warm Hwarm eq_refl)
    as (w2 & evs_s & e & Hrun2 & Hout2 & _ & Hsh).
  rewrite Hrun in Hrun2. injection Hrun2 as <-.
  rewrite Hout in Hout2. apply app_inv_head in Hout2. subst evs.
  exists e. unfold shape in Hsh. split_and!; try congruence.
  apply elem_of_app. right. apply list_elem_of_singleton. reflexivity.
Defined.

Lemma event_time_is_clock_reading_witness :
  WF (rt ce_warm) /\
  exists w' evs,
    process_tick (ce_tick "AAPL" 50) ce_warm = Some (tt, w') /\
    out w' = out ce_warm ++ evs /\
    (forall e, e ∈ evs ->
       exists k, (Clock.pos (clk ce_warm) < k)%nat /\
         (S k < Clock.pos (clk w'))%nat /\
         SignalEvent.event_time e = Clock.readings (clk ce_warm) k /\
         SignalEvent.generation_time e = Clock.readings (clk ce_warm) (S k)) /\
    exists e, e ∈ evs /\
      SignalEvent.event_time e <> Tick.timestamp (ce_tick "AAPL" 50).
Proof.
  destruct ce_warm_state as [_ Hwarm].
  pose proof (wm_wf _ _ Hwarm) as Hwf. split; [exact Hwf|].
  destruct (event_time_is_clock_reading (ce_tick "AAPL" 50) ce_warm Hwf)
    as (w' & evs & Hrun & Hout & Hall).
  exists w', evs. split; [exact Hrun|]. split; [exact Hout|]. split; [exact Hall|].
  destruct (warm_last_tick (ce_tick "AAPL" 50) ce_warm Hwarm eq_refl)
    as (w2 & evs_s & e & Hrun2 & Hout2 & _ & _).
  rewrite Hrun in Hrun2. injection Hrun2 as <-.
  rewrite Hout in Hout2. apply app_inv_head in Hout2. subst evs.
  assert (He : e ∈ evs_s ++ [e]).
  { apply elem_of_app. right. apply list_elem_of_singleton. reflexivity. }
  exists e. split; [exact He|].
  destruct (Hall e He) as (k & _ & _ & Het & _).
  rewrite Het, (sc_clock _ _ (wm_scen _ _ Hwarm)). cbn. lia.
Defined.

(** X18. What a tick leaves behind besides the rules: on a router whose
    watched pairs all have their rule, [process_tick] is defined, stores
    the tick as the latest of its symbol, counts it, and records one
    latency sample: the whole microseconds from the tick's timestamp to
    the clock reading taken on entry (cast to [uint64_t]), so the time
    spent processing is not part of it.  Pairs, callback and thresholds
    are untouched. *)
Theorem process_tick_bookkeeping (tick : Tick.t) (w : World) :
  WF (rt w) ->
  exists w',
    process_tick tick w = Some (tt, w') /\
    WF (rt w') /\
    latest_ticks_ (rt w') = <[Tick.symbol tick := tick]> (latest_ticks_ (rt w)) /\
    ticks_processed (rt w') = wrap (ticks_processed (rt w) + 1) /\
    (exists c,
       latency_histogram (rt w') =
       fst (LatencyHistogram.add_sample_us c (latency_histogram (rt w))
              (wrap (Z.quot (Clock.readings (clk w) (Clock.pos (clk w))
                             - Tick.timestamp tick) 1000)))) /\
    watched_pairs_ (rt w') = watched_pairs_ (rt w) /\
    signal_callback_ (rt w') = signal_callback_ (rt w) /\
    zscore_threshold_ (rt w') = zscore_threshold_ (rt w) /\
    correlation_threshold_ (rt w') = correlation_threshold_ (rt w) /\
    volume_threshold_ (rt w') = volume_threshold_ (rt w).
Proof.
  intros Hwf.
  destruct (process_tick_full tick w Hwf) as (w' & evs_s & evs_c & Hrun & Hwf' & Heff).
  exists w'. destruct Heff. split_and!; try assumption.
  eexists. unfold latency_histogram. rewrite te_hist0. reflexivity.
Qed.

(** X19. The single-symbol part of a tick: [process_tick] feeds the
    z-score, volume and mean-reversion rule of the tick's symbol exactly
    once (creating each with the current threshold if the symbol is new,
    and leaving the threshold of an existing rule as it is), and hands to
    the callback, in this order, a Z_SCORE_BREAK (confidence 0.95), a
    VOLUME_SPIKE (0.90) and a PAIR_TRADE_ENTRY (0.85) for those of the
    three rules that fire, each with the rule's strength and an empty
    secondary symbol; everything after them is a CORRELATION_BREAK. *)
Theorem single_symbol_signals_in_order (tick : Tick.t) (w : World) :
  WF (rt w) ->
  exists w' evs_s evs_c,
    process_tick tick w = Some (tt, w') /\
    out w' = out w ++ evs_s ++ evs_c /\
    map shape evs_s = single_symbol_signals (rt w) tick /\
    Forall (fun e => SignalEvent.event_type e = SignalEvent.CORRELATION_BREAK) evs_c /\
    zscore_rules_ (rt w') =
      <[Tick.symbol tick :=
          ZScoreRule.add_observation (zscore_rule_of (rt w) (Tick.symbol tick))
            (Tick.last_price tick)]> (zscore_rules_ (rt w)) /\
    volume_rules_ (rt w') =
      <[Tick.symbol tick :=
          VolumeRule.add_volume (volume_rule_of (rt w) (Tick.symbol tick))
            (Tick.last_size tick)]> (volume_rules_ (rt w)) /\
    mean_reversion_rules_ (rt w') =
      <[Tick.symbol tick :=
          MeanReversionRule.add_observation
            (mean_reversion_rule_of (rt w) (Tick.symbol tick))
            (Tick.last_price tick)]> (mean_reversion_rules_ (rt w)).
Proof.
  intros Hwf.
  destruct (process_tick_full tick w Hwf) as (w' & evs_s & evs_c & Hrun & Hwf' & Heff).
  exists w', evs_s, evs_c. destruct Heff. split_and!; assumption.
Qed.

Lemma process_tick_bookkeeping_witness :
  let w := {| rt := add_watched_pair (set_signal_callback init) "MSFT" "AAPL";
              clk := ce_clock; out := [] |} in
  let tick := ce_tick "AAPL" 1 in
  exists w',
    process_tick tick w = Some (tt, w') /\
    WF (rt w') /\
    latest_ticks_ (rt w') = <[Tick.symbol tick := tick]> (latest_ticks_ (rt w)) /\
    ticks_processed (rt w') = wrap (ticks_processed (rt w) + 1) /\
    (exists c,
       latency_histogram (rt w') =
       fst (LatencyHistogram.add_sample_us c (latency_histogram (rt w))
              (wrap (Z.quot (Clock.readings (clk w) (Clock.pos (clk w))
                             - Tick.timestamp tick) 1000)))) /\
    watched_pairs_ (rt w') = watched_pairs_ (rt w) /\
    signal_callback_ (rt w') = signal_callback_ (rt w) /\
    zscore_threshold_ (rt w') = zscore_threshold_ (rt w) /\
    correlation_threshold_ (rt w') = correlation_threshold_ (rt w) /\
    volume_threshold_ (rt w') = volume_threshold_ (rt w).
Proof.
  intros w tick. apply (process_tick_bookkeeping tick w).
  apply WF_add_watched_pair, WF_init.
Defined.

Lemma single_symbol_signals_in_order_witness :
  WF (rt ce_warm) /\
  exists w' evs_s evs_c,
    process_tick ce_spike ce_warm = Some (tt, w') /\
    out w' = out ce_warm ++ evs_s ++ evs_c /\
    map shape evs_s = single_symbol_signals (rt ce_warm) ce_spike /\
    Forall (fun e => SignalEvent.event_type e = SignalEvent.CORRELATION_BREAK) evs_c /\
    zscore_rules_ (rt w') =
      <[Tick.symbol ce_spike :=
          ZScoreRule.add_observation (zscore_rule_of (rt ce_warm) (Tick.symbol ce_spike))
            (Tick.last_price ce_spike)]> (zscore_rules_ (rt ce_warm)) /\
    volume_rules_ (rt w') =
      <[Tick.symbol ce_spike :=
          VolumeRule.add_volume (volume_rule_of (rt ce_warm) (Tick.symbol ce_spike))
            (Tick.last_size ce_spike)]> (volume_rules_ (rt ce_warm)) /\
    mean_reversion_rules_ (rt w') =
      <[Tick.symbol ce_spike :=
          MeanReversionRule.add_observation
            (mean_reversion_rule_of (rt ce_warm) (Tick.symbol ce_spike))
            (Tick.last_price ce_spike)]> (mean_reversion_rules_ (rt ce_warm)) /\
    exists e1 e2 rest e3,
      evs_s = e1 :: e2 :: rest /\ evs_c = [e3] /\
      SignalEvent.event_type e1 = SignalEvent.Z_SCORE_BREAK /\
      SignalEvent.event_type e2 = SignalEvent.VOLUME_SPIKE /\
      SignalEvent.event_type e3 = SignalEvent.CORRELATION_BREAK.
Proof.
  destruct ce_warm_state as [_ Hwarm].
  pose proof (wm_wf _ _ Hwarm) as Hwf. split; [exact Hwf|].
  destruct (single_symbol_signals_in_order ce_spike ce_warm Hwf)
    as (w' & evs_s & evs_c & Hrun & Hout & Hsh & Hcross & Hz & Hv & Hm).
  exists w', evs_s, evs_c. split_and!; try assumption.
  destruct (warm_last_tick ce_spike ce_warm Hwarm eq_refl)
    as (w2 & evs_s2 & e & Hrun2 & Hout2 & Hsh2 & Hshe).
  destruct (warm_spike_signals ce_warm Hwarm) as (z & v & rest & Hsig).
  rewrite Hrun in Hrun2. injection Hrun2 as <-.
  rewrite Hout in Hout2. apply app_inv_head in Hout2.
  apply app_inj_1 in Hout2 as [_ ->].
  - rewrite Hsig in Hsh.
    destruct evs_s as [|e1 [|e2 rest']]; try discriminate Hsh.
    cbn [map] in Hsh. unfold shape in Hsh, Hshe.
    exists e1, e2, rest', e. split_and!; try reflexivity; congruence.
  - rewrite <- (length_map shape evs_s), <- (length_map shape evs_s2).
    rewrite Hsh, Hsh2. reflexivity.
Defined.

Lemma process_ticks_acct ticks : forall w,
  WF (rt w) ->
  ok (process_ticks ticks) w
     (fun _ w' =>
        WF (rt w') /\
        signal_callback_ (rt w') = signal_callback_ (rt w) /\
        Clock.readings (clk w') = Clock.readings (clk w) /\
        ticks_processed_ (rt w') =
          Nat.iter (length ticks) next_id (ticks_processed_ (rt w)) /\
        exists evs,
          out w' = out w ++ evs /\
          signal_counter_ (rt w') =
            Nat.iter (length evs) next_id (signal_counter_ (rt w)) /\
          (signal_callback_ (rt w) = false -> evs = []) /\
          forall i e, evs !! i = Some e ->
            SignalEvent.signal_id e = Nat.iter i next_id (signal_counter_ (rt w)) /\
            exists k, SignalEvent.event_time e = Clock.readings (clk w) k /\
                      SignalEvent.generation_time e = Clock.readings (clk w) (S k)).
Proof.
  induction ticks as [|tick ticks IH]; intros w Hwf.
  - apply ok_ret. split_and!; try reflexivity; try assumption.
    exists []. rewrite app_nil_r. split_and!; try reflexivity.
    intros i e Hi. discriminate.
  - cbn [process_ticks]. apply ok_bind.
    destruct (process_tick_full tick w Hwf)
      as (w1 & evs_s & evs_c & Hrun & Hwf1 & Heff).
    exists tt, w1. split; [exact Hrun|].
    eapply ok_conseq; [apply IH, Hwf1|].
    intros [] w2 (Hwf2 & Hcb2 & Hr2 & Ht2 & evs2 & Ho2 & Hn2 & Hs2 & He2).
    destruct Heff as [Ho1 _ _ Hn1 He1 Hs1 _ Ht1 _ Hr1 Hcb1 _ _ _ _ _ _ _].
    split_and!; try congruence.
    + rewrite Ht2, Ht1. cbn [length]. rewrite Nat.iter_succ_r. reflexivity.
    + exists ((evs_s ++ evs_c) ++ evs2). split_and!.
      * rewrite Ho2, Ho1, !app_assoc. reflexivity.
      * rewrite Hn2, Hn1, (length_app (evs_s ++ evs_c)). symmetry.
        apply iter_next_id_add.
      * intros Hcb. rewrite Hs1 by exact Hcb. rewrite Hs2 by congruence. reflexivity.
      * intros i e Hi.
        destruct (decide (i < length (evs_s ++ evs_c))%nat) as [Hlt|Hge].
        -- rewrite lookup_app_l in Hi by exact Hlt.
           destruct (He1 _ _ Hi) as (Hid & Het & Hgt).
           split; [exact Hid|]. eexists. split; eassumption.
        -- rewrite lookup_app_r in Hi by lia.
           destruct (He2 _ _ Hi) as (Hid & k & Het & Hgt).
           split.
           ++ rewrite Hid, Hn1, <- iter_next_id_add. f_equal. lia.
           ++ exists k. rewrite Het, Hgt, Hr1. auto.
Qed.

(** X20. Counting over a batch of ticks: [process_ticks] is defined on a
    router whose watched pairs all have their rule; [ticks_processed()]
    grows by the number of ticks and [signals_generated()] by the number
    of events handed to the callback (both modulo 2^64); the events carry
    consecutive signal ids starting at the old [signals_generated()];
    without a callback nothing is delivered and nothing is counted; and
    under a clock that never runs backwards every event has a
    non-negative [latency()]. *)
Theorem signal_ids_consecutive (ticks : list Tick.t) (w : World) :
  WF (rt w) ->
  0 <= signals_generated (rt w) < U64 ->
  0 <= ticks_processed (rt w) < U64 ->
  exists w' evs,
    process_ticks ticks w = Some (tt, w') /\
    out w' = out w ++ evs /\
    ticks_processed (rt w') = wrap (ticks_processed (rt w) + Z.of_nat (length ticks)) /\
    signals_generated (rt w') =
      wrap (signals_generated (rt w) + Z.of_nat (length evs)) /\
    (forall i e, evs !! i = Some e ->
       SignalEvent.signal_id e = wrap (signals_generated (rt w) + Z.of_nat i)) /\
    (signal_callback_ (rt w) = false -> evs = []) /\
    ((forall k, Clock.readings (clk w) k <= Clock.readings (clk w) (S k)) ->
     Forall (fun e => 0 <= SignalEvent.latency e) evs).
Proof.
  intros Hwf Hsig Htp.
  destruct (process_ticks_acct ticks w Hwf)
    as ([] & w' & Hrun & _ & _ & _ & Ht & evs & Ho & Hn & Hs & He).
  exists w', evs. unfold ticks_processed, signals_generated in *.
  split_and!; try assumption.
  - rewrite Ht. apply iter_next_id_wrap. exact Htp.
  - rewrite Hn. apply iter_next_id_wrap. exact Hsig.
  - intros i e Hi. destruct (He _ _ Hi) as (Hid & _).
    rewrite Hid. apply iter_next_id_wrap. exact Hsig.
  - intros Hmono. apply Forall_lookup. intros i e Hi.
    destruct (He _ _ Hi) as (_ & k & Het & Hgt).
    unfold SignalEvent.latency. rewrite Het, Hgt.
    apply Z.quot_pos; [|lia]. specialize (Hmono k). lia.
Qed.

Lemma signal_ids_consecutive_witness :
  let w := ce_world in
  let ticks := ce_warm_ticks ++ [ce_spike] in
  exists w' evs,
    process_ticks ticks w = Some (tt, w') /\
    out w' = out w ++ evs /\
    ticks_processed (rt w') = wrap (ticks_processed (rt w) + Z.of_nat (length ticks)) /\
    signals_generated (rt w') =
      wrap (signals_generated (rt w) + Z.of_nat (length evs)) /\
    (forall i e, evs !! i = Some e ->
       SignalEvent.signal_id e = wrap (signals_generated (rt w) + Z.of_nat i)) /\
    (signal_callback_ (rt w) = false -> evs = []) /\
    Forall (fun e => 0 <= SignalEvent.latency e) evs /\
    (3 <= length evs)%nat.
Proof.
  intros w ticks.
  destruct (signal_ids_consecutive ticks w)
    as (w' & evs & Hrun & Hout & Ht & Hs & Hid & Hsil & Hlat).
  - apply WF_add_watched_pair, WF_init.
  - cbn. unfold U64. lia.
  - cbn. unfold U64. lia.
  - exists w', evs. split_and!; try assumption.
    + apply Hlat. intros k. cbn. lia.
    + destruct ce_spike_run as (w2 & Hrun2 & Hlen).
      fold ticks in Hrun2. fold w in Hrun2.
      rewrite Hrun in Hrun2. injection Hrun2 as <-.
      rewrite Hout in Hlen. exact Hlen.
Defined.

(** *** Warm-up at the level of the router *)

Lemma zscore_fires_count (rule : ZScoreRule.t) :
  fst (ZScoreRule.evaluate rule) = true ->
  10 <= RollingStats.count (ZScoreRule.stats_ rule).
Proof.
  unfold ZScoreRule.evaluate.
  destruct (negb (ZScoreRule.has_value_ rule)); [discriminate|]. cbn [orb].
  destruct (Z.ltb_spec (RollingStats.count (ZScoreRule.stats_ rule)) 10);
    [discriminate | intros _; assumption].
Qed.

Lemma volume_fires_count (rule : VolumeRule.t) :
  fst (VolumeRule.evaluate rule) = true ->
  20 <= RollingStats.count (VolumeRule.volume_stats_ rule).
Proof.
  unfold VolumeRule.evaluate.
  destruct (negb (VolumeRule.has_volume_ rule)); [discriminate|]. cbn [orb].
  destruct (Z.ltb_spec (RollingStats.count (VolumeRule.volume_stats_ rule)) 20);
    [discriminate | intros _; assumption].
Qed.

Lemma wrap_succ_le (k : Z) : 0 <= k -> 0 <= wrap (k + 1) <= k + 1.
Proof.
  intros Hk. pose proof (wrap_range (k + 1)).
  pose proof (Z.mod_le (k + 1) U64 ltac:(lia) U64_pos). unfold wrap in *. lia.
Qed.

(** One tick against the counts of [symbol]. *)
Lemma process_tick_counts tick w w' evs_s evs_c symbol k :
  TickEffect tick w w' evs_s evs_c ->
  0 <= zscore_count (rt w) symbol <= k ->
  0 <= volume_count (rt w) symbol <= k ->
  let k' := if String.eqb (Tick.symbol tick) symbol then k + 1 else k in
  (0 <= zscore_count (rt w') symbol <= k' /\
   0 <= volume_count (rt w') symbol <= k') /\
  forall e, e ∈ evs_s ++ evs_c -> SignalEvent.primary_symbol e = symbol ->
    (SignalEvent.event_type e = SignalEvent.Z_SCORE_BREAK -> 10 <= k') /\
    (SignalEvent.event_type e = SignalEvent.VOLUME_SPIKE -> 20 <= k').
Proof.
  intros Heff Hz Hv k'.
  destruct Heff as [_ Hsh Hty _ _ _ _ _ _ _ _ _ Hzt _ Hvt Hzr Hvr _].
  unfold zscore_count, volume_count, zscore_rule_of, volume_rule_of in *.
  destruct (String.eqb_spec (Tick.symbol tick) symbol) as [Heq|Hne].
  - subst symbol. subst k'.
    rewrite Hzr, Hvr, !lookup_insert_eq. cbn [default].
    set (zr := default (ZScoreRule.new (zscore_threshold_ (rt w)))
                 (zscore_rules_ (rt w) !! Tick.symbol tick)) in *.
    set (vr := default (VolumeRule.new (volume_threshold_ (rt w)))
                 (volume_rules_ (rt w) !! Tick.symbol tick)) in *.
    assert (Hz' : 0 <= RollingStats.count
                    (ZScoreRule.stats_ (ZScoreRule.add_observation zr
                                          (Tick.last_price tick))) <= k + 1).
    { cbn. pose proof (wrap_succ_le (RollingStats.count_ (ZScoreRule.stats_ zr))).
      unfold RollingStats.count in *. lia. }
    assert (Hv' : 0 <= RollingStats.count
                    (VolumeRule.volume_stats_ (VolumeRule.add_volume vr
                                                 (Tick.last_size tick))) <= k + 1).
    { cbn. pose proof (wrap_succ_le (RollingStats.count_ (VolumeRule.volume_stats_ vr))).
      unfold RollingStats.count in *. lia. }
    split; [split; assumption|].
    intros e He _. apply elem_of_app in He as [He|He].
    + assert (Hin : shape e ∈ single_symbol_signals (rt w) tick).
      { rewrite <- Hsh. apply list_elem_of_fmap. exists e. auto. }
      unfold single_symbol_signals, zscore_rule_of, volume_rule_of, signal_of in Hin.
      destruct (signal_callback_ (rt w)); [|inversion Hin].
      subst zr vr.
      split; intros Hte.
      * destruct (fst (ZScoreRule.evaluate _)) eqn:Hf.
        -- apply zscore_fires_count in Hf. lia.
        -- exfalso. cbn [app] in Hin.
           apply elem_of_app in Hin as [Hin|Hin].
           ++ destruct (fst (VolumeRule.evaluate _)); [|inversion Hin].
              apply list_elem_of_singleton in Hin. unfold shape in Hin.
              inversion Hin. congruence.
           ++ destruct (fst (MeanReversionRule.evaluate _)); [|inversion Hin].
              apply list_elem_of_singleton in Hin. unfold shape in Hin.
              inversion Hin. congruence.
      * destruct (fst (VolumeRule.evaluate _)) eqn:Hf.
        -- apply volume_fires_count in Hf. lia.
        -- exfalso. apply elem_of_app in Hin as [Hin|Hin].
           ++ destruct (fst (ZScoreRule.evaluate _)); [|inversion Hin].
              apply list_elem_of_singleton in Hin. unfold shape in Hin.
              inversion Hin. congruence.
           ++ cbn [app] in Hin.
              destruct (fst (MeanReversionRule.evaluate _)); [|inversion Hin].
              apply list_elem_of_singleton in Hin. unfold shape in Hin.
              inversion Hin. congruence.
    + rewrite Forall_forall in Hty. specialize (Hty _ He).
      split; intros Hte; congruence.
  - subst k'. rewrite Hzr, Hvr, Hzt, Hvt.
    rewrite !lookup_insert_ne by exact Hne.
    split; [split; assumption|].
    intros e He Hprim. apply elem_of_app in He as [He|He].
    + exfalso.
      assert (Hin : shape e ∈ single_symbol_signals (rt w) tick).
      { rewrite <- Hsh. apply list_elem_of_fmap. exists e. auto. }
      unfold single_symbol_signals, signal_of in Hin.
      destruct (signal_callback_ (rt w)); [|inversion Hin].
      repeat (apply elem_of_app in Hin as [Hin|Hin]);
        match type of Hin with
        | _ ∈ (if ?b then _ else _) => destruct b; [|inversion Hin]
        end;
        apply list_elem_of_singleton in Hin; unfold shape in Hin;
        inversion Hin; congruence.
    + rewrite Forall_forall in Hty. specialize (Hty _ He).
      split; intros Hte; congruence.
Qed.

Lemma process_ticks_counts symbol ticks : forall w k,
  WF (rt w) ->
  0 <= zscore_count (rt w) symbol <= k ->
  0 <= volume_count (rt w) symbol <= k ->
  ok (process_ticks ticks) w
     (fun _ w' =>
        exists evs, out w' = out w ++ evs /\
          forall e, e ∈ evs -> SignalEvent.primary_symbol e = symbol ->
            (SignalEvent.event_type e = SignalEvent.Z_SCORE_BREAK ->
             10 <= k + Z.of_nat (ticks_of symbol ticks)) /\
            (SignalEvent.event_type e = SignalEvent.VOLUME_SPIKE ->
             20 <= k + Z.of_nat (ticks_of symbol ticks))).
Proof.
  induction ticks as [|tick ticks IH]; intros w k Hwf Hz Hv.
  - apply ok_ret. exists []. rewrite app_nil_r. split; [reflexivity|].
    intros e He. inversion He.
  - cbn [process_ticks]. apply ok_bind.
    destruct (process_tick_full tick w Hwf)
      as (w1 & evs_s & evs_c & Hrun & Hwf1 & Heff).
    exists tt, w1. split; [exact Hrun|].
    destruct (process_tick_counts tick w w1 evs_s evs_c symbol k Heff Hz Hv)
      as ((Hz1 & Hv1) & Hev1).
    pose proof (te_out _ _ _ _ _ Heff) as Ho1.
    unfold ticks_of. cbn [List.filter].
    destruct (String.eqb (Tick.symbol tick) symbol) eqn:Hsym.
    + eapply ok_conseq; [apply (IH w1 (k + 1) Hwf1 Hz1 Hv1)|].
      intros [] w2 (evs2 & Ho2 & Hev2).
      exists ((evs_s ++ evs_c) ++ evs2). split.
      * rewrite Ho2, Ho1, !app_assoc. reflexivity.
      * intros e He Hprim. cbn [length]. fold (ticks_of symbol ticks).
        apply elem_of_app in He as [He|He].
        -- destruct (Hev1 e He Hprim) as [H1 H2]. split; intros Hte.
           ++ specialize (H1 Hte). lia.
           ++ specialize (H2 Hte). lia.
        -- destruct (Hev2 e He Hprim) as [H1 H2]. unfold ticks_of in *.
           split; intros Hte; [specialize (H1 Hte) | specialize (H2 Hte)]; lia.
    + eapply ok_conseq; [apply (IH w1 k Hwf1 Hz1 Hv1)|].
      intros [] w2 (evs2 & Ho2 & Hev2).
      exists ((evs_s ++ evs_c) ++ evs2). split.
      * rewrite Ho2, Ho1, !app_assoc. reflexivity.
      * intros e He Hprim. fold (ticks_of symbol ticks).
        apply elem_of_app in He as [He|He].
        -- destruct (Hev1 e He Hprim) as [H1 H2]. split; intros Hte.
           ++ specialize (H1 Hte). lia.
           ++ specialize (H2 Hte). lia.
        -- exact (Hev2 e He Hprim).
Qed.

(** X21. Warm-up as the callback sees it: if the z-score and volume rules
    of a symbol are absent or hold no observation (a new symbol, or any
    symbol after [reset_stats()]), then a batch of ticks delivers a
    Z_SCORE_BREAK for that symbol only if it contains at least 10 ticks
    of the symbol, and a VOLUME_SPIKE only if it contains at least 20. *)
Theorem router_warmup (symbol : string) (ticks : list Tick.t) (w : World) :
  WF (rt w) ->
  zscore_count (rt w) symbol = 0 ->
  volume_count (rt w) symbol = 0 ->
  exists w' evs,
    process_ticks ticks w = Some (tt, w') /\
    out w' = out w ++ evs /\
    forall e, e ∈ evs -> SignalEvent.primary_symbol e = symbol ->
      (SignalEvent.event_type e = SignalEvent.Z_SCORE_BREAK ->
       (10 <= ticks_of symbol ticks)%nat) /\
      (SignalEvent.event_type e = SignalEvent.VOLUME_SPIKE ->
       (20 <= ticks_of symbol ticks)%nat).
Proof.
  intros Hwf Hz Hv.
  destruct (process_ticks_counts symbol ticks w 0 Hwf ltac:(lia) ltac:(lia))
    as ([] & w' & Hrun & evs & Ho & Hev).
  exists w', evs. split; [exact Hrun|]. split; [exact Ho|].
  intros e He Hprim. destruct (Hev e He Hprim) as [H1 H2].
  split; intros Hte; [specialize (H1 Hte) | specialize (H2 Hte)]; lia.
Qed.

Lemma router_warmup_witness :
  let w := {| rt := add_watched_pair (set_signal_callback init) "MSFT" "AAPL";
              clk := ce_clock; out := [] |} in
  let ticks := [ce_tick "AAPL" 1; ce_tick "MSFT" 2] in
  exists w' evs,
    process_ticks ticks w = Some (tt, w') /\
    out w' = out w ++ evs /\
    forall e, e ∈ evs -> SignalEvent.primary_symbol e = "AAPL" ->
      (SignalEvent.event_type e = SignalEvent.Z_SCORE_BREAK ->
       (10 <= ticks_of "AAPL" ticks)%nat) /\
      (SignalEvent.event_type e = SignalEvent.VOLUME_SPIKE ->
       (20 <= ticks_of "AAPL" ticks)%nat).
Proof.
  intros w ticks. apply (router_warmup "AAPL" ticks w).
  - apply WF_add_watched_pair, WF_init.
  - reflexivity.
  - reflexivity.
Defined.

(** *** Pair keys, [get_correlation] and [reset_stats] *)




(** X23. [reset_stats()] on a router whose watched pairs all have their
    rule keeps that property, sets [ticks_processed()] and
    [signals_generated()] to 0, empties the latency histogram, and puts
    every rule back into warm-up: every [get_correlation] is 0 and the
    z-score and volume rules of every symbol hold no observation.  The
    watched pairs, the callback, the thresholds and the latest tick of
    every symbol are kept. *)
Theorem reset_stats_effect (r : t) :
  WF r ->
  let r' := reset_stats r in
  WF r' /\
  ticks_processed r' = 0 /\ signals_generated r' = 0 /\
  LatencyHistogram.total_samples (latency_histogram r') = 0 /\
  (forall s1 s2, get_correlation r' s1 s2 = 0%R) /\
  (forall symbol, zscore_count r' symbol = 0 /\ volume_count r' symbol = 0) /\
  (forall key, is_Some (correlation_rules_ r' !! key) <->
               is_Some (correlation_rules_ r !! key)) /\
  latest_ticks_ r' = latest_ticks_ r /\
  watched_pairs_ r' = watched_pairs_ r /\
  signal_callback_ r' = signal_callback_ r /\
  zscore_threshold_ r' = zscore_threshold_ r /\
  correlation_threshold_ r' = correlation_threshold_ r /\
  volume_threshold_ r' = volume_threshold_ r.
Proof.
  intros Hwf r'.
  assert (Hdom : forall key, is_Some (correlation_rules_ r' !! key) <->
                             is_Some (correlation_rules_ r !! key)).
  { intros key. unfold r', reset_stats. cbn [correlation_rules_].
    rewrite lookup_fmap. apply fmap_is_Some. }
  split_and!; try reflexivity.
  - unfold WF in *. cbn [r' reset_stats watched_pairs_].
    eapply Forall_impl; [exact Hwf|]. intros p Hp. apply Hdom, Hp.
  - intros s1 s2. unfold get_correlation, r', reset_stats. cbn [correlation_rules_].
    rewrite lookup_fmap.
    destruct (correlation_rules_ r !! make_pair_key s1 s2) as [rule|]; [|reflexivity].
    cbn. unfold CorrelationBreakRule.correlation. cbn.
    apply RollingCovar.zero_m2_no_correlation. left. reflexivity.
  - intros symbol. unfold zscore_count, volume_count, zscore_rule_of, volume_rule_of,
      r', reset_stats. cbn [zscore_rules_ volume_rules_ zscore_threshold_
      volume_threshold_]. rewrite !lookup_fmap.
    destruct (zscore_rules_ r !! symbol); destruct (volume_rules_ r !! symbol);
      split; reflexivity.
  - exact Hdom.
Qed.

Lemma reset_stats_effect_witness :
  let r := add_watched_pair (set_signal_callback init) "MSFT" "AAPL" in
  let r' := reset_stats r in
  WF r' /\
  ticks_processed r' = 0 /\ signals_generated r' = 0 /\
  LatencyHistogram.total_samples (latency_histogram r') = 0 /\
  (forall s1 s2, get_correlation r' s1 s2 = 0%R) /\
  (forall symbol, zscore_count r' symbol = 0 /\ volume_count r' symbol = 0) /\
  (forall key, is_Some (correlation_rules_ r' !! key) <->
               is_Some (correlation_rules_ r !! key)) /\
  latest_ticks_ r' = latest_ticks_ r /\
  watched_pairs_ r' = watched_pairs_ r /\
  signal_callback_ r' = signal_callback_ r /\
  zscore_threshold_ r' = zscore_threshold_ r /\
  correlation_threshold_ r' = correlation_threshold_ r /\
  volume_threshold_ r' = volume_threshold_ r.
Proof.
  apply (reset_stats_effect (add_watched_pair (set_signal_callback init) "MSFT" "AAPL")).
  apply WF_add_watched_pair, WF_init.
Defined.

(** *** Warm-up of the pair rules at the level of the router *)

Lemma corr_fires_count (rule : CorrelationBreakRule.t) :
  CorrelationBreakRule.min_observations_ rule = 50%R ->
  fst (CorrelationBreakRule.evaluate rule) = true ->
  50 <= RollingCovar.count (CorrelationBreakRule.covar_ rule).
Proof.
  intros Hmin. unfold CorrelationBreakRule.evaluate. rewrite Hmin.
  destruct (Rltb_spec (IZR (RollingCovar.count (CorrelationBreakRule.covar_ rule))) 50)
    as [|Hge]; [discriminate|].
  intros _. apply le_IZR. lra.
Qed.

Lemma feeds_cons key p pairs symbol :
  feeds key (p :: pairs) symbol = (feeds key [p] symbol + feeds key pairs symbol)%nat.
Proof.
  unfold feeds. cbn [List.filter].
  destruct (_ && _); cbn [length]; lia.
Qed.

Lemma process_pair_corr key k current_symbol symbol1 symbol2 w :
  is_Some (correlation_rules_ (rt w) !! make_pair_key symbol1 symbol2) ->
  0 <= corr_count (rt w) key <= k ->
  corr_min_obs (rt w) key ->
  ok (process_pair current_symbol (symbol1, symbol2)) w
     (fun _ w' =>
        exists evs, Acct w w' evs /\
          (let k' := k + Z.of_nat (feeds key [(symbol1, symbol2)] current_symbol) in
           0 <= corr_count (rt w') key <= k' /\
           forall e, e ∈ evs ->
             make_pair_key (SignalEvent.primary_symbol e)
                           (SignalEvent.secondary_symbol e) = key ->
             50 <= k') /\
          corr_min_obs (rt w') key /\
          (forall K, is_Some (correlation_rules_ (rt w) !! K) ->
                     is_Some (correlation_rules_ (rt w') !! K))).
Proof.
  intros [rule Hrule] Hk Hmin. unfold process_pair.
  assert (Hskip : ok (ret tt) w
     (fun _ w' =>
        exists evs, Acct w w' evs /\
          (let k' := k + Z.of_nat (feeds key [(symbol1, symbol2)] current_symbol) in
           0 <= corr_count (rt w') key <= k' /\
           forall e, e ∈ evs ->
             make_pair_key (SignalEvent.primary_symbol e)
                           (SignalEvent.secondary_symbol e) = key ->
             50 <= k') /\
          corr_min_obs (rt w') key /\
          (forall K, is_Some (correlation_rules_ (rt w) !! K) ->
                     is_Some (correlation_rules_ (rt w') !! K)))).
  { apply ok_ret. exists []. split; [apply Acct_refl|]. cbn zeta.
    split_and!; try assumption; try lia; [|auto].
    intros e He. inversion He. }
  destruct (negb (String.eqb symbol1 current_symbol)
            && negb (String.eqb symbol2 current_symbol)) eqn:Hinv; [exact Hskip|].
  apply ok_bind, ok_get.
  destruct (latest_ticks_ (rt w) !! symbol1) as [tick1|]; [|exact Hskip].
  destruct (latest_ticks_ (rt w) !! symbol2) as [tick2|]; [|exact Hskip].
  eapply ok_bind, ok_deref; [exact Hrule|].
  apply ok_bind, ok_modify.
  set (rule' := CorrelationBreakRule.add_pair rule (Tick.last_price tick1)
                  (Tick.last_price tick2)).
  match goal with |- ok _ ?x _ => set (w0 := x) end.
  assert (Ha0 : Acct w w0 []) by (apply Acct_rules; reflexivity).
  assert (Hinvolved : String.eqb symbol1 current_symbol
                      || String.eqb symbol2 current_symbol = true).
  { destruct (String.eqb symbol1 current_symbol);
      destruct (String.eqb symbol2 current_symbol); cbn in *; congruence. }
  assert (Hfeeds : feeds key [(symbol1, symbol2)] current_symbol =
                   if String.eqb (make_pair_key symbol1 symbol2) key then 1%nat
                   else 0%nat).
  { unfold feeds. cbn [List.filter fst snd]. rewrite Hinvolved.
    destruct (String.eqb (make_pair_key symbol1 symbol2) key); reflexivity. }
  assert (Hcount : 0 <= corr_count (rt w0) key
                   <= k + Z.of_nat (feeds key [(symbol1, symbol2)] current_symbol)).
  { rewrite Hfeeds. unfold corr_count in *. subst w0. cbn [rt correlation_rules_
      with_correlation_rules].
    destruct (String.eqb_spec (make_pair_key symbol1 symbol2) key) as [Heq|Hne].
    - rewrite <- Heq in *. rewrite lookup_insert_eq. rewrite Hrule in Hk.
      unfold rule'. cbn. unfold RollingCovar.count in *.
      pose proof (wrap_succ_le (RollingCovar.count_ (CorrelationBreakRule.covar_ rule))).
      lia.
    - rewrite lookup_insert_ne by exact Hne. lia. }
  assert (Hmin0 : corr_min_obs (rt w0) key).
  { unfold corr_min_obs in *. subst w0. cbn [rt correlation_rules_
      with_correlation_rules]. intros r0 Hr0.
    destruct (decide (make_pair_key symbol1 symbol2 = key)) as [Heq|Hne].
    - rewrite <- Heq in *. rewrite lookup_insert_eq in Hr0. inversion Hr0; subst r0.
      unfold rule'. cbn. apply Hmin, Hrule.
    - rewrite lookup_insert_ne in Hr0 by exact Hne. apply Hmin, Hr0. }
  assert (Hdom0 : forall K, is_Some (correlation_rules_ (rt w) !! K) ->
                            is_Some (correlation_rules_ (rt w0) !! K)).
  { intros K HK. subst w0. cbn [rt correlation_rules_ with_correlation_rules].
    destruct (decide (make_pair_key symbol1 symbol2 = K)) as [->|Hne].
    - rewrite lookup_insert_eq. eauto.
    - rewrite lookup_insert_ne by exact Hne. exact HK. }
  destruct (CorrelationBreakRule.evaluate rule') as [fires strength] eqn:Hev.
  apply ok_when; intros ->.
  - eapply ok_conseq; [apply emit_signal_acct|].
    intros [] w1 (evs & Ha1 & [c1 Hrt1] & Hsh). exists evs.
    split; [exact (Acct_trans _ _ _ _ _ Ha0 Ha1)|].
    assert (Hcr : correlation_rules_ (rt w1) = correlation_rules_ (rt w0)).
    { rewrite Hrt1. reflexivity. }
    unfold corr_count, corr_min_obs in *. rewrite Hcr.
    split_and!; try assumption; try lia.
    intros e He Hkey.
    assert (Hin : shape e ∈ map shape evs) by (apply list_elem_of_fmap; eauto).
    rewrite Hsh in Hin.
    destruct (signal_callback_ (rt w0)); [|inversion Hin].
    apply list_elem_of_singleton in Hin. unfold shape in Hin.
    injection Hin as _ H1 H2 _ _.
    rewrite H1, H2 in Hkey. rewrite Hfeeds in Hcount |- *. revert Hcount.
    destruct (String.eqb_spec (make_pair_key symbol1 symbol2) key) as [Heq|Hne];
      [|congruence].
    intros Hcount.
    assert (Hfire : fst (CorrelationBreakRule.evaluate rule') = true)
      by (rewrite Hev; reflexivity).
    apply corr_fires_count in Hfire.
    + subst w0. cbn [rt correlation_rules_ with_correlation_rules] in Hcount.
      rewrite <- Heq, lookup_insert_eq in Hcount. lia.
    + unfold rule'. cbn. apply Hmin. rewrite <- Heq. exact Hrule.
  - exists []. split; [exact Ha0|]. split_and!; try assumption; try lia.
    intros e He. inversion He.
Qed.

Lemma for_each_pair_corr key current_symbol pairs : forall w k,
  Forall (fun p => is_Some (correlation_rules_ (rt w) !! make_pair_key (fst p) (snd p)))
         pairs ->
  0 <= corr_count (rt w) key <= k ->
  corr_min_obs (rt w) key ->
  ok (for_each_pair current_symbol pairs) w
     (fun _ w' =>
        exists evs, Acct w w' evs /\
          (let k' := k + Z.of_nat (feeds key pairs current_symbol) in
           0 <= corr_count (rt w') key <= k' /\
           forall e, e ∈ evs ->
             make_pair_key (SignalEvent.primary_symbol e)
                           (SignalEvent.secondary_symbol e) = key ->
             50 <= k') /\
          corr_min_obs (rt w') key).
Proof.
  induction pairs as [|[symbol1 symbol2] pairs IH]; intros w k Hall Hk Hmin.
  - apply ok_ret. exists []. split; [apply Acct_refl|]. cbn zeta.
    unfold feeds. cbn. split_and!; try assumption; try lia.
    intros e He. inversion He.
  - inversion Hall as [|? ? Hrule Hrest]; subst. cbn [fst snd] in *.
    cbn [for_each_pair]. apply ok_bind.
    eapply ok_conseq; [apply (process_pair_corr key k); eassumption|].
    intros [] w1 (evs1 & Ha1 & (Hk1 & Hev1) & Hmin1 & Hdom1).
    eapply ok_conseq;
      [apply (IH w1 (k + Z.of_nat (feeds key [(symbol1, symbol2)] current_symbol)))|].
    + eapply Forall_impl; [exact Hrest|]. intros p Hp. apply Hdom1, Hp.
    + exact Hk1.
    + exact Hmin1.
    + intros [] w2 (evs2 & Ha2 & (Hk2 & Hev2) & Hmin2).
      exists (evs1 ++ evs2). split; [exact (Acct_trans _ _ _ _ _ Ha1 Ha2)|].
      rewrite feeds_cons. cbn zeta in *.
      split_and!; try assumption; try lia.
      intros e He Hkey. apply elem_of_app in He as [He|He].
      * specialize (Hev1 e He Hkey). lia.
      * specialize (Hev2 e He Hkey). lia.
Qed.

Lemma single_symbol_not_pair symbol (rz rv rm : bool * R) e :
  shape e ∈ signal_of SignalEvent.Z_SCORE_BREAK symbol (95 / 100) rz
            ++ signal_of SignalEvent.VOLUME_SPIKE symbol (90 / 100) rv
            ++ signal_of SignalEvent.PAIR_TRADE_ENTRY symbol (85 / 100) rm ->
  SignalEvent.event_type e <> SignalEvent.CORRELATION_BREAK.
Proof.
  unfold signal_of. intros Hin.
  repeat (apply elem_of_app in Hin as [Hin|Hin]);
    match type of Hin with
    | _ ∈ (if ?b then _ else _) => destruct b; [|inversion Hin]
    end;
    apply list_elem_of_singleton in Hin; unfold shape in Hin;
    injection Hin as Hty _ _ _ _; congruence.
Qed.

Lemma process_tick_corr key k tick w :
  WF (rt w) ->
  0 <= corr_count (rt w) key <= k ->
  corr_min_obs (rt w) key ->
  ok (process_tick tick) w
     (fun _ w' =>
        exists evs, out w' = out w ++ evs /\
          (let k' := k + Z.of_nat (feeds key (watched_pairs_ (rt w)) (Tick.symbol tick)) in
           0 <= corr_count (rt w') key <= k' /\
           forall e, e ∈ evs ->
             SignalEvent.event_type e = SignalEvent.CORRELATION_BREAK ->
             make_pair_key (SignalEvent.primary_symbol e)
                           (SignalEvent.secondary_symbol e) = key ->
             50 <= k') /\
          corr_min_obs (rt w') key).
Proof.
  intros Hwf Hk Hmin. unfold process_tick.
  apply ok_bind, ok_now. apply ok_bind, ok_modify.
  match goal with |- ok _ ?x _ => set (w1 := x) end.
  apply ok_bind. eapply ok_conseq; [apply ensure_rules_exist_acct|].
  intros [] w2 (Ha2 & Hz2 & Hv2 & Hm2 & Hc2).
  apply ok_bind.
  eapply ok_conseq;
    [apply (process_single_symbol_signals_acct tick w2
              (zscore_rule_of (rt w1) (Tick.symbol tick))
              (volume_rule_of (rt w1) (Tick.symbol tick))
              (mean_reversion_rule_of (rt w1) (Tick.symbol tick)));
     rewrite ?Hz2, ?Hv2, ?Hm2; apply lookup_insert_eq|].
  intros [] w3 (evs_s & Ha3 & Hz3 & Hv3 & Hm3 & Hc3 & Hsh3).
  pose proof (Acct_trans _ _ _ _ _ Ha2 Ha3) as Ha13. cbn [app] in Ha13.
  assert (Hcr3 : correlation_rules_ (rt w3) = correlation_rules_ (rt w)).
  { rewrite Hc3, Hc2. reflexivity. }
  apply ok_bind. unfold process_cross_symbol_signals.
  apply ok_bind, ok_get.
  eapply ok_conseq; [apply (for_each_pair_corr key _ _ w3 k)|].
  { rewrite (ac_pairs _ _ _ Ha13). subst w1. cbn [rt watched_pairs_ with_latest_ticks].
    unfold WF in Hwf. eapply Forall_impl; [exact Hwf|].
    intros p Hp. rewrite Hcr3. exact Hp. }
  { unfold corr_count in *. rewrite Hcr3. exact Hk. }
  { unfold corr_min_obs in *. rewrite Hcr3. exact Hmin. }
  intros [] w4 (evs_c & Ha4 & (Hk4 & Hev4) & Hmin4).
  rewrite (ac_pairs _ _ _ Ha13) in Hk4, Hev4.
  pose proof (Acct_trans _ _ _ _ _ Ha13 Ha4) as Ha14.
  pose proof (ac_out _ _ _ Ha14) as Ho.
  subst w1. cbn [rt clk out watched_pairs_ with_latest_ticks] in *.
  apply ok_bind.
  destruct (LatencyHistogram.add_sample (clk w4) (latency_hist_ (rt w4))
              (Tick.timestamp tick) (Clock.readings (clk w) (Clock.pos (clk w))))
    as [h c] eqn:Hadd.
  eexists tt, _. split; [rewrite Hadd; reflexivity|].
  apply ok_modify. cbn [rt clk out].
  exists (evs_s ++ evs_c). split; [exact Ho|].
  unfold corr_count, corr_min_obs in *. cbn [correlation_rules_ with_ticks_processed
    with_latency_hist].
  split_and!; try assumption; try lia; try apply Hk4.
  intros e He Hty Hkey. apply elem_of_app in He as [He|He].
  - exfalso.
    assert (Hin : shape e ∈ map shape evs_s) by (apply list_elem_of_fmap; eauto).
    rewrite Hsh3 in Hin.
    destruct (signal_callback_ (rt w2)); [|inversion Hin].
    exact (single_symbol_not_pair _ _ _ _ _ Hin Hty).
  - exact (Hev4 e He Hkey).
Qed.

Lemma process_ticks_corr key ticks : forall w k,
  WF (rt w) ->
  0 <= corr_count (rt w) key <= k ->
  corr_min_obs (rt w) key ->
  ok (process_ticks ticks) w
     (fun _ w' =>
        exists evs, out w' = out w ++ evs /\
          forall e, e ∈ evs ->
            SignalEvent.event_type e = SignalEvent.CORRELATION_BREAK ->
            make_pair_key (SignalEvent.primary_symbol e)
                          (SignalEvent.secondary_symbol e) = key ->
            50 <= k + Z.of_nat (batch_feeds key (watched_pairs_ (rt w)) ticks)).
Proof.
  induction ticks as [|tick ticks IH]; intros w k Hwf Hk Hmin.
  - apply ok_ret. exists []. rewrite app_nil_r. split; [reflexivity|].
    intros e He. inversion He.
  - cbn [process_ticks batch_feeds]. apply ok_bind.
    eapply ok_conseq;
      [apply (ok_and _ _ _ _ (process_tick_ok tick w Hwf)
                (process_tick_corr key k tick w Hwf Hk Hmin))|].
    intros [] w1 ((Hwf1 & Hp1 & _) & evs1 & Ho1 & (Hk1 & Hev1) & Hmin1).
    eapply ok_conseq; [apply (IH w1 _ Hwf1 Hk1 Hmin1)|].
    intros [] w2 (evs2 & Ho2 & Hev2).
    exists (evs1 ++ evs2). split.
    + rewrite Ho2, Ho1, app_assoc. reflexivity.
    + intros e He Hty Hkey. rewrite Hp1 in Hev2.
      apply elem_of_app in He as [He|He].
      * specialize (Hev1 e He Hty Hkey). lia.
      * specialize (Hev2 e He Hty Hkey). lia.
Qed.

(** X30. Warm-up of a pair as the callback sees it: if the rule under a
    pair key holds no observation and requires 50 (as every rule
    [add_watched_pair] installs does), then a batch of ticks delivers a
    CORRELATION_BREAK for a pair with that key only if the batch feeds
    the rule at least 50 times, where a tick feeds it once for every
    watched pair with that key that involves the tick's symbol. *)
Theorem router_pair_warmup (key : string) (ticks : list Tick.t) (w : World) :
  WF (rt w) ->
  corr_count (rt w) key = 0 ->
  corr_min_obs (rt w) key ->
  exists w' evs,
    process_ticks ticks w = Some (tt, w') /\
    out w' = out w ++ evs /\
    forall e, e ∈ evs ->
      SignalEvent.event_type e = SignalEvent.CORRELATION_BREAK ->
      make_pair_key (SignalEvent.primary_symbol e)
                    (SignalEvent.secondary_symbol e) = key ->
      (50 <= batch_feeds key (watched_pairs_ (rt w)) ticks)%nat.
Proof.
  intros Hwf Hc Hmin.
  destruct (process_ticks_corr key ticks w 0 Hwf ltac:(lia) Hmin)
    as ([] & w' & Hrun & evs & Ho & Hev).
  exists w', evs. split; [exact Hrun|]. split; [exact Ho|].
  intros e He Hty Hkey. specialize (Hev e He Hty Hkey). lia.
Qed.

Lemma router_pair_warmup_witness :
  let w := {| rt := add_watched_pair (set_signal_callback init) "MSFT" "AAPL";
              clk := ce_clock; out := [] |} in
  let ticks := [ce_tick "AAPL" 1; ce_tick "MSFT" 2] in
  exists w' evs,
    process_ticks ticks w = Some (tt, w') /\
    out w' = out w ++ evs /\
    forall e, e ∈ evs ->
      SignalEvent.event_type e = SignalEvent.CORRELATION_BREAK ->
      make_pair_key (SignalEvent.primary_symbol e)
                    (SignalEvent.secondary_symbol e) = "AAPL|MSFT" ->
      (50 <= batch_feeds "AAPL|MSFT" (watched_pairs_ (rt w)) ticks)%nat.
Proof.
  intros w ticks. apply (router_pair_warmup "AAPL|MSFT" ticks w).
  - apply WF_add_watched_pair, WF_init.
  - reflexivity.
  - intros rule Hrule. unfold w, add_watched_pair in Hrule. cbn in Hrule.
    rewrite ce_key, lookup_insert_eq in Hrule. inversion Hrule. reflexivity.
Defined.

End Router.

(** ** Feed simulator ([include/md/feed_sim.hpp])

    The random engine is an oracle: every call of a distribution returns
    the next value of a stream of reals, whatever the distribution.
    Prices are exact reals.  An index outside a vector is undefined
    ([None]). *)

Module FeedSimulator.
#[local] Open Scope R_scope.

Inductive PriceModel :=
  | GEOMETRIC_BROWNIAN_MOTION
  | ORNSTEIN_UHLENBECK
  | JUMP_DIFFUSION
  | MICROSTRUCTURE_NOISE.

Record SymbolConfig := mkConfig {
  symbol : string;
  initial_price : R;
  volatility : R;
  drift : R;
  mean_reversion : R;
  jump_intensity : R;
  jump_mean : R;
  jump_std : R;
  bid_ask_spread : R;
  tick_size : R
}.


Record Rng := mkRng {
  draws : nat -> R;
  rpos : nat
}.


Record t := mk {
  symbols_ : list SymbolConfig;
  current_prices_ : list R;
  sequence_ids_ : list Z;
  rng_ : Rng;
  model_ : PriceModel;
  time_step_ms_ : R;
  global_sequence_ : Z;
  ticks_generated_ : Z;
  ticks_dropped_ : Z
}.

Definition new (symbols : list SymbolConfig) (model : PriceModel)
    (tick_interval_ms : R) (seed : Rng) : t :=
  {| symbols_ := symbols;
     current_prices_ := map initial_price symbols;
     sequence_ids_ := replicate (length symbols) 0%Z;
     rng_ := seed;
     model_ := model;
     time_step_ms_ := tick_interval_ms;
     global_sequence_ := 0;
     ticks_generated_ := 0;
     ticks_dropped_ := 0 |}.








Section Queue.

Variable N : Z.



End Queue.

Definition ticks_generated (s : t) : Z := ticks_generated_ s.
Definition ticks_dropped (s : t) : Z := ticks_dropped_ s.

Definition drop_rate (s : t) : Q :=
  let generated := ticks_generated s in
  let dropped := ticks_dropped s in
  if (0 <? generated)%Z then (inject_Z dropped / inject_Z generated)%Q else 0%Q.

Definition symbols (s : t) : list SymbolConfig := symbols_ s.

Definition reset_stats (s : t) : t :=
  {| symbols_ := symbols_ s;
     current_prices_ := current_prices_ s;
     sequence_ids_ := sequence_ids_ s;
     rng_ := rng_ s;
     model_ := model_ s;
     time_step_ms_ := time_step_ms_ s;
     global_sequence_ := global_sequence_ s;
     ticks_generated_ := 0;
     ticks_dropped_ := 0 |}.




(** *** Rounding *)












(** *** One round of [generate_ticks] *)

Definition count_pushes (oks : list bool) (flag : bool) (c : Z) : Z :=
  fold_left (fun c ok => if Bool.eqb ok flag then wrap (c + 1) else c) oks c.



Lemma count_pushes_range (oks : list bool) (flag : bool) : forall c,
  (0 <= c < U64)%Z -> (0 <= count_pushes oks flag c < U64)%Z.
Proof.
  unfold count_pushes. induction oks as [|ok oks IH]; intros c Hc; [exact Hc|].
  cbn [fold_left]. apply IH. destruct (Bool.eqb ok flag); [apply wrap_range | exact Hc].
Qed.

Section Round.

Variable N : Z.


Hypothesis N_pow2 : Z.land N (N - 1) = 0%Z.
Hypothesis N_ge_2 : (2 <= N)%Z.
Hypothesis N_size_t : (N < U64)%Z.


End Round.


End FeedSimulator.
